(** * Verification of the byte-code to libgccjit translator (src/comp.c)

    The development embeds the translator of [comp.c] in Rocq: the calls
    it makes to libgccjit are recorded, in order, in a recording context;
    the global [comp] structure and the locals of [compile_f] are
    threaded explicitly.  A small evaluator gives the emitted
    intermediate representation its meaning on an LP64 little-endian
    target, so that what the emitted code computes can be stated. *)

From Stdlib Require Import Sorted.
From stdpp Require Import base numbers option list strings pretty.
Local Open Scope Z_scope.
#[local] Set Warnings "-register-all".

(** ** Results of the translator

    [error (...)] leaves the translator by a non-local exit; an access
    outside an array is undefined behaviour in C and is kept apart. *)

Inductive result (A : Type) : Type :=
| Ok (a : A)
| Error (msg : string)
| Undefined (what : string).
Arguments Ok {A} a.
Arguments Error {A} msg.
Arguments Undefined {A} what.

Definition is_Error {A} (r : result A) : Prop :=
  match r with Error _ => True | _ => False end.

(** Reading a C array through a pointer: index [i] of [l]. *)
Definition array_get {A} (what : string) (l : list A) (i : Z) : result A :=
  if bool_decide (i < 0) then Undefined what
  else match l !! Z.to_nat i with
       | Some x => Ok x
       | None => Undefined what
       end.

Definition array_set {A} (what : string) (l : list A) (i : Z) (x : A) : result (list A) :=
  if bool_decide (0 <= i < Z.of_nat (length l)) then Ok (<[Z.to_nat i := x]> l)
  else Undefined what.

(** ** Lisp objects, as the translator inspects them at compile time *)

Inductive Lisp_Type :=
| Lisp_Symbol | Lisp_Type_Unused0 | Lisp_Int0 | Lisp_Int1
| Lisp_String | Lisp_Vectorlike | Lisp_Cons | Lisp_Float.

Global Instance Lisp_Type_eq_dec : EqDecision Lisp_Type.
Proof. solve_decision. Defined.

(** [struct Lisp_Subr]: the C entry point is kept by name. *)
Record Lisp_Subr := {
  function_a0 : string;
  min_args : Z;
  max_args : Z;
  symbol_name : string
}.

Inductive Lisp_Object :=
| Qnil
| Lisp_symbol (name : string) (function : Lisp_Object)
| Lisp_fixnum (n : Z)
| Lisp_string (multibyte : bool) (data : list Z)
| Lisp_subr (s : Lisp_Subr)
| Lisp_vector (contents : list Lisp_Object)
| Lisp_compiled (contents : list Lisp_Object)
| Lisp_cons (car cdr : Lisp_Object)
| Lisp_float.

Definition XTYPE (o : Lisp_Object) : Lisp_Type :=
  match o with
  | Qnil | Lisp_symbol _ _ => Lisp_Symbol
  | Lisp_fixnum n => if Z.even n then Lisp_Int0 else Lisp_Int1
  | Lisp_string _ _ => Lisp_String
  | Lisp_subr _ | Lisp_vector _ | Lisp_compiled _ => Lisp_Vectorlike
  | Lisp_cons _ _ => Lisp_Cons
  | Lisp_float => Lisp_Float
  end.

Definition SYMBOLP (o : Lisp_Object) : bool := bool_decide (XTYPE o = Lisp_Symbol).
Definition FIXNUMP (o : Lisp_Object) : bool :=
  match o with Lisp_fixnum _ => true | _ => false end.
Definition CONSP (o : Lisp_Object) : bool :=
  match o with Lisp_cons _ _ => true | _ => false end.
Definition SUBRP (o : Lisp_Object) : bool :=
  match o with Lisp_subr _ => true | _ => false end.

Definition SYMBOL_NAME (o : Lisp_Object) : string :=
  match o with
  | Lisp_symbol name _ => name
  | _ => "nil"
  end.

(** [XSYMBOL (o)->u.s.function] *)
Definition symbol_function (o : Lisp_Object) : Lisp_Object :=
  match o with
  | Lisp_symbol _ f => f
  | _ => Qnil
  end.

(** C strings end at the first NUL; [strcmp] compares up to there. *)
Fixpoint c_str (s : string) : string :=
  match s with
  | EmptyString => EmptyString
  | String c s' => if Ascii.eqb c Ascii.zero then EmptyString else String c (c_str s')
  end.

Definition strcmp_eq (a b : string) : bool := bool_decide (c_str a = c_str b).

(** A pointer handed to [gcc_jit_context_new_rvalue_from_ptr]. *)
Inductive c_ptr :=
| ptr_obj (o : Lisp_Object)
| ptr_fun (name : string)
| ptr_var (name : string).

(** ** The byte codes: the names of [bytecode.h] that the translator uses *)

Inductive bytecode :=
| Bstack_ref | Bstack_ref1 | Bstack_ref2 | Bstack_ref3 | Bstack_ref4 | Bstack_ref5
| Bstack_ref6 | Bstack_ref7
| Bvarref | Bvarref1 | Bvarref2 | Bvarref3 | Bvarref4 | Bvarref5 | Bvarref6 | Bvarref7
| Bvarset | Bvarset1 | Bvarset2 | Bvarset3 | Bvarset4 | Bvarset5 | Bvarset6 | Bvarset7
| Bvarbind | Bvarbind1 | Bvarbind2 | Bvarbind3 | Bvarbind4 | Bvarbind5 | Bvarbind6 | Bvarbind7
| Bcall | Bcall1 | Bcall2 | Bcall3 | Bcall4 | Bcall5 | Bcall6 | Bcall7
| Bunbind | Bunbind1 | Bunbind2 | Bunbind3 | Bunbind4 | Bunbind5 | Bunbind6 | Bunbind7
| Bpophandler | Bpushconditioncase | Bpushcatch
| Bnth | Bsymbolp | Bconsp | Bstringp | Blistp | Beq | Bmemq | Bnot | Bcar | Bcdr | Bcons
| Blist1 | Blist2 | Blist3 | Blist4 | Blength | Baref | Baset | Bsymbol_value
| Bsymbol_function | Bset | Bfset | Bget | Bsubstring | Bconcat2 | Bconcat3 | Bconcat4
| Bsub1 | Badd1 | Beqlsign | Bgtr | Blss | Bleq | Bgeq | Bdiff | Bnegate | Bplus | Bmax
| Bmin | Bmult | Bpoint | Bsave_current_buffer | Bgoto_char | Binsert | Bpoint_max
| Bpoint_min | Bchar_after | Bfollowing_char | Bpreceding_char | Bcurrent_column
| Bindent_to | Beolp | Beobp | Bbolp | Bbobp | Bcurrent_buffer | Bset_buffer
| Bsave_current_buffer_1 | Binteractive_p | Bforward_char | Bforward_word
| Bskip_chars_forward | Bskip_chars_backward | Bforward_line | Bchar_syntax
| Bbuffer_substring | Bdelete_region | Bnarrow_to_region | Bwiden | Bend_of_line
| Bconstant2 | Bgoto | Bgotoifnil | Bgotoifnonnil | Bgotoifnilelsepop
| Bgotoifnonnilelsepop | Breturn | Bdiscard | Bdup | Bsave_excursion
| Bsave_window_excursion | Bsave_restriction | Bcatch | Bunwind_protect
| Bcondition_case | Btemp_output_buffer_setup | Btemp_output_buffer_show | Bunbind_all
| Bset_marker | Bmatch_beginning | Bmatch_end | Bupcase | Bdowncase | Bstringeqlsign
| Bstringlss | Bequal | Bnthcdr | Belt | Bmember | Bassq | Bsetcar | Bsetcdr
| Bcar_safe | Bcdr_safe | Bnconc | Bquo | Brem | Bnumberp | Bintegerp
| BRgoto | BRgotoifnil | BRgotoifnonnil | BRgotoifnilelsepop | BRgotoifnonnilelsepop
| BlistN | BconcatN | BinsertN | Bstack_set | Bstack_set2 | BdiscardN | Bswitch
| Bconstant.

(** ** What [comp.c] takes from headers that are not part of this file

    [lisp.h], [bytecode.h], [puresize.h], [buffer.h], [config.h] and the
    target of libgccjit fix these; the translator is modelled for any
    value of them. *)

Inductive gcc_jit_types :=
| GCC_JIT_TYPE_VOID | GCC_JIT_TYPE_VOID_PTR | GCC_JIT_TYPE_BOOL | GCC_JIT_TYPE_CHAR
| GCC_JIT_TYPE_INT | GCC_JIT_TYPE_UNSIGNED_INT | GCC_JIT_TYPE_LONG
| GCC_JIT_TYPE_UNSIGNED_LONG | GCC_JIT_TYPE_LONG_LONG | GCC_JIT_TYPE_UNSIGNED_LONG_LONG.

Global Instance gcc_jit_types_eq_dec : EqDecision gcc_jit_types.
Proof. solve_decision. Defined.

Inductive gcc_jit_type :=
| Tbasic (k : gcc_jit_types)
| Tpointer (t : gcc_jit_type)
| Tarray (t : gcc_jit_type) (n : Z)
| Tstruct (name : string)
| Tunion (name : string)
| Tfunction_ptr (ret : gcc_jit_type) (params : list gcc_jit_type).

Fixpoint type_eqb (a b : gcc_jit_type) : bool :=
  match a, b with
  | Tbasic k, Tbasic k' => bool_decide (k = k')
  | Tpointer t, Tpointer t' => type_eqb t t'
  | Tarray t n, Tarray t' n' => type_eqb t t' && bool_decide (n = n')
  | Tstruct s, Tstruct s' => bool_decide (s = s')
  | Tunion s, Tunion s' => bool_decide (s = s')
  | Tfunction_ptr r ps, Tfunction_ptr r' ps' =>
      type_eqb r r' &&
      (fix go (l l' : list gcc_jit_type) : bool :=
         match l, l' with
         | [], [] => true
         | x :: l, y :: l' => type_eqb x y && go l l'
         | _, _ => false
         end) ps ps'
  | _, _ => false
  end.

Record headers := {
  (* bytecode.h *)
  byte_of : bytecode -> Z;
  (* lisp.h *)
  USE_LSB_TAG : bool;
  GCTYPEBITS : Z;
  INTTYPEBITS : Z;
  VALBITS : Z;
  FIXNUM_BITS : Z;
  Lisp_Type_val : Lisp_Type -> Z;
  MOST_POSITIVE_FIXNUM : Z;
  MOST_NEGATIVE_FIXNUM : Z;
  EMACS_INT_MAX_le_LONG_MAX : bool;
  PVEC_BIGNUM : Z;
  MANY : Z;
  SUBR_MAX_ARGS : Z;
  SET_INTERNAL_SET : Z;
  ARITH_EQUAL : Z;
  ARITH_GRTR : Z;
  ARITH_LESS : Z;
  ARITH_LESS_OR_EQUAL : Z;
  ARITH_GRTR_OR_EQUAL : Z;
  CATCHER : Z;
  CONDITION_CASE : Z;
  COMPILED_ARGLIST : Z;
  COMPILED_BYTECODE : Z;
  COMPILED_CONSTANTS : Z;
  COMPILED_STACK_DEPTH : Z;
  sizeof_Lisp_Cons : Z;
  sizeof_jmp_buf : Z;
  sizeof_handler : Z;
  offsetof_handler_val : Z;
  offsetof_handler_next : Z;
  sizeof_handler_next : Z;
  offsetof_handler_jmp : Z;
  sizeof_handler_jmp : Z;
  sizeof_thread_state : Z;
  offsetof_m_handlerlist : Z;
  sizeof_m_handlerlist : Z;
  (* puresize.h *)
  PURESIZE : Z;
  (* config.h *)
  HAVE__SETJMP : bool;
  (* buffer.h: the current buffer when the translator runs *)
  PT : Z;
  ZV : Z;
  BEGV : Z;
  (* the host: the function cell of the symbol that intern finds for a
     name, Fstring_as_unibyte, and whether SYMBOLP holds of the address
     of a function or of a variable of the host, which is so when the
     address has the tag bits of a symbol *)
  function_cell : string -> Lisp_Object;
  Fstring_as_unibyte : Lisp_Object -> Lisp_Object;
  address_SYMBOLP : c_ptr -> bool;
  (* libgccjit: gcc_jit_context_get_int_type at sizeof (EMACS_INT)
     signed, and at sizeof (void * ) signed and unsigned *)
  emacs_int_type : gcc_jit_type;
  ptrdiff_type : gcc_jit_type;
  uintptr_type : gcc_jit_type
}.

(** ** The objects of libgccjit that the translator builds *)

Record gcc_jit_field := { field_type : gcc_jit_type; field_name : string }.

Record gcc_jit_param := { param_id : nat; param_type : gcc_jit_type; param_name : string }.

Inductive gcc_jit_function_kind :=
| GCC_JIT_FUNCTION_EXPORTED | GCC_JIT_FUNCTION_IMPORTED | GCC_JIT_FUNCTION_ALWAYS_INLINE.

Record gcc_jit_function := {
  function_id : nat;
  function_kind : gcc_jit_function_kind;
  function_ret : gcc_jit_type;
  function_name : string;
  function_params : list gcc_jit_param
}.

Record gcc_jit_block := { block_id : nat; block_function : nat; block_name : string }.

Inductive gcc_jit_binary_op :=
| GCC_JIT_BINARY_OP_PLUS | GCC_JIT_BINARY_OP_MINUS | GCC_JIT_BINARY_OP_BITWISE_AND
| GCC_JIT_BINARY_OP_LOGICAL_AND | GCC_JIT_BINARY_OP_LOGICAL_OR
| GCC_JIT_BINARY_OP_LSHIFT | GCC_JIT_BINARY_OP_RSHIFT.

Inductive gcc_jit_unary_op :=
| GCC_JIT_UNARY_OP_MINUS | GCC_JIT_UNARY_OP_LOGICAL_NEGATE.

Inductive gcc_jit_comparison :=
| GCC_JIT_COMPARISON_EQ | GCC_JIT_COMPARISON_NE | GCC_JIT_COMPARISON_LE.

Inductive gcc_jit_lvalue :=
| Local (id : nat) (ty : gcc_jit_type) (name : string)
| Array_access (ptr : gcc_jit_rvalue) (index : gcc_jit_rvalue)
| Lvalue_access_field (l : gcc_jit_lvalue) (f : gcc_jit_field)
| Dereference_field (r : gcc_jit_rvalue) (f : gcc_jit_field)
| Dereference (r : gcc_jit_rvalue)
with gcc_jit_rvalue :=
| Rvalue_from_int (ty : gcc_jit_type) (v : Z)
| Rvalue_from_ptr (ty : gcc_jit_type) (p : c_ptr)
| Lvalue_as_rvalue (l : gcc_jit_lvalue)
| Param_as_rvalue (p : gcc_jit_param)
| Binary_op (op : gcc_jit_binary_op) (ty : gcc_jit_type) (a b : gcc_jit_rvalue)
| Unary_op (op : gcc_jit_unary_op) (ty : gcc_jit_type) (a : gcc_jit_rvalue)
| Comparison (op : gcc_jit_comparison) (a b : gcc_jit_rvalue)
| Call (f : gcc_jit_function) (args : list gcc_jit_rvalue)
| Call_through_ptr (fn_ptr : gcc_jit_rvalue) (args : list gcc_jit_rvalue)
| Rvalue_access_field (r : gcc_jit_rvalue) (f : gcc_jit_field)
| Get_address (l : gcc_jit_lvalue).

(** One entry per call to libgccjit that changes the context. *)
Inductive gcc_jit_record :=
| set_logfile (name : string)
| set_bool_option (name : string) (v : bool)
| set_int_option (name : string) (v : Z)
| add_command_line_option (opt : string)
| new_opaque_struct (name : string)
| new_struct_type (name : string) (fields : list gcc_jit_field)
| new_union_type (name : string) (fields : list gcc_jit_field)
| struct_set_fields (name : string) (fields : list gcc_jit_field)
| new_function (f : gcc_jit_function)
| function_new_local (f : gcc_jit_function) (l : gcc_jit_lvalue)
| function_new_block (f : gcc_jit_function) (b : gcc_jit_block)
| block_add_comment (b : gcc_jit_block) (text : string)
| block_add_assignment (b : gcc_jit_block) (l : gcc_jit_lvalue) (r : gcc_jit_rvalue)
| block_add_eval (b : gcc_jit_block) (r : gcc_jit_rvalue)
| block_end_with_conditional (b : gcc_jit_block) (test : gcc_jit_rvalue)
    (on_true on_false : gcc_jit_block)
| block_end_with_jump (b target : gcc_jit_block)
| block_end_with_return (b : gcc_jit_block) (r : gcc_jit_rvalue)
| block_end_with_void_return (b : gcc_jit_block)
| context_compile
| context_compile_to_file (path : string)
| context_dump_to_file (path : string)
| context_release.

(** ** The state of the translator *)

(** Element of the meta stack; [type] is [None] for the C value -1. *)
Record stack_el_t := {
  gcc_lval : gcc_jit_lvalue;
  type : option Lisp_Type;
  constant : Lisp_Object;
  const_set : bool
}.

Record basic_block_t := {
  gcc_bb : gcc_jit_block;
  bb_top : option Z;          (* [top]: a stack pointer restart, as an index from stack_base *)
  terminated : bool
}.

(** A [basic_block_t *]: an element of [bb_map], or a block from
    [SAFE_ALLOCA]. *)
Inductive block_ptr :=
| in_bb_map (pc : Z)
| in_alloca (n : nat).

(** The global [comp], the two static counters, and the memory that the
    emitters reach through pointers: [bb_map], the blocks from
    [SAFE_ALLOCA], the meta stack.  The types and fields that [init_comp]
    stores in [comp] are constants below. *)
Record comp_t := {
  ctxt : list gcc_jit_record;
  objects : nat;
  func : option gcc_jit_function;
  block : option block_ptr;
  func_hash : list (string * gcc_jit_function);
  pseudovectorp : option gcc_jit_function;
  bool_to_lisp_obj : option gcc_jit_function;
  car : option gcc_jit_function;
  cdr : option gcc_jit_function;
  setcar : option gcc_jit_function;
  setcdr : option gcc_jit_function;
  check_type : option gcc_jit_function;
  check_impure : option gcc_jit_function;
  emit_cast_i : nat;
  emit_lisp_obj_from_ptr_i : nat;
  bb_map : list basic_block_t;
  alloca : list basic_block_t;
  stack_base : list stack_el_t
}.

Definition M (A : Type) : Type := comp_t -> result (A * comp_t).

Definition ret {A} (a : A) : M A := fun s => Ok (a, s).

Definition bind {A B} (m : M A) (f : A -> M B) : M B :=
  fun s => match m s with
           | Ok (a, s') => f a s'
           | Error e => Error e
           | Undefined u => Undefined u
           end.

Notation "x <- m ;; k" := (bind m (fun x => k))
  (at level 20, m at level 99, k at level 200, right associativity).
Notation "m ;;; k" := (bind m (fun _ => k))
  (at level 20, k at level 200, right associativity).
Notation "' pat <- m ;; k" := (bind m (fun x => match x with pat => k end))
  (at level 20, pat pattern, m at level 99, k at level 200, right associativity).

Definition error {A} (msg : string) : M A := fun _ => Error msg.
Definition undefined {A} (what : string) : M A := fun _ => Undefined what.

Definition lift {A} (r : result A) : M A :=
  fun s => match r with
           | Ok a => Ok (a, s)
           | Error e => Error e
           | Undefined u => Undefined u
           end.

Definition gets {A} (f : comp_t -> A) : M A := fun s => Ok (f s, s).
Definition modify (f : comp_t -> comp_t) : M unit := fun s => Ok (tt, f s).

Definition deref {A} (what : string) (o : option A) : M A :=
  match o with
  | Some a => ret a
  | None => undefined what
  end.

Definition with_ctxt (f : list gcc_jit_record -> list gcc_jit_record) (s : comp_t) : comp_t :=
  {| ctxt := f (ctxt s); objects := objects s; func := func s; block := block s;
     func_hash := func_hash s; pseudovectorp := pseudovectorp s;
     bool_to_lisp_obj := bool_to_lisp_obj s; car := car s; cdr := cdr s;
     setcar := setcar s; setcdr := setcdr s; check_type := check_type s;
     check_impure := check_impure s; emit_cast_i := emit_cast_i s;
     emit_lisp_obj_from_ptr_i := emit_lisp_obj_from_ptr_i s; bb_map := bb_map s;
     alloca := alloca s; stack_base := stack_base s |}.

Definition with_objects (n : nat) (s : comp_t) : comp_t :=
  {| ctxt := ctxt s; objects := n; func := func s; block := block s;
     func_hash := func_hash s; pseudovectorp := pseudovectorp s;
     bool_to_lisp_obj := bool_to_lisp_obj s; car := car s; cdr := cdr s;
     setcar := setcar s; setcdr := setcdr s; check_type := check_type s;
     check_impure := check_impure s; emit_cast_i := emit_cast_i s;
     emit_lisp_obj_from_ptr_i := emit_lisp_obj_from_ptr_i s; bb_map := bb_map s;
     alloca := alloca s; stack_base := stack_base s |}.

Definition with_func (f : option gcc_jit_function) (s : comp_t) : comp_t :=
  {| ctxt := ctxt s; objects := objects s; func := f; block := block s;
     func_hash := func_hash s; pseudovectorp := pseudovectorp s;
     bool_to_lisp_obj := bool_to_lisp_obj s; car := car s; cdr := cdr s;
     setcar := setcar s; setcdr := setcdr s; check_type := check_type s;
     check_impure := check_impure s; emit_cast_i := emit_cast_i s;
     emit_lisp_obj_from_ptr_i := emit_lisp_obj_from_ptr_i s; bb_map := bb_map s;
     alloca := alloca s; stack_base := stack_base s |}.

Definition with_block (b : option block_ptr) (s : comp_t) : comp_t :=
  {| ctxt := ctxt s; objects := objects s; func := func s; block := b;
     func_hash := func_hash s; pseudovectorp := pseudovectorp s;
     bool_to_lisp_obj := bool_to_lisp_obj s; car := car s; cdr := cdr s;
     setcar := setcar s; setcdr := setcdr s; check_type := check_type s;
     check_impure := check_impure s; emit_cast_i := emit_cast_i s;
     emit_lisp_obj_from_ptr_i := emit_lisp_obj_from_ptr_i s; bb_map := bb_map s;
     alloca := alloca s; stack_base := stack_base s |}.

Definition with_func_hash (h : list (string * gcc_jit_function)) (s : comp_t) : comp_t :=
  {| ctxt := ctxt s; objects := objects s; func := func s; block := block s;
     func_hash := h; pseudovectorp := pseudovectorp s;
     bool_to_lisp_obj := bool_to_lisp_obj s; car := car s; cdr := cdr s;
     setcar := setcar s; setcdr := setcdr s; check_type := check_type s;
     check_impure := check_impure s; emit_cast_i := emit_cast_i s;
     emit_lisp_obj_from_ptr_i := emit_lisp_obj_from_ptr_i s; bb_map := bb_map s;
     alloca := alloca s; stack_base := stack_base s |}.

Definition with_counters (i j : nat) (s : comp_t) : comp_t :=
  {| ctxt := ctxt s; objects := objects s; func := func s; block := block s;
     func_hash := func_hash s; pseudovectorp := pseudovectorp s;
     bool_to_lisp_obj := bool_to_lisp_obj s; car := car s; cdr := cdr s;
     setcar := setcar s; setcdr := setcdr s; check_type := check_type s;
     check_impure := check_impure s; emit_cast_i := i;
     emit_lisp_obj_from_ptr_i := j; bb_map := bb_map s;
     alloca := alloca s; stack_base := stack_base s |}.

Definition with_bb_map (m : list basic_block_t) (s : comp_t) : comp_t :=
  {| ctxt := ctxt s; objects := objects s; func := func s; block := block s;
     func_hash := func_hash s; pseudovectorp := pseudovectorp s;
     bool_to_lisp_obj := bool_to_lisp_obj s; car := car s; cdr := cdr s;
     setcar := setcar s; setcdr := setcdr s; check_type := check_type s;
     check_impure := check_impure s; emit_cast_i := emit_cast_i s;
     emit_lisp_obj_from_ptr_i := emit_lisp_obj_from_ptr_i s; bb_map := m;
     alloca := alloca s; stack_base := stack_base s |}.

Definition with_alloca (m : list basic_block_t) (s : comp_t) : comp_t :=
  {| ctxt := ctxt s; objects := objects s; func := func s; block := block s;
     func_hash := func_hash s; pseudovectorp := pseudovectorp s;
     bool_to_lisp_obj := bool_to_lisp_obj s; car := car s; cdr := cdr s;
     setcar := setcar s; setcdr := setcdr s; check_type := check_type s;
     check_impure := check_impure s; emit_cast_i := emit_cast_i s;
     emit_lisp_obj_from_ptr_i := emit_lisp_obj_from_ptr_i s; bb_map := bb_map s;
     alloca := m; stack_base := stack_base s |}.

Definition with_stack_base (m : list stack_el_t) (s : comp_t) : comp_t :=
  {| ctxt := ctxt s; objects := objects s; func := func s; block := block s;
     func_hash := func_hash s; pseudovectorp := pseudovectorp s;
     bool_to_lisp_obj := bool_to_lisp_obj s; car := car s; cdr := cdr s;
     setcar := setcar s; setcdr := setcdr s; check_type := check_type s;
     check_impure := check_impure s; emit_cast_i := emit_cast_i s;
     emit_lisp_obj_from_ptr_i := emit_lisp_obj_from_ptr_i s; bb_map := bb_map s;
     alloca := alloca s; stack_base := m |}.

(** The eight helper functions of [comp], set once by [init_comp]. *)
Inductive helper :=
| h_pseudovectorp | h_bool_to_lisp_obj | h_car | h_cdr | h_setcar | h_setcdr
| h_check_type | h_check_impure.

Definition with_helper (h : helper) (f : gcc_jit_function) (s : comp_t) : comp_t :=
  let pick (k : helper) (old : option gcc_jit_function) :=
    match h, k with
    | h_pseudovectorp, h_pseudovectorp | h_bool_to_lisp_obj, h_bool_to_lisp_obj
    | h_car, h_car | h_cdr, h_cdr | h_setcar, h_setcar | h_setcdr, h_setcdr
    | h_check_type, h_check_type | h_check_impure, h_check_impure => Some f
    | _, _ => old
    end in
  {| ctxt := ctxt s; objects := objects s; func := func s; block := block s;
     func_hash := func_hash s; pseudovectorp := pick h_pseudovectorp (pseudovectorp s);
     bool_to_lisp_obj := pick h_bool_to_lisp_obj (bool_to_lisp_obj s);
     car := pick h_car (car s); cdr := pick h_cdr (cdr s);
     setcar := pick h_setcar (setcar s); setcdr := pick h_setcdr (setcdr s);
     check_type := pick h_check_type (check_type s);
     check_impure := pick h_check_impure (check_impure s);
     emit_cast_i := emit_cast_i s;
     emit_lisp_obj_from_ptr_i := emit_lisp_obj_from_ptr_i s; bb_map := bb_map s;
     alloca := alloca s; stack_base := stack_base s |}.

(** ** Conversions of C integers *)

Definition to_unsigned (bits z : Z) : Z := z mod 2 ^ bits.

Definition to_signed (bits z : Z) : Z :=
  let u := z mod 2 ^ bits in
  if bool_decide (u < 2 ^ (bits - 1)) then u else u - 2 ^ bits.

(** ** Primitive operations on the state *)

Definition record (r : gcc_jit_record) : M unit :=
  modify (with_ctxt (fun c => c ++ [r])).

Definition new_object : M nat :=
  fun s => Ok (objects s, with_objects (S (objects s)) s).

Definition bb_get (p : block_ptr) : M basic_block_t :=
  match p with
  | in_bb_map pc => m <- gets bb_map ;; lift (array_get "bb_map" m pc)
  | in_alloca n => m <- gets alloca ;; deref "alloca" (m !! n)
  end.

Definition bb_put (p : block_ptr) (b : basic_block_t) : M unit :=
  match p with
  | in_bb_map pc =>
      m <- gets bb_map ;; m' <- lift (array_set "bb_map" m pc b) ;; modify (with_bb_map m')
  | in_alloca n =>
      m <- gets alloca ;;
      m' <- lift (array_set "alloca" m (Z.of_nat n) b) ;; modify (with_alloca m')
  end.

Definition set_terminated (p : block_ptr) (v : bool) : M unit :=
  b <- bb_get p ;;
  bb_put p {| gcc_bb := gcc_bb b; bb_top := bb_top b; terminated := v |}.

Definition set_top (p : block_ptr) (v : option Z) : M unit :=
  b <- bb_get p ;;
  bb_put p {| gcc_bb := gcc_bb b; bb_top := v; terminated := terminated b |}.

Definition block_gcc_bb (p : block_ptr) : M gcc_jit_block :=
  b <- bb_get p ;; ret (gcc_bb b).

Definition comp_block : M block_ptr :=
  b <- gets block ;; deref "comp.block" b.

(** [comp.block->gcc_bb] *)
Definition comp_block_gcc_bb : M gcc_jit_block :=
  p <- comp_block ;; block_gcc_bb p.

Definition comp_func : M gcc_jit_function :=
  f <- gets func ;; deref "comp.func" f.

Definition set_comp_block (p : block_ptr) : M unit := modify (with_block (Some p)).
Definition set_comp_func (f : gcc_jit_function) : M unit := modify (with_func (Some f)).

Definition slot_get (i : Z) : M stack_el_t :=
  m <- gets stack_base ;; lift (array_get "stack" m i).

Definition slot_put (i : Z) (e : stack_el_t) : M unit :=
  m <- gets stack_base ;; m' <- lift (array_set "stack" m i e) ;; modify (with_stack_base m').

(** ** libgccjit entry points that create objects *)

Definition gcc_jit_context_new_param (ty : gcc_jit_type) (name : string) : M gcc_jit_param :=
  id <- new_object ;; ret {| param_id := id; param_type := ty; param_name := name |}.

Definition gcc_jit_context_new_function (kind : gcc_jit_function_kind)
    (ret_type : gcc_jit_type) (name : string) (params : list gcc_jit_param)
  : M gcc_jit_function :=
  id <- new_object ;;
  let f := {| function_id := id; function_kind := kind; function_ret := ret_type;
              function_name := name; function_params := params |} in
  record (new_function f) ;;; ret f.

Definition gcc_jit_function_new_local (f : gcc_jit_function) (ty : gcc_jit_type)
    (name : string) : M gcc_jit_lvalue :=
  id <- new_object ;;
  let l := Local id ty name in
  record (function_new_local f l) ;;; ret l.

Definition gcc_jit_function_new_block (f : gcc_jit_function) (name : string)
  : M gcc_jit_block :=
  id <- new_object ;;
  let b := {| block_id := id; block_function := function_id f; block_name := name |} in
  record (function_new_block f b) ;;; ret b.

(** ** The basic types of [comp] *)

Definition void_type := Tbasic GCC_JIT_TYPE_VOID.
Definition void_ptr_type := Tbasic GCC_JIT_TYPE_VOID_PTR.
Definition bool_type := Tbasic GCC_JIT_TYPE_BOOL.
Definition char_type := Tbasic GCC_JIT_TYPE_CHAR.
Definition int_type := Tbasic GCC_JIT_TYPE_INT.
Definition unsigned_type := Tbasic GCC_JIT_TYPE_UNSIGNED_INT.
Definition long_type := Tbasic GCC_JIT_TYPE_LONG.
Definition unsigned_long_type := Tbasic GCC_JIT_TYPE_UNSIGNED_LONG.
Definition long_long_type := Tbasic GCC_JIT_TYPE_LONG_LONG.
Definition unsigned_long_long_type := Tbasic GCC_JIT_TYPE_UNSIGNED_LONG_LONG.
Definition char_ptr_type := Tpointer char_type.
Definition lisp_obj_type := Tunion "comp_Lisp_Object".
Definition lisp_obj_ptr_type := Tpointer lisp_obj_type.
Definition lisp_cons_type := Tstruct "comp_Lisp_Cons".
Definition lisp_cons_ptr_type := Tpointer lisp_cons_type.
Definition jmp_buf_type := Tstruct "comp_jmp_buf".
Definition handler_type := Tstruct "comp_handler".
Definition handler_ptr_type := Tpointer handler_type.
Definition thread_state_type := Tstruct "comp_thread_state".
Definition thread_state_ptr_type := Tpointer thread_state_type.
Definition cast_union_type := Tunion "cast_union".

Definition mk_field (ty : gcc_jit_type) (name : string) : gcc_jit_field :=
  {| field_type := ty; field_name := name |}.

Definition lisp_cons_u_s_u_cdr := mk_field lisp_obj_type "cdr".
Definition lisp_cons_u_s_car := mk_field lisp_obj_type "car".
Definition lisp_cons_u_s_u := mk_field (Tunion "comp_cdr_u") "u".
Definition lisp_cons_u_s := mk_field (Tstruct "comp_cons_s") "s".
Definition lisp_cons_u := mk_field (Tunion "comp_cons_u") "u".
Definition handler_jmp_field := mk_field jmp_buf_type "jmp".
Definition handler_val_field := mk_field lisp_obj_type "val".
Definition handler_next_field := mk_field handler_ptr_type "next".
Definition m_handlerlist := mk_field handler_ptr_type "m_handlerlist".
Definition cast_union_as_ll := mk_field long_long_type "ll".
Definition cast_union_as_ull := mk_field unsigned_long_long_type "ull".
Definition cast_union_as_l := mk_field long_type "l".
Definition cast_union_as_ul := mk_field unsigned_long_type "ul".
Definition cast_union_as_u := mk_field unsigned_type "u".
Definition cast_union_as_i := mk_field int_type "i".
Definition cast_union_as_b := mk_field bool_type "b".
Definition cast_union_as_c_p := mk_field char_ptr_type "c_p".
Definition cast_union_as_v_p := mk_field void_ptr_type "v_p".
Definition cast_union_as_lisp_cons_ptr := mk_field lisp_cons_ptr_type "cons_ptr".
Definition cast_union_as_lisp_obj := mk_field lisp_obj_type "lisp_obj".

(** [gcc_jit_rvalue_get_type] *)
Fixpoint lvalue_get_type (l : gcc_jit_lvalue) : gcc_jit_type :=
  match l with
  | Local _ ty _ => ty
  | Array_access p _ =>
      match rvalue_get_type p with
      | Tarray t _ | Tpointer t => t
      | t => t
      end
  | Lvalue_access_field _ f => field_type f
  | Dereference_field _ f => field_type f
  | Dereference r =>
      match rvalue_get_type r with
      | Tpointer t => t
      | t => t
      end
  end
with rvalue_get_type (r : gcc_jit_rvalue) : gcc_jit_type :=
  match r with
  | Rvalue_from_int ty _ | Rvalue_from_ptr ty _ => ty
  | Lvalue_as_rvalue l => lvalue_get_type l
  | Param_as_rvalue p => param_type p
  | Binary_op _ ty _ _ | Unary_op _ ty _ => ty
  | Comparison _ _ _ => bool_type
  | Call f _ => function_ret f
  | Call_through_ptr fn _ =>
      match rvalue_get_type fn with
      | Tfunction_ptr t _ => t
      | t => t
      end
  | Rvalue_access_field _ f => field_type f
  | Get_address l => Tpointer (lvalue_get_type l)
  end.

(** [format_string]: the scratch area holds 512 bytes. *)
Definition format_string (formatted : string) : M string :=
  if bool_decide (512 <= Z.of_nat (String.length formatted))
  then error "Truncating string"
  else ret formatted.

Definition MAX_POP : Z := 64.
Definition DISASS_FILE_NAME : string := "emacs-asm.s".

(** [hash_lookup] and [hash_put] on [comp.func_hash], keyed by name. *)
Fixpoint hash_lookup (h : list (string * gcc_jit_function)) (key : string)
  : option gcc_jit_function :=
  match h with
  | [] => None
  | (k, v) :: h' => if bool_decide (k = key) then Some v else hash_lookup h' key
  end.

Definition hash_put (key : string) (v : gcc_jit_function) : M unit :=
  h <- gets func_hash ;; modify (with_func_hash ((key, v) :: h)).

(** The locals of [compile_f] that change while it runs; [stack] is
    [stack - stack_base]; an element of [args] that was never written
    is [None]. *)
Record frame := {
  pc : Z;
  stack : Z;
  args : list (option gcc_jit_rvalue);
  pushhandler_n : nat
}.

Definition with_pc (v : Z) (fr : frame) : frame :=
  {| pc := v; stack := stack fr; args := args fr; pushhandler_n := pushhandler_n fr |}.
Definition with_stack (v : Z) (fr : frame) : frame :=
  {| pc := pc fr; stack := v; args := args fr; pushhandler_n := pushhandler_n fr |}.
Definition with_args (v : list (option gcc_jit_rvalue)) (fr : frame) : frame :=
  {| pc := pc fr; stack := stack fr; args := v; pushhandler_n := pushhandler_n fr |}.
Definition with_pushhandler_n (v : nat) (fr : frame) : frame :=
  {| pc := pc fr; stack := stack fr; args := args fr; pushhandler_n := v |}.

(** [args[i]], read *)
Definition arg (a : list (option gcc_jit_rvalue)) (i : Z) : M gcc_jit_rvalue :=
  o <- lift (array_get "args" a i) ;; deref "args: read before written" o.

(** The first [n] elements of the array at [a + off], as a call reads
    them. *)
Fixpoint args_from (a : list (option gcc_jit_rvalue)) (off : Z) (n : nat)
  : M (list gcc_jit_rvalue) :=
  match n with
  | O => ret []
  | S n' => x <- arg a off ;; l <- args_from a (off + 1) n' ;; ret (x :: l)
  end.

Section translator.

Context (H : headers).

(** Fields of [comp_Lisp_Object]. *)
Definition lisp_obj_as_ptr : gcc_jit_field :=
  mk_field (if EMACS_INT_MAX_le_LONG_MAX H then void_ptr_type else long_long_type) "obj".
Definition lisp_obj_as_num : gcc_jit_field := mk_field (emacs_int_type H) "num".

Definition most_positive_fixnum := Rvalue_from_int (emacs_int_type H) (MOST_POSITIVE_FIXNUM H).
Definition most_negative_fixnum := Rvalue_from_int (emacs_int_type H) (MOST_NEGATIVE_FIXNUM H).
Definition one := Rvalue_from_int (emacs_int_type H) 1.
Definition inttypebits := Rvalue_from_int (emacs_int_type H) (INTTYPEBITS H).
Definition lisp_int0 := Rvalue_from_int (emacs_int_type H) (Lisp_Type_val H Lisp_Int0).
Definition current_thread := Rvalue_from_ptr thread_state_ptr_type (ptr_var "current_thread").
Definition pure := Rvalue_from_ptr void_ptr_type (ptr_var "pure").

(** [intern]: the symbol of a name, with the function cell that it has
    in the host; [Qt], [Qconsp] and [Qlistp] are such symbols. *)
Definition intern (name : string) : Lisp_Object := Lisp_symbol name (function_cell H name).
Definition Qt : Lisp_Object := intern "t".
Definition Qconsp : Lisp_Object := intern "consp".
Definition Qlistp : Lisp_Object := intern "listp".

(** [LISP_WORD_TAG (tag)] of [lisp.h], as [emit_XUNTAG] receives it in
    an [unsigned] and hands it on as an [int]. *)
Definition LISP_WORD_TAG (tag : Lisp_Type) : Z :=
  to_signed 32 (to_unsigned 32
    (Z.shiftl (Lisp_Type_val H tag) (if USE_LSB_TAG H then 0 else VALBITS H))).

(** Pop from the main evaluation stack and place the elements in
    [args + off] in reversed order. *)
Fixpoint pop (n : nat) (stack : Z) (args : list (option gcc_jit_rvalue)) (off : Z)
  : M (Z * list (option gcc_jit_rvalue)) :=
  match n with
  | O => ret (stack, args)
  | S n' =>
      let stack := stack - 1 in
      e <- slot_get stack ;;
      args <- lift (array_set "args" args (off + Z.of_nat n')
                      (Some (Lvalue_as_rvalue (gcc_lval e)))) ;;
      pop n' stack args off
  end.

Definition type_to_cast_field (ty : gcc_jit_type) : M gcc_jit_field :=
  if type_eqb ty long_long_type then ret cast_union_as_ll
  else if type_eqb ty unsigned_long_long_type then ret cast_union_as_ull
  else if type_eqb ty long_type then ret cast_union_as_l
  else if type_eqb ty unsigned_long_type then ret cast_union_as_ul
  else if type_eqb ty unsigned_type then ret cast_union_as_u
  else if type_eqb ty int_type then ret cast_union_as_i
  else if type_eqb ty bool_type then ret cast_union_as_b
  else if type_eqb ty void_ptr_type then ret cast_union_as_v_p
  else if type_eqb ty char_ptr_type then ret cast_union_as_c_p
  else if type_eqb ty lisp_cons_ptr_type then ret cast_union_as_lisp_cons_ptr
  else if type_eqb ty lisp_obj_type then ret cast_union_as_lisp_obj
  else error "unsupported cast".

(** [COMP_DEBUG] is 1. *)
Definition emit_comment (str : string) : M unit :=
  bb <- comp_block_gcc_bb ;; record (block_add_comment bb str).

(** Assignments to the meta-stack slots reset the annotation fields. *)
Definition emit_assign_to_stack_slot (block : block_ptr) (slot : Z) (val : gcc_jit_rvalue)
  : M unit :=
  bb <- block_gcc_bb block ;;
  e <- slot_get slot ;;
  record (block_add_assignment bb (gcc_lval e) val) ;;;
  slot_put slot {| gcc_lval := gcc_lval e; type := None; constant := constant e;
                   const_set := false |}.

(** The parameters are made from the last to the first; more than four
    overrun [param] and [type]. *)
Definition emit_func_declare (f_name : string) (ret_type : gcc_jit_type) (nargs : Z)
    (args : option (list gcc_jit_rvalue)) (kind : gcc_jit_function_kind)
    (reusable : bool) : M gcc_jit_function :=
  (if bool_decide (0 <= nargs <= 4) then ret tt
   else undefined "emit_func_declare: param[4] overrun") ;;;
  let ty (i : nat) : M gcc_jit_type :=
    match args with
    | Some a => r <- deref "emit_func_declare: args" (a !! i) ;; ret (rvalue_get_type r)
    | None => ret lisp_obj_type
    end in
  t0 <- (if bool_decide (1 <= nargs) then ty 0%nat else ret lisp_obj_type) ;;
  t1 <- (if bool_decide (2 <= nargs) then ty 1%nat else ret lisp_obj_type) ;;
  t2 <- (if bool_decide (3 <= nargs) then ty 2%nat else ret lisp_obj_type) ;;
  t3 <- (if bool_decide (4 <= nargs) then ty 3%nat else ret lisp_obj_type) ;;
  p3 <- (if bool_decide (4 <= nargs)
         then p <- gcc_jit_context_new_param t3 "c" ;; ret [p] else ret []) ;;
  p2 <- (if bool_decide (3 <= nargs)
         then p <- gcc_jit_context_new_param t2 "c" ;; ret [p] else ret []) ;;
  p1 <- (if bool_decide (2 <= nargs)
         then p <- gcc_jit_context_new_param t1 "b" ;; ret [p] else ret []) ;;
  p0 <- (if bool_decide (1 <= nargs)
         then p <- gcc_jit_context_new_param t0 "a" ;; ret [p] else ret []) ;;
  f <- gcc_jit_context_new_function kind ret_type f_name (p0 ++ p1 ++ p2 ++ p3) ;;
  (if reusable then hash_put f_name f else ret tt) ;;;
  ret f.

Definition emit_call (f_name : string) (ret_type : gcc_jit_type)
    (args : list gcc_jit_rvalue) : M gcc_jit_rvalue :=
  h <- gets func_hash ;;
  f <- match hash_lookup h f_name with
       | None =>
           emit_func_declare f_name ret_type (Z.of_nat (length args)) (Some args)
             GCC_JIT_FUNCTION_IMPORTED true ;;;
           h <- gets func_hash ;;
           deref "emit_call: HASH_VALUE" (hash_lookup h f_name)
       | Some f => ret f
       end ;;
  ret (Call f args).

(** Close current basic block emitting a conditional. *)
Definition emit_cond_jump (test : gcc_jit_rvalue) (then_target else_target : block_ptr)
  : M unit :=
  p <- comp_block ;;
  bb <- block_gcc_bb p ;;
  then_bb <- block_gcc_bb then_target ;;
  else_bb <- block_gcc_bb else_target ;;
  (if type_eqb (rvalue_get_type test) bool_type
   then record (block_end_with_conditional bb test then_bb else_bb)
   else record (block_end_with_conditional bb
                  (Unary_op GCC_JIT_UNARY_OP_LOGICAL_NEGATE bool_type test)
                  else_bb then_bb)) ;;;
  set_terminated p true.

(** Close current basic block emitting a comparison between two rval. *)
Definition emit_comparison_jump (op : gcc_jit_comparison) (a b : gcc_jit_rvalue)
    (then_target else_target : block_ptr) : M gcc_jit_rvalue :=
  let test := Comparison op a b in
  emit_cond_jump test then_target else_target ;;; ret test.

Definition emit_cast (new_type : gcc_jit_type) (obj : gcc_jit_rvalue) : M gcc_jit_rvalue :=
  orig_field <- type_to_cast_field (rvalue_get_type obj) ;;
  dest_field <- type_to_cast_field new_type ;;
  f <- comp_func ;;
  i <- gets emit_cast_i ;;
  j <- gets emit_lisp_obj_from_ptr_i ;;
  name <- format_string ("union_cast_" +:+ pretty i) ;;
  modify (with_counters (S i) j) ;;;
  tmp_u <- gcc_jit_function_new_local f cast_union_type name ;;
  bb <- comp_block_gcc_bb ;;
  record (block_add_assignment bb (Lvalue_access_field tmp_u orig_field) obj) ;;;
  ret (Rvalue_access_field (Lvalue_as_rvalue tmp_u) dest_field).

Definition emit_XLI (obj : gcc_jit_rvalue) : M gcc_jit_rvalue :=
  emit_comment "XLI" ;;; ret (Rvalue_access_field obj lisp_obj_as_num).

Definition emit_lval_XLI (obj : gcc_jit_lvalue) : M gcc_jit_lvalue :=
  emit_comment "lval_XLI" ;;; ret (Lvalue_access_field obj lisp_obj_as_num).

Definition emit_XLP (obj : gcc_jit_rvalue) : M gcc_jit_rvalue :=
  emit_comment "XLP" ;;; ret (Rvalue_access_field obj lisp_obj_as_ptr).

Definition emit_lval_XLP (obj : gcc_jit_lvalue) : M gcc_jit_lvalue :=
  emit_comment "lval_XLP" ;;; ret (Lvalue_access_field obj lisp_obj_as_ptr).

Definition emit_XUNTAG (a : gcc_jit_rvalue) (ty : gcc_jit_type) (lisp_word_tag : Z)
  : M gcc_jit_rvalue :=
  emit_comment "XUNTAG" ;;;
  xli <- emit_XLI a ;;
  emit_cast (Tpointer ty)
    (Binary_op GCC_JIT_BINARY_OP_MINUS (emacs_int_type H) xli
       (Rvalue_from_int (emacs_int_type H) lisp_word_tag)).

Definition emit_XCONS (a : gcc_jit_rvalue) : M gcc_jit_rvalue :=
  emit_comment "XCONS" ;;;
  emit_XUNTAG a lisp_cons_type (LISP_WORD_TAG Lisp_Cons).

Definition emit_EQ (x y : gcc_jit_rvalue) : M gcc_jit_rvalue :=
  emit_comment "EQ" ;;;
  a <- emit_XLI x ;;
  b <- emit_XLI y ;;
  ret (Comparison GCC_JIT_COMPARISON_EQ a b).

Definition emit_TAGGEDP (obj : gcc_jit_rvalue) (tag : Z) : M gcc_jit_rvalue :=
  emit_comment "TAGGEDP" ;;;
  xli <- emit_XLI obj ;;
  let sh_res :=
    Binary_op GCC_JIT_BINARY_OP_RSHIFT (emacs_int_type H) xli
      (Rvalue_from_int (emacs_int_type H) (if USE_LSB_TAG H then 0 else VALBITS H)) in
  c <- emit_cast unsigned_type sh_res ;;
  let minus_res :=
    Binary_op GCC_JIT_BINARY_OP_MINUS unsigned_type c (Rvalue_from_int unsigned_type tag) in
  ret (Unary_op GCC_JIT_UNARY_OP_LOGICAL_NEGATE int_type
         (Binary_op GCC_JIT_BINARY_OP_BITWISE_AND unsigned_type minus_res
            (Rvalue_from_int unsigned_type (Z.shiftl 1 (GCTYPEBITS H) - 1)))).

Definition emit_VECTORLIKEP (obj : gcc_jit_rvalue) : M gcc_jit_rvalue :=
  emit_comment "VECTORLIKEP" ;;; emit_TAGGEDP obj (Lisp_Type_val H Lisp_Vectorlike).

Definition emit_CONSP (obj : gcc_jit_rvalue) : M gcc_jit_rvalue :=
  emit_comment "CONSP" ;;; emit_TAGGEDP obj (Lisp_Type_val H Lisp_Cons).

Definition emit_FLOATP (obj : gcc_jit_rvalue) : M gcc_jit_rvalue :=
  emit_comment "FLOATP" ;;; emit_TAGGEDP obj (Lisp_Type_val H Lisp_Float).

Definition emit_BIGNUMP (obj : gcc_jit_rvalue) : M gcc_jit_rvalue :=
  emit_comment "BIGNUMP" ;;;
  f <- gets pseudovectorp ;;
  f <- deref "comp.pseudovectorp" f ;;
  ret (Call f [obj; Rvalue_from_int int_type (PVEC_BIGNUM H)]).

Definition emit_FIXNUMP (obj : gcc_jit_rvalue) : M gcc_jit_rvalue :=
  emit_comment "FIXNUMP" ;;;
  xli <- emit_XLI obj ;;
  let sh_res :=
    Binary_op GCC_JIT_BINARY_OP_RSHIFT (emacs_int_type H) xli
      (Rvalue_from_int (emacs_int_type H) (if USE_LSB_TAG H then 0 else FIXNUM_BITS H)) in
  c <- emit_cast unsigned_type sh_res ;;
  let minus_res :=
    Binary_op GCC_JIT_BINARY_OP_MINUS unsigned_type c
      (Rvalue_from_int unsigned_type
         (Z.shiftr (Lisp_Type_val H Lisp_Int0) (if USE_LSB_TAG H then 0 else 1))) in
  ret (Unary_op GCC_JIT_UNARY_OP_LOGICAL_NEGATE int_type
         (Binary_op GCC_JIT_BINARY_OP_BITWISE_AND unsigned_type minus_res
            (Rvalue_from_int unsigned_type (Z.shiftl 1 (INTTYPEBITS H) - 1)))).

Definition emit_XFIXNUM (obj : gcc_jit_rvalue) : M gcc_jit_rvalue :=
  emit_comment "XFIXNUM" ;;;
  xli <- emit_XLI obj ;;
  ret (Binary_op GCC_JIT_BINARY_OP_RSHIFT (emacs_int_type H) xli inttypebits).

Definition emit_INTEGERP (obj : gcc_jit_rvalue) : M gcc_jit_rvalue :=
  emit_comment "INTEGERP" ;;;
  f <- emit_FIXNUMP obj ;;
  a <- emit_cast bool_type f ;;
  b <- emit_BIGNUMP obj ;;
  ret (Binary_op GCC_JIT_BINARY_OP_LOGICAL_OR bool_type a b).

Definition emit_NUMBERP (obj : gcc_jit_rvalue) : M gcc_jit_rvalue :=
  emit_comment "NUMBERP" ;;;
  a <- emit_INTEGERP obj ;;
  f <- emit_FLOATP obj ;;
  b <- emit_cast bool_type f ;;
  ret (Binary_op GCC_JIT_BINARY_OP_LOGICAL_OR bool_type a b).

Definition emit_make_fixnum (obj : gcc_jit_rvalue) : M gcc_jit_rvalue :=
  emit_comment "make_fixnum" ;;;
  let tmp := Binary_op GCC_JIT_BINARY_OP_LSHIFT (emacs_int_type H) obj inttypebits in
  let tmp := Binary_op GCC_JIT_BINARY_OP_PLUS (emacs_int_type H) tmp lisp_int0 in
  f <- comp_func ;;
  res <- gcc_jit_function_new_local f lisp_obj_type "lisp_obj_fixnum" ;;
  bb <- comp_block_gcc_bb ;;
  l <- emit_lval_XLI res ;;
  record (block_add_assignment bb l tmp) ;;;
  ret (Lvalue_as_rvalue res).

(** Construct fill and return a lisp object form a raw pointer.
    [SYMBOLP (p)] is applied to whatever the pointer is.  The address
    of a function of the host that has the tag bits of a symbol is
    then read as a symbol, which it is not: [SYMBOL_NAME] reads the
    name outside any object. *)
Definition emit_lisp_obj_from_ptr (p : c_ptr) : M gcc_jit_rvalue :=
  i <- gets emit_cast_i ;;
  j <- gets emit_lisp_obj_from_ptr_i ;;
  emit_comment "lisp_obj_from_ptr" ;;;
  f <- comp_func ;;
  name <- format_string ("lisp_obj_from_ptr_" +:+ pretty j) ;;
  modify (with_counters i (S j)) ;;;
  lisp_obj <- gcc_jit_function_new_local f lisp_obj_type name ;;
  let void_ptr := Rvalue_from_ptr void_ptr_type p in
  match p with
  | ptr_obj o =>
      if SYMBOLP o
      then str <- format_string ("Symbol " +:+ c_str (SYMBOL_NAME o)) ;; emit_comment str
      else ret tt
  | _ => if address_SYMBOLP H p then undefined "SYMBOL_NAME" else ret tt
  end ;;;
  bb <- comp_block_gcc_bb ;;
  l <- emit_lval_XLP lisp_obj ;;
  record (block_add_assignment bb l void_ptr) ;;;
  ret (Lvalue_as_rvalue lisp_obj).

Definition emit_NILP (x : gcc_jit_rvalue) : M gcc_jit_rvalue :=
  emit_comment "NILP" ;;;
  n <- emit_lisp_obj_from_ptr (ptr_obj Qnil) ;;
  emit_EQ x n.

Definition emit_XCAR (c : gcc_jit_rvalue) : M gcc_jit_rvalue :=
  emit_comment "XCAR" ;;;
  p <- emit_XCONS c ;;
  ret (Rvalue_access_field
         (Rvalue_access_field
            (Lvalue_as_rvalue (Dereference_field p lisp_cons_u))
            lisp_cons_u_s)
         lisp_cons_u_s_car).

Definition emit_lval_XCAR (c : gcc_jit_rvalue) : M gcc_jit_lvalue :=
  emit_comment "lval_XCAR" ;;;
  p <- emit_XCONS c ;;
  ret (Lvalue_access_field
         (Lvalue_access_field (Dereference_field p lisp_cons_u) lisp_cons_u_s)
         lisp_cons_u_s_car).

Definition emit_XCDR (c : gcc_jit_rvalue) : M gcc_jit_rvalue :=
  emit_comment "XCDR" ;;;
  p <- emit_XCONS c ;;
  ret (Rvalue_access_field
         (Rvalue_access_field
            (Rvalue_access_field
               (Lvalue_as_rvalue (Dereference_field p lisp_cons_u))
               lisp_cons_u_s)
            lisp_cons_u_s_u)
         lisp_cons_u_s_u_cdr).

Definition emit_lval_XCDR (c : gcc_jit_rvalue) : M gcc_jit_lvalue :=
  emit_comment "lval_XCDR" ;;;
  p <- emit_XCONS c ;;
  ret (Lvalue_access_field
         (Lvalue_access_field
            (Lvalue_access_field (Dereference_field p lisp_cons_u) lisp_cons_u_s)
            lisp_cons_u_s_u)
         lisp_cons_u_s_u_cdr).

Definition emit_CHECK_CONS (x : gcc_jit_rvalue) : M unit :=
  emit_comment "CHECK_CONS" ;;;
  a0 <- emit_CONSP x ;;
  a1 <- emit_lisp_obj_from_ptr (ptr_obj Qconsp) ;;
  bb <- comp_block_gcc_bb ;;
  f <- gets check_type ;;
  f <- deref "comp.check_type" f ;;
  record (block_add_eval bb (Call f [a0; a1; x])).

Definition emit_car_addr (c : gcc_jit_rvalue) : M gcc_jit_rvalue :=
  emit_comment "car_addr" ;;;
  l <- emit_lval_XCAR c ;; ret (Get_address l).

Definition emit_cdr_addr (c : gcc_jit_rvalue) : M gcc_jit_rvalue :=
  emit_comment "cdr_addr" ;;;
  l <- emit_lval_XCDR c ;; ret (Get_address l).

Definition emit_XSETCAR (c n : gcc_jit_rvalue) : M unit :=
  emit_comment "XSETCAR" ;;;
  bb <- comp_block_gcc_bb ;;
  a <- emit_car_addr c ;;
  record (block_add_assignment bb (Dereference a) n).

Definition emit_XSETCDR (c n : gcc_jit_rvalue) : M unit :=
  emit_comment "XSETCDR" ;;;
  bb <- comp_block_gcc_bb ;;
  a <- emit_cdr_addr c ;;
  record (block_add_assignment bb (Dereference a) n).

Definition emit_PURE_P (ptr : gcc_jit_rvalue) : M gcc_jit_rvalue :=
  emit_comment "PURE_P" ;;;
  a <- emit_cast (uintptr_type H) ptr ;;
  b <- emit_cast (uintptr_type H) pure ;;
  ret (Comparison GCC_JIT_COMPARISON_LE
         (Binary_op GCC_JIT_BINARY_OP_MINUS (uintptr_type H) a b)
         (Rvalue_from_int (uintptr_type H) (PURESIZE H))).

Definition emit_call_n_ref (f_name : string) (nargs : Z) (base_arg : gcc_jit_lvalue)
  : M gcc_jit_rvalue :=
  emit_call f_name lisp_obj_type
    [Rvalue_from_int (ptrdiff_type H) nargs; Get_address base_arg].

(** ** The structures of the host, declared to libgccjit *)

Definition define_lisp_cons : M unit :=
  record (new_opaque_struct "comp_Lisp_Cons") ;;;
  record (new_union_type "comp_cdr_u"
            [lisp_cons_u_s_u_cdr; mk_field lisp_cons_ptr_type "chain"]) ;;;
  record (new_struct_type "comp_cons_s" [lisp_cons_u_s_car; lisp_cons_u_s_u]) ;;;
  record (new_union_type "comp_cons_u"
            [lisp_cons_u_s;
             mk_field (Tarray char_type (sizeof_Lisp_Cons H)) "align_pad"]) ;;;
  record (struct_set_fields "comp_Lisp_Cons" [lisp_cons_u]).

Definition define_jmp_buf : M unit :=
  record (new_struct_type "comp_jmp_buf"
            [mk_field (Tarray char_type (sizeof_jmp_buf H)) "stuff"]).

Definition define_handler_struct : M unit :=
  record (new_opaque_struct "comp_handler") ;;;
  record (struct_set_fields "comp_handler"
            [mk_field (Tarray char_type (offsetof_handler_val H)) "pad0";
             handler_val_field;
             handler_next_field;
             mk_field (Tarray char_type
                         (offsetof_handler_jmp H - offsetof_handler_next H
                          - sizeof_handler_next H)) "pad1";
             handler_jmp_field;
             mk_field (Tarray char_type
                         (sizeof_handler H - offsetof_handler_jmp H
                          - sizeof_handler_jmp H)) "pad2"]).

Definition define_thread_state_struct : M unit :=
  record (new_struct_type "comp_thread_state"
            [mk_field (Tarray char_type (offsetof_m_handlerlist H)) "pad0";
             m_handlerlist;
             mk_field (Tarray char_type
                         (sizeof_thread_state H - offsetof_m_handlerlist H
                          - sizeof_m_handlerlist H)) "pad1"]).

Definition define_cast_union : M unit :=
  record (new_union_type "cast_union"
            [cast_union_as_ll; cast_union_as_ull; cast_union_as_l; cast_union_as_ul;
             cast_union_as_u; cast_union_as_i; cast_union_as_b; cast_union_as_c_p;
             cast_union_as_v_p; cast_union_as_lisp_cons_ptr; cast_union_as_lisp_obj]).

(** [SAFE_ALLOCA_BLOCK] *)
Definition SAFE_ALLOCA_BLOCK (f : gcc_jit_function) (name : string) : M block_ptr :=
  b <- gcc_jit_function_new_block f name ;;
  m <- gets alloca ;;
  modify (with_alloca (m ++ [{| gcc_bb := b; bb_top := None; terminated := false |}])) ;;;
  ret (in_alloca (length m)).

Definition helper_function (h : helper) (what : string) : M gcc_jit_function :=
  f <- gets (match h with
             | h_pseudovectorp => pseudovectorp | h_bool_to_lisp_obj => bool_to_lisp_obj
             | h_car => car | h_cdr => cdr | h_setcar => setcar | h_setcdr => setcdr
             | h_check_type => check_type | h_check_impure => check_impure
             end) ;;
  deref what f.

(** ** The inline functions *)

Definition define_CHECK_TYPE : M unit :=
  p0 <- gcc_jit_context_new_param int_type "ok" ;;
  p1 <- gcc_jit_context_new_param lisp_obj_type "predicate" ;;
  p2 <- gcc_jit_context_new_param lisp_obj_type "x" ;;
  f <- gcc_jit_context_new_function GCC_JIT_FUNCTION_ALWAYS_INLINE void_type
         "CHECK_TYPE" [p0; p1; p2] ;;
  modify (with_helper h_check_type f) ;;;
  let ok := Param_as_rvalue p0 in
  let predicate := Param_as_rvalue p1 in
  let x := Param_as_rvalue p2 in
  init_block <- SAFE_ALLOCA_BLOCK f "init_block" ;;
  ok_block <- SAFE_ALLOCA_BLOCK f "ok_block" ;;
  not_ok_block <- SAFE_ALLOCA_BLOCK f "not_ok_block" ;;
  set_comp_block init_block ;;;
  set_comp_func f ;;;
  emit_cond_jump ok ok_block not_ok_block ;;;
  bb <- block_gcc_bb ok_block ;;
  record (block_end_with_void_return bb) ;;;
  set_comp_block not_ok_block ;;;
  bb <- comp_block_gcc_bb ;;
  c <- emit_call "wrong_type_argument" lisp_obj_type [predicate; x] ;;
  record (block_add_eval bb c) ;;;
  bb <- block_gcc_bb not_ok_block ;;
  record (block_end_with_void_return bb).

(** One turn of the loop of [define_CAR_CDR], for the function [f] and
    its parameter. *)
Definition define_CAR_CDR_body (f : gcc_jit_function) (param : gcc_jit_param) : M unit :=
  let c := Param_as_rvalue param in
  init_block <- SAFE_ALLOCA_BLOCK f "init_block" ;;
  is_cons_b <- SAFE_ALLOCA_BLOCK f "is_cons_b" ;;
  not_a_cons_b <- SAFE_ALLOCA_BLOCK f "not_a_cons_b" ;;
  set_comp_block init_block ;;;
  set_comp_func f ;;;
  t <- emit_CONSP c ;;
  emit_cond_jump t is_cons_b not_a_cons_b ;;;
  set_comp_block is_cons_b ;;;
  comp_car <- helper_function h_car "comp.car" ;;
  bb <- comp_block_gcc_bb ;;
  (if bool_decide (function_id f = function_id comp_car)
   then r <- emit_XCAR c ;; record (block_end_with_return bb r)
   else r <- emit_XCDR c ;; record (block_end_with_return bb r)) ;;;
  set_comp_block not_a_cons_b ;;;
  is_nil_b <- SAFE_ALLOCA_BLOCK f "is_nil_b" ;;
  not_nil_b <- SAFE_ALLOCA_BLOCK f "not_nil_b" ;;
  t <- emit_NILP c ;;
  emit_cond_jump t is_nil_b not_nil_b ;;;
  set_comp_block is_nil_b ;;;
  bb <- comp_block_gcc_bb ;;
  r <- emit_lisp_obj_from_ptr (ptr_obj Qnil) ;;
  record (block_end_with_return bb r) ;;;
  set_comp_block not_nil_b ;;;
  a0 <- emit_lisp_obj_from_ptr (ptr_obj Qlistp) ;;
  bb <- comp_block_gcc_bb ;;
  call <- emit_call "wrong_type_argument" lisp_obj_type [a0; c] ;;
  record (block_add_eval bb call) ;;;
  r <- emit_lisp_obj_from_ptr (ptr_obj Qnil) ;;
  record (block_end_with_return bb r).

(** Declare a substitute for CAR as always inlined function. *)
Definition define_CAR_CDR : M unit :=
  car_param <- gcc_jit_context_new_param lisp_obj_type "c" ;;
  comp_car <- gcc_jit_context_new_function GCC_JIT_FUNCTION_ALWAYS_INLINE lisp_obj_type
                "CAR" [car_param] ;;
  modify (with_helper h_car comp_car) ;;;
  cdr_param <- gcc_jit_context_new_param lisp_obj_type "c" ;;
  comp_cdr <- gcc_jit_context_new_function GCC_JIT_FUNCTION_ALWAYS_INLINE lisp_obj_type
                "CDR" [cdr_param] ;;
  modify (with_helper h_cdr comp_cdr) ;;;
  define_CAR_CDR_body comp_car car_param ;;;
  define_CAR_CDR_body comp_cdr cdr_param.

(** One turn of the loop of [define_setcar_setcdr]; [i] is 0 for
    setcar. *)
Definition define_setcar_setcdr_body (i : Z) : M unit :=
  let f_name := if bool_decide (i = 0) then "setcar" else "setcdr" in
  let par_name := if bool_decide (i = 0) then "new_car" else "new_cdr" in
  cell <- gcc_jit_context_new_param lisp_obj_type "cell" ;;
  new_el <- gcc_jit_context_new_param lisp_obj_type par_name ;;
  f <- gcc_jit_context_new_function GCC_JIT_FUNCTION_ALWAYS_INLINE lisp_obj_type
         f_name [cell; new_el] ;;
  modify (with_helper (if bool_decide (i = 0) then h_setcar else h_setcdr) f) ;;;
  init_block <- SAFE_ALLOCA_BLOCK f "init_block" ;;
  set_comp_func f ;;;
  set_comp_block init_block ;;;
  emit_CHECK_CONS (Param_as_rvalue cell) ;;;
  x <- emit_XCONS (Param_as_rvalue cell) ;;
  bb <- block_gcc_bb init_block ;;
  chk <- helper_function h_check_impure "comp.check_impure" ;;
  record (block_add_eval bb (Call chk [Param_as_rvalue cell; x])) ;;;
  (if bool_decide (i = 0)
   then emit_XSETCAR (Param_as_rvalue cell) (Param_as_rvalue new_el)
   else emit_XSETCDR (Param_as_rvalue cell) (Param_as_rvalue new_el)) ;;;
  record (block_end_with_return bb (Param_as_rvalue new_el)).

Definition define_setcar_setcdr : M unit :=
  define_setcar_setcdr_body 0 ;;; define_setcar_setcdr_body 1.

(** Declare a substitute for PSEUDOVECTORP as always inlined function. *)
Definition define_PSEUDOVECTORP : M unit :=
  p0 <- gcc_jit_context_new_param lisp_obj_type "a" ;;
  p1 <- gcc_jit_context_new_param int_type "code" ;;
  f <- gcc_jit_context_new_function GCC_JIT_FUNCTION_ALWAYS_INLINE bool_type
         "PSEUDOVECTORP" [p0; p1] ;;
  modify (with_helper h_pseudovectorp f) ;;;
  init_block <- SAFE_ALLOCA_BLOCK f "init_block" ;;
  ret_false_b <- SAFE_ALLOCA_BLOCK f "ret_false_b" ;;
  call_pseudovector_typep_b <- SAFE_ALLOCA_BLOCK f "call_pseudovector_typep_b" ;;
  set_comp_block init_block ;;;
  set_comp_func f ;;;
  t <- emit_VECTORLIKEP (Param_as_rvalue p0) ;;
  emit_cond_jump t call_pseudovector_typep_b ret_false_b ;;;
  set_comp_block ret_false_b ;;;
  bb <- block_gcc_bb ret_false_b ;;
  record (block_end_with_return bb (Rvalue_from_int bool_type 0)) ;;;
  set_comp_block call_pseudovector_typep_b ;;;
  bb <- block_gcc_bb call_pseudovector_typep_b ;;
  c <- emit_call "helper_PSEUDOVECTOR_TYPEP_XUNTAG" bool_type
         [Param_as_rvalue p0; Param_as_rvalue p1] ;;
  record (block_end_with_return bb c).

Definition define_CHECK_IMPURE : M unit :=
  p0 <- gcc_jit_context_new_param lisp_obj_type "obj" ;;
  p1 <- gcc_jit_context_new_param void_ptr_type "ptr" ;;
  f <- gcc_jit_context_new_function GCC_JIT_FUNCTION_ALWAYS_INLINE void_type
         "CHECK_IMPURE" [p0; p1] ;;
  modify (with_helper h_check_impure f) ;;;
  init_block <- SAFE_ALLOCA_BLOCK f "init_block" ;;
  err_block <- SAFE_ALLOCA_BLOCK f "err_block" ;;
  ok_block <- SAFE_ALLOCA_BLOCK f "ok_block" ;;
  set_comp_block init_block ;;;
  set_comp_func f ;;;
  t <- emit_PURE_P (Param_as_rvalue p0) ;;
  emit_cond_jump t err_block ok_block ;;;
  bb <- block_gcc_bb ok_block ;;
  record (block_end_with_void_return bb) ;;;
  set_comp_block err_block ;;;
  bb <- comp_block_gcc_bb ;;
  c <- emit_call "pure_write_error" void_type [Param_as_rvalue p0] ;;
  record (block_add_eval bb c) ;;;
  bb <- block_gcc_bb err_block ;;
  record (block_end_with_void_return bb).

(** Declare a function to convert boolean into t or nil. *)
Definition define_bool_to_lisp_obj : M unit :=
  param <- gcc_jit_context_new_param bool_type "x" ;;
  f <- gcc_jit_context_new_function GCC_JIT_FUNCTION_ALWAYS_INLINE lisp_obj_type
         "bool_to_lisp_obj" [param] ;;
  modify (with_helper h_bool_to_lisp_obj f) ;;;
  init_block <- SAFE_ALLOCA_BLOCK f "init_block" ;;
  ret_t_block <- SAFE_ALLOCA_BLOCK f "ret_t_block" ;;
  ret_nil_block <- SAFE_ALLOCA_BLOCK f "ret_nil_block" ;;
  set_comp_block init_block ;;;
  set_comp_func f ;;;
  emit_cond_jump (Param_as_rvalue param) ret_t_block ret_nil_block ;;;
  set_comp_block ret_t_block ;;;
  bb <- block_gcc_bb ret_t_block ;;
  r <- emit_lisp_obj_from_ptr (ptr_obj Qt) ;;
  record (block_end_with_return bb r) ;;;
  set_comp_block ret_nil_block ;;;
  bb <- block_gcc_bb ret_nil_block ;;
  r <- emit_lisp_obj_from_ptr (ptr_obj Qnil) ;;
  record (block_end_with_return bb r).

(** ** Decoding an operation byte

    A [switch] on [op] selects the label whose value [op] has. *)

Definition all_bytecodes : list bytecode :=
  [ Bstack_ref; Bstack_ref1; Bstack_ref2; Bstack_ref3; Bstack_ref4; Bstack_ref5;
    Bstack_ref6; Bstack_ref7;
    Bvarref; Bvarref1; Bvarref2; Bvarref3; Bvarref4; Bvarref5; Bvarref6; Bvarref7;
    Bvarset; Bvarset1; Bvarset2; Bvarset3; Bvarset4; Bvarset5; Bvarset6; Bvarset7;
    Bvarbind; Bvarbind1; Bvarbind2; Bvarbind3; Bvarbind4; Bvarbind5; Bvarbind6; Bvarbind7;
    Bcall; Bcall1; Bcall2; Bcall3; Bcall4; Bcall5; Bcall6; Bcall7;
    Bunbind; Bunbind1; Bunbind2; Bunbind3; Bunbind4; Bunbind5; Bunbind6; Bunbind7;
    Bpophandler; Bpushconditioncase; Bpushcatch;
    Bnth; Bsymbolp; Bconsp; Bstringp; Blistp; Beq; Bmemq; Bnot; Bcar; Bcdr; Bcons;
    Blist1; Blist2; Blist3; Blist4; Blength; Baref; Baset; Bsymbol_value;
    Bsymbol_function; Bset; Bfset; Bget; Bsubstring; Bconcat2; Bconcat3; Bconcat4;
    Bsub1; Badd1; Beqlsign; Bgtr; Blss; Bleq; Bgeq; Bdiff; Bnegate; Bplus; Bmax;
    Bmin; Bmult; Bpoint; Bsave_current_buffer; Bgoto_char; Binsert; Bpoint_max;
    Bpoint_min; Bchar_after; Bfollowing_char; Bpreceding_char; Bcurrent_column;
    Bindent_to; Beolp; Beobp; Bbolp; Bbobp; Bcurrent_buffer; Bset_buffer;
    Bsave_current_buffer_1; Binteractive_p; Bforward_char; Bforward_word;
    Bskip_chars_forward; Bskip_chars_backward; Bforward_line; Bchar_syntax;
    Bbuffer_substring; Bdelete_region; Bnarrow_to_region; Bwiden; Bend_of_line;
    Bconstant2; Bgoto; Bgotoifnil; Bgotoifnonnil; Bgotoifnilelsepop;
    Bgotoifnonnilelsepop; Breturn; Bdiscard; Bdup; Bsave_excursion;
    Bsave_window_excursion; Bsave_restriction; Bcatch; Bunwind_protect;
    Bcondition_case; Btemp_output_buffer_setup; Btemp_output_buffer_show; Bunbind_all;
    Bset_marker; Bmatch_beginning; Bmatch_end; Bupcase; Bdowncase; Bstringeqlsign;
    Bstringlss; Bequal; Bnthcdr; Belt; Bmember; Bassq; Bsetcar; Bsetcdr;
    Bcar_safe; Bcdr_safe; Bnconc; Bquo; Brem; Bnumberp; Bintegerp;
    BRgoto; BRgotoifnil; BRgotoifnonnil; BRgotoifnilelsepop; BRgotoifnonnilelsepop;
    BlistN; BconcatN; BinsertN; Bstack_set; Bstack_set2; BdiscardN; Bswitch;
    Bconstant ].

Definition decode (op : Z) : option bytecode :=
  find (fun b => byte_of H b =? op) all_bytecodes.

(** ** Basic blocks *)

Definition rbind {A B} (r : result A) (f : A -> result B) : result B :=
  match r with
  | Ok a => f a
  | Error e => Error e
  | Undefined u => Undefined u
  end.

(** [ucmp] reads the two [unsigned] as [int]. *)
Definition ucmp (a b : Z) : Z :=
  if to_signed 32 a <? to_signed 32 b then -1
  else if to_signed 32 a >? to_signed 32 b then 1 else 0.

Fixpoint qsort_insert (x : Z) (l : list Z) : list Z :=
  match l with
  | [] => [x]
  | y :: l' => if ucmp x y <=? 0 then x :: l else y :: qsort_insert x l'
  end.

(** [qsort (bb_start_pc, bb_n, sizeof (unsigned), ucmp)] *)
Definition qsort (l : list Z) : list Z := foldr qsort_insert [] l.

(** [bb_start_pc[bb_n++] = v]; the array holds [bytestr_length]
    elements. *)
Definition bb_start_pc_push (bytestr_length : Z) (bb_start_pc : list Z) (v : Z)
  : result (list Z) :=
  if bool_decide (Z.of_nat (length bb_start_pc) < bytestr_length)
  then Ok (bb_start_pc ++ [to_unsigned 32 v])
  else Undefined "bb_start_pc".

(** The scan of [compute_blocks]; every turn takes at least one byte, so
    [bytestr_length] turns suffice. *)
Fixpoint compute_blocks_scan (turns : nat) (bytestr_length : Z) (bytestr_data : list Z)
    (pc : Z) (new_bb : bool) (bb_start_pc : list Z) : result (list Z) :=
  if bool_decide (pc < bytestr_length) then
    match turns with
    | O => Undefined "compute_blocks: more turns than bytes"
    | S turns =>
        rbind (if new_bb then bb_start_pc_push bytestr_length bb_start_pc pc
               else Ok bb_start_pc) (fun bb_start_pc =>
        let new_bb := false in
        rbind (array_get "bytestr_data" bytestr_data pc) (fun op =>
        let pc := pc + 1 in
        match decode op with
        | Some (Bvarref7 | Bvarset7 | Bvarbind7 | Bcall7 | Bunbind7 | Bstack_ref7
               | Bstack_set2) =>
            compute_blocks_scan turns bytestr_length bytestr_data (pc + 2) new_bb
              bb_start_pc
        | Some (Bvarref6 | Bvarset6 | Bvarbind6 | Bcall6 | Bunbind6 | Bconstant2
               | BlistN | BconcatN | BinsertN | Bstack_ref6 | Bstack_set | BdiscardN) =>
            compute_blocks_scan turns bytestr_length bytestr_data (pc + 1) new_bb
              bb_start_pc
        | Some (Bgoto | Bgotoifnil | Bgotoifnonnil | Bgotoifnilelsepop
               | Bgotoifnonnilelsepop | Bpushcatch | Bpushconditioncase) =>
            rbind (array_get "bytestr_data" bytestr_data pc) (fun lo =>
            rbind (array_get "bytestr_data" bytestr_data (pc + 1)) (fun hi =>
            let op := lo + Z.shiftl hi 8 in
            rbind (bb_start_pc_push bytestr_length bb_start_pc op) (fun bb_start_pc =>
            compute_blocks_scan turns bytestr_length bytestr_data (pc + 2) true
              bb_start_pc)))
        | Some (BRgoto | BRgotoifnil | BRgotoifnonnil | BRgotoifnilelsepop
               | BRgotoifnonnilelsepop) =>
            rbind (array_get "bytestr_data" bytestr_data pc) (fun b =>
            let op := to_unsigned 32 (b - 128) in
            rbind (bb_start_pc_push bytestr_length bb_start_pc op) (fun bb_start_pc =>
            compute_blocks_scan turns bytestr_length bytestr_data (pc + 1) true
              bb_start_pc))
        | Some (Bsub1 | Badd1 | Bnegate | Breturn) =>
            compute_blocks_scan turns bytestr_length bytestr_data pc true bb_start_pc
        | _ =>
            compute_blocks_scan turns bytestr_length bytestr_data pc new_bb bb_start_pc
        end))
    end
  else Ok bb_start_pc.

(** Remove possible duplicates: the loop over [i] and [j], [n] turns
    left. *)
Fixpoint remove_duplicates (n : nat) (i j : nat) (bb_start_pc : list Z)
  : list Z * nat :=
  match n with
  | O => (bb_start_pc, j)
  | S n' =>
      match bb_start_pc !! i, bb_start_pc !! j with
      | Some x, Some y =>
          if bool_decide (x = y) then remove_duplicates n' (S i) j bb_start_pc
          else remove_duplicates n' (S i) (S j) (<[S j := x]> bb_start_pc)
      | _, _ => (bb_start_pc, j)
      end
  end.

(** The block-leader PCs that [compute_blocks] holds in [bb_start_pc]
    before it makes the blocks: scanned, sorted, without duplicates. *)
Definition compute_blocks_leaders (bytestr_length : Z) (bytestr_data : list Z)
  : result (list Z) :=
  rbind (compute_blocks_scan (Z.to_nat bytestr_length) bytestr_length bytestr_data
           0 true []) (fun bb_start_pc =>
  let bb_n := length bb_start_pc in
  let sorted := qsort bb_start_pc in
  let '(a, j) := remove_duplicates bb_n 0 0 sorted in
  Ok (take (S j) a)).

(** The last loop of [compute_blocks]: [curr_bb] is not initialised
    before the first leader is met. *)
Fixpoint compute_blocks_sweep (turns : nat) (pc : Z) (i : nat) (leaders : list Z)
    (curr_bb : option basic_block_t) (bb_map : list basic_block_t)
  : M (list basic_block_t) :=
  match turns with
  | O => ret bb_map
  | S turns =>
      r <- (if bool_decide (leaders !! i = Some (to_unsigned 32 pc))
            then
              f <- comp_func ;;
              name <- format_string ("bb_" +:+ pretty (S i)) ;;
              b <- gcc_jit_function_new_block f name ;;
              ret (S i, Some {| gcc_bb := b; bb_top := None; terminated := false |})
            else ret (i, curr_bb)) ;;
      let '(i, curr_bb) := r in
      bb <- deref "compute_blocks: curr_bb" curr_bb ;;
      compute_blocks_sweep turns (pc + 1) i leaders curr_bb (bb_map ++ [bb])
  end.

(** Compute and initialize all basic blocks. *)
Definition compute_blocks (bytestr_length : Z) (bytestr_data : list Z)
  : M (list basic_block_t) :=
  leaders <- lift (compute_blocks_leaders bytestr_length bytestr_data) ;;
  compute_blocks_sweep (Z.to_nat bytestr_length) 0 0 leaders None [].

(** [Flength] on the argument template: the length of a proper list. *)
Fixpoint Flength (o : Lisp_Object) : result Z :=
  match o with
  | Qnil => Ok 0
  | Lisp_cons _ d => rbind (Flength d) (fun n => Ok (n + 1))
  | _ => Error "wrong-type-argument listp"
  end.

(** ** [compile_f] *)

Section compile_f.

Context (lisp_f_name c_f_name : string).
Context (bytestr_length : Z) (bytestr_data : list Z).
Context (stack_depth : Z).
Context (vectorp : list Lisp_Object) (vector_size : Z).
Context (args_template : Lisp_Object).

(** Fetch the next byte from the bytecode stream. *)
Definition FETCH (fr : frame) : M (Z * frame) :=
  b <- lift (array_get "bytestr_data" bytestr_data (pc fr)) ;;
  ret (b, with_pc (pc fr + 1) fr).

(** Fetch two bytes from the bytecode stream and make a 16-bit number
    out of them. *)
Definition FETCH2 (fr : frame) : M (Z * frame) :=
  ' (lo, fr) <- FETCH fr ;;
  ' (hi, fr) <- FETCH fr ;;
  ret (lo + Z.shiftl hi 8, fr).

Definition PUSH_RVAL (obj : gcc_jit_rvalue) (fr : frame) : M frame :=
  p <- comp_block ;;
  emit_assign_to_stack_slot p (stack fr) obj ;;;
  ret (with_stack (stack fr + 1) fr).

Definition PUSH_LVAL (obj : gcc_jit_lvalue) (fr : frame) : M frame :=
  PUSH_RVAL (Lvalue_as_rvalue obj) fr.

(** This always happens in the first basic block. *)
Definition PUSH_PARAM (prologue : block_ptr) (obj : gcc_jit_param) (fr : frame) : M frame :=
  emit_assign_to_stack_slot prologue (stack fr) (Param_as_rvalue obj) ;;;
  ret (with_stack (stack fr + 1) fr).

(** [TOS] is [*(stack - 1)]. *)
Definition TOS (fr : frame) : M stack_el_t := slot_get (stack fr - 1).

Definition DISCARD (n : Z) (fr : frame) : frame := with_stack (stack fr - n) fr.

Definition set_arg (i : Z) (v : gcc_jit_rvalue) (fr : frame) : M frame :=
  a <- lift (array_set "args" (args fr) i (Some v)) ;; ret (with_args a fr).

(** [stack--; args[i] = gcc_jit_lvalue_as_rvalue (stack->gcc_lval)] *)
Definition pop_to (i : Z) (fr : frame) : M frame :=
  let fr := with_stack (stack fr - 1) fr in
  e <- slot_get (stack fr) ;;
  set_arg i (Lvalue_as_rvalue (gcc_lval e)) fr.

Definition POP0 (fr : frame) : M frame := ret fr.
Definition POP1 (fr : frame) : M frame := pop_to 0 fr.
Definition POP2 (fr : frame) : M frame := fr <- pop_to 1 fr ;; pop_to 0 fr.
Definition POP3 (fr : frame) : M frame :=
  fr <- pop_to 2 fr ;; fr <- pop_to 1 fr ;; pop_to 0 fr.

Definition POP (nargs : nat) (fr : frame) : M frame :=
  match nargs with
  | 0%nat => POP0 fr
  | 1%nat => POP1 fr
  | 2%nat => POP2 fr
  | _ => POP3 fr
  end.

(** Pop from the meta-stack, emit the call and push the result. *)
Definition EMIT_CALL_N (name : string) (nargs : nat) (fr : frame) : M frame :=
  fr <- POP nargs fr ;;
  a <- args_from (args fr) 0 nargs ;;
  res <- emit_call name lisp_obj_type a ;;
  PUSH_RVAL res fr.

(** [CASE (op)]: the comment is the name of the label. *)
Definition CASE (label : string) : M unit := emit_comment label.

(** Generate appropriate case and emit call to function. *)
Definition CASE_CALL_N (name : string) (nargs : nat) (fr : frame) : M frame :=
  CASE ("B" +:+ name) ;;;
  EMIT_CALL_N ("F" +:+ name) nargs fr.

(** Emit calls to functions with prototype (ptrdiff_t nargs, Lisp_Object
    *args), passing a reference to the first obj involved on the stack. *)
Definition EMIT_CALL_N_REF (name : string) (nargs : Z) (fr : frame) : M frame :=
  let fr := DISCARD nargs fr in
  e <- slot_get (stack fr) ;;
  res <- emit_call_n_ref name nargs (gcc_lval e) ;;
  PUSH_RVAL res fr.

Definition EMIT_ARITHCOMPARE (comparison : Z) (fr : frame) : M frame :=
  fr <- POP2 fr ;;
  fr <- set_arg 2 (Rvalue_from_int int_type comparison) fr ;;
  a <- args_from (args fr) 0 3 ;;
  res <- emit_call "arithcompare" lisp_obj_type a ;;
  PUSH_RVAL res fr.

Definition stack_ref (k : Z) (fr : frame) : M frame :=
  e <- slot_get (stack fr - k - 1) ;;
  PUSH_LVAL (gcc_lval e) fr.

Definition varref (op : Z) (fr : frame) : M frame :=
  c <- lift (array_get "vectorp" vectorp op) ;;
  a0 <- emit_lisp_obj_from_ptr (ptr_obj c) ;;
  fr <- set_arg 0 a0 fr ;;
  a <- args_from (args fr) 0 1 ;;
  res <- emit_call "Fsymbol_value" lisp_obj_type a ;;
  PUSH_RVAL res fr.

Definition varset (nil : gcc_jit_rvalue) (op : Z) (fr : frame) : M frame :=
  fr <- POP1 fr ;;
  a0 <- arg (args fr) 0 ;;
  fr <- set_arg 1 a0 fr ;;
  c <- lift (array_get "vectorp" vectorp op) ;;
  a0 <- emit_lisp_obj_from_ptr (ptr_obj c) ;;
  fr <- set_arg 0 a0 fr ;;
  fr <- set_arg 2 nil fr ;;
  fr <- set_arg 3 (Rvalue_from_int int_type (SET_INTERNAL_SET H)) fr ;;
  a <- args_from (args fr) 0 4 ;;
  res <- emit_call "set_internal" lisp_obj_type a ;;
  PUSH_RVAL res fr.

Definition varbind (op : Z) (fr : frame) : M frame :=
  c <- lift (array_get "vectorp" vectorp op) ;;
  a0 <- emit_lisp_obj_from_ptr (ptr_obj c) ;;
  fr <- set_arg 0 a0 fr ;;
  ' (st, a) <- pop 1 (stack fr) (args fr) 1 ;;
  let fr := with_args a (with_stack st fr) in
  a <- args_from (args fr) 0 2 ;;
  res <- emit_call "specbind" lisp_obj_type a ;;
  PUSH_RVAL res fr.

(** The label [docall]: [op] arguments and the function under them. *)
Definition docall (op : Z) (fr : frame) : M frame :=
  let nargs := to_unsigned 32 (op + 1) in
  ' (st, a) <- pop (Z.to_nat nargs) (stack fr) (args fr) 0 ;;
  let fr := with_args a (with_stack st fr) in
  e <- slot_get (stack fr) ;;
  res <-
    (if const_set e && bool_decide (type e = Some Lisp_Symbol) then
       let native_nargs := op in
       let sym_name := SYMBOL_NAME (constant e) in
       if strcmp_eq sym_name lisp_f_name then
         (* Optimize self calls. *)
         f <- comp_func ;;
         a <- args_from (args fr) 1 (Z.to_nat native_nargs) ;;
         ret (Some (Call f a))
       else
         match symbol_function (constant e) with
         | Lisp_subr subr =>
             (* Optimize primitive native calls. *)
             str <- format_string ("Calling primitive " +:+ c_str sym_name) ;;
             emit_comment str ;;;
             if bool_decide (max_args subr = MANY H) then ret None
             else
               let types := replicate (Z.to_nat native_nargs) lisp_obj_type in
               let fn_ptr_type := Tfunction_ptr lisp_obj_type types in
               a <- args_from (args fr) 1 (Z.to_nat native_nargs) ;;
               ret (Some (Call_through_ptr
                            (Rvalue_from_ptr fn_ptr_type (ptr_fun (function_a0 subr)))
                            a))
         | _ => ret None
         end
     else ret None) ;;
  (* Fall back to regular funcall dispatch mechanism. *)
  res <- match res with
         | Some r => ret r
         | None => emit_call_n_ref "Ffuncall" nargs (gcc_lval e)
         end ;;
  PUSH_RVAL res fr.

Definition dounbind (op : Z) (fr : frame) : M frame :=
  fr <- set_arg 0 (Rvalue_from_int (ptrdiff_type H) op) fr ;;
  a <- args_from (args fr) 0 1 ;;
  emit_call "helper_unbind_n" lisp_obj_type a ;;;
  ret fr.

(** [current_thread->m_handlerlist] *)
Definition m_handlerlist_lval : gcc_jit_lvalue :=
  Dereference_field current_thread m_handlerlist.

Definition pophandler (fr : frame) : M frame :=
  bb <- comp_block_gcc_bb ;;
  record (block_add_assignment bb m_handlerlist_lval
            (Lvalue_as_rvalue
               (Dereference_field (Lvalue_as_rvalue m_handlerlist_lval)
                  handler_next_field))) ;;;
  ret fr.

(** The label [pushhandler]; [type] is CATCHER or CONDITION_CASE. *)
Definition pushhandler (type : Z) (fr : frame) : M frame :=
  (* struct handler *c = push_handler (POP, type); *)
  ' (handler_pc, fr) <- FETCH2 fr ;;
  f <- comp_func ;;
  name <- format_string ("c_" +:+ pretty (pushhandler_n fr)) ;;
  c <- gcc_jit_function_new_local f handler_ptr_type name ;;
  fr <- POP1 fr ;;
  fr <- set_arg 1 (Rvalue_from_int int_type type) fr ;;
  bb <- comp_block_gcc_bb ;;
  a <- args_from (args fr) 0 2 ;;
  call <- emit_call "push_handler" handler_ptr_type a ;;
  record (block_add_assignment bb c call) ;;;
  fr <- set_arg 0 (Get_address
                     (Dereference_field (Lvalue_as_rvalue c) handler_jmp_field)) fr ;;
  a <- args_from (args fr) 0 1 ;;
  res <- emit_call (if HAVE__SETJMP H then "_setjmp" else "setjmp") int_type a ;;
  name <- format_string ("push_h_val_" +:+ pretty (pushhandler_n fr)) ;;
  push_h_val_block <- SAFE_ALLOCA_BLOCK f name ;;
  emit_cond_jump res push_h_val_block (in_bb_map (pc fr)) ;;;
  let stack_to_restore := stack fr in
  (* This emit the handler part. *)
  bb_orig <- comp_block ;;
  set_comp_block push_h_val_block ;;;
  (* current_thread->m_handlerlist = c->next; *)
  bb <- comp_block_gcc_bb ;;
  record (block_add_assignment bb m_handlerlist_lval
            (Lvalue_as_rvalue
               (Dereference_field (Lvalue_as_rvalue c) handler_next_field))) ;;;
  (* PUSH (c->val); *)
  fr <- PUSH_LVAL (Dereference_field (Lvalue_as_rvalue c) handler_val_field) fr ;;
  set_top (in_bb_map handler_pc) (Some (stack fr)) ;;;
  set_comp_block bb_orig ;;;
  bb <- block_gcc_bb push_h_val_block ;;
  target <- block_gcc_bb (in_bb_map handler_pc) ;;
  record (block_end_with_jump bb target) ;;;
  ret (with_pushhandler_n (S (pushhandler_n fr)) (with_stack stack_to_restore fr)).

Definition call_inline (h : helper) (what : string) (nargs : nat) (fr : frame) : M frame :=
  fr <- POP nargs fr ;;
  f <- helper_function h what ;;
  a <- args_from (args fr) 0 nargs ;;
  PUSH_RVAL (Call f a) fr.

(** The label [make_list]. *)
Fixpoint make_list_loop (n : nat) (fr : frame) : M frame :=
  match n with
  | O => ret fr
  | S n' =>
      fr <- POP2 fr ;;
      a <- args_from (args fr) 0 2 ;;
      res <- emit_call "Fcons" lisp_obj_type a ;;
      fr <- PUSH_RVAL res fr ;;
      make_list_loop n' fr
  end.

Definition make_list (nil : gcc_jit_rvalue) (op : Z) (fr : frame) : M frame :=
  fr <- POP1 fr ;;
  fr <- set_arg 1 nil fr ;;
  a <- args_from (args fr) 0 2 ;;
  res <- emit_call "Fcons" lisp_obj_type a ;;
  fr <- PUSH_RVAL res fr ;;
  make_list_loop (Z.to_nat op) fr.

(** The test of [Bsub1], [Badd1] and [Bnegate]:
    FIXNUMP (TOP) && XFIXNUM (TOP) != [limit]. *)
Definition emit_fixnum_test (tos : gcc_jit_lvalue) (tos_as_num limit : gcc_jit_rvalue)
  : M gcc_jit_rvalue :=
  f <- emit_FIXNUMP (Lvalue_as_rvalue tos) ;;
  c <- emit_cast bool_type f ;;
  ret (Binary_op GCC_JIT_BINARY_OP_LOGICAL_AND bool_type c
         (Comparison GCC_JIT_COMPARISON_NE tos_as_num limit)).

(** [Bsub1] and [Badd1], which differ in the names, the limit, the
    operation and the function called. *)
Definition sub1_add1 (name : string) (limit : gcc_jit_rvalue) (op : gcc_jit_binary_op)
    (f_name : string) (fr : frame) : M frame :=
  f <- comp_func ;;
  inline_block <- SAFE_ALLOCA_BLOCK f (name +:+ "_inline_block") ;;
  fcall_block <- SAFE_ALLOCA_BLOCK f (name +:+ "_fcall_block") ;;
  tos <- TOS fr ;;
  tos_as_num <- emit_XFIXNUM (Lvalue_as_rvalue (gcc_lval tos)) ;;
  test <- emit_fixnum_test (gcc_lval tos) tos_as_num limit ;;
  emit_cond_jump test inline_block fcall_block ;;;
  let inline_res := Binary_op op (emacs_int_type H) tos_as_num one in
  bb_orig <- comp_block ;;
  set_comp_block inline_block ;;;
  v <- emit_make_fixnum inline_res ;;
  emit_assign_to_stack_slot inline_block (stack fr - 1) v ;;;
  set_comp_block fcall_block ;;;
  fr <- POP1 fr ;;
  a <- args_from (args fr) 0 1 ;;
  res <- emit_call f_name lisp_obj_type a ;;
  fr <- PUSH_RVAL res fr ;;
  bb <- block_gcc_bb inline_block ;;
  next <- block_gcc_bb (in_bb_map (pc fr)) ;;
  record (block_end_with_jump bb next) ;;;
  bb <- block_gcc_bb fcall_block ;;
  next <- block_gcc_bb (in_bb_map (pc fr)) ;;
  record (block_end_with_jump bb next) ;;;
  set_comp_block bb_orig ;;;
  ret fr.

Definition negate (fr : frame) : M frame :=
  f <- comp_func ;;
  negate_inline_block <- SAFE_ALLOCA_BLOCK f "negate_inline_block" ;;
  negate_fcall_block <- SAFE_ALLOCA_BLOCK f "negate_fcall_block" ;;
  tos <- TOS fr ;;
  tos_as_num <- emit_XFIXNUM (Lvalue_as_rvalue (gcc_lval tos)) ;;
  test <- emit_fixnum_test (gcc_lval tos) tos_as_num most_negative_fixnum ;;
  emit_cond_jump test negate_inline_block negate_fcall_block ;;;
  let negate_inline_res :=
    Unary_op GCC_JIT_UNARY_OP_MINUS (emacs_int_type H) tos_as_num in
  bb_orig <- comp_block ;;
  set_comp_block negate_inline_block ;;;
  v <- emit_make_fixnum negate_inline_res ;;
  emit_assign_to_stack_slot negate_inline_block (stack fr - 1) v ;;;
  set_comp_block negate_fcall_block ;;;
  fr <- EMIT_CALL_N_REF "Fminus" 1 fr ;;
  bb <- block_gcc_bb negate_inline_block ;;
  next <- block_gcc_bb (in_bb_map (pc fr)) ;;
  record (block_end_with_jump bb next) ;;;
  bb <- block_gcc_bb negate_fcall_block ;;
  next <- block_gcc_bb (in_bb_map (pc fr)) ;;
  record (block_end_with_jump bb next) ;;;
  set_comp_block bb_orig ;;;
  ret fr.

(** [Bpoint], [Bpoint_max] and [Bpoint_min]: the position, a
    [ptrdiff_t], is handed to [gcc_jit_context_new_rvalue_from_int],
    whose parameter is an [int]. *)
Definition make_fixed_natnum (v : Z) (fr : frame) : M frame :=
  fr <- set_arg 0 (Rvalue_from_int (ptrdiff_type H) (to_signed 32 v)) fr ;;
  a <- args_from (args fr) 0 1 ;;
  res <- emit_call "make_fixed_natnum" lisp_obj_type a ;;
  PUSH_RVAL res fr.

(** [Bgoto] and [BRgoto], once the target is in [op]. *)
Definition do_goto (op : Z) (fr : frame) : M frame :=
  bb <- comp_block_gcc_bb ;;
  target <- block_gcc_bb (in_bb_map op) ;;
  record (block_end_with_jump bb target) ;;;
  p <- comp_block ;;
  set_terminated p true ;;;
  set_top (in_bb_map op) (Some (stack fr)) ;;;
  ret fr.

(** [Bgotoifnil], [Bgotoifnonnil] and their relative forms. *)
Definition do_gotoif (cmp : gcc_jit_comparison) (nil : gcc_jit_rvalue) (op : Z)
    (fr : frame) : M frame :=
  fr <- POP1 fr ;;
  a0 <- arg (args fr) 0 ;;
  emit_comparison_jump cmp a0 nil (in_bb_map op) (in_bb_map (pc fr)) ;;;
  set_top (in_bb_map op) (Some (stack fr)) ;;;
  ret fr.

(** [Bgotoifnilelsepop], [Bgotoifnonnilelsepop] and their relative
    forms. *)
Definition do_gotoifelsepop (cmp : gcc_jit_comparison) (nil : gcc_jit_rvalue) (op : Z)
    (fr : frame) : M frame :=
  tos <- TOS fr ;;
  emit_comparison_jump cmp (Lvalue_as_rvalue (gcc_lval tos)) nil
    (in_bb_map op) (in_bb_map (pc fr)) ;;;
  set_top (in_bb_map op) (Some (stack fr)) ;;;
  ret (DISCARD 1 fr).

(** [op = FETCH - 128; op += pc]: the target of a relative branch. *)
Definition FETCH_relative (fr : frame) : M (Z * frame) :=
  ' (b, fr) <- FETCH fr ;;
  let op := to_unsigned 32 (b - 128) in
  let op := to_unsigned 32 (op + pc fr) in
  ret (op, fr).

(** The label [do_constant], and the end of the default case. *)
Definition do_constant (op : Z) (fr : frame) : M frame :=
  (* See the Bswitch case for commentary. *)
  next_is_switch <-
    (if bool_decide (pc fr >= bytestr_length) then ret false
     else b <- lift (array_get "bytestr_data" bytestr_data (pc fr)) ;;
          ret (bool_decide (b = byte_of H Bswitch))) ;;
  if negb next_is_switch then
    k <- lift (array_get "vectorp" vectorp op) ;;
    c <- emit_lisp_obj_from_ptr (ptr_obj k) ;;
    fr <- PUSH_RVAL c fr ;;
    tos <- TOS fr ;;
    let ty := XTYPE k in
    (if bool_decide (ty = Lisp_Symbol)
     then
       (* Store the symbol value for later use is used while
          optimizing native and self calls. *)
       slot_put (stack fr - 1)
         {| gcc_lval := gcc_lval tos; type := Some ty; constant := k; const_set := true |}
     else
       slot_put (stack fr - 1)
         {| gcc_lval := gcc_lval tos; type := Some ty; constant := constant tos;
            const_set := const_set tos |}) ;;;
    ret fr
  else
    (* We're compiling Bswitch instead. *)
    ret (with_pc (pc fr + 1) fr).

(** The default case, which is also the case of [Bconstant]. *)
Definition default_case (op : Z) (fr : frame) : M frame :=
  CASE "Bconstant" ;;;
  if bool_decide (op < byte_of H Bconstant) || bool_decide (op > byte_of H Bconstant + vector_size)
  then error "Something went wrong"
  else do_constant (op - byte_of H Bconstant) fr.

(** The [switch (op)] of [compile_f]; [fr] is the frame after
    [op = FETCH]. *)
Definition compile_op (nil : gcc_jit_rvalue) (op : Z) (fr : frame) : M frame :=
  match decode op with
  | Some Bstack_ref1 => CASE "Bstack_ref1" ;;; stack_ref (op - byte_of H Bstack_ref) fr
  | Some Bstack_ref2 => CASE "Bstack_ref2" ;;; stack_ref (op - byte_of H Bstack_ref) fr
  | Some Bstack_ref3 => CASE "Bstack_ref3" ;;; stack_ref (op - byte_of H Bstack_ref) fr
  | Some Bstack_ref4 => CASE "Bstack_ref4" ;;; stack_ref (op - byte_of H Bstack_ref) fr
  | Some Bstack_ref5 => CASE "Bstack_ref5" ;;; stack_ref (op - byte_of H Bstack_ref) fr
  | Some Bstack_ref6 =>
      CASE "Bstack_ref6" ;;; ' (k, fr) <- FETCH fr ;; stack_ref k fr
  | Some Bstack_ref7 =>
      CASE "Bstack_ref7" ;;; ' (k, fr) <- FETCH2 fr ;; stack_ref k fr
  | Some Bvarref7 => CASE "Bvarref7" ;;; ' (op, fr) <- FETCH2 fr ;; varref op fr
  | Some Bvarref => CASE "Bvarref" ;;; varref (op - byte_of H Bvarref) fr
  | Some Bvarref1 => CASE "Bvarref1" ;;; varref (op - byte_of H Bvarref) fr
  | Some Bvarref2 => CASE "Bvarref2" ;;; varref (op - byte_of H Bvarref) fr
  | Some Bvarref3 => CASE "Bvarref3" ;;; varref (op - byte_of H Bvarref) fr
  | Some Bvarref4 => CASE "Bvarref4" ;;; varref (op - byte_of H Bvarref) fr
  | Some Bvarref5 => CASE "Bvarref5" ;;; varref (op - byte_of H Bvarref) fr
  | Some Bvarref6 => CASE "Bvarref6" ;;; ' (op, fr) <- FETCH fr ;; varref op fr
  | Some Bvarset => CASE "Bvarset" ;;; varset nil (op - byte_of H Bvarset) fr
  | Some Bvarset1 => CASE "Bvarset1" ;;; varset nil (op - byte_of H Bvarset) fr
  | Some Bvarset2 => CASE "Bvarset2" ;;; varset nil (op - byte_of H Bvarset) fr
  | Some Bvarset3 => CASE "Bvarset3" ;;; varset nil (op - byte_of H Bvarset) fr
  | Some Bvarset4 => CASE "Bvarset4" ;;; varset nil (op - byte_of H Bvarset) fr
  | Some Bvarset5 => CASE "Bvarset5" ;;; varset nil (op - byte_of H Bvarset) fr
  | Some Bvarset7 => CASE "Bvarset7" ;;; ' (op, fr) <- FETCH2 fr ;; varset nil op fr
  | Some Bvarset6 => CASE "Bvarset6" ;;; ' (op, fr) <- FETCH fr ;; varset nil op fr
  | Some Bvarbind6 => CASE "Bvarbind6" ;;; ' (op, fr) <- FETCH fr ;; varbind op fr
  | Some Bvarbind7 => CASE "Bvarbind7" ;;; ' (op, fr) <- FETCH2 fr ;; varbind op fr
  | Some Bvarbind => CASE "Bvarbind" ;;; varbind (op - byte_of H Bvarbind) fr
  | Some Bvarbind1 => CASE "Bvarbind1" ;;; varbind (op - byte_of H Bvarbind) fr
  | Some Bvarbind2 => CASE "Bvarbind2" ;;; varbind (op - byte_of H Bvarbind) fr
  | Some Bvarbind3 => CASE "Bvarbind3" ;;; varbind (op - byte_of H Bvarbind) fr
  | Some Bvarbind4 => CASE "Bvarbind4" ;;; varbind (op - byte_of H Bvarbind) fr
  | Some Bvarbind5 => CASE "Bvarbind5" ;;; varbind (op - byte_of H Bvarbind) fr
  | Some Bcall6 => CASE "Bcall6" ;;; ' (op, fr) <- FETCH fr ;; docall op fr
  | Some Bcall7 => CASE "Bcall7" ;;; ' (op, fr) <- FETCH2 fr ;; docall op fr
  | Some Bcall => CASE "Bcall" ;;; docall (op - byte_of H Bcall) fr
  | Some Bcall1 => CASE "Bcall1" ;;; docall (op - byte_of H Bcall) fr
  | Some Bcall2 => CASE "Bcall2" ;;; docall (op - byte_of H Bcall) fr
  | Some Bcall3 => CASE "Bcall3" ;;; docall (op - byte_of H Bcall) fr
  | Some Bcall4 => CASE "Bcall4" ;;; docall (op - byte_of H Bcall) fr
  | Some Bcall5 => CASE "Bcall5" ;;; docall (op - byte_of H Bcall) fr
  | Some Bunbind6 => CASE "Bunbind6" ;;; ' (op, fr) <- FETCH fr ;; dounbind op fr
  | Some Bunbind7 => CASE "Bunbind7" ;;; ' (op, fr) <- FETCH2 fr ;; dounbind op fr
  | Some Bunbind => CASE "Bunbind" ;;; dounbind (op - byte_of H Bunbind) fr
  | Some Bunbind1 => CASE "Bunbind1" ;;; dounbind (op - byte_of H Bunbind) fr
  | Some Bunbind2 => CASE "Bunbind2" ;;; dounbind (op - byte_of H Bunbind) fr
  | Some Bunbind3 => CASE "Bunbind3" ;;; dounbind (op - byte_of H Bunbind) fr
  | Some Bunbind4 => CASE "Bunbind4" ;;; dounbind (op - byte_of H Bunbind) fr
  | Some Bunbind5 => CASE "Bunbind5" ;;; dounbind (op - byte_of H Bunbind) fr
  | Some Bpophandler => CASE "Bpophandler" ;;; pophandler fr
  | Some Bpushconditioncase =>
      CASE "Bpushconditioncase" ;;; pushhandler (CONDITION_CASE H) fr
  | Some Bpushcatch => CASE "Bpushcatch" ;;; pushhandler (CATCHER H) fr
  | Some Bnth => CASE_CALL_N "nth" 2 fr
  | Some Bsymbolp => CASE_CALL_N "symbolp" 1 fr
  | Some Bconsp =>
      CASE "Bconsp" ;;;
      fr <- POP1 fr ;;
      a0 <- arg (args fr) 0 ;;
      t <- emit_CONSP a0 ;;
      res <- emit_cast bool_type t ;;
      f <- helper_function h_bool_to_lisp_obj "comp.bool_to_lisp_obj" ;;
      PUSH_RVAL (Call f [res]) fr
  | Some Bstringp => CASE_CALL_N "stringp" 1 fr
  | Some Blistp => CASE_CALL_N "listp" 1 fr
  | Some Beq => CASE_CALL_N "eq" 2 fr
  | Some Bmemq => CASE_CALL_N "memq" 1 fr
  | Some Bnot => CASE_CALL_N "not" 1 fr
  | Some Bcar => call_inline h_car "comp.car" 1 fr
  | Some Bcdr => call_inline h_cdr "comp.cdr" 1 fr
  | Some Bcons => CASE_CALL_N "cons" 2 fr
  | Some BlistN => CASE "BlistN" ;;; ' (op, fr) <- FETCH fr ;; make_list nil op fr
  | Some Blist1 => CASE "Blist1" ;;; make_list nil (op - byte_of H Blist1) fr
  | Some Blist2 => CASE "Blist2" ;;; make_list nil (op - byte_of H Blist1) fr
  | Some Blist3 => CASE "Blist3" ;;; make_list nil (op - byte_of H Blist1) fr
  | Some Blist4 => CASE "Blist4" ;;; make_list nil (op - byte_of H Blist1) fr
  | Some Blength => CASE_CALL_N "length" 1 fr
  | Some Baref => CASE_CALL_N "aref" 2 fr
  | Some Baset => CASE_CALL_N "aset" 3 fr
  | Some Bsymbol_value => CASE_CALL_N "symbol_value" 1 fr
  | Some Bsymbol_function => CASE_CALL_N "symbol_function" 1 fr
  | Some Bset => CASE_CALL_N "set" 2 fr
  | Some Bfset => CASE_CALL_N "fset" 2 fr
  | Some Bget => CASE_CALL_N "get" 2 fr
  | Some Bsubstring => CASE_CALL_N "substring" 3 fr
  | Some Bconcat2 => CASE "Bconcat2" ;;; EMIT_CALL_N_REF "Fconcat" 2 fr
  | Some Bconcat3 => CASE "Bconcat3" ;;; EMIT_CALL_N_REF "Fconcat" 3 fr
  | Some Bconcat4 => CASE "Bconcat4" ;;; EMIT_CALL_N_REF "Fconcat" 4 fr
  | Some BconcatN =>
      CASE "BconcatN" ;;; ' (op, fr) <- FETCH fr ;; EMIT_CALL_N_REF "Fconcat" op fr
  | Some Bsub1 =>
      CASE "Bsub1" ;;;
      sub1_add1 "sub1" most_negative_fixnum GCC_JIT_BINARY_OP_MINUS "Fsub1" fr
  | Some Badd1 =>
      CASE "Badd1" ;;;
      sub1_add1 "add1" most_positive_fixnum GCC_JIT_BINARY_OP_PLUS "Fadd1" fr
  | Some Beqlsign => CASE "Beqlsign" ;;; EMIT_ARITHCOMPARE (ARITH_EQUAL H) fr
  | Some Bgtr => CASE "Bgtr" ;;; EMIT_ARITHCOMPARE (ARITH_GRTR H) fr
  | Some Blss => CASE "Blss" ;;; EMIT_ARITHCOMPARE (ARITH_LESS H) fr
  | Some Bleq => CASE "Bleq" ;;; EMIT_ARITHCOMPARE (ARITH_LESS_OR_EQUAL H) fr
  | Some Bgeq => CASE "Bgeq" ;;; EMIT_ARITHCOMPARE (ARITH_GRTR_OR_EQUAL H) fr
  | Some Bdiff => CASE "Bdiff" ;;; EMIT_CALL_N_REF "Fminus" 2 fr
  | Some Bnegate => CASE "Bnegate" ;;; negate fr
  | Some Bplus => CASE "Bplus" ;;; EMIT_CALL_N_REF "Fplus" 2 fr
  | Some Bmax => CASE "Bmax" ;;; EMIT_CALL_N_REF "Fmax" 2 fr
  | Some Bmin => CASE "Bmin" ;;; EMIT_CALL_N_REF "Fmin" 2 fr
  | Some Bmult => CASE "Bmult" ;;; EMIT_CALL_N_REF "Ftimes" 2 fr
  | Some Bpoint => CASE "Bpoint" ;;; make_fixed_natnum (PT H) fr
  | Some Bgoto_char => CASE_CALL_N "goto_char" 1 fr
  | Some Binsert => CASE "Binsert" ;;; EMIT_CALL_N_REF "Finsert" 1 fr
  | Some Bpoint_max => CASE "Bpoint_max" ;;; make_fixed_natnum (ZV H) fr
  | Some Bpoint_min => CASE "Bpoint_min" ;;; make_fixed_natnum (BEGV H) fr
  | Some Bchar_after => CASE_CALL_N "char_after" 1 fr
  | Some Bfollowing_char => CASE_CALL_N "following_char" 0 fr
  | Some Bpreceding_char =>
      CASE "Bpreceding_char" ;;;
      res <- emit_call "Fprevious_char" lisp_obj_type [] ;;
      PUSH_RVAL res fr
  | Some Bcurrent_column => CASE_CALL_N "current_column" 0 fr
  | Some Bindent_to =>
      CASE "Bindent_to" ;;;
      fr <- POP1 fr ;;
      fr <- set_arg 1 nil fr ;;
      a <- args_from (args fr) 0 2 ;;
      res <- emit_call "Findent_to" lisp_obj_type a ;;
      PUSH_RVAL res fr
  | Some Beolp => CASE_CALL_N "eolp" 0 fr
  | Some Beobp => CASE_CALL_N "eobp" 0 fr
  | Some Bbolp => CASE_CALL_N "bolp" 0 fr
  | Some Bbobp => CASE_CALL_N "bobp" 0 fr
  | Some Bcurrent_buffer => CASE_CALL_N "current_buffer" 0 fr
  | Some Bset_buffer => CASE_CALL_N "set_buffer" 1 fr
  | Some Bsave_current_buffer =>
      CASE "Bsave_current_buffer" ;;;
      emit_call "record_unwind_current_buffer" void_type [] ;;; ret fr
  | Some Bsave_current_buffer_1 =>
      CASE "Bsave_current_buffer_1" ;;;
      emit_call "record_unwind_current_buffer" void_type [] ;;; ret fr
  | Some Binteractive_p =>
      CASE "Binteractive_p" ;;;
      c <- emit_lisp_obj_from_ptr (ptr_obj (intern "interactive-p")) ;;
      fr <- PUSH_RVAL c fr ;;
      a <- args_from (args fr) 0 1 ;;
      res <- emit_call "call0" lisp_obj_type a ;;
      PUSH_RVAL res fr
  | Some Bforward_char => CASE_CALL_N "forward_char" 1 fr
  | Some Bforward_word => CASE_CALL_N "forward_word" 1 fr
  | Some Bskip_chars_forward => CASE_CALL_N "skip_chars_forward" 2 fr
  | Some Bskip_chars_backward => CASE_CALL_N "skip_chars_backward" 2 fr
  | Some Bforward_line => CASE_CALL_N "forward_line" 1 fr
  | Some Bchar_syntax => CASE_CALL_N "char_syntax" 1 fr
  | Some Bbuffer_substring => CASE_CALL_N "buffer_substring" 2 fr
  | Some Bdelete_region => CASE_CALL_N "delete_region" 2 fr
  | Some Bnarrow_to_region => CASE_CALL_N "narrow_to_region" 2 fr
  | Some Bwiden => CASE_CALL_N "widen" 0 fr
  | Some Bend_of_line => CASE_CALL_N "end_of_line" 1 fr
  | Some Bconstant2 => CASE "Bconstant2" ;;; do_constant op fr
  | Some Bgoto => CASE "Bgoto" ;;; ' (op, fr) <- FETCH2 fr ;; do_goto op fr
  | Some Bgotoifnil =>
      CASE "Bgotoifnil" ;;;
      ' (op, fr) <- FETCH2 fr ;; do_gotoif GCC_JIT_COMPARISON_EQ nil op fr
  | Some Bgotoifnonnil =>
      CASE "Bgotoifnonnil" ;;;
      ' (op, fr) <- FETCH2 fr ;; do_gotoif GCC_JIT_COMPARISON_NE nil op fr
  | Some Bgotoifnilelsepop =>
      CASE "Bgotoifnilelsepop" ;;;
      ' (op, fr) <- FETCH2 fr ;; do_gotoifelsepop GCC_JIT_COMPARISON_EQ nil op fr
  | Some Bgotoifnonnilelsepop =>
      CASE "Bgotoifnonnilelsepop" ;;;
      ' (op, fr) <- FETCH2 fr ;; do_gotoifelsepop GCC_JIT_COMPARISON_NE nil op fr
  | Some Breturn =>
      CASE "Breturn" ;;;
      fr <- POP1 fr ;;
      a0 <- arg (args fr) 0 ;;
      bb <- comp_block_gcc_bb ;;
      record (block_end_with_return bb a0) ;;;
      p <- comp_block ;;
      set_terminated p true ;;;
      ret fr
  | Some Bdiscard => CASE "Bdiscard" ;;; ret (DISCARD 1 fr)
  | Some Bdup => CASE "Bdup" ;;; tos <- TOS fr ;; PUSH_LVAL (gcc_lval tos) fr
  | Some Bsave_excursion =>
      CASE "Bsave_excursion" ;;;
      emit_call "record_unwind_protect_excursion" void_type [] ;;; ret fr
  | Some Bsave_window_excursion =>
      CASE "Bsave_window_excursion" ;;; EMIT_CALL_N "helper_save_window_excursion" 1 fr
  | Some Bsave_restriction =>
      CASE "Bsave_restriction" ;;;
      a0 <- emit_lisp_obj_from_ptr (ptr_fun "save_restriction_restore") ;;
      fr <- set_arg 0 a0 fr ;;
      a1 <- emit_call "save_restriction_save" lisp_obj_type [] ;;
      fr <- set_arg 1 a1 fr ;;
      a <- args_from (args fr) 0 2 ;;
      emit_call "record_unwind_protect" void_ptr_type a ;;; ret fr
  | Some Bcatch =>
      CASE "Bcatch" ;;;
      fr <- POP2 fr ;;
      a1 <- arg (args fr) 1 ;;
      fr <- set_arg 2 a1 fr ;;
      a1 <- emit_lisp_obj_from_ptr (ptr_fun "eval_sub") ;;
      fr <- set_arg 1 a1 fr ;;
      a <- args_from (args fr) 0 3 ;;
      emit_call "internal_catch" void_ptr_type a ;;; ret fr
  | Some Bunwind_protect =>
      CASE "Bunwind_protect" ;;;
      fr <- POP1 fr ;;
      a <- args_from (args fr) 0 1 ;;
      emit_call "helper_unwind_protect" void_type a ;;; ret fr
  | Some Bcondition_case =>
      CASE "Bcondition_case" ;;;
      fr <- POP3 fr ;;
      a <- args_from (args fr) 0 3 ;;
      emit_call "internal_lisp_condition_case" lisp_obj_type a ;;; ret fr
  | Some Btemp_output_buffer_setup =>
      CASE "Btemp_output_buffer_setup" ;;;
      EMIT_CALL_N "helper_temp_output_buffer_setup" 1 fr
  | Some Btemp_output_buffer_show =>
      CASE "Btemp_output_buffer_show" ;;;
      fr <- POP2 fr ;;
      a <- args_from (args fr) 1 1 ;;
      emit_call "temp_output_buffer_show" void_type a ;;;
      a0 <- arg (args fr) 0 ;;
      fr <- PUSH_RVAL a0 fr ;;
      a <- args_from (args fr) 0 1 ;;
      emit_call "helper_unbind_n" lisp_obj_type a ;;; ret fr
  | Some Bunbind_all => CASE "Bunbind_all" ;;; error "Bunbind_all not supported"
  | Some Bset_marker => CASE_CALL_N "set_marker" 3 fr
  | Some Bmatch_beginning => CASE_CALL_N "match_beginning" 1 fr
  | Some Bmatch_end => CASE_CALL_N "match_end" 1 fr
  | Some Bupcase => CASE_CALL_N "upcase" 1 fr
  | Some Bdowncase => CASE_CALL_N "downcase" 1 fr
  | Some Bstringeqlsign => CASE "Bstringeqlsign" ;;; EMIT_CALL_N "Fstring_equal" 2 fr
  | Some Bstringlss => CASE "Bstringlss" ;;; EMIT_CALL_N "Fstring_lessp" 2 fr
  | Some Bequal => CASE_CALL_N "equal" 2 fr
  | Some Bnthcdr => CASE_CALL_N "nthcdr" 2 fr
  | Some Belt => CASE_CALL_N "elt" 2 fr
  | Some Bmember => CASE_CALL_N "member" 2 fr
  | Some Bassq => CASE_CALL_N "assq" 2 fr
  | Some Bsetcar => call_inline h_setcar "comp.setcar" 2 fr
  | Some Bsetcdr => call_inline h_setcdr "comp.setcdr" 2 fr
  | Some Bcar_safe => CASE "Bcar_safe" ;;; EMIT_CALL_N "CAR_SAFE" 1 fr
  | Some Bcdr_safe => CASE "Bcdr_safe" ;;; EMIT_CALL_N "CDR_SAFE" 1 fr
  | Some Bnconc => CASE "Bnconc" ;;; EMIT_CALL_N_REF "Fnconc" 2 fr
  | Some Bquo => CASE "Bquo" ;;; EMIT_CALL_N_REF "Fquo" 2 fr
  | Some Brem => CASE_CALL_N "rem" 2 fr
  | Some Bnumberp =>
      CASE "Bnumberp" ;;;
      fr <- POP1 fr ;;
      a0 <- arg (args fr) 0 ;;
      res <- emit_NUMBERP a0 ;;
      f <- helper_function h_bool_to_lisp_obj "comp.bool_to_lisp_obj" ;;
      PUSH_RVAL (Call f [res]) fr
  | Some Bintegerp =>
      CASE "Bintegerp" ;;;
      fr <- POP1 fr ;;
      a0 <- arg (args fr) 0 ;;
      res <- emit_INTEGERP a0 ;;
      f <- helper_function h_bool_to_lisp_obj "comp.bool_to_lisp_obj" ;;
      PUSH_RVAL (Call f [res]) fr
  | Some BRgoto => CASE "BRgoto" ;;; ' (op, fr) <- FETCH_relative fr ;; do_goto op fr
  | Some BRgotoifnil =>
      CASE "BRgotoifnil" ;;;
      ' (op, fr) <- FETCH_relative fr ;; do_gotoif GCC_JIT_COMPARISON_EQ nil op fr
  | Some BRgotoifnonnil =>
      CASE "BRgotoifnonnil" ;;;
      ' (op, fr) <- FETCH_relative fr ;; do_gotoif GCC_JIT_COMPARISON_NE nil op fr
  | Some BRgotoifnilelsepop =>
      CASE "BRgotoifnilelsepop" ;;;
      ' (op, fr) <- FETCH_relative fr ;; do_gotoifelsepop GCC_JIT_COMPARISON_EQ nil op fr
  | Some BRgotoifnonnilelsepop =>
      CASE "BRgotoifnonnilelsepop" ;;;
      ' (op, fr) <- FETCH_relative fr ;; do_gotoifelsepop GCC_JIT_COMPARISON_NE nil op fr
  | Some BinsertN =>
      CASE "BinsertN" ;;; ' (op, fr) <- FETCH fr ;; EMIT_CALL_N_REF "Finsert" op fr
  | Some Bstack_set =>
      (* stack-set-0 = discard; stack-set-1 = discard-1-preserve-tos. *)
      CASE "Bstack_set" ;;;
      ' (op, fr) <- FETCH fr ;;
      fr <- POP1 fr ;;
      a0 <- arg (args fr) 0 ;;
      (if bool_decide (op > 0)
       then p <- comp_block ;; emit_assign_to_stack_slot p (stack fr - op) a0
       else ret tt) ;;;
      ret fr
  | Some Bstack_set2 =>
      CASE "Bstack_set2" ;;;
      ' (op, fr) <- FETCH2 fr ;;
      fr <- POP1 fr ;;
      a0 <- arg (args fr) 0 ;;
      p <- comp_block ;;
      emit_assign_to_stack_slot p (stack fr - op) a0 ;;;
      ret fr
  | Some BdiscardN =>
      CASE "BdiscardN" ;;;
      ' (op, fr) <- FETCH fr ;;
      if bool_decide (Z.land op 128 <> 0) then
        let op := Z.land op 127 in
        fr <- POP1 fr ;;
        a0 <- arg (args fr) 0 ;;
        p <- comp_block ;;
        emit_assign_to_stack_slot p (stack fr - op - 1) a0 ;;;
        ret (DISCARD op fr)
      else ret (DISCARD op fr)
  | Some Bswitch => CASE "Bswitch" ;;; error "Bswitch not supported"
  | _ => default_case op fr
  end.

(** The main loop of [compile_f] before its switch: the fall through,
    the current block, the stack pointer restart, [op = FETCH]. *)
Definition fetch_op (fr : frame) : M (Z * frame) :=
  (* If we are changing BB and the last was one wasn't terminated
     terminate it with a fall through. *)
  cur <- gets block ;;
  match cur with
  | Some p =>
      b <- bb_get p ;;
      here <- bb_get (in_bb_map (pc fr)) ;;
      if bool_decide (block_id (gcc_bb b) <> block_id (gcc_bb here)) && negb (terminated b)
      then record (block_end_with_jump (gcc_bb b) (gcc_bb here)) ;;; set_terminated p true
      else ret tt
  | None => ret tt
  end ;;;
  set_comp_block (in_bb_map (pc fr)) ;;;
  here <- bb_get (in_bb_map (pc fr)) ;;
  let fr := match bb_top here with
            | Some t => with_stack t fr
            | None => fr
            end in
  FETCH fr.

(** One turn of the main loop of [compile_f]. *)
Definition compile_turn (nil : gcc_jit_rvalue) (fr : frame) : M frame :=
  ' (op, fr) <- fetch_op fr ;;
  compile_op nil op fr.

(** [while (pc < bytestr_length)]: every turn fetches at least one
    byte, so [bytestr_length] turns suffice. *)
Fixpoint compile_loop (turns : nat) (nil : gcc_jit_rvalue) (fr : frame) : M frame :=
  if bool_decide (pc fr < bytestr_length) then
    match turns with
    | O => undefined "compile_f: more turns than bytes"
    | S turns => fr <- compile_turn nil fr ;; compile_loop turns nil fr
    end
  else ret fr.

(** The result of one function compilation; [gcc_res] is the context
    that was compiled. *)
Record comp_f_res_t := {
  gcc_res : list gcc_jit_record;
  res_min_args : Z;
  res_max_args : Z
}.

(** [min_args] and [max_args] from the argument template; both are
    [short]. *)
Definition args_template_arity : result (Z * Z) :=
  match args_template with
  | Lisp_fixnum at_ =>
      let rest := bool_decide (Z.land at_ 128 <> 0) in
      let mandatory := Z.land at_ 127 in
      let nonrest := Z.shiftr at_ 8 in
      Ok (to_signed 16 mandatory,
          if negb rest && bool_decide (nonrest < SUBR_MAX_ARGS H)
          then to_signed 16 nonrest else 0)
  | Lisp_cons _ _ =>
      rbind (Flength args_template) (fun n => Ok (to_signed 16 n, to_signed 16 n))
  | _ => Ok (0, 0)
  end.

(** The meta stack after its [gcc_lval] are set: slot [i] is element
    [i] of the local array.  C leaves the other fields of a slot
    undetermined until the slot is assigned. *)
Definition meta_stack (meta_stack_array : gcc_jit_lvalue) (stack_depth : Z)
  : list stack_el_t :=
  map (fun i => {| gcc_lval := Array_access (Lvalue_as_rvalue meta_stack_array)
                                 (Rvalue_from_int int_type i);
                   type := None; constant := Qnil; const_set := false |})
      (seqZ 0 stack_depth).

Fixpoint push_params (prologue : block_ptr) (params : list gcc_jit_param) (fr : frame)
  : M frame :=
  match params with
  | [] => ret fr
  | p :: params => fr <- PUSH_PARAM prologue p fr ;; push_params prologue params fr
  end.

(** [compile_f] up to the meta stack: the arity, the function being
    compiled, the array behind the meta stack. *)
Definition compile_f_frame : M (Z * Z * gcc_jit_function * gcc_jit_lvalue) :=
  ' (min_args, max_args) <- lift args_template_arity ;;
  (* Current function being compiled. *)
  f <- emit_func_declare c_f_name lisp_obj_type max_args None
         GCC_JIT_FUNCTION_EXPORTED false ;;
  set_comp_func f ;;;
  meta_stack_array <- gcc_jit_function_new_local f (Tarray lisp_obj_type stack_depth)
                        "local" ;;
  modify (with_stack_base (meta_stack meta_stack_array stack_depth)) ;;;
  ret (min_args, max_args, f, meta_stack_array).

(** [compile_f] up to its main loop: the frame, the prologue, the
    blocks. *)
Definition compile_f_prologue : M (Z * Z * gcc_jit_lvalue * gcc_jit_rvalue * frame) :=
  ' (min_args, max_args, f, meta_stack_array) <- compile_f_frame ;;
  prologue <- SAFE_ALLOCA_BLOCK f "prologue" ;;
  m <- compute_blocks bytestr_length bytestr_data ;;
  modify (with_bb_map m) ;;;
  let fr := {| pc := 0; stack := 0; args := replicate (Z.to_nat MAX_POP) None;
               pushhandler_n := 0 |} in
  fr <- push_params prologue (take (Z.to_nat max_args) (function_params f)) fr ;;
  bb <- block_gcc_bb prologue ;;
  first <- block_gcc_bb (in_bb_map 0) ;;
  record (block_end_with_jump bb first) ;;;
  set_comp_block (in_bb_map 0) ;;;
  nil <- emit_lisp_obj_from_ptr (ptr_obj Qnil) ;;
  modify (with_block None) ;;;
  ret (min_args, max_args, meta_stack_array, nil, fr).

Definition compile_f : M comp_f_res_t :=
  ' (min_args, max_args, _, nil_rvalue, fr) <- compile_f_prologue ;;
  compile_loop (Z.to_nat bytestr_length) nil_rvalue fr ;;;
  record context_compile ;;;
  c <- gets ctxt ;;
  ret {| gcc_res := c; res_min_args := min_args; res_max_args := max_args |}.

End compile_f.

(** ** The driver *)

Definition init_comp (opt_level : Z) : M unit :=
  (* gcc_jit_context_acquire: a new, empty context *)
  modify (with_ctxt (fun _ => [])) ;;;
  record (set_logfile "libgccjit.log") ;;;
  record (set_bool_option "GCC_JIT_BOOL_OPTION_KEEP_INTERMEDIATES" true) ;;;
  record (set_int_option "GCC_JIT_INT_OPTION_OPTIMIZATION_LEVEL" opt_level) ;;;
  (* Do not inline within a compilation unit. *)
  record (add_command_line_option "-fno-inline") ;;;
  record (new_union_type "comp_Lisp_Object" [lisp_obj_as_ptr; lisp_obj_as_num]) ;;;
  modify (with_func_hash []) ;;;
  (* Define data structures. *)
  define_lisp_cons ;;;
  define_jmp_buf ;;;
  define_handler_struct ;;;
  define_thread_state_struct ;;;
  define_cast_union ;;;
  (* Define inline functions. *)
  define_CAR_CDR ;;;
  define_PSEUDOVECTORP ;;;
  define_CHECK_TYPE ;;;
  define_CHECK_IMPURE ;;;
  define_bool_to_lisp_obj ;;;
  define_setcar_setcdr.

Definition release_comp : M unit :=
  record (context_dump_to_file "gcc-ctxt-dump.c") ;;;
  record context_release.

Definition AREF (o : Lisp_Object) (i : Z) : result Lisp_Object :=
  match o with
  | Lisp_vector c | Lisp_compiled c => array_get "AREF" c i
  | _ => Undefined "AREF"
  end.

(** [SDATA]: the bytes of a string, which a NUL follows. *)
Definition SDATA (data : list Z) : list Z := data ++ [0].

(** The arguments that [emacs_native_compile] gives to [compile_f]. *)
Record compile_f_arguments := {
  arg_bytestr_length : Z;
  arg_bytestr_data : list Z;
  arg_stack_depth : Z;
  arg_vectorp : list Lisp_Object;
  arg_vector_size : Z;
  arg_args_template : Lisp_Object
}.

Definition native_compile_arguments (func : Lisp_Object) : M compile_f_arguments :=
  bytestr <- lift (AREF func (COMPILED_BYTECODE H)) ;;
  bytestr <- match bytestr with
             | Lisp_string multibyte _ =>
                 (* BYTESTR must have been produced by Emacs 20.2 or the
                    earlier: convert it back to the unibyte form. *)
                 ret (if multibyte then Fstring_as_unibyte H bytestr else bytestr)
             | _ => error "wrong-type-argument stringp"
             end ;;
  bytes <- match bytestr with
           | Lisp_string _ data => ret data
           | _ => undefined "SBYTES"
           end ;;
  let bytestr_length := Z.of_nat (length bytes) in
  vector <- lift (AREF func (COMPILED_CONSTANTS H)) ;;
  vectorp <- match vector with
             | Lisp_vector c => ret c
             | _ => error "wrong-type-argument vectorp"
             end ;;
  maxdepth <- lift (AREF func (COMPILED_STACK_DEPTH H)) ;;
  maxdepth <- match maxdepth with
              | Lisp_fixnum n =>
                  if bool_decide (0 <= n) then ret n
                  else error "wrong-type-argument wholenump"
              | _ => error "wrong-type-argument wholenump"
              end ;;
  args_template <- lift (AREF func (COMPILED_ARGLIST H)) ;;
  ret {| arg_bytestr_length := bytestr_length;
         arg_bytestr_data := SDATA bytes;
         arg_stack_depth := maxdepth + 1;
         arg_vectorp := vectorp;
         arg_vector_size := Z.of_nat (length vectorp);
         arg_args_template := args_template |}.

Definition emacs_native_compile (lisp_f_name c_f_name : string) (func : Lisp_Object)
    (opt_level : Z) (dump_asm : bool) : M Lisp_Subr :=
  init_comp opt_level ;;;
  a <- native_compile_arguments func ;;
  comp_res <- compile_f lisp_f_name c_f_name (arg_bytestr_length a) (arg_bytestr_data a)
                (arg_stack_depth a) (arg_vectorp a) (arg_vector_size a)
                (arg_args_template a) ;;
  let x := {| function_a0 := c_f_name;
              min_args := res_min_args comp_res;
              max_args := res_max_args comp_res;
              symbol_name := lisp_f_name |} in
  (if dump_asm then record (context_compile_to_file DISASS_FILE_NAME) else ret tt) ;;;
  release_comp ;;;
  ret x.

End translator.

(** ** The headers of Emacs on x86-64 GNU/Linux

    The values that [bytecode.h], [lisp.h] and the other headers give on
    the usual 64-bit build ([USE_LSB_TAG], [EMACS_INT] is [long]); they
    serve to run the translator on concrete byte code.  The functions
    and the variables of the host are taken to be aligned on 8 bytes
    at least, so that their addresses have the tag bits of a symbol,
    which are 0. *)

Definition emacs_byte_of (b : bytecode) : Z :=
  match b with
  | Bstack_ref => 0 | Bstack_ref1 => 1 | Bstack_ref2 => 2 | Bstack_ref3 => 3
  | Bstack_ref4 => 4 | Bstack_ref5 => 5 | Bstack_ref6 => 6 | Bstack_ref7 => 7
  | Bvarref => 8 | Bvarref1 => 9 | Bvarref2 => 10 | Bvarref3 => 11 | Bvarref4 => 12
  | Bvarref5 => 13 | Bvarref6 => 14 | Bvarref7 => 15
  | Bvarset => 16 | Bvarset1 => 17 | Bvarset2 => 18 | Bvarset3 => 19 | Bvarset4 => 20
  | Bvarset5 => 21 | Bvarset6 => 22 | Bvarset7 => 23
  | Bvarbind => 24 | Bvarbind1 => 25 | Bvarbind2 => 26 | Bvarbind3 => 27
  | Bvarbind4 => 28 | Bvarbind5 => 29 | Bvarbind6 => 30 | Bvarbind7 => 31
  | Bcall => 32 | Bcall1 => 33 | Bcall2 => 34 | Bcall3 => 35 | Bcall4 => 36
  | Bcall5 => 37 | Bcall6 => 38 | Bcall7 => 39
  | Bunbind => 40 | Bunbind1 => 41 | Bunbind2 => 42 | Bunbind3 => 43 | Bunbind4 => 44
  | Bunbind5 => 45 | Bunbind6 => 46 | Bunbind7 => 47
  | Bpophandler => 48 | Bpushconditioncase => 49 | Bpushcatch => 50
  | Bnth => 56 | Bsymbolp => 57 | Bconsp => 58 | Bstringp => 59 | Blistp => 60
  | Beq => 61 | Bmemq => 62 | Bnot => 63 | Bcar => 64 | Bcdr => 65 | Bcons => 66
  | Blist1 => 67 | Blist2 => 68 | Blist3 => 69 | Blist4 => 70 | Blength => 71
  | Baref => 72 | Baset => 73 | Bsymbol_value => 74 | Bsymbol_function => 75
  | Bset => 76 | Bfset => 77 | Bget => 78 | Bsubstring => 79 | Bconcat2 => 80
  | Bconcat3 => 81 | Bconcat4 => 82 | Bsub1 => 83 | Badd1 => 84 | Beqlsign => 85
  | Bgtr => 86 | Blss => 87 | Bleq => 88 | Bgeq => 89 | Bdiff => 90 | Bnegate => 91
  | Bplus => 92 | Bmax => 93 | Bmin => 94 | Bmult => 95 | Bpoint => 96
  | Bsave_current_buffer => 97 | Bgoto_char => 98 | Binsert => 99 | Bpoint_max => 100
  | Bpoint_min => 101 | Bchar_after => 102 | Bfollowing_char => 103
  | Bpreceding_char => 104 | Bcurrent_column => 105 | Bindent_to => 106
  | Beolp => 108 | Beobp => 109 | Bbolp => 110 | Bbobp => 111 | Bcurrent_buffer => 112
  | Bset_buffer => 113 | Bsave_current_buffer_1 => 114 | Binteractive_p => 116
  | Bforward_char => 117 | Bforward_word => 118 | Bskip_chars_forward => 119
  | Bskip_chars_backward => 120 | Bforward_line => 121 | Bchar_syntax => 122
  | Bbuffer_substring => 123 | Bdelete_region => 124 | Bnarrow_to_region => 125
  | Bwiden => 126 | Bend_of_line => 127
  | Bconstant2 => 129 | Bgoto => 130 | Bgotoifnil => 131 | Bgotoifnonnil => 132
  | Bgotoifnilelsepop => 133 | Bgotoifnonnilelsepop => 134 | Breturn => 135
  | Bdiscard => 136 | Bdup => 137 | Bsave_excursion => 138
  | Bsave_window_excursion => 139 | Bsave_restriction => 140 | Bcatch => 141
  | Bunwind_protect => 142 | Bcondition_case => 143
  | Btemp_output_buffer_setup => 144 | Btemp_output_buffer_show => 145
  | Bunbind_all => 146 | Bset_marker => 147 | Bmatch_beginning => 148
  | Bmatch_end => 149 | Bupcase => 150 | Bdowncase => 151 | Bstringeqlsign => 152
  | Bstringlss => 153 | Bequal => 154 | Bnthcdr => 155 | Belt => 156 | Bmember => 157
  | Bassq => 158 | Bsetcar => 160 | Bsetcdr => 161 | Bcar_safe => 162
  | Bcdr_safe => 163 | Bnconc => 164 | Bquo => 165 | Brem => 166 | Bnumberp => 167
  | Bintegerp => 168
  | BRgoto => 170 | BRgotoifnil => 171 | BRgotoifnonnil => 172
  | BRgotoifnilelsepop => 173 | BRgotoifnonnilelsepop => 174
  | BlistN => 175 | BconcatN => 176 | BinsertN => 177 | Bstack_set => 178
  | Bstack_set2 => 179 | BdiscardN => 182 | Bswitch => 183
  | Bconstant => 192
  end.

Definition emacs_Lisp_Type_val (t : Lisp_Type) : Z :=
  match t with
  | Lisp_Symbol => 0 | Lisp_Type_Unused0 => 1 | Lisp_Int0 => 2 | Lisp_Int1 => 6
  | Lisp_String => 4 | Lisp_Vectorlike => 5 | Lisp_Cons => 3 | Lisp_Float => 7
  end.

Definition emacs_x86_64_with (cell : string -> Lisp_Object) : headers := {|
  byte_of := emacs_byte_of;
  USE_LSB_TAG := true;
  GCTYPEBITS := 3;
  INTTYPEBITS := 2;
  VALBITS := 61;
  FIXNUM_BITS := 62;
  Lisp_Type_val := emacs_Lisp_Type_val;
  MOST_POSITIVE_FIXNUM := 2 ^ 61 - 1;
  MOST_NEGATIVE_FIXNUM := - 2 ^ 61;
  EMACS_INT_MAX_le_LONG_MAX := true;
  PVEC_BIGNUM := 2;
  MANY := -2;
  SUBR_MAX_ARGS := 9;
  SET_INTERNAL_SET := 0;
  ARITH_EQUAL := 0;
  ARITH_GRTR := 3;
  ARITH_LESS := 2;
  ARITH_LESS_OR_EQUAL := 4;
  ARITH_GRTR_OR_EQUAL := 5;
  CATCHER := 0;
  CONDITION_CASE := 1;
  COMPILED_ARGLIST := 0;
  COMPILED_BYTECODE := 1;
  COMPILED_CONSTANTS := 2;
  COMPILED_STACK_DEPTH := 3;
  sizeof_Lisp_Cons := 16;
  sizeof_jmp_buf := 200;
  sizeof_handler := 280;
  offsetof_handler_val := 16;
  offsetof_handler_next := 24;
  sizeof_handler_next := 8;
  offsetof_handler_jmp := 56;
  sizeof_handler_jmp := 200;
  sizeof_thread_state := 616;
  offsetof_m_handlerlist := 80;
  sizeof_m_handlerlist := 8;
  PURESIZE := 3333333;
  HAVE__SETJMP := true;
  PT := 1;
  ZV := 1;
  BEGV := 1;
  function_cell := cell;
  Fstring_as_unibyte := fun o =>
    match o with
    | Lisp_string _ data => Lisp_string false data
    | _ => o
    end;
  address_SYMBOLP := fun _ => true;
  emacs_int_type := long_type;
  ptrdiff_type := long_type;
  uintptr_type := unsigned_long_type
|}.

(** No symbol has a function. *)
Definition emacs_x86_64 : headers := emacs_x86_64_with (fun _ => Qnil).

(** The translator before its first compilation. *)
Definition comp_initial : comp_t := {|
  ctxt := []; objects := 0; func := None; block := None; func_hash := [];
  pseudovectorp := None; bool_to_lisp_obj := None; car := None; cdr := None;
  setcar := None; setcdr := None; check_type := None; check_impure := None;
  emit_cast_i := 0; emit_lisp_obj_from_ptr_i := 0;
  bb_map := []; alloca := []; stack_base := []
|}.

(** A byte-compiled function: argument template, byte code, constants,
    stack depth. *)
Definition make_byte_code (args_template : Lisp_Object) (bytestr : list Z)
    (constants : list Lisp_Object) (depth : Z) : Lisp_Object :=
  Lisp_compiled [args_template; Lisp_string false bytestr; Lisp_vector constants;
                 Lisp_fixnum depth].

(** ** What the emitted code computes

    The evaluator runs the recorded code on an LP64 little-endian
    target: every scalar, pointer and union that the code reads as a
    whole fits one 64-bit cell; a field of fewer bits is the low part of
    its cell.  A call is not entered: it is appended to the trace and
    the host answers it. *)

Definition type_bits (t : gcc_jit_type) : Z :=
  match t with
  | Tbasic GCC_JIT_TYPE_VOID => 0
  | Tbasic GCC_JIT_TYPE_BOOL | Tbasic GCC_JIT_TYPE_CHAR => 8
  | Tbasic GCC_JIT_TYPE_INT | Tbasic GCC_JIT_TYPE_UNSIGNED_INT => 32
  | _ => 64
  end.

Definition type_signed (t : gcc_jit_type) : bool :=
  match t with
  | Tbasic GCC_JIT_TYPE_CHAR | Tbasic GCC_JIT_TYPE_INT | Tbasic GCC_JIT_TYPE_LONG
  | Tbasic GCC_JIT_TYPE_LONG_LONG => true
  | _ => false
  end.

(** The value of type [t] that the bits of [z] stand for. *)
Definition convert (t : gcc_jit_type) (z : Z) : Z :=
  if type_signed t then to_signed (type_bits t) z else to_unsigned (type_bits t) z.

(** Storing [v] with type [t] in a cell that held [old]. *)
Definition store_cell (t : gcc_jit_type) (old v : Z) : Z :=
  let bits := Z.min (type_bits t) 64 in
  (to_unsigned 64 old - to_unsigned bits old) + to_unsigned bits v.

Inductive place :=
| in_local (id : nat) (index : Z)
| in_memory (addr : Z).

Record call_event := { callee : string; call_args : list Z }.

Record machine := {
  m_locals : nat -> Z -> Z;
  m_memory : Z -> Z;
  m_trace : list call_event
}.

Definition read_place (m : machine) (p : place) (t : gcc_jit_type) : Z :=
  match p with
  | in_local id i => convert t (m_locals m id i)
  | in_memory a => convert t (m_memory m a)
  end.

Definition write_place (m : machine) (p : place) (t : gcc_jit_type) (v : Z) : machine :=
  match p with
  | in_local id i =>
      {| m_locals := fun id' i' =>
           if bool_decide (id' = id) && bool_decide (i' = i)
           then store_cell t (m_locals m id i) v else m_locals m id' i';
         m_memory := m_memory m; m_trace := m_trace m |}
  | in_memory a =>
      {| m_locals := m_locals m;
         m_memory := fun a' =>
           if bool_decide (a' = a) then store_cell t (m_memory m a) v else m_memory m a';
         m_trace := m_trace m |}
  end.

Definition field_eqb (f g : gcc_jit_field) : bool :=
  type_eqb (field_type f) (field_type g) && bool_decide (field_name f = field_name g).

Section evaluator.

Context (H : headers).

(** The word behind a pointer of the host, and the answer of the host to
    a call, given the calls made before. *)
Context (address_of : c_ptr -> Z).
Context (host : list call_event -> string -> list Z -> Z).

(** Offset of a field in its structure; the members of a union are at
    offset 0. *)
Definition field_offset (f : gcc_jit_field) : Z :=
  if field_eqb f lisp_cons_u_s_u then 8
  else if field_eqb f handler_val_field then offsetof_handler_val H
  else if field_eqb f handler_next_field then offsetof_handler_next H
  else if field_eqb f handler_jmp_field then offsetof_handler_jmp H
  else if field_eqb f m_handlerlist then offsetof_m_handlerlist H
  else 0.

Definition place_offset (p : place) (off : Z) : option place :=
  match p with
  | in_memory a => Some (in_memory (a + off))
  | in_local id i => if bool_decide (off = 0) then Some p else None
  end.

Definition eval_binary_op (op : gcc_jit_binary_op) (t : gcc_jit_type) (a b : Z) : Z :=
  match op with
  | GCC_JIT_BINARY_OP_PLUS => convert t (a + b)
  | GCC_JIT_BINARY_OP_MINUS => convert t (a - b)
  | GCC_JIT_BINARY_OP_BITWISE_AND => convert t (Z.land a b)
  | GCC_JIT_BINARY_OP_LOGICAL_AND =>
      if bool_decide (a <> 0) && bool_decide (b <> 0) then 1 else 0
  | GCC_JIT_BINARY_OP_LOGICAL_OR =>
      if bool_decide (a <> 0) || bool_decide (b <> 0) then 1 else 0
  | GCC_JIT_BINARY_OP_LSHIFT => convert t (Z.shiftl a b)
  | GCC_JIT_BINARY_OP_RSHIFT => convert t (Z.shiftr a b)
  end.

Definition eval_unary_op (op : gcc_jit_unary_op) (t : gcc_jit_type) (a : Z) : Z :=
  match op with
  | GCC_JIT_UNARY_OP_MINUS => convert t (- a)
  | GCC_JIT_UNARY_OP_LOGICAL_NEGATE => if bool_decide (a = 0) then 1 else 0
  end.

Definition eval_comparison (op : gcc_jit_comparison) (a b : Z) : Z :=
  match op with
  | GCC_JIT_COMPARISON_EQ => if bool_decide (a = b) then 1 else 0
  | GCC_JIT_COMPARISON_NE => if bool_decide (a <> b) then 1 else 0
  | GCC_JIT_COMPARISON_LE => if bool_decide (a <= b) then 1 else 0
  end.

(** [eval_lvalue] finds where an lvalue is, [eval_rvalue] what an
    rvalue is worth, [rvalue_place] where an aggregate rvalue is read
    from.  The second operand of a logical operation is evaluated only
    when the first does not decide. *)
Fixpoint eval_lvalue (m : machine) (l : gcc_jit_lvalue) {struct l}
  : option (place * machine) :=
  match l with
  | Local id _ _ => Some (in_local id 0, m)
  | Array_access p index =>
      match rvalue_get_type p with
      | Tarray _ _ =>
          ' (pl, m) ← rvalue_place m p;
          ' (i, m) ← eval_rvalue m index;
          match pl with
          | in_local id 0 => Some (in_local id i, m)
          | in_local _ _ => None
          | in_memory a => Some (in_memory (a + 8 * i), m)
          end
      | _ =>
          ' (a, m) ← eval_rvalue m p;
          ' (i, m) ← eval_rvalue m index;
          Some (in_memory (a + 8 * i), m)
      end
  | Lvalue_access_field l f =>
      ' (pl, m) ← eval_lvalue m l;
      pl ← place_offset pl (field_offset f);
      Some (pl, m)
  | Dereference_field r f =>
      ' (a, m) ← eval_rvalue m r;
      Some (in_memory (a + field_offset f), m)
  | Dereference r =>
      ' (a, m) ← eval_rvalue m r;
      Some (in_memory a, m)
  end
with eval_rvalue (m : machine) (r : gcc_jit_rvalue) {struct r}
  : option (Z * machine) :=
  match r with
  | Rvalue_from_int t v => Some (convert t v, m)
  | Rvalue_from_ptr t p => Some (convert t (address_of p), m)
  | Lvalue_as_rvalue l =>
      ' (pl, m) ← eval_lvalue m l;
      Some (read_place m pl (lvalue_get_type l), m)
  | Param_as_rvalue p => Some (read_place m (in_local (param_id p) 0) (param_type p), m)
  | Binary_op op t a b =>
      ' (x, m) ← eval_rvalue m a;
      match op with
      | GCC_JIT_BINARY_OP_LOGICAL_AND =>
          if bool_decide (x = 0) then Some (0, m)
          else ' (y, m) ← eval_rvalue m b; Some (eval_binary_op op t x y, m)
      | GCC_JIT_BINARY_OP_LOGICAL_OR =>
          if bool_decide (x <> 0) then Some (1, m)
          else ' (y, m) ← eval_rvalue m b; Some (eval_binary_op op t x y, m)
      | _ => ' (y, m) ← eval_rvalue m b; Some (eval_binary_op op t x y, m)
      end
  | Unary_op op t a =>
      ' (x, m) ← eval_rvalue m a;
      Some (eval_unary_op op t x, m)
  | Comparison op a b =>
      ' (x, m) ← eval_rvalue m a;
      ' (y, m) ← eval_rvalue m b;
      Some (eval_comparison op x y, m)
  | Call f args =>
      ' (vs, m) ←
        (fix eval_args (l : list gcc_jit_rvalue) (m : machine)
           : option (list Z * machine) :=
           match l with
           | [] => Some ([], m)
           | r :: l' =>
               ' (v, m) ← eval_rvalue m r;
               ' (vs, m) ← eval_args l' m;
               Some (v :: vs, m)
           end) args m;
      let v := host (m_trace m) (function_name f) vs in
      Some (convert (function_ret f) v,
            {| m_locals := m_locals m; m_memory := m_memory m;
               m_trace := m_trace m ++ [{| callee := function_name f; call_args := vs |}] |})
  | Call_through_ptr _ _ => None
  | Rvalue_access_field r' f =>
      ' (pl, m) ← rvalue_place m r';
      pl ← place_offset pl (field_offset f);
      Some (read_place m pl (field_type f), m)
  | Get_address l =>
      ' (pl, m) ← eval_lvalue m l;
      match pl with
      | in_memory a => Some (a, m)
      | in_local _ _ => None
      end
  end
with rvalue_place (m : machine) (r : gcc_jit_rvalue) {struct r}
  : option (place * machine) :=
  match r with
  | Lvalue_as_rvalue l => eval_lvalue m l
  | Param_as_rvalue p => Some (in_local (param_id p) 0, m)
  | Rvalue_access_field r' f =>
      ' (pl, m) ← rvalue_place m r';
      pl ← place_offset pl (field_offset f);
      Some (pl, m)
  | _ => None
  end.

(** The block that an entry of the context adds to. *)
Definition record_block (r : gcc_jit_record) : option gcc_jit_block :=
  match r with
  | block_add_comment b _ | block_add_assignment b _ _ | block_add_eval b _
  | block_end_with_conditional b _ _ _ | block_end_with_jump b _
  | block_end_with_return b _ | block_end_with_void_return b => Some b
  | _ => None
  end.

(** The code of block [b]: its entries, in the order they were added. *)
Fixpoint block_code (c : list gcc_jit_record) (b : gcc_jit_block) : list gcc_jit_record :=
  match c with
  | [] => []
  | r :: c' =>
      match record_block r with
      | Some b' =>
          if bool_decide (block_id b' = block_id b) then r :: block_code c' b
          else block_code c' b
      | None => block_code c' b
      end
  end.

Inductive exit :=
| Falls_off                        (* the code ends without a terminator *)
| Goes_to (b : gcc_jit_block)
| Returns (v : option Z).

(** Running straight code up to its terminator. *)
Fixpoint exec_code (code : list gcc_jit_record) (m : machine) : option (exit * machine) :=
  match code with
  | [] => Some (Falls_off, m)
  | r :: code' =>
      match r with
      | block_add_assignment _ l rv =>
          ' (v, m) ← eval_rvalue m rv;
          ' (pl, m) ← eval_lvalue m l;
          exec_code code' (write_place m pl (lvalue_get_type l) v)
      | block_add_eval _ rv =>
          ' (_, m) ← eval_rvalue m rv;
          exec_code code' m
      | block_end_with_conditional _ test on_true on_false =>
          ' (v, m) ← eval_rvalue m test;
          Some (Goes_to (if bool_decide (v <> 0) then on_true else on_false), m)
      | block_end_with_jump _ target => Some (Goes_to target, m)
      | block_end_with_return _ rv =>
          ' (v, m) ← eval_rvalue m rv;
          Some (Returns (Some v), m)
      | block_end_with_void_return _ => Some (Returns None, m)
      | _ => exec_code code' m
      end
  end.

(** Running the blocks of a context from block [b], for at most [fuel]
    blocks. *)
Fixpoint run_blocks (fuel : nat) (c : list gcc_jit_record) (b : gcc_jit_block)
    (m : machine) : option (option Z * machine) :=
  match fuel with
  | O => None
  | S fuel =>
      ' (e, m) ← exec_code (block_code c b) m;
      match e with
      | Goes_to b' => run_blocks fuel c b' m
      | Returns v => Some (v, m)
      | Falls_off => None
      end
  end.

(** The entry of a function is the first block made for it. *)
Fixpoint entry_block (c : list gcc_jit_record) (f : gcc_jit_function)
  : option gcc_jit_block :=
  match c with
  | [] => None
  | function_new_block f' b :: c' =>
      if bool_decide (function_id f' = function_id f) then Some b else entry_block c' f
  | _ :: c' => entry_block c' f
  end.

Fixpoint bind_params (ps : list gcc_jit_param) (vs : list Z) (m : machine) : machine :=
  match ps, vs with
  | p :: ps, v :: vs =>
      bind_params ps vs (write_place m (in_local (param_id p) 0) (param_type p) v)
  | _, _ => m
  end.

(** Calling function [f] of context [c] on [vs]. *)
Definition run_function (fuel : nat) (c : list gcc_jit_record) (f : gcc_jit_function)
    (vs : list Z) (m : machine) : option (option Z * machine) :=
  b ← entry_block c f;
  run_blocks fuel c b (bind_params (function_params f) vs m).

End evaluator.

(** * Properties *)

(** ** Tools: running the translator on a symbolic state *)

Lemma array_get_Ok {A} what (l : list A) i x :
  0 <= i -> l !! Z.to_nat i = Some x -> array_get what l i = Ok x.
Proof.
  intros Hi Hl. unfold array_get. rewrite bool_decide_false by lia. by rewrite Hl.
Qed.

Lemma array_get_inv {A} what (l : list A) i x :
  array_get what l i = Ok x -> 0 <= i < Z.of_nat (length l) /\ l !! Z.to_nat i = Some x.
Proof.
  unfold array_get. case_bool_decide; [done|].
  destruct (l !! Z.to_nat i) eqn:E; [|done].
  intros [= <-]. split; [|done]. apply lookup_lt_Some in E. lia.
Qed.

Lemma array_get_not_Error {A} what (l : list A) i msg : array_get what l i <> Error msg.
Proof. unfold array_get. case_bool_decide; [done|]. by destruct (l !! Z.to_nat i). Qed.

Lemma array_set_Ok {A} what (l : list A) i x :
  0 <= i < Z.of_nat (length l) -> array_set what l i x = Ok (<[Z.to_nat i := x]> l).
Proof. intros Hi. unfold array_set. by rewrite bool_decide_true. Qed.

Lemma array_set_not_Error {A} what (l : list A) i x msg : array_set what l i x <> Error msg.
Proof. unfold array_set. by case_bool_decide. Qed.

Lemma array_get_insert {A} what (l : list A) i j x :
  i = j -> 0 <= i < Z.of_nat (length l) ->
  array_get what (<[Z.to_nat i := x]> l) j = Ok x.
Proof.
  intros <- Hi. apply array_get_Ok; [lia|]. apply list_lookup_insert_eq. lia.
Qed.

Lemma array_get_insert_ne {A} what (l : list A) i j x :
  i <> j -> 0 <= i -> 0 <= j ->
  array_get what (<[Z.to_nat i := x]> l) j = array_get what l j.
Proof.
  intros Hne Hi Hj. unfold array_get. rewrite list_lookup_insert_ne by lia. done.
Qed.

(** A formatted name fits the scratch area of [format_string]. *)
Definition fits (str : string) : Prop := Z.of_nat (String.length str) < 512.

Lemma format_string_Ok str s : fits str -> format_string str s = Ok (str, s).
Proof.
  intros Hf. unfold format_string. rewrite bool_decide_false; [done|].
  unfold fits in Hf. lia.
Qed.

(** Every function that [func_hash] holds is filed under its name. *)
Definition hash_names_ok (h : list (string * gcc_jit_function)) : Prop :=
  forall k f, hash_lookup h k = Some f -> function_name f = k.

(** The state after [emit_call] has declared [f]. *)
Definition emit_call_declares (s : comp_t) (f : gcc_jit_function) : comp_t :=
  with_func_hash ((function_name f, f) :: func_hash s)
    (with_ctxt (fun c => c ++ [new_function f]) (with_objects (S (function_id f)) s)).

(** Unfolding the translator down to the reads of arrays and of
    [func_hash]. *)
Ltac munfold :=
  cbv [bind ret lift gets modify deref error undefined record new_object
       bb_get bb_put set_terminated set_top block_gcc_bb comp_block comp_block_gcc_bb
       comp_func set_comp_block set_comp_func slot_get slot_put
       gcc_jit_context_new_param gcc_jit_context_new_function gcc_jit_function_new_local
       gcc_jit_function_new_block hash_put
       with_ctxt with_objects with_func with_block with_func_hash with_counters
       with_bb_map with_alloca with_stack_base with_helper
       with_pc with_stack with_args with_pushhandler_n
       ctxt objects func block func_hash pseudovectorp bool_to_lisp_obj car cdr setcar
       setcdr check_type check_impure emit_cast_i emit_lisp_obj_from_ptr_i bb_map alloca
       stack_base pc stack args pushhandler_n gcc_bb bb_top terminated
       gcc_lval type constant const_set
       arg args_from pop emit_comment emit_assign_to_stack_slot
       emit_cond_jump emit_comparison_jump emit_cast
       emit_XLI emit_lval_XLI emit_XLP emit_lval_XLP emit_XUNTAG emit_XCONS emit_EQ
       emit_TAGGEDP emit_VECTORLIKEP emit_CONSP emit_FLOATP emit_BIGNUMP emit_FIXNUMP
       emit_XFIXNUM emit_INTEGERP emit_NUMBERP emit_make_fixnum emit_lisp_obj_from_ptr
       emit_NILP emit_call_n_ref SAFE_ALLOCA_BLOCK helper_function
       FETCH FETCH2 FETCH_relative PUSH_RVAL PUSH_LVAL PUSH_PARAM TOS DISCARD set_arg
       pop_to POP0 POP1 POP2 POP3 POP EMIT_CALL_N CASE CASE_CALL_N EMIT_CALL_N_REF
       EMIT_ARITHCOMPARE m_handlerlist_lval emit_fixnum_test emit_call_declares].

Lemma array_get_index {A} what (l : list A) i j :
  i = j -> array_get what l i = array_get what l j.
Proof. by intros ->. Qed.

(** Rewriting the reads and writes of arrays that the hypotheses
    describe. *)
Ltac mrewrite :=
  repeat (cbv beta iota zeta;
    first
      [ rewrite format_string_Ok by assumption
      | match goal with
        | Hx : array_get ?w ?l ?i = Ok _ |- context [array_get ?w ?l ?i] => rewrite Hx
        | Hx : array_get ?w ?l ?j = Ok _ |- context [array_get ?w ?l ?i] =>
            rewrite (array_get_index w l i j) by lia; rewrite Hx
        end
      | rewrite array_set_Ok by (rewrite ?length_insert; lia)
      | rewrite array_get_insert by (rewrite ?length_insert; lia)
      | rewrite array_get_insert_ne by lia ]).

Ltac decide_bools :=
  repeat match goal with
  | |- context [bool_decide ?P] =>
      first [ rewrite (bool_decide_true P) by (cbn; first [lia | done])
            | rewrite (bool_decide_false P) by (cbn; first [lia | done]) ]
  end.

(** The statements among the entries of a context: what a block
    executes. *)
Definition is_statement (r : gcc_jit_record) : bool :=
  match r with
  | block_add_assignment _ _ _ | block_add_eval _ _
  | block_end_with_conditional _ _ _ _ | block_end_with_jump _ _
  | block_end_with_return _ _ | block_end_with_void_return _ => true
  | _ => false
  end.

Fixpoint statements (c : list gcc_jit_record) : list gcc_jit_record :=
  match c with
  | [] => []
  | r :: c' => if is_statement r then r :: statements c' else statements c'
  end.

(** [emit_call] with at most four arguments succeeds: the function is
    either found in [func_hash] or declared now. *)
Lemma emit_call_cases name ret_type args s :
  (length args <= 4)%nat ->
  hash_names_ok (func_hash s) ->
  exists f, function_name f = name /\
    ((hash_lookup (func_hash s) name = Some f /\
      emit_call name ret_type args s = Ok (Call f args, s)) \/
     (hash_lookup (func_hash s) name = None /\
      function_id f = (objects s + length args)%nat /\
      emit_call name ret_type args s = Ok (Call f args, emit_call_declares s f))).
Proof.
  intros Hlen Hok. unfold emit_call. cbv [bind gets].
  destruct (hash_lookup (func_hash s) name) as [f|] eqn:Eh.
  - exists f. split; [by apply Hok|]. left. done.
  - destruct s as [ctxt0 objs f0 blk h pv btl car0 cdr0 scar scdr ctype cimp ci cj bbm
                     allo stk].
    cbn in Eh, Hok.
    destruct args as [|a0 [|a1 [|a2 [|a3 [|a4 args]]]]]; [..|cbn in Hlen; lia];
      (eexists {| function_id := _; function_kind := _; function_ret := _;
                  function_name := name; function_params := _ |};
       split; [reflexivity|right; split; [done|]];
       unfold emit_func_declare; munfold; decide_bools; cbn; decide_bools; cbn;
       split; [|reflexivity]; cbn; lia).
Qed.

Lemma hash_names_ok_cons h name f :
  hash_names_ok h -> function_name f = name -> hash_names_ok ((name, f) :: h).
Proof.
  intros Hok Hf k g. cbn. case_bool_decide as Hk.
  - intros [= <-]. congruence.
  - apply Hok.
Qed.

Ltac use_emit_call Hf :=
  match goal with
  | Hok : hash_names_ok _ |- context [emit_call ?n ?r ?a ?s] =>
      let f := fresh "f" in
      let Hh := fresh "Hh" in
      let Hid := fresh "Hid" in
      let Hc := fresh "Hc" in
      destruct (emit_call_cases n r a s) as (f & Hf & [[Hh Hc] | (Hh & Hid & Hc)]);
      [cbn; lia | exact Hok | rewrite Hc; clear Hc | rewrite Hc; clear Hc]
  end.

(** The slots [es] lie in the meta stack from index [i] on. *)
Fixpoint slots_at (m : list stack_el_t) (i : Z) (es : list stack_el_t) : Prop :=
  match es with
  | [] => True
  | e :: es' => array_get "stack" m i = Ok e /\ slots_at m (i + 1) es'
  end.

(** The fields of the cast union for the types that are cast. *)
Lemma type_to_cast_field_long s :
  type_to_cast_field long_type s = Ok (cast_union_as_l, s).
Proof. reflexivity. Qed.
Lemma type_to_cast_field_unsigned_long s :
  type_to_cast_field unsigned_long_type s = Ok (cast_union_as_ul, s).
Proof. reflexivity. Qed.
Lemma type_to_cast_field_unsigned s :
  type_to_cast_field unsigned_type s = Ok (cast_union_as_u, s).
Proof. reflexivity. Qed.
Lemma type_to_cast_field_int s :
  type_to_cast_field int_type s = Ok (cast_union_as_i, s).
Proof. reflexivity. Qed.
Lemma type_to_cast_field_bool s :
  type_to_cast_field bool_type s = Ok (cast_union_as_b, s).
Proof. reflexivity. Qed.
Lemma type_to_cast_field_void_ptr s :
  type_to_cast_field void_ptr_type s = Ok (cast_union_as_v_p, s).
Proof. reflexivity. Qed.
Lemma type_to_cast_field_lisp_cons_ptr s :
  type_to_cast_field (Tpointer lisp_cons_type) s = Ok (cast_union_as_lisp_cons_ptr, s).
Proof. reflexivity. Qed.
Lemma type_to_cast_field_lisp_obj s :
  type_to_cast_field lisp_obj_type s = Ok (cast_union_as_lisp_obj, s).
Proof. reflexivity. Qed.

(** Computing the types of the casts; [Hty] says what [emacs_int_type]
    is. *)
Ltac mcast Hty :=
  cbn [rvalue_get_type lvalue_get_type field_type param_type function_ret];
  rewrite ?Hty;
  rewrite ?type_to_cast_field_long, ?type_to_cast_field_unsigned_long,
    ?type_to_cast_field_unsigned, ?type_to_cast_field_int, ?type_to_cast_field_bool,
    ?type_to_cast_field_void_ptr, ?type_to_cast_field_lisp_cons_ptr,
    ?type_to_cast_field_lisp_obj;
  cbv beta iota zeta.

(** ** C1: relative branches in block discovery *)

(** The byte code [BRgoto +3; constant 0; dup; discard; return]: the
    branch at PC 0 has the displacement byte 131 and goes to PC 5. *)
Definition relative_branch_code : list Z := [170; 131; 192; 137; 136; 135].

(** C1 (the code departs from it).  On [relative_branch_code] the
    emission pass computes the target 5 for the [BRgoto] at PC 0: the PC
    after the displacement byte, 2, plus 131 - 128.  Block discovery
    records 131 - 128 = 3 for the same branch, without adding the PC,
    and its leaders are 0, 2 and 3: the target 5 is not a block leader,
    and in the map of blocks PC 5 belongs to the block that starts at
    PC 3, to which the emitted jump goes. *)
Theorem C1_relative_target_is_not_a_leader :
  let data := SDATA relative_branch_code in
  let fr := {| pc := 1; stack := 0; args := []; pushhandler_n := 0 |} in
  (exists fr', FETCH_relative data fr comp_initial = Ok ((5, fr'), comp_initial)) /\
  compute_blocks_leaders emacs_x86_64 6 data = Ok [0; 2; 3] /\
  (5 ∉ [0; 2; 3]) /\
  (exists s, init_comp emacs_x86_64 2 comp_initial = Ok (tt, s) /\
   exists m s', compute_blocks emacs_x86_64 6 data s = Ok (m, s') /\
   map (fun b => block_name (gcc_bb b)) m
   = ["bb_1"; "bb_1"; "bb_2"; "bb_3"; "bb_3"; "bb_3"]).
Proof.
  cbv zeta. split; [|split; [|split]].
  - eexists. vm_compute. reflexivity.
  - vm_compute. reflexivity.
  - intros Hin. repeat (apply elem_of_cons in Hin as [Hin|Hin]; [lia|]).
    by apply elem_of_nil in Hin.
  - eexists. split; [vm_compute; reflexivity|].
    eexists _, _. split; vm_compute; reflexivity.
Qed.

(** ** C9: the default case *)

(** The errors that a computation can raise are among [E]. *)
Definition raises_only {A} (E : string -> Prop) (m : M A) : Prop :=
  forall s msg, m s = Error msg -> E msg.

Lemma raises_only_bind {A B} E (m : M A) (f : A -> M B) :
  raises_only E m -> (forall a, raises_only E (f a)) -> raises_only E (bind m f).
Proof.
  intros Hm Hf s msg. unfold bind. destruct (m s) as [[a s']| |] eqn:Em.
  - apply Hf.
  - intros [= <-]. by eapply Hm.
  - done.
Qed.

Lemma raises_only_ret {A} E (a : A) : raises_only E (ret a).
Proof. by intros s msg. Qed.

Lemma raises_only_undefined {A} E what : raises_only E (@undefined A what).
Proof. by intros s msg. Qed.

Lemma raises_only_error {A} (E : string -> Prop) msg : E msg -> raises_only E (@error A msg).
Proof. intros HE s msg' [= <-]. done. Qed.

Lemma raises_only_gets {A} E (f : comp_t -> A) : raises_only E (gets f).
Proof. by intros s msg. Qed.

Lemma raises_only_modify E f : raises_only E (modify f).
Proof. by intros s msg. Qed.

Lemma raises_only_new_object E : raises_only E new_object.
Proof. by intros s msg. Qed.

Lemma raises_only_deref {A} E what (o : option A) : raises_only E (deref what o).
Proof. destruct o; [apply raises_only_ret|apply raises_only_undefined]. Qed.

Lemma raises_only_array_get {A} E what (l : list A) i :
  raises_only E (lift (array_get what l i)).
Proof.
  intros s msg. unfold lift. destruct (array_get what l i) eqn:Eg; try done.
  by apply array_get_not_Error in Eg.
Qed.

Lemma raises_only_array_set {A} E what (l : list A) i x :
  raises_only E (lift (array_set what l i x)).
Proof.
  intros s msg. unfold lift. destruct (array_set what l i x) eqn:Eg; try done.
  by apply array_set_not_Error in Eg.
Qed.

Lemma raises_only_format_string (E : string -> Prop) str :
  E "Truncating string" -> raises_only E (format_string str).
Proof.
  intros HE. unfold format_string. case_bool_decide.
  - by apply raises_only_error.
  - apply raises_only_ret.
Qed.

Create HintDb raises discriminated.
#[local] Hint Resolve raises_only_ret raises_only_undefined raises_only_gets
  raises_only_modify raises_only_new_object raises_only_deref raises_only_array_get
  raises_only_array_set raises_only_format_string : raises.

Ltac raises_step :=
  first
    [ apply raises_only_bind; [|intros ?]
    | solve [eauto with raises]
    | match goal with
      | |- raises_only _ (match ?x with _ => _ end) => destruct x
      | |- raises_only _ (if ?x then _ else _) => destruct x
      | |- raises_only _ (let (_, _) := ?x in _) => destruct x
      end ].

Ltac raises :=
  repeat (raises_step ||
          (progress unfold record, bb_get, bb_put, set_terminated, set_top, block_gcc_bb,
             comp_block, comp_block_gcc_bb, comp_func, set_comp_block, set_comp_func,
             slot_get, slot_put, gcc_jit_function_new_local, emit_comment,
             emit_assign_to_stack_slot, emit_lval_XLP, emit_lisp_obj_from_ptr,
             PUSH_RVAL, TOS)).

Section default_case.

Context (H : headers).
Context (lisp_f_name : string) (bytestr_length : Z) (bytestr_data : list Z).
Context (vectorp : list Lisp_Object) (vector_size : Z).

(** [op] is neither a label of the switch of [compile_f] other than
    [Bconstant]. *)
Definition dispatches_default (op : Z) : Prop :=
  match decode H op with
  | None | Some Bconstant | Some Bstack_ref => True
  | _ => False
  end.

Lemma compile_op_default nil op fr :
  dispatches_default op ->
  compile_op H lisp_f_name bytestr_length bytestr_data vectorp vector_size nil op fr
  = default_case H bytestr_length bytestr_data vectorp vector_size op fr.
Proof.
  unfold dispatches_default, compile_op. destruct (decode H op) as [[]|]; done.
Qed.

Lemma do_constant_raises op fr :
  raises_only (fun msg => msg = "Truncating string")
    (do_constant H bytestr_length bytestr_data vectorp op fr).
Proof. unfold do_constant. raises. Qed.

(** The comment of [CASE] goes to the current block. *)
Lemma CASE_Ok label s p b :
  block s = Some p -> bb_get p s = Ok (b, s) ->
  CASE label s = Ok (tt, with_ctxt (fun c => c ++ [block_add_comment (gcc_bb b) label]) s).
Proof.
  intros Hb Hg. unfold CASE, emit_comment, comp_block_gcc_bb, comp_block, block_gcc_bb.
  cbv [bind gets deref]. rewrite Hb. cbv [ret]. rewrite Hg. reflexivity.
Qed.

End default_case.

(** ** Sample compilations

    The state of the translator in the middle of a compilation, for the
    properties that start there: [at_operation code constants depth n]
    compiles the function of byte code [code] up to the switch of its
    operation number [n], counted from 0, on the x86-64 headers. *)

Fixpoint compile_turns (code : list Z) (constants : list Lisp_Object) (turns : nat)
    (nil : gcc_jit_rvalue) (fr : frame) : M frame :=
  match turns with
  | O => ret fr
  | S turns =>
      fr <- compile_turn emacs_x86_64 "f" (Z.of_nat (length code)) (SDATA code) constants
              (Z.of_nat (length constants)) nil fr ;;
      compile_turns code constants turns nil fr
  end.

Definition at_operation (code : list Z) (constants : list Lisp_Object) (depth : Z)
    (turns : nat) : M (gcc_jit_rvalue * Z * frame) :=
  init_comp emacs_x86_64 2 ;;;
  ' (_, _, _, nil_rvalue, fr) <-
      compile_f_prologue emacs_x86_64 "Ff" (Z.of_nat (length code)) (SDATA code) (depth + 1)
        (Lisp_fixnum 0) ;;
  fr <- compile_turns code constants turns nil_rvalue fr ;;
  ' (op, fr) <- fetch_op (SDATA code) fr ;;
  ret (nil_rvalue, op, fr).

Definition sample_nil (r : result (gcc_jit_rvalue * Z * frame * comp_t)) : gcc_jit_rvalue :=
  match r with Ok (n, _, _, _) => n | _ => Rvalue_from_int int_type 0 end.
Definition sample_op (r : result (gcc_jit_rvalue * Z * frame * comp_t)) : Z :=
  match r with Ok (_, op, _, _) => op | _ => 0 end.
Definition sample_frame (r : result (gcc_jit_rvalue * Z * frame * comp_t)) : frame :=
  match r with
  | Ok (_, _, fr, _) => fr
  | _ => {| pc := 0; stack := 0; args := []; pushhandler_n := 0 |}
  end.
Definition sample_state (r : result (gcc_jit_rvalue * Z * frame * comp_t)) : comp_t :=
  match r with Ok (_, _, _, s) => s | _ => comp_initial end.

(** The slot at index [i] of the meta stack, the current block. *)
Definition sample_slot (s : comp_t) (i : Z) : stack_el_t :=
  default {| gcc_lval := Local 0 void_type ""; type := None; constant := Qnil;
             const_set := false |}
    (stack_base s !! Z.to_nat i).
Definition sample_block (s : comp_t) : basic_block_t :=
  match block s with
  | Some (in_bb_map i) =>
      default {| gcc_bb := {| block_id := 0; block_function := 0; block_name := "" |};
                 bb_top := None; terminated := false |}
        (bb_map s !! Z.to_nat i)
  | _ => {| gcc_bb := {| block_id := 0; block_function := 0; block_name := "" |};
            bb_top := None; terminated := false |}
  end.

Lemma hash_names_ok_nil : hash_names_ok [].
Proof. intros k f. discriminate. Qed.

Ltac hash_names :=
  repeat (apply hash_names_ok_cons; [|reflexivity]); apply hash_names_ok_nil.

(** ** C5: the operations that call a function of the host *)

(** Popping the slots [es], emitting in block [bb] a call to the
    function named [name] on them, and pushing the result where the
    deepest of them was. *)
Definition pops_calls_pushes (es : list stack_el_t) (dst : stack_el_t) (name : string)
    (bb : gcc_jit_block) (fr : frame) (s : comp_t) (r : result (frame * comp_t)) : Prop :=
  exists fr' s' f L,
    r = Ok (fr', s') /\
    stack fr' = stack fr - Z.of_nat (length es) + 1 /\ pc fr' = pc fr /\
    function_name f = name /\
    ctxt s' = ctxt s ++ L /\
    statements L = [block_add_assignment bb (gcc_lval dst)
                      (Call f (map (fun e => Lvalue_as_rvalue (gcc_lval e)) es))].

(** The translator is at an operation: the current block [b0] is an
    element of [bb_map], the slots [es] are on top of the meta stack,
    [dst] is the deepest of them, or the next free slot when there is
    none, and [func_hash] is in order. *)
Definition ready (es : list stack_el_t) (dst : stack_el_t) (b0 : basic_block_t) (fr : frame)
    (s : comp_t) : Prop :=
  (exists cur, block s = Some (in_bb_map cur) /\ array_get "bb_map" (bb_map s) cur = Ok b0) /\
  slots_at (stack_base s) (stack fr - Z.of_nat (length es)) es /\
  array_get "stack" (stack_base s) (stack fr - Z.of_nat (length es)) = Ok dst /\
  (2 <= length (args fr))%nat /\
  hash_names_ok (func_hash s).

Lemma CASE_EMIT_CALL_N label name (fr : frame) (s : comp_t) b0 (es : list stack_el_t) dst :
  (length es <= 2)%nat ->
  ready es dst b0 fr s ->
  pops_calls_pushes es dst name (gcc_bb b0) fr s
    (bind (CASE label) (fun _ => EMIT_CALL_N name (length es) fr) s).
Proof.
  intros Hlen ([cur [Hb Hb0]] & Hes & Hdst & Hargs & Hok).
  destruct s as [ctxt0 objs f0 blk h pv btl car0 cdr0 scar scdr ctype cimp ci cj bbm allo
                   stk].
  destruct fr as [pc0 st0 args0 phn]. destruct b0 as [bb0 top0 term0].
  destruct dst as [dlv dty dc dcs].
  cbn in Hb, Hb0, Hes, Hdst, Hargs, Hok. subst blk.
  apply array_get_inv in Hdst as Hdst'.
  unfold pops_calls_pushes.
  destruct es as [|[lv1 ty1 c1 cs1] [|[lv2 ty2 c2 cs2] [|]]]; [| | |cbn in Hlen; lia];
    cbn [length Z.of_nat Pos.of_succ_nat Pos.succ] in *; cbn in Hes.
  - munfold. mrewrite. use_emit_call Hf; munfold; mrewrite.
    all: eexists _, _, f, _; split; [reflexivity|]; cbn.
    all: repeat split; try lia; try done.
    all: rewrite <- ?app_assoc; reflexivity.
  - destruct Hes as [He1 _].
    munfold. mrewrite. use_emit_call Hf; munfold; mrewrite.
    all: eexists _, _, f, _; split; [reflexivity|]; cbn.
    all: rewrite He1 in Hdst; injection Hdst as -> -> -> ->.
    all: repeat split; try lia; try done.
    all: rewrite <- ?app_assoc; reflexivity.
  - destruct Hes as (He1 & He2 & _).
    munfold. mrewrite. use_emit_call Hf; munfold; mrewrite.
    all: eexists _, _, f, _; split; [reflexivity|]; cbn.
    all: rewrite He1 in Hdst; injection Hdst as -> -> -> ->.
    all: repeat split; try lia; try done.
    all: rewrite <- ?app_assoc; reflexivity.
Qed.

Lemma CASE_EMIT_CALL_N_arity label name n (fr : frame) (s : comp_t) b0 es dst :
  length es = n -> (n <= 2)%nat ->
  ready es dst b0 fr s ->
  pops_calls_pushes es dst name (gcc_bb b0) fr s
    (bind (CASE label) (fun _ => EMIT_CALL_N name n fr) s).
Proof. intros <- Hn. by apply CASE_EMIT_CALL_N. Qed.

(** What the translator does for the operations of the arity-1 row of
    the specification that call a function: the function called and the
    number of values popped. *)
Definition call_n_table : list (bytecode * string * nat) :=
  [ (Bnth, "Fnth", 2); (Bsymbolp, "Fsymbolp", 1); (Bstringp, "Fstringp", 1);
    (Blistp, "Flistp", 1); (Bnot, "Fnot", 1); (Blength, "Flength", 1);
    (Bsymbol_value, "Fsymbol_value", 1); (Bsymbol_function, "Fsymbol_function", 1);
    (Bcurrent_buffer, "Fcurrent_buffer", 0); (Beolp, "Feolp", 0); (Beobp, "Feobp", 0);
    (Bbolp, "Fbolp", 0); (Bbobp, "Fbobp", 0); (Bwiden, "Fwiden", 0);
    (Bcurrent_column, "Fcurrent_column", 0); (Bfollowing_char, "Ffollowing_char", 0);
    (Bpreceding_char, "Fprevious_char", 0); (Bcar_safe, "CAR_SAFE", 1);
    (Bcdr_safe, "CDR_SAFE", 1) ]%nat.

(** The arity-1 row as the specification has it: the operation and the
    function [F<name>]. *)
Definition arity_1_row : list (bytecode * string) :=
  [ (Bnth, "Fnth"); (Bsymbolp, "Fsymbolp"); (Bstringp, "Fstringp"); (Blistp, "Flistp");
    (Bnot, "Fnot"); (Blength, "Flength"); (Bsymbol_value, "Fsymbol_value");
    (Bsymbol_function, "Fsymbol_function"); (Bcurrent_buffer, "Fcurrent_buffer");
    (Beolp, "Feolp"); (Beobp, "Feobp"); (Bbolp, "Fbolp"); (Bbobp, "Fbobp");
    (Bwiden, "Fwiden"); (Bcurrent_column, "Fcurrent_column");
    (Bfollowing_char, "Ffollowing_char"); (Bpreceding_char, "Fpreceding_char");
    (Bcar_safe, "Fcar_safe"); (Bcdr_safe, "Fcdr_safe"); (Bnumberp, "Fnumberp");
    (Bintegerp, "Fintegerp") ].

Section host_calls.

Context (H : headers).
Context (lisp_f_name : string) (bytestr_length : Z) (bytestr_data : list Z).
Context (vectorp : list Lisp_Object) (vector_size : Z).

(** The operations of [call_n_table] pop as many values as the table
    says, emit one call to the function of the table on them, and push
    its result. *)
Lemma call_n_operations nil op fr s b0 b name n es dst :
  In (b, name, n) call_n_table ->
  decode H op = Some b ->
  length es = n ->
  ready es dst b0 fr s ->
  pops_calls_pushes es dst name (gcc_bb b0) fr s
    (compile_op H lisp_f_name bytestr_length bytestr_data vectorp vector_size nil op fr s).
Proof.
  intros Hin Hdec Hlen Hready.
  unfold compile_op. rewrite Hdec.
  cbn in Hin.
  repeat (destruct Hin as [[= <- <- <-] | Hin];
          [cbv beta iota;
           refine (CASE_EMIT_CALL_N_arity _ _ _ fr s b0 es dst Hlen _ Hready); lia|]).
  destruct Hin.
Qed.

End host_calls.

(** The arity-1 row as the specification reads: every operation of the
    row pops one value, calls [F<name>] on it and pushes the result. *)
Definition arity_1_row_pops_one (H : headers) : Prop :=
  forall lisp_f_name bytestr_length bytestr_data vectorp vector_size nil op fr s b0 b name e,
    In (b, name) arity_1_row ->
    decode H op = Some b ->
    ready [e] e b0 fr s ->
    pops_calls_pushes [e] e name (gcc_bb b0) fr s
      (compile_op H lisp_f_name bytestr_length bytestr_data vectorp vector_size nil op fr s).

(** [constant 0; constant 1; nth; return], at [nth]. *)
Definition nth_code : list Z := [192; 193; 56; 135].
Definition nth_constants : list Lisp_Object := [Qnil; Lisp_fixnum 3].
Definition nth_sample : result (gcc_jit_rvalue * Z * frame * comp_t) :=
  Eval vm_compute in at_operation nth_code nth_constants 2 2 comp_initial.

(** [constant 0; symbolp; return], at [symbolp]. *)
Definition symbolp_code : list Z := [192; 57; 135].
Definition symbolp_sample : result (gcc_jit_rvalue * Z * frame * comp_t) :=
  Eval vm_compute in at_operation symbolp_code [Qnil] 1 1 comp_initial.

(** [constant 0; numberp; return], at [numberp]. *)
Definition numberp_code : list Z := [192; 167; 135].
Definition numberp_sample : result (gcc_jit_rvalue * Z * frame * comp_t) :=
  Eval vm_compute in at_operation numberp_code [Lisp_fixnum 3] 1 1 comp_initial.



(** ** C3: list construction *)

(** [constant 0; constant 0; constant 0; listN 2; return], at [listN]:
    three values are on the stack. *)
Definition listN_code : list Z := [192; 192; 192; 175; 2; 135].
Definition listN_sample : result (gcc_jit_rvalue * Z * frame * comp_t) :=
  Eval vm_compute in at_operation listN_code [Qnil] 3 3 comp_initial.

(** [list2; return] after the same three constants, at [list2]. *)
Definition list2_code : list Z := [192; 192; 192; 68; 135].
Definition list2_sample : result (gcc_jit_rvalue * Z * frame * comp_t) :=
  Eval vm_compute in at_operation list2_code [Qnil] 3 3 comp_initial.

(** The statements that an operation adds to the context. *)
Definition added_statements (s s' : comp_t) : list gcc_jit_record :=
  statements (drop (length (ctxt s)) (ctxt s')).

(** C3 (the code departs from it).  [listN] with the immediate 2 pops
    three values, not two: with [x0], [x1] and [x2] on the stack it
    emits [x2 = Fcons (x2, nil)], [x1 = Fcons (x1, x2)] and
    [x0 = Fcons (x0, x1)], and leaves the stack with the single value
    [cons (x0, cons (x1, cons (x2, nil)))].  On the same stack [list2]
    pops two values and emits the first two of these calls only. *)
Theorem C3_listN_pops_one_more :
  let r := listN_sample in
  let s := sample_state r in
  let fr := sample_frame r in
  let bb := gcc_bb (sample_block s) in
  let x := fun i => gcc_lval (sample_slot s i) in
  let cons := fun fcons i tl =>
    block_add_assignment bb (x i) (Call fcons [Lvalue_as_rvalue (x i); tl]) in
  (sample_op r = byte_of emacs_x86_64 BlistN /\ stack fr = 3 /\
   array_get "bytestr_data" (SDATA listN_code) (pc fr) = Ok 2 /\
   exists fr' s' fcons,
     compile_op emacs_x86_64 "f" 6 (SDATA listN_code) [Qnil] 1 (sample_nil r) (sample_op r) fr s
     = Ok (fr', s') /\
     stack fr' = 3 - 3 + 1 /\ pc fr' = pc fr + 1 /\
     added_statements s s'
     = [cons fcons 2 (sample_nil r); cons fcons 1 (Lvalue_as_rvalue (x 2));
        cons fcons 0 (Lvalue_as_rvalue (x 1))] /\
     function_name fcons = "Fcons") /\
  (let r2 := list2_sample in
   let s2 := sample_state r2 in
   let fr2 := sample_frame r2 in
   sample_op r2 = byte_of emacs_x86_64 Blist2 /\ stack fr2 = 3 /\
   gcc_bb (sample_block s2) = bb /\ (forall i, gcc_lval (sample_slot s2 i) = x i) /\
   sample_nil r2 = sample_nil r /\
   exists fr' s' fcons,
     compile_op emacs_x86_64 "f" 5 (SDATA list2_code) [Qnil] 1 (sample_nil r2) (sample_op r2)
       fr2 s2
     = Ok (fr', s') /\
     stack fr' = 3 - 2 + 1 /\ pc fr' = pc fr2 /\
     added_statements s2 s'
     = [cons fcons 2 (sample_nil r); cons fcons 1 (Lvalue_as_rvalue (x 2))] /\
     function_name fcons = "Fcons").
Proof.
  cbv zeta. split.
  - split; [reflexivity|]. split; [reflexivity|]. split; [reflexivity|].
    eexists _, _, _. split; [vm_compute; reflexivity|].
    split; [reflexivity|]. split; [reflexivity|]. split; reflexivity.
  - split; [reflexivity|]. split; [reflexivity|]. split; [reflexivity|].
    split; [intros i; reflexivity|]. split; [reflexivity|].
    eexists _, _, _. split; [vm_compute; reflexivity|].
    split; [reflexivity|]. split; [reflexivity|]. split; reflexivity.
Qed.

(** ** C4: the array behind the meta stack *)

Lemma meta_stack_length arr n : length (meta_stack arr n) = Z.to_nat n.
Proof. unfold meta_stack. rewrite length_map. apply length_seqZ. Qed.

Lemma meta_stack_lookup arr n (i : nat) e :
  meta_stack arr n !! i = Some e ->
  gcc_lval e = Array_access (Lvalue_as_rvalue arr) (Rvalue_from_int int_type (Z.of_nat i)).
Proof.
  unfold meta_stack. rewrite list_lookup_fmap.
  destruct (seqZ 0 n !! i) as [j|] eqn:Hj; [|done].
  apply lookup_seqZ in Hj as [-> _]. intros [= <-]. cbn. do 2 f_equal.
Qed.

(** The driver up to the meta stack: the arguments of [compile_f] and
    the part of [compile_f] that makes the array. *)
Definition native_compile_frame (H : headers) (c_f_name : string) (func : Lisp_Object)
  : M (Z * Z * gcc_jit_function * gcc_jit_lvalue) :=
  a <- native_compile_arguments H func ;;
  compile_f_frame H c_f_name (arg_stack_depth a) (arg_args_template a).

(** What the driver reads in the function object. *)
Definition compiled_function (H : headers) (func : Lisp_Object) (bytes : list Z)
    (constants : list Lisp_Object) (max_depth : Z) (template : Lisp_Object) : Prop :=
  AREF func (COMPILED_BYTECODE H) = Ok (Lisp_string false bytes) /\
  AREF func (COMPILED_CONSTANTS H) = Ok (Lisp_vector constants) /\
  AREF func (COMPILED_STACK_DEPTH H) = Ok (Lisp_fixnum max_depth) /\
  AREF func (COMPILED_ARGLIST H) = Ok template.

(** C4 as stated: the array has [max_depth] elements. *)
Definition meta_stack_array_has_max_depth (H : headers) : Prop :=
  forall c_f_name func s bytes constants max_depth template min_args max_args,
    compiled_function H func bytes constants max_depth template ->
    0 <= max_depth ->
    args_template_arity H template = Ok (min_args, max_args) ->
    0 <= max_args <= 4 ->
    exists f id s',
      native_compile_frame H c_f_name func s
      = Ok ((min_args, max_args, f, Local id (Tarray lisp_obj_type max_depth) "local"), s').


(** A function of stack depth 1: [constant 0; return]. *)
Definition depth_1_function : Lisp_Object :=
  make_byte_code (Lisp_fixnum 0) [192; 135] [Qnil] 1.

Lemma depth_1_function_compiled :
  compiled_function emacs_x86_64 depth_1_function [192; 135] [Qnil] 1 (Lisp_fixnum 0).
Proof. repeat split. Qed.



(** ** C10: packing and extracting a fixnum *)

Lemma to_signed_small z : - 2 ^ 63 <= z < 2 ^ 63 -> to_signed 64 z = z.
Proof.
  intros Hz. unfold to_signed. cbv zeta.
  destruct (decide (0 <= z)) as [Hp|Hn].
  - rewrite Z.mod_small by lia. rewrite bool_decide_true by (cbn; lia). done.
  - replace (z mod 2 ^ 64) with (z + 2 ^ 64).
    + rewrite bool_decide_false by (cbn; lia). lia.
    + apply Z.mod_unique with (q := -1); lia.
Qed.

Lemma to_signed_to_unsigned z : to_signed 64 (to_unsigned 64 z) = to_signed 64 z.
Proof. unfold to_signed, to_unsigned. by rewrite Z.mod_mod by lia. Qed.

Lemma shiftr_max k : 0 <= k <= 63 -> Z.shiftr (2 ^ 63 - 1) k = 2 ^ (63 - k) - 1.
Proof.
  intros Hk. rewrite Z.shiftr_div_pow2 by lia.
  assert (2 ^ 63 = 2 ^ (63 - k) * 2 ^ k) as ->.
  { rewrite <- Z.pow_add_r by lia. f_equal. lia. }
  assert (0 < 2 ^ k) by (apply Z.pow_pos_nonneg; lia).
  symmetry. apply Z.div_unique with (r := 2 ^ k - 1); lia.
Qed.

Section fixnums.

Context (H : headers).
Context (address_of : c_ptr -> Z) (host : list call_event -> string -> list Z -> Z).

(** What [lisp.h] gives on a build where [EMACS_INT] is a 64-bit
    [long]: the fixnum tag [Lisp_Int0] lies in the [INTTYPEBITS] low
    bits, [MOST_POSITIVE_FIXNUM] is [EMACS_INT_MAX >> INTTYPEBITS] and
    [MOST_NEGATIVE_FIXNUM] is [-1 - MOST_POSITIVE_FIXNUM]. *)
Definition fixnum_layout : Prop :=
  emacs_int_type H = long_type /\
  0 <= INTTYPEBITS H <= 63 /\
  0 <= Lisp_Type_val H Lisp_Int0 < 2 ^ INTTYPEBITS H /\
  MOST_POSITIVE_FIXNUM H = Z.shiftr (2 ^ 63 - 1) (INTTYPEBITS H) /\
  MOST_NEGATIVE_FIXNUM H = -1 - MOST_POSITIVE_FIXNUM H.

Lemma fixnum_packed_range n :
  fixnum_layout -> MOST_NEGATIVE_FIXNUM H <= n <= MOST_POSITIVE_FIXNUM H ->
  - 2 ^ 63 <= n * 2 ^ INTTYPEBITS H /\
  n * 2 ^ INTTYPEBITS H + Lisp_Type_val H Lisp_Int0 < 2 ^ 63 /\
  - 2 ^ 63 <= n < 2 ^ 63.
Proof.
  intros (_ & Hk & Hi & Hp & Hn) Hr. rewrite Hn, Hp in Hr. rewrite shiftr_max in Hr by done.
  assert (2 ^ 63 = 2 ^ (63 - INTTYPEBITS H) * 2 ^ INTTYPEBITS H) as E.
  { rewrite <- Z.pow_add_r by lia. f_equal. lia. }
  assert (0 < 2 ^ INTTYPEBITS H) by (apply Z.pow_pos_nonneg; lia).
  assert (0 < 2 ^ (63 - INTTYPEBITS H)) by (apply Z.pow_pos_nonneg; lia).
  nia.
Qed.

Lemma field_offset_num : field_offset H (mk_field long_type "num") = 0.
Proof. reflexivity. Qed.

Lemma convert_long z : convert long_type z = to_signed 64 z.
Proof. reflexivity. Qed.

(** C10.  For [n] in the fixnum range, the code that [emit_make_fixnum]
    emits on an operand worth [n] stores [(n << INTTYPEBITS) + Lisp_Int0]
    in the integer view of a new local, and the expression that
    [emit_XFIXNUM] builds on that local, the arithmetic right shift of
    its integer view by [INTTYPEBITS], is worth [n]. *)
Theorem C10_fixnum_round_trip obj n s cur b f m m1 :
  fixnum_layout ->
  func s = Some f ->
  block s = Some (in_bb_map cur) -> array_get "bb_map" (bb_map s) cur = Ok b ->
  eval_rvalue H address_of host m obj = Some (n, m1) ->
  MOST_NEGATIVE_FIXNUM H <= n <= MOST_POSITIVE_FIXNUM H ->
  exists packed s1 extracted s2 m2,
    emit_make_fixnum H obj s = Ok (packed, s1) /\
    emit_XFIXNUM H packed s1 = Ok (extracted, s2) /\
    exec_code H address_of host (drop (length (ctxt s)) (ctxt s2)) m = Some (Falls_off, m2) /\
    eval_rvalue H address_of host m2 (Rvalue_access_field packed (lisp_obj_as_num H))
    = Some (n * 2 ^ INTTYPEBITS H + Lisp_Type_val H Lisp_Int0, m2) /\
    eval_rvalue H address_of host m2 extracted = Some (n, m2).
Proof.
  intros Hlay Hf Hb Hb0 Hobj Hn.
  pose proof (fixnum_packed_range n Hlay Hn) as (Hr1 & Hr2 & Hr3).
  destruct Hlay as (Hty & Hk & Hi & Hp & Hneg).
  assert (2 ^ INTTYPEBITS H <= 2 ^ 63) as Hk63 by (apply Z.pow_le_mono_r; lia).
  destruct s as [ctxt0 objs f0 blk h pv btl car0 cdr0 scar scdr ctype cimp ci cj bbm allo
                   stk].
  cbn in Hf, Hb, Hb0. subst f0 blk.
  eexists _, _, _, _, _.
  split; [munfold; mrewrite; reflexivity|].
  split; [munfold; mrewrite; reflexivity|].
  cbn [ctxt length]. rewrite <- !app_assoc. rewrite drop_app_length.
  cbn [app exec_code eval_rvalue]. rewrite Hobj.
  unfold inttypebits, lisp_int0, lisp_obj_as_num. rewrite Hty.
  cbn [mbind option_bind eval_rvalue eval_lvalue rvalue_place].
  rewrite field_offset_num. cbn [place_offset bool_decide mbind option_bind].
  rewrite bool_decide_true by done.
  cbn [mbind option_bind option_ret mret lvalue_get_type field_type mk_field eval_binary_op].
  rewrite !convert_long.
  rewrite (to_signed_small (INTTYPEBITS H)) by lia.
  rewrite (to_signed_small (Lisp_Type_val H Lisp_Int0)) by lia.
  rewrite Z.shiftl_mul_pow2 by lia.
  rewrite (to_signed_small (n * _)) by lia.
  rewrite (to_signed_small (n * _ + _)) by lia.
  split; [reflexivity|].
  assert (read_place
            (write_place m1 (in_local objs 0) long_type
               (n * 2 ^ INTTYPEBITS H + Lisp_Type_val H Lisp_Int0))
            (in_local objs 0) long_type
          = n * 2 ^ INTTYPEBITS H + Lisp_Type_val H Lisp_Int0) as Hread.
  { cbn [read_place write_place m_locals]. rewrite !bool_decide_true by done.
    cbn [andb]. rewrite convert_long. unfold store_cell.
    change (Z.min (type_bits long_type) 64) with 64.
    replace (to_unsigned 64 (m_locals m1 objs 0) - to_unsigned 64 (m_locals m1 objs 0) +
              to_unsigned 64 (n * 2 ^ INTTYPEBITS H + Lisp_Type_val H Lisp_Int0))
      with (to_unsigned 64 (n * 2 ^ INTTYPEBITS H + Lisp_Type_val H Lisp_Int0)) by lia.
    rewrite to_signed_to_unsigned. apply to_signed_small. lia. }
  rewrite Hread. split; [reflexivity|].
  cbn [mbind option_bind]. do 2 f_equal.
  assert ((n * 2 ^ INTTYPEBITS H + Lisp_Type_val H Lisp_Int0) ≫ INTTYPEBITS H = n) as ->.
  { rewrite Z.shiftr_div_pow2 by lia.
    assert (0 < 2 ^ INTTYPEBITS H) by (apply Z.pow_pos_nonneg; lia).
    symmetry. apply Z.div_unique with (r := Lisp_Type_val H Lisp_Int0); lia. }
  apply to_signed_small. lia.
Qed.
End fixnums.

(** A machine with nothing stored and no call made, a host of which
    every pointer and answer is 0. *)
Definition machine_initial : machine :=
  {| m_locals := fun _ _ => 0; m_memory := fun _ => 0; m_trace := [] |}.
Definition null_address_of (p : c_ptr) : Z := 0.
Definition null_host (trace : list call_event) (name : string) (vs : list Z) : Z := 0.

Lemma emacs_x86_64_fixnum_layout : fixnum_layout emacs_x86_64.
Proof. repeat split; cbn; lia. Qed.

Lemma C10_fixnum_round_trip_witness :
  let s := sample_state symbolp_sample in
  exists packed s1 extracted s2 m2,
    emit_make_fixnum emacs_x86_64 (Rvalue_from_int long_type (-5)) s = Ok (packed, s1) /\
    emit_XFIXNUM emacs_x86_64 packed s1 = Ok (extracted, s2) /\
    exec_code emacs_x86_64 null_address_of null_host (drop (length (ctxt s)) (ctxt s2))
      machine_initial
    = Some (Falls_off, m2) /\
    eval_rvalue emacs_x86_64 null_address_of null_host m2
      (Rvalue_access_field packed (lisp_obj_as_num emacs_x86_64))
    = Some (-5 * 2 ^ 2 + 2, m2) /\
    eval_rvalue emacs_x86_64 null_address_of null_host m2 extracted = Some (-5, m2).
Proof.
  cbv zeta.
  refine (C10_fixnum_round_trip emacs_x86_64 null_address_of null_host
            (Rvalue_from_int long_type (-5)) (-5) (sample_state symbolp_sample) 1
            (sample_block (sample_state symbolp_sample)) _ machine_initial machine_initial
            emacs_x86_64_fixnum_layout _ _ _ _ _).
  - reflexivity.
  - reflexivity.
  - reflexivity.
  - reflexivity.
  - cbn. lia.
Defined.

(** ** C8: the helpers CAR and CDR *)

(** What the headers give on an LP64 build with the tag in the low
    bits: [EMACS_INT], [ptrdiff_t] and [uintptr_t] are [long] and
    [unsigned long], the tags are those of [enum Lisp_Type]. *)
Definition lp64 (H : headers) : Prop :=
  emacs_int_type H = long_type /\ ptrdiff_type H = long_type /\
  uintptr_type H = unsigned_long_type /\
  EMACS_INT_MAX_le_LONG_MAX H = true /\ USE_LSB_TAG H = true /\
  GCTYPEBITS H = 3 /\ Lisp_Type_val H = emacs_Lisp_Type_val.

(** The blocks of function [f] in a context, in the order they were
    made, each with its code. *)
Definition blocks_with_code (c0 c : list gcc_jit_record) (f : gcc_jit_function)
  : list (gcc_jit_block * list gcc_jit_record) :=
  omap (fun r => match r with
                 | function_new_block f' b =>
                     if bool_decide (function_id f' = function_id f)
                     then Some (b, block_code c0 b) else None
                 | _ => None
                 end) c.

Definition function_blocks (c : list gcc_jit_record) (f : gcc_jit_function) :=
  blocks_with_code c c f.

Lemma function_blocks_code c f b code :
  (b, code) ∈ function_blocks c f -> block_code c b = code.
Proof.
  unfold function_blocks, blocks_with_code. rewrite list_elem_of_omap.
  intros (r & _ & Hr). destruct r; try done. case_bool_decide; [|done]. by injection Hr as <- <-.
Qed.

Lemma entry_block_function_blocks c f :
  entry_block c f = fst <$> head (function_blocks c f).
Proof.
  unfold function_blocks. generalize c at 2 as c0. intros c0.
  induction c as [|r c IH]; [done|].
  destruct r; cbn; try apply IH.
  case_bool_decide; [done|]. apply IH.
Qed.

(** The translator after [init_comp] on the x86-64 headers, and the
    helpers [CAR] and [CDR] that it has then defined. *)
Definition helpers_state (cell : string -> Lisp_Object) : comp_t :=
  match init_comp (emacs_x86_64_with cell) 2 comp_initial with
  | Ok (_, s) => s
  | _ => comp_initial
  end.

Definition no_function : gcc_jit_function :=
  {| function_id := 0; function_kind := GCC_JIT_FUNCTION_IMPORTED; function_ret := void_type;
     function_name := ""; function_params := [] |}.

Definition CAR_function : gcc_jit_function :=
  Eval vm_compute in default no_function (car (helpers_state (fun _ => Qnil))).
Definition CDR_function : gcc_jit_function :=
  Eval vm_compute in default no_function (cdr (helpers_state (fun _ => Qnil))).
Definition CAR_blocks : (string -> Lisp_Object) -> list (gcc_jit_block * list gcc_jit_record) :=
  Eval vm_compute in fun cell => function_blocks (ctxt (helpers_state cell)) CAR_function.
Definition CDR_blocks : (string -> Lisp_Object) -> list (gcc_jit_block * list gcc_jit_record) :=
  Eval vm_compute in fun cell => function_blocks (ctxt (helpers_state cell)) CDR_function.

(** On every LP64 build [init_comp] succeeds and defines [CAR] and [CDR]
    with these blocks. *)
Lemma init_comp_CAR_CDR H opt :
  lp64 H ->
  exists s, init_comp H opt comp_initial = Ok (tt, s) /\
    car s = Some CAR_function /\ cdr s = Some CDR_function /\
    function_blocks (ctxt s) CAR_function = CAR_blocks (function_cell H) /\
    function_blocks (ctxt s) CDR_function = CDR_blocks (function_cell H).
Proof.
  intros (Hty & Hpd & Hup & Hmax & Hlsb & Hg & Htag).
  destruct H. cbn in Hty, Hpd, Hup, Hmax, Hlsb, Hg, Htag. subst.
  eexists. split; [vm_compute; reflexivity|].
  split; [reflexivity|]. split; [reflexivity|].
  split; vm_compute; reflexivity.
Qed.

(** Reading and writing the places of a machine. *)
Lemma read_write_local m id i t v t' :
  read_place (write_place m (in_local id i) t v) (in_local id i) t'
  = convert t' (store_cell t (m_locals m id i) v).
Proof. cbn. by rewrite !bool_decide_true. Qed.

Lemma read_write_local_ne m id i t v id' i' t' :
  id <> id' ->
  read_place (write_place m (in_local id i) t v) (in_local id' i') t'
  = read_place m (in_local id' i') t'.
Proof. intros Hne. cbn. by rewrite (bool_decide_false (id' = id)). Qed.

Lemma read_memory_write_local m id i t v a t' :
  read_place (write_place m (in_local id i) t v) (in_memory a) t'
  = read_place m (in_memory a) t'.
Proof. reflexivity. Qed.

(** Unfolding the conversions between 32-bit and 64-bit words. *)
Ltac words :=
  unfold convert, store_cell, to_signed, to_unsigned;
  cbn [type_signed type_bits long_type unsigned_type void_ptr_type];
  change (Z.min 64 64) with 64;
  change (2 ^ 64) with 18446744073709551616 in *;
  change (2 ^ (64 - 1)) with 9223372036854775808 in *;
  change (2 ^ 32) with 4294967296 in *;
  change (2 ^ (32 - 1)) with 2147483648 in *.

(** The types of the words, as the context has them. *)
Local Abbreviation long := (Tbasic GCC_JIT_TYPE_LONG) (only parsing).
Local Abbreviation uint := (Tbasic GCC_JIT_TYPE_UNSIGNED_INT) (only parsing).
Local Abbreviation ptr := (Tbasic GCC_JIT_TYPE_VOID_PTR) (only parsing).
Local Abbreviation obj := (Tunion "comp_Lisp_Object") (only parsing).

(** A 64-bit word stored in a Lisp object, and read as [long]. *)
Lemma store_cell_lisp_obj old c :
  0 <= c < 2 ^ 64 -> store_cell obj old c = c.
Proof. intros Hc. words. Z.div_mod_to_equations. lia. Qed.

Lemma shift_0 c :
  convert long (Z.shiftr (convert long c) (convert long 0)) = convert long c.
Proof.
  change (convert long 0) with 0. rewrite Z.shiftr_0_r.
  words. repeat case_bool_decide; Z.div_mod_to_equations; lia.
Qed.

Lemma store_cell_long old c :
  0 <= c < 2 ^ 64 -> store_cell long old (convert long c) = c.
Proof. intros Hc. words. repeat case_bool_decide; Z.div_mod_to_equations; lia. Qed.

Lemma tag_test c tag :
  0 <= c < 2 ^ 64 -> 0 <= tag < 8 ->
  convert uint
    (Z.land (convert uint (convert uint c - convert uint tag))
       (convert uint 7))
  = (c - tag) mod 8.
Proof.
  intros Hc Ht. change (convert uint 7) with (Z.ones 3).
  rewrite Z.land_ones by lia. change (2 ^ 3) with 8.
  words. Z.div_mod_to_equations. lia.
Qed.

Lemma untag old c tag :
  0 <= tag <= c -> c < 2 ^ 64 -> 0 <= tag < 8 ->
  store_cell long old (convert long (convert long c - convert long tag))
  = c - tag.
Proof. intros Hc Hc' Ht. words. repeat case_bool_decide; Z.div_mod_to_equations; lia. Qed.

Lemma store_cell_pointer old a :
  store_cell ptr old (convert ptr a) = to_unsigned 64 a.
Proof. words. Z.div_mod_to_equations. lia. Qed.

Lemma convert_lisp_obj_word a :
  convert obj (to_unsigned 64 a) = to_unsigned 64 a.
Proof. words. Z.div_mod_to_equations. lia. Qed.

Lemma convert_lisp_obj c :
  0 <= c < 2 ^ 64 -> convert obj c = c.
Proof. intros Hc. words. Z.div_mod_to_equations. lia. Qed.

Lemma convert_long_eq c a :
  0 <= c < 2 ^ 64 ->
  convert long c = convert long (to_unsigned 64 a)
  <-> c = to_unsigned 64 a.
Proof.
  intros Hc. words. split; [|by intros ->].
  repeat case_bool_decide; Z.div_mod_to_equations; lia.
Qed.

Lemma tagged_mod c tag : 0 <= tag < 8 -> (c - tag) mod 8 = 0 <-> c mod 8 = tag.
Proof. intros Ht. Z.div_mod_to_equations. lia. Qed.

Lemma convert_pointer t c : 0 <= c < 2 ^ 64 -> convert (Tpointer t) c = c.
Proof. intros Hc. words. Z.div_mod_to_equations. lia. Qed.

Section CAR_CDR.

Context (H : headers).
Context (address_of : c_ptr -> Z) (host : list call_event -> string -> list Z -> Z).

(** The words of the host: a cons has the tag [Lisp_Cons] in its low
    [GCTYPEBITS] bits. *)
Definition is_cons_word (c : Z) : Prop := c mod 2 ^ GCTYPEBITS H = Lisp_Type_val H Lisp_Cons.
Definition nil_word : Z := to_unsigned 64 (address_of (ptr_obj Qnil)).
Definition listp_word : Z := to_unsigned 64 (address_of (ptr_obj (Qlistp H))).

(** The field at offset [off] of the cons cell that [c] points to. *)
Definition cons_field (m : machine) (c off : Z) : Z :=
  read_place m (in_memory (c - Lisp_Type_val H Lisp_Cons + off)) lisp_obj_type.

(** Function [f] of the context [ctx], called on [c], returns [v]; the
    calls made are then [trace], and the memory is as it was. *)
Definition helper_returns (ctx : list gcc_jit_record) (f : gcc_jit_function) (c : Z)
    (m : machine) (v : Z) (trace : list call_event) : Prop :=
  exists m', run_function H address_of host 3 ctx f [c] m = Some (Some v, m') /\
    m_trace m' = trace /\ m_memory m' = m_memory m.

Ltac offsets :=
  repeat match goal with
  | |- context [field_offset ?H ?f] =>
      first [ change (field_offset H f) with 0 | change (field_offset H f) with 8 ]
  end.

Ltac block_codes Hb :=
  repeat match goal with
  | |- context [block_code ?c ?b] =>
      erewrite (function_blocks_code c _ b)
        by (rewrite Hb; unfold CAR_blocks, CDR_blocks; repeat constructor)
  end.

Ltac eval_code :=
  repeat (progress (
    cbn [exec_code eval_rvalue eval_lvalue rvalue_place mbind option_bind lvalue_get_type
         rvalue_get_type field_type place_offset param_id param_type function_ret
         function_name eval_binary_op eval_unary_op eval_comparison];
    offsets;
    rewrite ?(bool_decide_true (0 = 0)) by done)).

Ltac reads :=
  repeat first [ rewrite read_write_local
               | rewrite read_write_local_ne by done
               | rewrite read_memory_write_local ].

Ltac enter Hb :=
  unfold helper_returns, run_function; rewrite entry_block_function_blocks, Hb;
  cbn [CAR_blocks CDR_blocks head fmap option_fmap option_map fst mbind option_bind
       CAR_function CDR_function function_params bind_params run_blocks param_id param_type];
  block_codes Hb; eval_code; reads.

Ltac cons_case Hb c Htest :=
  enter Hb;
  rewrite ?(store_cell_lisp_obj _ c) by done;
  rewrite shift_0; rewrite store_cell_long by done;
  rewrite (tag_test c 3) by lia; rewrite Htest; decide_bools;
  block_codes Hb; eval_code; reads;
  rewrite ?(store_cell_lisp_obj _ c) by done;
  rewrite untag by lia; rewrite convert_pointer by lia;
  rewrite ?Z.add_0_r;
  eexists; split; [reflexivity|]; split; reflexivity.

Ltac not_cons_case Hb c Htest :=
  enter Hb;
  rewrite ?(store_cell_lisp_obj _ c) by done;
  rewrite shift_0; rewrite store_cell_long by done;
  rewrite (tag_test c 3) by lia;
  rewrite (bool_decide_false (_ mod 8 = 0)) by done; decide_bools;
  block_codes Hb; eval_code; reads;
  rewrite ?(store_cell_lisp_obj _ c) by done;
  rewrite ?store_cell_pointer.

Ltac nil_case Hb c Htest Hnil :=
  not_cons_case Hb c Htest;
  rewrite (bool_decide_true (convert _ c = _)) by (by apply convert_long_eq);
  decide_bools; block_codes Hb; eval_code; reads;
  rewrite ?store_cell_pointer; rewrite ?convert_lisp_obj_word;
  eexists; split; [reflexivity|]; split; reflexivity.

Ltac signal_case Hb c Htest Hcell :=
  not_cons_case Hb c Htest;
  rewrite (bool_decide_false (convert _ c = _)) by (by rewrite convert_long_eq);
  decide_bools; block_codes Hb; eval_code; reads;
  rewrite ?store_cell_pointer; rewrite ?convert_lisp_obj_word;
  rewrite ?(store_cell_lisp_obj _ c) by done; rewrite ?(convert_lisp_obj c) by done;
  eexists; split; [reflexivity|]; split; [|reflexivity];
  cbn [m_trace write_place]; unfold listp_word, Qlistp, intern; rewrite Hcell;
  reflexivity.

Lemma CAR_CDR_run ctx cell c m :
  function_cell H = cell ->
  function_blocks ctx CAR_function = CAR_blocks cell ->
  function_blocks ctx CDR_function = CDR_blocks cell ->
  0 <= c < 2 ^ 64 ->
  let signal :=
    m_trace m ++ [{| callee := "wrong_type_argument"; call_args := [listp_word; c] |}] in
  (c mod 8 = 3 ->
   helper_returns ctx CAR_function c m (read_place m (in_memory (c - 3)) lisp_obj_type)
     (m_trace m) /\
   helper_returns ctx CDR_function c m (read_place m (in_memory (c - 3 + 8)) lisp_obj_type)
     (m_trace m)) /\
  (c mod 8 <> 3 -> c = nil_word ->
   helper_returns ctx CAR_function c m nil_word (m_trace m) /\
   helper_returns ctx CDR_function c m nil_word (m_trace m)) /\
  (c mod 8 <> 3 -> c <> nil_word ->
   helper_returns ctx CAR_function c m nil_word signal /\
   helper_returns ctx CDR_function c m nil_word signal).
Proof.
  intros Hcell Hcar Hcdr Hc. cbv zeta. split; [|split].
  - intros Htag.
    assert ((c - 3) mod 8 = 0) as Htest by (by apply tagged_mod).
    assert (3 <= c) as Hc3 by (Z.div_mod_to_equations; lia).
    split; [cons_case Hcar c Htest | cons_case Hcdr c Htest].
  - intros Htag Hnil.
    assert ((c - 3) mod 8 <> 0) as Htest by (by rewrite tagged_mod).
    split; [nil_case Hcar c Htest Hnil | nil_case Hcdr c Htest Hnil].
  - intros Htag Hnil.
    assert ((c - 3) mod 8 <> 0) as Htest by (by rewrite tagged_mod).
    split; [signal_case Hcar c Htest Hcell | signal_case Hcdr c Htest Hcell].
Qed.

(** C8.  After [init_comp], the helper [CAR] called on a word [c]
    returns the car field of the cell that [c] points to when [c] has
    the tag of a cons, and makes no call; it returns nil and makes no
    call when [c] is nil; otherwise it calls [wrong_type_argument] with
    [Qlistp] and [c], and then returns nil.  [CDR] does the same with
    the cdr field, 8 bytes further. *)
Theorem C8_CAR_CDR opt c m :
  lp64 H -> 0 <= c < 2 ^ 64 ->
  exists s f_car f_cdr,
    init_comp H opt comp_initial = Ok (tt, s) /\
    car s = Some f_car /\ cdr s = Some f_cdr /\
    function_name f_car = "CAR" /\ function_name f_cdr = "CDR" /\
    let signal :=
      m_trace m ++ [{| callee := "wrong_type_argument"; call_args := [listp_word; c] |}] in
    (is_cons_word c ->
     helper_returns (ctxt s) f_car c m (cons_field m c 0) (m_trace m) /\
     helper_returns (ctxt s) f_cdr c m (cons_field m c 8) (m_trace m)) /\
    (~ is_cons_word c -> c = nil_word ->
     helper_returns (ctxt s) f_car c m nil_word (m_trace m) /\
     helper_returns (ctxt s) f_cdr c m nil_word (m_trace m)) /\
    (~ is_cons_word c -> c <> nil_word ->
     helper_returns (ctxt s) f_car c m nil_word signal /\
     helper_returns (ctxt s) f_cdr c m nil_word signal).
Proof.
  intros Hlp Hc.
  destruct (init_comp_CAR_CDR H opt Hlp) as (s & Hinit & Hcar & Hcdr & Hbcar & Hbcdr).
  destruct Hlp as (_ & _ & _ & _ & _ & Hg & Htag).
  exists s, CAR_function, CDR_function.
  split; [done|]. split; [done|]. split; [done|]. split; [done|]. split; [done|].
  unfold is_cons_word, cons_field. rewrite Hg, Htag.
  change (2 ^ 3) with 8. change (emacs_Lisp_Type_val Lisp_Cons) with 3.
  rewrite Z.add_0_r.
  by apply CAR_CDR_run with (cell := function_cell H).
Qed.

End CAR_CDR.

Lemma emacs_x86_64_lp64 : lp64 emacs_x86_64.
Proof. repeat split. Qed.

Lemma C8_CAR_CDR_witness :
  let H := emacs_x86_64 in
  let c := 1003 in
  let m := machine_initial in
  exists s f_car f_cdr,
    init_comp H 2 comp_initial = Ok (tt, s) /\
    car s = Some f_car /\ cdr s = Some f_cdr /\
    function_name f_car = "CAR" /\ function_name f_cdr = "CDR" /\
    let returns := helper_returns H null_address_of null_host (ctxt s) in
    let signal :=
      m_trace m ++ [{| callee := "wrong_type_argument";
                       call_args := [listp_word H null_address_of; c] |}] in
    (is_cons_word H c ->
     returns f_car c m (cons_field H m c 0) (m_trace m) /\
     returns f_cdr c m (cons_field H m c 8) (m_trace m)) /\
    (~ is_cons_word H c -> c = nil_word null_address_of ->
     returns f_car c m (nil_word null_address_of) (m_trace m) /\
     returns f_cdr c m (nil_word null_address_of) (m_trace m)) /\
    (~ is_cons_word H c -> c <> nil_word null_address_of ->
     returns f_car c m (nil_word null_address_of) signal /\
     returns f_cdr c m (nil_word null_address_of) signal).
Proof.
  cbv zeta.
  apply (C8_CAR_CDR emacs_x86_64 null_address_of null_host 2 1003 machine_initial).
  - exact emacs_x86_64_lp64.
  - lia.
Defined.

(** ** C2: calls of primitives *)

(** What a call reads of a slot. *)
Definition slot_rvalue (e : stack_el_t) : gcc_jit_rvalue := Lvalue_as_rvalue (gcc_lval e).

Lemma slots_at_app m i es e :
  slots_at m i (es ++ [e]) <->
  slots_at m i es /\ array_get "stack" m (i + Z.of_nat (length es)) = Ok e.
Proof.
  revert i. induction es as [|e' es IH]; intros i; cbn [slots_at app length].
  - rewrite Z.add_0_r. tauto.
  - rewrite IH.
    replace (i + 1 + Z.of_nat (length es)) with (i + Z.of_nat (S (length es))) by lia.
    tauto.
Qed.

(** [pop] moves the [n] slots on top of the meta stack to the start of
    [args], the deepest first. *)
Lemma pop_spec (es : list stack_el_t) : forall stk a s,
  slots_at (stack_base s) (stk - Z.of_nat (length es)) es ->
  (length es <= length a)%nat ->
  pop (length es) stk a 0 s
  = Ok ((stk - Z.of_nat (length es),
         map (fun e => Some (slot_rvalue e)) es ++ drop (length es) a), s).
Proof.
  induction es as [|e es IH] using rev_ind; intros stk a s Hes Hlen.
  - cbn. rewrite Z.sub_0_r, drop_0. done.
  - rewrite length_app in *. cbn [length] in *.
    replace (length es + 1)%nat with (S (length es)) in * by lia.
    apply slots_at_app in Hes as [Hes He].
    cbn [pop]. cbv [bind slot_get gets lift ret].
    replace (stk - 1) with (stk - Z.of_nat (S (length es)) + Z.of_nat (length es)) at 1 by lia.
    rewrite He. cbv beta iota.
    rewrite array_set_Ok by lia. cbv beta iota.
    replace (Z.to_nat (0 + Z.of_nat (length es))) with (length es) by lia.
    rewrite IH; [| |by rewrite length_insert; lia].
    2: { by replace (stk - 1 - Z.of_nat (length es))
           with (stk - Z.of_nat (S (length es))) by lia. }
    do 3 f_equal; [lia|].
    rewrite map_app, <- app_assoc. f_equal. cbn [map app].
    rewrite insert_take_drop by lia.
    rewrite drop_app_length'; [done|]. rewrite length_take. lia.
Qed.

Lemma args_from_spec (l : list gcc_jit_rvalue) : forall a off s,
  0 <= off ->
  (forall (i : nat) x, l !! i = Some x -> a !! (Z.to_nat off + i)%nat = Some (Some x)) ->
  args_from a off (length l) s = Ok (l, s).
Proof.
  induction l as [|x l IH]; intros a off s Hoff Ha; [done|].
  cbn [length args_from]. cbv [bind arg lift ret deref].
  rewrite (array_get_Ok _ _ _ (Some x)); [|done|].
  2: { specialize (Ha 0%nat x eq_refl). by rewrite Nat.add_0_r in Ha. }
  cbv beta iota.
  rewrite IH; [done|lia|].
  intros i y Hy. replace (Z.to_nat (off + 1) + i)%nat with (Z.to_nat off + S i)%nat by lia.
  by apply Ha.
Qed.

Section calls.

Context (H : headers) (lisp_f_name : string).

(** The translator is at a call: the function [e] and its arguments
    [es] are on top of the meta stack, and [args] has room for them. *)
Definition call_ready (es : list stack_el_t) (b0 : basic_block_t) (fr : frame) (s : comp_t)
  : Prop :=
  (exists cur, block s = Some (in_bb_map cur) /\ array_get "bb_map" (bb_map s) cur = Ok b0) /\
  slots_at (stack_base s) (stack fr - Z.of_nat (length es)) es /\
  (length es <= length (args fr))%nat /\
  hash_names_ok (func_hash s).

(** The generic call, [Ffuncall (nargs, &slot)], and the call through
    the pointer of a primitive. *)
Definition is_funcall (nargs : Z) (e : stack_el_t) (res : gcc_jit_rvalue) : Prop :=
  exists f, function_name f = "Ffuncall" /\
    res = Call f [Rvalue_from_int (ptrdiff_type H) nargs; Get_address (gcc_lval e)].

Definition is_call_through_ptr (subr : Lisp_Subr) (es : list stack_el_t)
    (res : gcc_jit_rvalue) : Prop :=
  res = Call_through_ptr
          (Rvalue_from_ptr (Tfunction_ptr lisp_obj_type (replicate (length es) lisp_obj_type))
             (ptr_fun (function_a0 subr)))
          (map slot_rvalue es).

Lemma bind_Ok {A B} (m : M A) (k : A -> M B) s a s' :
  m s = Ok (a, s') -> bind m k s = k a s'.
Proof. intros Hm. unfold bind. by rewrite Hm. Qed.

Lemma emit_comment_Ok str s cur b :
  block s = Some (in_bb_map cur) -> array_get "bb_map" (bb_map s) cur = Ok b ->
  emit_comment str s
  = Ok (tt, with_ctxt (fun c => c ++ [block_add_comment (gcc_bb b) str]) s).
Proof.
  intros Hb Hb0. destruct s. cbn in Hb, Hb0. subst. munfold. by rewrite Hb0.
Qed.

Lemma statements_app a b : statements (a ++ b) = statements a ++ statements b.
Proof.
  induction a as [|r a IH]; [done|]. cbn. destruct (is_statement r); cbn; by rewrite IH.
Qed.

Lemma bind_assoc {A B C} (m : M A) (k : A -> M B) (k' : B -> M C) s :
  bind (bind m k) k' s = bind m (fun a => bind (k a) k') s.
Proof. unfold bind. by destruct (m s) as [[a s1]| |]. Qed.

End calls.

(** C2 as stated: a call through the pointer of a primitive is emitted
    only when the number of arguments matches the arity of the
    primitive. *)
Definition indirect_call_only_on_matching_arity (H : headers) : Prop :=
  forall lisp_f_name op fr s b0 e es fr' s' fn a,
    Z.of_nat (length es) = op ->
    call_ready (e :: es) b0 fr s ->
    const_set e = true -> type e = Some Lisp_Symbol ->
    strcmp_eq (SYMBOL_NAME (constant e)) lisp_f_name = false ->
    docall H lisp_f_name op fr s = Ok (fr', s') ->
    block_add_assignment (gcc_bb b0) (gcc_lval e) (Call_through_ptr fn a)
      ∈ added_statements s s' ->
    exists subr, symbol_function (constant e) = Lisp_subr subr /\
      max_args subr <> MANY H /\ min_args subr <= op <= max_args subr.

(** The primitive [car] takes one argument.  The byte code
    [constant car; constant nil; constant nil; call 2; return] calls it
    with two; the sample is at the call. *)
Definition Scar : Lisp_Subr :=
  {| function_a0 := "Fcar"; min_args := 1; max_args := 1; symbol_name := "car" |}.
Definition call_2_code : list Z := [192; 193; 193; 34; 135].
Definition call_2_constants : list Lisp_Object := [Lisp_symbol "car" (Lisp_subr Scar); Qnil].
Definition call_2_sample : result (gcc_jit_rvalue * Z * frame * comp_t) :=
  Eval vm_compute in at_operation call_2_code call_2_constants 3 3 comp_initial.

Lemma call_2_sample_ready :
  let s := sample_state call_2_sample in
  call_ready [sample_slot s 0; sample_slot s 1; sample_slot s 2] (sample_block s)
    (sample_frame call_2_sample) s.
Proof.
  cbv zeta. split; [exists 3; split; reflexivity|].
  split; [repeat split|]. split; [cbn; lia|]. cbn. hash_names.
Qed.



(** ** C7: pushing a handler *)

(** [emit_call] when the functions of [func_hash] return what their
    callers expect. *)
Lemma emit_call_cases_ret name ret_type args s :
  (length args <= 4)%nat ->
  hash_names_ok (func_hash s) ->
  (forall f, hash_lookup (func_hash s) name = Some f -> function_ret f = ret_type) ->
  exists f, function_name f = name /\ function_ret f = ret_type /\
    ((hash_lookup (func_hash s) name = Some f /\
      emit_call name ret_type args s = Ok (Call f args, s)) \/
     (hash_lookup (func_hash s) name = None /\
      function_id f = (objects s + length args)%nat /\
      emit_call name ret_type args s = Ok (Call f args, emit_call_declares s f))).
Proof.
  intros Hlen Hok Hret. unfold emit_call. cbv [bind gets].
  destruct (hash_lookup (func_hash s) name) as [f|] eqn:Eh.
  - exists f. split; [by apply Hok|]. split; [by apply Hret|]. left. done.
  - destruct s as [ctxt0 objs f0 blk h pv btl car0 cdr0 scar scdr ctype cimp ci cj bbm
                     allo stk].
    cbn in Eh, Hok.
    destruct args as [|a0 [|a1 [|a2 [|a3 [|a4 args]]]]]; [..|cbn in Hlen; lia];
      (eexists {| function_id := _; function_kind := _; function_ret := ret_type;
                  function_name := name; function_params := _ |};
       split; [reflexivity|split; [reflexivity|right; split; [done|]]];
       unfold emit_func_declare; munfold; decide_bools; cbn; decide_bools; cbn;
       split; [|reflexivity]; cbn; lia).
Qed.

Ltac use_emit_call_ret Hf Hr :=
  match goal with
  | Hok : hash_names_ok _ |- context [emit_call ?n ?r ?a ?s] =>
      let f := fresh "f" in
      let Hh := fresh "Hh" in
      let Hid := fresh "Hid" in
      let Hc := fresh "Hc" in
      destruct (emit_call_cases_ret n r a s)
        as (f & Hf & Hr & [[Hh Hc] | (Hh & Hid & Hc)]);
      [cbn; lia | exact Hok | | rewrite Hc; clear Hc | rewrite Hc; clear Hc]
  end.

Ltac mrun := repeat (progress (mrewrite; rewrite ?list_lookup_middle by reflexivity)).

Section handlers.

Context (H : headers).
Context (address_of : c_ptr -> Z) (host : list call_event -> string -> list Z -> Z).
Context (lisp_f_name : string) (bytestr_length : Z) (bytestr_data : list Z).
Context (vectorp : list Lisp_Object) (vector_size : Z).

(** A conditional on [!r] goes to its first target when [r] is 0 and to
    its second target otherwise. *)
Lemma conditional_on_negation b r on_zero on_nonzero m v m' :
  eval_rvalue H address_of host m r = Some (v, m') ->
  exec_code H address_of host
    [block_end_with_conditional b (Unary_op GCC_JIT_UNARY_OP_LOGICAL_NEGATE bool_type r)
       on_zero on_nonzero] m
  = Some (Goes_to (if bool_decide (v = 0) then on_zero else on_nonzero), m').
Proof.
  intros Hr. cbn [exec_code eval_rvalue]. rewrite Hr.
  cbn [mbind option_bind eval_unary_op].
  destruct (decide (v = 0)) as [Hv|Hv].
  - rewrite (bool_decide_true (v = 0)) by done.
    by rewrite (bool_decide_true (1 <> 0)) by lia.
  - rewrite (bool_decide_false (v = 0)) by done.
    by rewrite (bool_decide_false (0 <> 0)) by lia.
Qed.

(** The translator is at a [pushcatch] or a [pushconditioncase] whose
    operand is the handler PC [handler_pc]: [e] is the slot on top of
    the meta stack, [b0] the current block, [bnext] the block of the
    next operation and [bh] the block of the handler. *)
Definition handler_ready (f : gcc_jit_function) (e : stack_el_t)
    (b0 bnext bh : basic_block_t) (handler_pc : Z) (fr : frame) (s : comp_t) : Prop :=
  func s = Some f /\
  (exists cur, block s = Some (in_bb_map cur) /\ array_get "bb_map" (bb_map s) cur = Ok b0) /\
  array_get "stack" (stack_base s) (stack fr - 1) = Ok e /\
  (2 <= length (args fr))%nat /\
  hash_names_ok (func_hash s) /\
  (forall g,
     hash_lookup (func_hash s) (if HAVE__SETJMP H then "_setjmp" else "setjmp") = Some g ->
     function_ret g = int_type) /\
  (exists lo hi,
     array_get "bytestr_data" bytestr_data (pc fr) = Ok lo /\
     array_get "bytestr_data" bytestr_data (pc fr + 1) = Ok hi /\
     handler_pc = lo + Z.shiftl hi 8) /\
  array_get "bb_map" (bb_map s) (pc fr + 2) = Ok bnext /\
  array_get "bb_map" (bb_map s) handler_pc = Ok bh /\
  fits ("c_" +:+ pretty (pushhandler_n fr)) /\
  fits ("push_h_val_" +:+ pretty (pushhandler_n fr)).

Ltac finish f0 f1 :=
  eexists _, _, _, _, _, f0, f1; cbv zeta; split; [reflexivity|];
  cbn [stack pc pushhandler_n block ctxt bb_map objects gcc_bb gcc_lval bb_top];
  split; [lia|]; split; [lia|]; split; [done|]; split; [done|];
  split; [rewrite <- !app_assoc; reflexivity|];
  split; [reflexivity|];
  split; [reflexivity|]; split; [reflexivity|];
  split; [done|]; split; [done|];
  split; [eexists; split; [apply array_get_insert; [lia|rewrite ?length_insert; lia]|];
          split; [reflexivity|cbn; f_equal; lia]|];
  intros m v m' Hv; by apply conditional_on_negation.

(** C7.  At [pushcatch] and [pushconditioncase] the translator pops one
    value and emits, in the current block, [c = push_handler (value,
    kind)] with the kind [CATCHER] or [CONDITION_CASE], and a
    conditional on [!setjmp (&c->jmp)]: when [setjmp] returns 0 control
    goes to the block of the next operation, the meta stack being one
    slot lower than before the operation; otherwise it goes to a new
    block, which assigns [c->next] to [current_thread->m_handlerlist],
    stores [c->val] in the slot that was popped and jumps to the block
    of the handler PC, the two-byte operand, whose stack pointer is
    recorded as one slot higher. *)
Theorem C7_pushhandler nil op fr s f e b0 bnext bh handler_pc kind :
  (decode H op = Some Bpushcatch /\ kind = CATCHER H \/
   decode H op = Some Bpushconditioncase /\ kind = CONDITION_CASE H) ->
  handler_ready f e b0 bnext bh handler_pc fr s ->
  exists fr' s' L c hblock fpush fsetjmp,
    let setjmp :=
      Call fsetjmp [Get_address (Dereference_field (Lvalue_as_rvalue c) handler_jmp_field)] in
    let branch :=
      block_end_with_conditional (gcc_bb b0)
        (Unary_op GCC_JIT_UNARY_OP_LOGICAL_NEGATE bool_type setjmp) (gcc_bb bnext) hblock in
    compile_op H lisp_f_name bytestr_length bytestr_data vectorp vector_size nil op fr s
    = Ok (fr', s') /\
    stack fr' = stack fr - 1 /\ pc fr' = pc fr + 2 /\
    pushhandler_n fr' = S (pushhandler_n fr) /\
    block s' = block s /\
    ctxt s' = ctxt s ++ L /\
    statements L
    = [ block_add_assignment (gcc_bb b0) c
          (Call fpush [slot_rvalue e; Rvalue_from_int int_type kind]);
        branch;
        block_add_assignment hblock m_handlerlist_lval
          (Lvalue_as_rvalue (Dereference_field (Lvalue_as_rvalue c) handler_next_field));
        block_add_assignment hblock (gcc_lval e)
          (Lvalue_as_rvalue (Dereference_field (Lvalue_as_rvalue c) handler_val_field));
        block_end_with_jump hblock (gcc_bb bh) ] /\
    c = Local (objects s) handler_ptr_type ("c_" +:+ pretty (pushhandler_n fr)) /\
    block_name hblock = "push_h_val_" +:+ pretty (pushhandler_n fr) /\
    function_name fpush = "push_handler" /\
    function_name fsetjmp = (if HAVE__SETJMP H then "_setjmp" else "setjmp") /\
    (exists bh', array_get "bb_map" (bb_map s') handler_pc = Ok bh' /\
       gcc_bb bh' = gcc_bb bh /\ bb_top bh' = Some (stack fr)) /\
    forall m v m',
      eval_rvalue H address_of host m setjmp = Some (v, m') ->
      exec_code H address_of host [branch] m
      = Some (Goes_to (if bool_decide (v = 0) then gcc_bb bnext else hblock), m').
Proof.
  intros Hdec (Hf & [cur [Hb Hb0]] & He & Hargs & Hok & Hsj & (lo & hi & Hlo & Hhi & ->) &
              Hnext & Hh & Hfc & Hfp).
  destruct s as [ctxt0 objs f0 blk h pv btl car0 cdr0 scar scdr ctype cimp ci cj bbm allo
                   stk].
  destruct fr as [pc0 st0 args0 phn]. destruct b0 as [bb0 top0 term0].
  destruct e as [lv ty c cs]. destruct bnext as [bbn topn termn].
  destruct bh as [bbh toph termh].
  cbn in Hf, Hb, Hb0, He, Hargs, Hok, Hsj, Hlo, Hhi, Hnext, Hh, Hfc, Hfp. subst f0 blk.
  apply array_get_inv in He as He'. apply array_get_inv in Hb0 as Hb0'.
  apply array_get_inv in Hnext as Hnext'. apply array_get_inv in Hh as Hh'.
  unfold compile_op, slot_rvalue.
  destruct (decide (lo + Z.shiftl hi 8 = cur)) as [Heq|Hne].
  - assert (bbh = bb0 /\ toph = top0 /\ termh = term0) as (-> & -> & ->).
    { rewrite Heq, Hb0 in Hh. by injection Hh as -> -> ->. }
    destruct Hdec as [[-> ->] | [-> ->]]; cbv beta iota.
    all: unfold pushhandler; destruct (HAVE__SETJMP H).
    all: munfold; mrewrite; use_emit_call Hf1; munfold; mrewrite.
    all: try pose proof (hash_names_ok_cons h _ f0 Hok eq_refl) as Hok2.
    all: use_emit_call_ret Hf2 Hr2;
      [first [exact Hsj
             | intros g; cbn [hash_lookup func_hash]; rewrite Hf1;
               rewrite bool_decide_false by done; apply Hsj]|..].
    all: munfold; mrun; cbn [rvalue_get_type]; rewrite Hr2;
      cbn [type_eqb int_type bool_type]; decide_bools; munfold; mrun; munfold; mrun.
    all: finish f0 f1.
  - destruct Hdec as [[-> ->] | [-> ->]]; cbv beta iota.
    all: unfold pushhandler; destruct (HAVE__SETJMP H).
    all: munfold; mrewrite; use_emit_call Hf1; munfold; mrewrite.
    all: try pose proof (hash_names_ok_cons h _ f0 Hok eq_refl) as Hok2.
    all: use_emit_call_ret Hf2 Hr2;
      [first [exact Hsj
             | intros g; cbn [hash_lookup func_hash]; rewrite Hf1;
               rewrite bool_decide_false by done; apply Hsj]|..].
    all: munfold; mrun; cbn [rvalue_get_type]; rewrite Hr2;
      cbn [type_eqb int_type bool_type]; decide_bools; munfold; mrun; munfold; mrun.
    all: finish f0 f1.
Qed.
End handlers.

(** [constant 0; pushcatch 6; constant 0; return; return], at the
    [pushcatch]: the handler is at PC 6. *)
Definition pushcatch_code : list Z := [192; 50; 6; 0; 192; 135; 135].
Definition pushcatch_sample : result (gcc_jit_rvalue * Z * frame * comp_t) :=
  Eval vm_compute in at_operation pushcatch_code [Qnil] 1 1 comp_initial.

Lemma C7_pushhandler_witness :
  let r := pushcatch_sample in
  let s := sample_state r in
  let fr := sample_frame r in
  let e := sample_slot s 0 in
  let b := fun pc => default (sample_block s) (bb_map s !! pc) in
  exists fr' s' L c hblock fpush fsetjmp,
    let setjmp :=
      Call fsetjmp [Get_address (Dereference_field (Lvalue_as_rvalue c) handler_jmp_field)] in
    let branch :=
      block_end_with_conditional (gcc_bb (b 1%nat))
        (Unary_op GCC_JIT_UNARY_OP_LOGICAL_NEGATE bool_type setjmp) (gcc_bb (b 4%nat))
        hblock in
    compile_op emacs_x86_64 "f" 7 (SDATA pushcatch_code) [Qnil] 1 (sample_nil r) (sample_op r)
      fr s
    = Ok (fr', s') /\
    stack fr' = stack fr - 1 /\ pc fr' = pc fr + 2 /\
    pushhandler_n fr' = S (pushhandler_n fr) /\
    block s' = block s /\
    ctxt s' = ctxt s ++ L /\
    statements L
    = [ block_add_assignment (gcc_bb (b 1%nat)) c
          (Call fpush [slot_rvalue e; Rvalue_from_int int_type (CATCHER emacs_x86_64)]);
        branch;
        block_add_assignment hblock m_handlerlist_lval
          (Lvalue_as_rvalue (Dereference_field (Lvalue_as_rvalue c) handler_next_field));
        block_add_assignment hblock (gcc_lval e)
          (Lvalue_as_rvalue (Dereference_field (Lvalue_as_rvalue c) handler_val_field));
        block_end_with_jump hblock (gcc_bb (b 6%nat)) ] /\
    c = Local (objects s) handler_ptr_type ("c_" +:+ pretty (pushhandler_n fr)) /\
    block_name hblock = "push_h_val_" +:+ pretty (pushhandler_n fr) /\
    function_name fpush = "push_handler" /\
    function_name fsetjmp = "_setjmp" /\
    (exists bh', array_get "bb_map" (bb_map s') 6 = Ok bh' /\
       gcc_bb bh' = gcc_bb (b 6%nat) /\ bb_top bh' = Some (stack fr)) /\
    forall m v m',
      eval_rvalue emacs_x86_64 null_address_of null_host m setjmp = Some (v, m') ->
      exec_code emacs_x86_64 null_address_of null_host [branch] m
      = Some (Goes_to (if bool_decide (v = 0) then gcc_bb (b 4%nat) else hblock), m').
Proof.
  cbv zeta.
  refine (C7_pushhandler emacs_x86_64 null_address_of null_host "f" 7 (SDATA pushcatch_code)
            [Qnil] 1 (sample_nil pushcatch_sample) (sample_op pushcatch_sample)
            (sample_frame pushcatch_sample) (sample_state pushcatch_sample) _ _ _ _ _ 6 _ _ _).
  - left. split; reflexivity.
  - split; [reflexivity|].
    split; [exists 1; split; reflexivity|].
    split; [reflexivity|].
    split; [cbn; lia|].
    split; [cbn; hash_names|].
    split; [intros g Hg; vm_compute in Hg; discriminate Hg|].
    split; [exists 6, 0; repeat split|].
    split; [reflexivity|].
    split; [reflexivity|].
    split; vm_compute; reflexivity.
Defined.

(** ** C6: sub1, add1 and negate *)

Ltac mrun_cast Hty :=
  repeat (progress (mrewrite; mcast Hty; rewrite ?list_lookup_middle by reflexivity;
                    rewrite ?lookup_app_l by (rewrite length_app; cbn; lia);
                    rewrite ?list_lookup_middle by reflexivity)).

(** The three operations that [compile_f] compiles with an inline path on
    fixnums: the cases [Bsub1], [Badd1] and [Bnegate]. *)
Inductive fixnum_op := op_sub1 | op_add1 | op_negate.

Definition fixnum_op_bytecode (o : fixnum_op) : bytecode :=
  match o with op_sub1 => Bsub1 | op_add1 => Badd1 | op_negate => Bnegate end.

(** The function of the host that the other path calls. *)
Definition fixnum_op_function (o : fixnum_op) : string :=
  match o with op_sub1 => "Fsub1" | op_add1 => "Fadd1" | op_negate => "Fminus" end.

(** The prefix of the names of the two blocks. *)
Definition fixnum_op_name (o : fixnum_op) : string :=
  match o with op_sub1 => "sub1" | op_add1 => "add1" | op_negate => "negate" end.

Section fixnum_operations.

Context (H : headers).
Context (lisp_f_name : string) (bytestr_length : Z) (bytestr_data : list Z).
Context (vectorp : list Lisp_Object) (vector_size : Z).

(** The fixnum on which the inline arithmetic would overflow. *)
Definition fixnum_op_limit (o : fixnum_op) : gcc_jit_rvalue :=
  match o with
  | op_sub1 | op_negate => most_negative_fixnum H
  | op_add1 => most_positive_fixnum H
  end.

(** [sub1_inline_res], [add1_inline_res], [negate_inline_res]. *)
Definition fixnum_op_inline (o : fixnum_op) (tos_as_num : gcc_jit_rvalue) : gcc_jit_rvalue :=
  match o with
  | op_sub1 => Binary_op GCC_JIT_BINARY_OP_MINUS (emacs_int_type H) tos_as_num (one H)
  | op_add1 => Binary_op GCC_JIT_BINARY_OP_PLUS (emacs_int_type H) tos_as_num (one H)
  | op_negate => Unary_op GCC_JIT_UNARY_OP_MINUS (emacs_int_type H) tos_as_num
  end.

(** The arguments of the call: [Fsub1] and [Fadd1] take the slot,
    [Fminus] takes a count and the address of the slot. *)
Definition fixnum_op_args (o : fixnum_op) (tos : gcc_jit_lvalue) : list gcc_jit_rvalue :=
  match o with
  | op_sub1 | op_add1 => [Lvalue_as_rvalue tos]
  | op_negate => [Rvalue_from_int (ptrdiff_type H) 1; Get_address tos]
  end.

(** [emit_XLI] and [emit_XFIXNUM] on the slot at the top of the stack. *)
Definition tos_num (tos : gcc_jit_lvalue) : gcc_jit_rvalue :=
  Rvalue_access_field (Lvalue_as_rvalue tos) (lisp_obj_as_num H).

Definition tos_as_num (tos : gcc_jit_lvalue) : gcc_jit_rvalue :=
  Binary_op GCC_JIT_BINARY_OP_RSHIFT (emacs_int_type H) (tos_num tos) (inttypebits H).

(** [emit_FIXNUMP] on the word that the first cast left in [cast1]. *)
Definition fixnump_of (cast1 : gcc_jit_lvalue) : gcc_jit_rvalue :=
  Unary_op GCC_JIT_UNARY_OP_LOGICAL_NEGATE int_type
    (Binary_op GCC_JIT_BINARY_OP_BITWISE_AND unsigned_type
       (Binary_op GCC_JIT_BINARY_OP_MINUS unsigned_type
          (Rvalue_access_field (Lvalue_as_rvalue cast1) cast_union_as_u)
          (Rvalue_from_int unsigned_type
             (Z.shiftr (Lisp_Type_val H Lisp_Int0) (if USE_LSB_TAG H then 0 else 1))))
       (Rvalue_from_int unsigned_type (Z.shiftl 1 (INTTYPEBITS H) - 1))).

(** The test of the conditional. *)
Definition fixnum_test (o : fixnum_op) (tos cast2 : gcc_jit_lvalue) : gcc_jit_rvalue :=
  Binary_op GCC_JIT_BINARY_OP_LOGICAL_AND bool_type
    (Rvalue_access_field (Lvalue_as_rvalue cast2) cast_union_as_b)
    (Comparison GCC_JIT_COMPARISON_NE (tos_as_num tos) (fixnum_op_limit o)).

(** [emit_make_fixnum] when the tag is in the low bits. *)
Definition packed (v : gcc_jit_rvalue) : gcc_jit_rvalue :=
  Binary_op GCC_JIT_BINARY_OP_PLUS (emacs_int_type H)
    (Binary_op GCC_JIT_BINARY_OP_LSHIFT (emacs_int_type H) v (inttypebits H)) (lisp_int0 H).

(** The statements that one of the three cases adds, in the order of
    the calls of libgccjit. *)
Definition fixnum_op_code (o : fixnum_op) (b0 inline fcall next : gcc_jit_block)
    (tos cast1 cast2 fixnum : gcc_jit_lvalue) (fhost : gcc_jit_function)
  : list gcc_jit_record :=
  [ block_add_assignment b0 (Lvalue_access_field cast1 cast_union_as_l)
      (Binary_op GCC_JIT_BINARY_OP_RSHIFT (emacs_int_type H) (tos_num tos)
         (Rvalue_from_int (emacs_int_type H) (if USE_LSB_TAG H then 0 else FIXNUM_BITS H)));
    block_add_assignment b0 (Lvalue_access_field cast2 cast_union_as_i) (fixnump_of cast1);
    block_end_with_conditional b0 (fixnum_test o tos cast2) inline fcall;
    block_add_assignment inline (Lvalue_access_field fixnum (lisp_obj_as_num H))
      (packed (fixnum_op_inline o (tos_as_num tos)));
    block_add_assignment inline tos (Lvalue_as_rvalue fixnum);
    block_add_assignment fcall tos (Call fhost (fixnum_op_args o tos));
    block_end_with_jump inline next;
    block_end_with_jump fcall next ].

(** The state in which [compile_f] reaches one of the three cases: the
    operation at [pc - 1] has been fetched, the current block is the one
    of that operation and the stack holds one slot at least. *)
Definition fixnum_op_ready (f : gcc_jit_function) (e : stack_el_t) (b0 bnext : basic_block_t)
    (fr : frame) (s : comp_t) : Prop :=
  func s = Some f /\
  block s = Some (in_bb_map (pc fr - 1)) /\
  array_get "bb_map" (bb_map s) (pc fr - 1) = Ok b0 /\
  array_get "bb_map" (bb_map s) (pc fr) = Ok bnext /\
  array_get "stack" (stack_base s) (stack fr - 1) = Ok e /\
  (1 <= length (args fr))%nat /\
  hash_names_ok (func_hash s) /\
  fits ("union_cast_" +:+ pretty (emit_cast_i s)) /\
  fits ("union_cast_" +:+ pretty (S (emit_cast_i s))).

(** What the three cases add to the context. *)
Lemma fixnum_op_emits nil op fr s o f e b0 bnext :
  decode H op = Some (fixnum_op_bytecode o) ->
  fixnum_op_ready f e b0 bnext fr s ->
  emacs_int_type H = long_type ->
  exists fr' s' L fhost,
    let inline := {| block_id := objects s; block_function := function_id f;
                     block_name := fixnum_op_name o +:+ "_inline_block" |} in
    let fcall := {| block_id := S (objects s); block_function := function_id f;
                    block_name := fixnum_op_name o +:+ "_fcall_block" |} in
    let cast1 := Local (S (S (objects s))) cast_union_type
                   ("union_cast_" +:+ pretty (emit_cast_i s)) in
    let cast2 := Local (S (S (S (objects s)))) cast_union_type
                   ("union_cast_" +:+ pretty (S (emit_cast_i s))) in
    let fixnum := Local (S (S (S (S (objects s))))) lisp_obj_type "lisp_obj_fixnum" in
    compile_op H lisp_f_name bytestr_length bytestr_data vectorp vector_size nil op fr s
    = Ok (fr', s') /\
    stack fr' = stack fr /\ pc fr' = pc fr /\ block s' = block s /\
    ctxt s' = ctxt s ++ L /\
    function_name fhost = fixnum_op_function o /\
    statements L
    = fixnum_op_code o (gcc_bb b0) inline fcall (gcc_bb bnext) (gcc_lval e) cast1 cast2 fixnum
        fhost.
Proof.
  intros Hdec (Hf & Hb & Hb0 & Hnext & He & Hargs & Hok & Hf0 & Hf1) Hty.
  destruct s as [ctxt0 objs f0 blk h pv btl car0 cdr0 scar scdr ctype cimp ci cj bbm allo stk].
  destruct fr as [pc0 st0 args0 phn]. destruct b0 as [bb0 top0 term0].
  destruct e as [lv ty c cs]. destruct bnext as [bbn topn termn].
  cbn in Hf, Hb, Hb0, He, Hargs, Hok, Hnext, Hf0, Hf1. subst f0 blk.
  apply array_get_inv in He as He'. apply array_get_inv in Hb0 as Hb0'.
  apply array_get_inv in Hnext as Hnext'.
  unfold compile_op.
  destruct o; cbn [fixnum_op_bytecode] in Hdec; rewrite Hdec; cbv beta iota.
  all: unfold sub1_add1, negate; munfold; mrun_cast Hty.
  all: cbn [rvalue_get_type]; cbn [type_eqb int_type bool_type]; decide_bools; munfold;
    mrun_cast Hty.
  all: use_emit_call Hf2; munfold; mrun_cast Hty.
  all: eexists _, _, _, f0; cbv zeta; split; [reflexivity|];
    cbn [stack pc block ctxt objects function_id emit_cast_i gcc_bb gcc_lval].
  all: split; [lia|]; split; [done|]; split; [done|].
  all: split; [rewrite <- !app_assoc; reflexivity|]; split; [done|].
  all: unfold fixnum_op_code, fixnum_test, packed, fixnump_of, fixnum_op_inline,
    fixnum_op_limit, fixnum_op_args, tos_as_num, tos_num, most_negative_fixnum,
    most_positive_fixnum, inttypebits, lisp_int0, one, lisp_obj_as_num;
    rewrite ?Hty; reflexivity.
Qed.
End fixnum_operations.

(** Only the statements of a context are run. *)
Lemma exec_code_statements H a h (c : list gcc_jit_record) : forall m,
  exec_code H a h c m = exec_code H a h (statements c) m.
Proof.
  induction c as [|r c IH]; intros m; [done|].
  destruct r; cbn [exec_code statements is_statement]; try apply IH; try done.
  - destruct (eval_rvalue _ _ _ _ _) as [[v m1]|]; [|done]. cbn [mbind option_bind].
    destruct (eval_lvalue _ _ _ _ _) as [[pl m2]|]; [|done]. cbn [mbind option_bind].
    apply IH.
  - destruct (eval_rvalue _ _ _ _ _) as [[v m1]|]; [|done]. cbn [mbind option_bind].
    apply IH.
Qed.

Lemma block_code_statements (c : list gcc_jit_record) b :
  statements (block_code c b) = block_code (statements c) b.
Proof.
  induction c as [|r c IH]; [done|].
  destruct r; cbn; try apply IH; try (case_bool_decide; cbn; by rewrite ?IH).
Qed.

(** An LP64 host with two tag bits for the fixnums. *)
Definition fixnum_lp64 (H : headers) : Prop :=
  lp64 H /\ INTTYPEBITS H = 2 /\ MOST_POSITIVE_FIXNUM H = Z.shiftr (2 ^ 63 - 1) (INTTYPEBITS H) /\
  MOST_NEGATIVE_FIXNUM H = -1 - MOST_POSITIVE_FIXNUM H.

Local Abbreviation int := (Tbasic GCC_JIT_TYPE_INT) (only parsing).
Local Abbreviation bool_t := (Tbasic GCC_JIT_TYPE_BOOL) (only parsing).

Lemma convert_int_small i : 0 <= i < 2 ^ 31 -> convert int i = i.
Proof.
  intros Hi. words. change (2 ^ 31) with 2147483648 in *.
  repeat case_bool_decide; Z.div_mod_to_equations; lia.
Qed.

Lemma fixnum_tag_test w :
  0 <= w < 2 ^ 64 ->
  convert uint (Z.land (convert uint (convert uint w - convert uint 2)) (convert uint 3))
  = (w - 2) mod 4.
Proof.
  intros Hw. change (convert uint 3) with (Z.ones 2).
  rewrite Z.land_ones by lia. change (2 ^ 2) with 4.
  words. Z.div_mod_to_equations. lia.
Qed.

Lemma store_int_read_bool old v :
  0 <= v < 256 -> convert bool_t (store_cell int old v) = v.
Proof.
  intros Hv. words. change (Z.min 32 64) with 32. change (2 ^ 8) with 256.
  Z.div_mod_to_equations. lia.
Qed.

(** The word that the inline path stores for the number [r]. *)
Lemma packed_word old old' r :
  - 2 ^ 61 <= r < 2 ^ 61 ->
  store_cell obj old'
    (convert obj (store_cell long old (convert long (convert long (convert long r ≪ 2) + 2))))
  = to_unsigned 64 (r * 4 + 2).
Proof.
  intros Hr. change (2 ^ 61) with 2305843009213693952 in Hr.
  change (convert long r) with (to_signed 64 r).
  rewrite (to_signed_small r) by (change (2 ^ 63) with 9223372036854775808; lia).
  rewrite Z.shiftl_mul_pow2 by lia. change (2 ^ 2) with 4.
  change (convert long (r * 4)) with (to_signed 64 (r * 4)).
  rewrite (to_signed_small (r * 4)) by (change (2 ^ 63) with 9223372036854775808; lia).
  change (convert long (r * 4 + 2)) with (to_signed 64 (r * 4 + 2)).
  rewrite (to_signed_small (r * 4 + 2)) by (change (2 ^ 63) with 9223372036854775808; lia).
  words. Z.div_mod_to_equations. lia.
Qed.

Section fixnum_operations_run.
Context (H : headers) (address_of : c_ptr -> Z) (host : list call_event -> string -> list Z -> Z).

Ltac offsets :=
  repeat match goal with
  | |- context [field_offset ?H ?f] =>
      first [ change (field_offset H f) with 0 | change (field_offset H f) with 8 ]
  end.

Ltac eval_code :=
  repeat (progress (
    cbn [exec_code eval_rvalue eval_lvalue rvalue_place mbind option_bind lvalue_get_type
         rvalue_get_type field_type place_offset param_id param_type function_ret
         function_name eval_binary_op eval_unary_op eval_comparison];
    offsets;
    rewrite ?(bool_decide_true (0 = 0)) by done)).

Ltac reads :=
  repeat first [ rewrite read_write_local
               | rewrite read_write_local_ne by (cbn; lia)
               | rewrite read_memory_write_local ].

Ltac framed :=
  cbn [write_place m_locals m_trace m_memory];
  repeat match goal with
  | |- context [bool_decide (?a = ?b)] =>
      first [ rewrite (bool_decide_false (a = b)) by lia
            | rewrite (bool_decide_true (a = b)) by lia ]
  end;
  cbn [andb]; try done.

(** A slot of the meta stack: the element [i] of the local array. *)
Definition slot_lvalue (arr : nat) (n : Z) (name : string) (i : Z) : gcc_jit_lvalue :=
  Array_access (Lvalue_as_rvalue (Local arr (Tarray lisp_obj_type n) name))
    (Rvalue_from_int int_type i).

(** The words of the fixnums: [FIXNUMP], [XFIXNUM] and [make_fixnum] on
    the 64 bits of a Lisp object. *)
Definition is_fixnum_word (w : Z) : Prop :=
  w mod 2 ^ INTTYPEBITS H = Lisp_Type_val H Lisp_Int0.
#[global] Instance is_fixnum_word_dec w : Decision (is_fixnum_word w).
Proof. unfold is_fixnum_word. apply _. Defined.
Definition XFIXNUM_word (w : Z) : Z := Z.shiftr (to_signed 64 w) (INTTYPEBITS H).
Definition make_fixnum_word (n : Z) : Z :=
  to_unsigned 64 (n * 2 ^ INTTYPEBITS H + Lisp_Type_val H Lisp_Int0).

(** The limit and the result of the inline path, as numbers. *)
Definition fixnum_op_limit_value (o : fixnum_op) : Z :=
  match o with
  | op_sub1 | op_negate => MOST_NEGATIVE_FIXNUM H
  | op_add1 => MOST_POSITIVE_FIXNUM H
  end.

Definition fixnum_op_result (o : fixnum_op) (n : Z) : Z :=
  match o with
  | op_sub1 => n - 1
  | op_add1 => n + 1
  | op_negate => - n
  end.

(** The code added to the current block goes to the inline block when
    the slot holds a fixnum other than the limit, and to the block of the
    call otherwise; it leaves the slot as it is. *)
Lemma fixnum_test_runs o b0 inline fcall next arr n name i id1 n1 id2 n2 id3 n3 fhost m :
  fixnum_lp64 H ->
  0 <= i < 2 ^ 31 ->
  (arr < id1)%nat -> (id1 < id2)%nat -> (id2 < id3)%nat ->
  (block_id b0 < block_id inline)%nat -> (block_id inline < block_id fcall)%nat ->
  let w := m_locals m arr i in
  0 <= w < 2 ^ 64 ->
  let code := fixnum_op_code H o b0 inline fcall next (slot_lvalue arr n name i)
                (Local id1 cast_union_type n1) (Local id2 cast_union_type n2)
                (Local id3 lisp_obj_type n3) fhost in
  exists m1,
    exec_code H address_of host (block_code code b0) m
    = Some (Goes_to (if bool_decide (is_fixnum_word w /\
                                     XFIXNUM_word w <> fixnum_op_limit_value o)
                     then inline else fcall), m1) /\
    m_locals m1 arr i = w /\ m_trace m1 = m_trace m /\ m_memory m1 = m_memory m.
Proof.
  intros (Hlp & Hbits & Hpos & Hneg) Hi H1 H2 H3 Hb1 Hb2 w Hw. cbv zeta.
  destruct Hlp as (Hty & _ & _ & _ & Hlsb & _ & Htag).
  assert (MOST_POSITIVE_FIXNUM H = 2 ^ 61 - 1) as Hpos'.
  { rewrite Hpos, Hbits. reflexivity. }
  assert (MOST_NEGATIVE_FIXNUM H = - 2 ^ 61) as Hneg'.
  { rewrite Hneg, Hpos'. reflexivity. }
  rewrite (bool_decide_ext (is_fixnum_word w /\ _)
             (w mod 4 = 2 /\ to_signed 64 w ≫ 2 <> fixnum_op_limit_value o))
    by (unfold is_fixnum_word, XFIXNUM_word; rewrite Hbits, Htag; reflexivity).
  unfold fixnum_op_code, fixnum_test, packed, fixnump_of, tos_as_num, tos_num,
    inttypebits, lisp_int0, lisp_obj_as_num, slot_lvalue.
  rewrite Hty, Hlsb, Hbits, Htag.
  cbn [block_code record_block].
  rewrite !(bool_decide_true (block_id b0 = block_id b0)) by done.
  rewrite !(bool_decide_false (block_id inline = block_id b0)) by lia.
  rewrite !(bool_decide_false (block_id fcall = block_id b0)) by lia.
  eval_code.
  cbn [field_type cast_union_as_l cast_union_as_u cast_union_as_i cast_union_as_b mk_field].
  unfold long_type, unsigned_type, int_type, bool_type, cast_union_type, lisp_obj_type.
  rewrite (convert_int_small i) by lia.
  reads. fold w.
  change (read_place m (in_local arr i) long) with (convert long w).
  rewrite shift_0. rewrite store_cell_long by done.
  change (emacs_Lisp_Type_val Lisp_Int0 ≫ 0) with 2. change (1 ≪ 2 - 1) with 3.
  rewrite fixnum_tag_test by done.
  change (2 ^ 2) with 4. change (emacs_Lisp_Type_val Lisp_Int0) with 2.
  assert (w mod 4 = 2 <-> (w - 2) mod 4 = 0) as Hmod by (Z.div_mod_to_equations; lia).
  assert (- 2 ^ 61 <= to_signed 64 w ≫ 2 < 2 ^ 61) as Hrange.
  { rewrite Z.shiftr_div_pow2 by lia. change (2 ^ 2) with 4.
    unfold to_signed. cbv zeta. change (2 ^ 64) with 18446744073709551616 in *.
    change (2 ^ (64 - 1)) with 9223372036854775808.
    change (2 ^ 61) with 2305843009213693952.
    case_bool_decide; Z.div_mod_to_equations; lia. }
  assert (eval_rvalue H address_of host
            (write_place (write_place m (in_local id1 0) long (convert long w))
               (in_local id2 0) int 1) (fixnum_op_limit H o)
          = Some (fixnum_op_limit_value o,
                  write_place (write_place m (in_local id1 0) long (convert long w))
                    (in_local id2 0) int 1)) as Hlimit.
  { destruct o; cbn [fixnum_op_limit fixnum_op_limit_value eval_rvalue];
      unfold most_negative_fixnum, most_positive_fixnum; cbn [eval_rvalue]; rewrite Hty;
      rewrite ?Hneg', ?Hpos'; reflexivity. }
  destruct (decide ((w - 2) mod 4 = 0)) as [Hfix|Hfix].
  - rewrite (bool_decide_true (_ mod 4 = 0)) by done.
    rewrite store_int_read_bool by lia.
    rewrite (bool_decide_false (1 = 0)) by lia.
    rewrite Hlimit. cbn [mbind option_bind].
    rewrite (bool_decide_true (1 <> 0)) by lia. cbn [andb].
    change (convert long 2) with 2.
    change (convert long w) with (to_signed 64 w).
    change (convert long (to_signed 64 w ≫ 2)) with (to_signed 64 (to_signed 64 w ≫ 2)).
    rewrite (to_signed_small (to_signed 64 w ≫ 2)) by (change (2 ^ 63) with (4 * 2 ^ 61); lia).
    destruct (decide (to_signed 64 w ≫ 2 = fixnum_op_limit_value o)) as [Hl|Hl].
    + rewrite (bool_decide_false (_ <> fixnum_op_limit_value o)) by (intros Hn; by apply Hn).
      rewrite (bool_decide_false (0 <> 0)) by lia.
      rewrite (bool_decide_false (_ /\ _)) by (intros [_ Hn]; by apply Hn).
      eexists. split; [reflexivity|]. split; [|split]; framed.
    + rewrite (bool_decide_true (_ <> fixnum_op_limit_value o)) by done.
      rewrite (bool_decide_true (1 <> 0)) by lia.
      rewrite (bool_decide_true (_ /\ _)) by (split; [by apply Hmod|done]).
      eexists. split; [reflexivity|]. split; [|split]; framed.
  - rewrite (bool_decide_false (_ mod 4 = 0)) by done.
    rewrite store_int_read_bool by lia.
    rewrite (bool_decide_true (0 = 0)) by lia.
    cbn [mbind option_bind].
    rewrite (bool_decide_false (0 <> 0)) by lia.
    rewrite (bool_decide_false (_ /\ _)) by (intros [Hn _]; by apply Hfix, Hmod).
    eexists. split; [reflexivity|]. split; [|split]; framed.
Qed.


(** The inline block stores the packed result in the slot and goes to
    the block of the next operation. *)
Lemma fixnum_inline_runs o b0 inline fcall next arr n name i id1 n1 id2 n2 id3 n3 fhost m :
  fixnum_lp64 H ->
  0 <= i < 2 ^ 31 ->
  (arr < id1)%nat -> (id1 < id2)%nat -> (id2 < id3)%nat ->
  (block_id b0 < block_id inline)%nat -> (block_id inline < block_id fcall)%nat ->
  let w := m_locals m arr i in
  0 <= w < 2 ^ 64 ->
  XFIXNUM_word w <> fixnum_op_limit_value o ->
  let code := fixnum_op_code H o b0 inline fcall next (slot_lvalue arr n name i)
                (Local id1 cast_union_type n1) (Local id2 cast_union_type n2)
                (Local id3 lisp_obj_type n3) fhost in
  exists m2,
    exec_code H address_of host (block_code code inline) m = Some (Goes_to next, m2) /\
    m_locals m2 arr i = make_fixnum_word (fixnum_op_result o (XFIXNUM_word w)) /\
    m_trace m2 = m_trace m /\ m_memory m2 = m_memory m.
Proof.
  intros (Hlp & Hbits & Hpos & Hneg) Hi H1 H2 H3 Hb1 Hb2 w Hw. cbv zeta.
  destruct Hlp as (Hty & _ & _ & _ & Hlsb & _ & Htag).
  assert (MOST_POSITIVE_FIXNUM H = 2 ^ 61 - 1) as Hpos'.
  { rewrite Hpos, Hbits. reflexivity. }
  assert (MOST_NEGATIVE_FIXNUM H = - 2 ^ 61) as Hneg'.
  { rewrite Hneg, Hpos'. reflexivity. }
  unfold make_fixnum_word, XFIXNUM_word. intros Hl.
  unfold fixnum_op_code, fixnum_test, packed, fixnump_of, tos_as_num, tos_num,
    inttypebits, lisp_int0, lisp_obj_as_num, slot_lvalue.
  rewrite Hty, Hlsb, Hbits, Htag in *.
  cbn [block_code record_block].
  rewrite !(bool_decide_true (block_id inline = block_id inline)) by done.
  rewrite !(bool_decide_false (block_id b0 = block_id inline)) by lia.
  rewrite !(bool_decide_false (block_id fcall = block_id inline)) by lia.
  assert (- 2 ^ 61 <= to_signed 64 w ≫ 2 < 2 ^ 61) as Hrange.
  { rewrite Z.shiftr_div_pow2 by lia. change (2 ^ 2) with 4.
    unfold to_signed. cbv zeta. change (2 ^ 64) with 18446744073709551616 in *.
    change (2 ^ (64 - 1)) with 9223372036854775808.
    change (2 ^ 61) with 2305843009213693952.
    case_bool_decide; Z.div_mod_to_equations; lia. }
  change (emacs_Lisp_Type_val Lisp_Int0) with 2. change (2 ^ 2) with 4.
  destruct o; unfold fixnum_op_inline, one; rewrite ?Hty; eval_code.
  all: cbn [field_type mk_field].
  all: unfold long_type, unsigned_type, int_type, bool_type, cast_union_type, lisp_obj_type.
  all: rewrite (convert_int_small i) by lia.
  all: cbn [fixnum_op_limit_value fixnum_op_result] in *.
  all: change (read_place m (in_local arr i) long) with (to_signed 64 w).
  all: change (convert long 2) with 2; change (convert long 1) with 1.
  all: change (convert long (to_signed 64 w ≫ 2)) with (to_signed 64 (to_signed 64 w ≫ 2)).
  all: rewrite (to_signed_small (to_signed 64 w ≫ 2)) by (change (2 ^ 63) with (4 * 2 ^ 61); lia).
  all: eexists; split; [reflexivity|]; split; [|split; framed].
  all: reads; cbn [write_place m_locals].
  all: rewrite !(bool_decide_true (arr = arr)), !(bool_decide_true (i = i)) by done.
  all: cbn [andb]; rewrite packed_word by lia; reflexivity.
Qed.

End fixnum_operations_run.

Section sub1_add1_negate.
Context (H : headers) (address_of : c_ptr -> Z) (host : list call_event -> string -> list Z -> Z).
Context (lisp_f_name : string) (bytestr_length : Z) (bytestr_data : list Z).
Context (vectorp : list Lisp_Object) (vector_size : Z).

(** C6.  On [Bsub1], [Badd1] and [Bnegate], [compile_f] adds two blocks
    and ends the current block with a conditional between them.  Run on
    any machine, the code of the current block goes to the inline block
    exactly when the slot at the top of the stack holds a fixnum other
    than [MOST_NEGATIVE_FIXNUM] (sub1, negate) or [MOST_POSITIVE_FIXNUM]
    (add1); the inline block replaces the slot with the packed fixnum of
    the extracted number minus one, plus one or negated, and jumps to
    the block of the next operation.  The other block assigns to the
    slot the call of [Fsub1], [Fadd1] or [Fminus] and jumps to the same
    block.  The meta stack is as deep after as before. *)
Theorem C6_sub1_add1_negate nil op fr s o f e b0 bnext arr n name i :
  decode H op = Some (fixnum_op_bytecode o) ->
  fixnum_op_ready f e b0 bnext fr s ->
  fixnum_lp64 H ->
  gcc_lval e = slot_lvalue arr n name i ->
  0 <= i < 2 ^ 31 ->
  (arr < objects s)%nat ->
  (block_id (gcc_bb b0) < objects s)%nat ->
  exists fr' s' L fhost,
    let inline := {| block_id := objects s; block_function := function_id f;
                     block_name := fixnum_op_name o +:+ "_inline_block" |} in
    let fcall := {| block_id := S (objects s); block_function := function_id f;
                    block_name := fixnum_op_name o +:+ "_fcall_block" |} in
    compile_op H lisp_f_name bytestr_length bytestr_data vectorp vector_size nil op fr s
    = Ok (fr', s') /\
    stack fr' = stack fr /\ pc fr' = pc fr /\ block s' = block s /\
    ctxt s' = ctxt s ++ L /\
    function_name fhost = fixnum_op_function o /\
    (exists test,
       block_code (statements L) (gcc_bb b0) !! 2%nat
       = Some (block_end_with_conditional (gcc_bb b0) test inline fcall)) /\
    block_code (statements L) fcall
    = [ block_add_assignment fcall (gcc_lval e)
          (Call fhost (fixnum_op_args H o (gcc_lval e)));
        block_end_with_jump fcall (gcc_bb bnext) ] /\
    forall m,
      let w := m_locals m arr i in
      0 <= w < 2 ^ 64 ->
      exists m1,
        exec_code H address_of host (block_code L (gcc_bb b0)) m
        = Some (Goes_to (if bool_decide (is_fixnum_word H w /\
                                         XFIXNUM_word H w <> fixnum_op_limit_value H o)
                         then inline else fcall), m1) /\
        m_locals m1 arr i = w /\ m_trace m1 = m_trace m /\ m_memory m1 = m_memory m /\
        (XFIXNUM_word H w <> fixnum_op_limit_value H o ->
         exists m2,
           exec_code H address_of host (block_code L inline) m1
           = Some (Goes_to (gcc_bb bnext), m2) /\
           m_locals m2 arr i = make_fixnum_word H (fixnum_op_result o (XFIXNUM_word H w)) /\
           m_trace m2 = m_trace m /\ m_memory m2 = m_memory m).
Proof.
  intros Hdec Hr Hlp He Hi Harr Hb0.
  destruct (fixnum_op_emits H lisp_f_name bytestr_length bytestr_data vectorp vector_size
              nil op fr s o f e b0 bnext Hdec Hr (proj1 (proj1 Hlp)))
    as (fr' & s' & L & fhost & Hc & Hst & Hpc & Hblk & Hctxt & Hname & HL).
  cbv zeta in HL. exists fr', s', L, fhost. cbv zeta.
  do 6 (split; [assumption|]).
  assert (forall b m, exec_code H address_of host (block_code L b) m
                      = exec_code H address_of host (block_code (statements L) b) m) as Hex.
  { intros b m. rewrite exec_code_statements, block_code_statements. reflexivity. }
  rewrite HL, He in *. clear HL.
  split; [|split].
  - eexists. unfold fixnum_op_code. cbn [block_code record_block].
    rewrite !(bool_decide_true (block_id (gcc_bb b0) = block_id (gcc_bb b0))) by done.
    reflexivity.
  - unfold fixnum_op_code. cbn [block_code record_block block_id].
    rewrite !(bool_decide_false (block_id (gcc_bb b0) = S (objects s))) by lia.
    rewrite !(bool_decide_false (objects s = S (objects s))) by lia.
    rewrite !(bool_decide_true (S (objects s) = S (objects s))) by done.
    reflexivity.
  - intros m Hw. rewrite !Hex.
    set (inline := {| block_id := objects s; block_function := function_id f;
                      block_name := fixnum_op_name o +:+ "_inline_block" |}).
    set (fcall := {| block_id := S (objects s); block_function := function_id f;
                     block_name := fixnum_op_name o +:+ "_fcall_block" |}).
    destruct (fixnum_test_runs H address_of host o (gcc_bb b0) inline fcall (gcc_bb bnext)
                 arr n name i (S (S (objects s))) ("union_cast_" +:+ pretty (emit_cast_i s))
                 (S (S (S (objects s)))) ("union_cast_" +:+ pretty (S (emit_cast_i s)))
                 (S (S (S (S (objects s))))) "lisp_obj_fixnum" fhost m Hlp Hi
                 ltac:(lia) ltac:(lia) ltac:(lia) ltac:(cbn; lia) ltac:(cbn; lia) Hw)
      as (m1 & Hrun & Hw1 & Ht1 & Hm1).
    exists m1. split; [exact Hrun|]. do 3 (split; [assumption|]).
    intros Hl. rewrite Hex.
    destruct (fixnum_inline_runs H address_of host o (gcc_bb b0) inline fcall (gcc_bb bnext)
                 arr n name i (S (S (objects s))) ("union_cast_" +:+ pretty (emit_cast_i s))
                 (S (S (S (objects s)))) ("union_cast_" +:+ pretty (S (emit_cast_i s)))
                 (S (S (S (S (objects s))))) "lisp_obj_fixnum" fhost m1 Hlp Hi
                 ltac:(lia) ltac:(lia) ltac:(lia) ltac:(cbn; lia) ltac:(cbn; lia)
                 ltac:(rewrite Hw1; exact Hw) ltac:(rewrite Hw1; exact Hl))
      as (m2 & Hrun2 & Hw2 & Ht2 & Hm2).
    exists m2. rewrite Hw1 in Hw2. rewrite <- Ht1, <- Hm1.
    split; [exact Hrun2|]. by repeat split.
Qed.

End sub1_add1_negate.

(** [constant 0; sub1; return], at [sub1]. *)
Definition sub1_code : list Z := [192; 83; 135].
Definition sub1_sample : result (gcc_jit_rvalue * Z * frame * comp_t) :=
  Eval vm_compute in at_operation sub1_code [Lisp_fixnum 5] 1 1 comp_initial.

Lemma emacs_x86_64_fixnum_lp64 : fixnum_lp64 emacs_x86_64.
Proof. repeat split. Qed.

Lemma C6_sub1_add1_negate_witness :
  let H := emacs_x86_64 in
  let r := sub1_sample in
  let s := sample_state r in
  let fr := sample_frame r in
  let e := sample_slot s 0 in
  let f := default no_function (func s) in
  let b := fun pc => default (sample_block s) (bb_map s !! pc) in
  exists fr' s' L fhost,
    let inline := {| block_id := objects s; block_function := function_id f;
                     block_name := "sub1_inline_block" |} in
    let fcall := {| block_id := S (objects s); block_function := function_id f;
                    block_name := "sub1_fcall_block" |} in
    compile_op H "f" 3 (SDATA sub1_code) [Lisp_fixnum 5] 1 (sample_nil r) (sample_op r) fr s
    = Ok (fr', s') /\
    stack fr' = stack fr /\ pc fr' = pc fr /\ block s' = block s /\
    ctxt s' = ctxt s ++ L /\
    function_name fhost = "Fsub1" /\
    (exists test,
       block_code (statements L) (gcc_bb (b 1%nat)) !! 2%nat
       = Some (block_end_with_conditional (gcc_bb (b 1%nat)) test inline fcall)) /\
    block_code (statements L) fcall
    = [ block_add_assignment fcall (gcc_lval e) (Call fhost [Lvalue_as_rvalue (gcc_lval e)]);
        block_end_with_jump fcall (gcc_bb (b 2%nat)) ] /\
    forall m,
      let w := m_locals m 80%nat 0 in
      0 <= w < 2 ^ 64 ->
      exists m1,
        exec_code H null_address_of null_host (block_code L (gcc_bb (b 1%nat))) m
        = Some (Goes_to (if bool_decide (is_fixnum_word H w /\
                                         XFIXNUM_word H w <> MOST_NEGATIVE_FIXNUM H)
                         then inline else fcall), m1) /\
        m_locals m1 80%nat 0 = w /\ m_trace m1 = m_trace m /\ m_memory m1 = m_memory m /\
        (XFIXNUM_word H w <> MOST_NEGATIVE_FIXNUM H ->
         exists m2,
           exec_code H null_address_of null_host (block_code L inline) m1
           = Some (Goes_to (gcc_bb (b 2%nat)), m2) /\
           m_locals m2 80%nat 0 = make_fixnum_word H (XFIXNUM_word H w - 1) /\
           m_trace m2 = m_trace m /\ m_memory m2 = m_memory m).
Proof.
  cbv zeta.
  refine (C6_sub1_add1_negate emacs_x86_64 null_address_of null_host "f" 3 (SDATA sub1_code)
            [Lisp_fixnum 5] 1 (sample_nil sub1_sample) (sample_op sub1_sample)
            (sample_frame sub1_sample) (sample_state sub1_sample) op_sub1
            (default no_function (func (sample_state sub1_sample)))
            (sample_slot (sample_state sub1_sample) 0) _ _
            80%nat 2 "local" 0 _ _ _ _ _ _ _).
  - reflexivity.
  - split; [reflexivity|].
    split; [reflexivity|].
    split; [reflexivity|].
    split; [reflexivity|].
    split; [reflexivity|].
    split; [cbn; lia|].
    split; [cbn; hash_names|].
    split; vm_compute; reflexivity.
  - exact emacs_x86_64_fixnum_lp64.
  - reflexivity.
  - lia.
  - cbn. lia.
  - cbn. lia.
Defined.

(** ** C9: the bounds of the default case *)

(** The comment that names a symbol. *)
Definition symbol_comment (p : c_ptr) : option string :=
  match p with
  | ptr_obj o => if SYMBOLP o then Some ("Symbol " +:+ c_str (SYMBOL_NAME o)) else None
  | _ => None
  end.

Lemma format_string_Error str s : ~ fits str -> format_string str s = Error "Truncating string".
Proof.
  intros Hno. unfold format_string. rewrite bool_decide_true by (unfold fits in Hno; lia).
  reflexivity.
Qed.

Lemma bb_get_inv p s b :
  bb_get p s = Ok (b, s) ->
  match p with
  | in_bb_map pc => array_get "bb_map" (bb_map s) pc = Ok b
  | in_alloca n => alloca s !! n = Some b
  end.
Proof.
  destruct p as [pc|n]; cbv [bb_get bind gets lift deref ret undefined].
  - destruct (array_get "bb_map" (bb_map s) pc); [|done..]. by intros [= ->].
  - destruct (alloca s !! n); [|done]. by intros [= ->].
Qed.

Lemma bind_Error {A B} (m : M A) (f : A -> M B) s msg :
  m s = Error msg -> bind m f s = Error msg.
Proof. intros Hm. unfold bind. by rewrite Hm. Qed.

Section default_case_bounds.

Context (H : headers).
Context (lisp_f_name : string) (bytestr_length : Z) (bytestr_data : list Z).
Context (vectorp : list Lisp_Object) (vector_size : Z).

(** [emit_lisp_obj_from_ptr] on a Lisp object fails when one of the two
    strings that it formats does not fit, and only then. *)
Lemma emit_lisp_obj_from_ptr_obj k s f p b :
  func s = Some f -> block s = Some p -> bb_get p s = Ok (b, s) ->
  let name := "lisp_obj_from_ptr_" +:+ pretty (emit_lisp_obj_from_ptr_i s) in
  (~ fits name -> emit_lisp_obj_from_ptr H (ptr_obj k) s = Error "Truncating string") /\
  (forall str, fits name -> symbol_comment (ptr_obj k) = Some str -> ~ fits str ->
     emit_lisp_obj_from_ptr H (ptr_obj k) s = Error "Truncating string") /\
  (fits name -> (forall str, symbol_comment (ptr_obj k) = Some str -> fits str) ->
   exists r s', emit_lisp_obj_from_ptr H (ptr_obj k) s = Ok (r, s')).
Proof.
  intros Hf Hb Hg. apply bb_get_inv in Hg.
  destruct s as [ctxt0 objs f0 blk h pv btl car0 cdr0 scar scdr ctype cimp ci cj bbm allo
                   stk].
  cbn in Hf, Hb, Hg. subst f0 blk. cbv zeta. cbn [emit_lisp_obj_from_ptr_i].
  unfold symbol_comment, emit_lisp_obj_from_ptr.
  split; [|split].
  - intros Hno.
    destruct p as [pc|n]; repeat (progress (munfold; rewrite ?Hg; mrewrite)).
    all: by rewrite format_string_Error.
  - intros str Hfit Hstr Hno. destruct (SYMBOLP k); [|done]. injection Hstr as <-.
    destruct p as [pc|n]; repeat (progress (munfold; rewrite ?Hg; mrewrite)).
    all: by rewrite format_string_Error.
  - intros Hfit Hstr. destruct (SYMBOLP k).
    + specialize (Hstr _ eq_refl).
      destruct p as [pc|n]; repeat (progress (munfold; rewrite ?Hg; mrewrite)).
      all: by eexists _, _.
    + destruct p as [pc|n]; repeat (progress (munfold; rewrite ?Hg; mrewrite)).
      all: by eexists _, _.
Qed.

(** Once the constant is in a local, pushing it raises no error. *)
Lemma do_constant_push_raises (k : Lisp_Object) (c : gcc_jit_rvalue) (fr : frame) :
  raises_only (fun _ => False)
    (fr <- PUSH_RVAL c fr ;;
     tos <- TOS fr ;;
     (if bool_decide (XTYPE k = Lisp_Symbol)
      then
        slot_put (stack fr - 1)
          {| gcc_lval := gcc_lval tos; type := Some (XTYPE k); constant := k;
             const_set := true |}
      else
        slot_put (stack fr - 1)
          {| gcc_lval := gcc_lval tos; type := Some (XTYPE k); constant := constant tos;
             const_set := const_set tos |}) ;;;
     ret fr).
Proof. raises. Qed.

(** The default case in its range, when no [Bswitch] follows. *)
Lemma default_case_in_range op fr s p b k :
  block s = Some p -> bb_get p s = Ok (b, s) ->
  byte_of H Bconstant <= op <= byte_of H Bconstant + vector_size ->
  (bytestr_length <= pc fr \/
   exists x, array_get "bytestr_data" bytestr_data (pc fr) = Ok x /\ x <> byte_of H Bswitch) ->
  array_get "vectorp" vectorp (op - byte_of H Bconstant) = Ok k ->
  default_case H bytestr_length bytestr_data vectorp vector_size op fr s
  = bind (emit_lisp_obj_from_ptr H (ptr_obj k))
      (fun c =>
         fr <- PUSH_RVAL c fr ;;
         tos <- TOS fr ;;
         (if bool_decide (XTYPE k = Lisp_Symbol)
          then
            slot_put (stack fr - 1)
              {| gcc_lval := gcc_lval tos; type := Some (XTYPE k); constant := k;
                 const_set := true |}
          else
            slot_put (stack fr - 1)
              {| gcc_lval := gcc_lval tos; type := Some (XTYPE k); constant := constant tos;
                 const_set := const_set tos |}) ;;;
         ret fr)
      (with_ctxt (fun c => c ++ [block_add_comment (gcc_bb b) "Bconstant"]) s).
Proof.
  intros Hb Hg Hop Hsw Hk. unfold default_case.
  rewrite (bind_Ok _ _ _ _ _ (CASE_Ok _ _ _ _ Hb Hg)).
  rewrite !bool_decide_false by lia. cbn [orb].
  unfold do_constant.
  destruct Hsw as [Hpc|(x & Hx & Hne)].
  - rewrite bool_decide_true by lia.
    unfold bind at 1. cbv [ret]. cbn [negb]. unfold bind at 1, lift at 1. rewrite Hk.
    reflexivity.
  - destruct (bool_decide (pc fr >= bytestr_length)).
    + unfold bind at 1. cbv [ret]. cbn [negb]. unfold bind at 1, lift at 1. rewrite Hk.
      reflexivity.
    + unfold bind at 1. unfold bind at 1, lift at 1. rewrite Hx. cbv [ret].
      rewrite bool_decide_false by done. cbn [negb].
      unfold bind at 1, lift at 1. rewrite Hk. reflexivity.
Qed.

(** C9 (amended).  An operation byte that reaches the default case of
    the switch makes the translation abort through the label [fail],
    with the error "Something went wrong", if and only if it is
    strictly below [Bconstant] or strictly above
    [Bconstant + vector_size].  A byte in that range can still abort,
    with the error "Truncating string" of [format_string] and no
    other: when the constant is read and no [Bswitch] follows, this
    happens exactly when the name of the new local, or the comment
    with the name of a constant that is a symbol, does not fit the
    scratch area.  The byte [Bconstant + vector_size] is accepted, and
    the constant is read at index [vector_size], one past the last
    valid index: on a vector of exactly [vector_size] objects that read
    is outside the vector. *)
Theorem C9_default_case_bounds nil op fr s p b :
  dispatches_default H op ->
  block s = Some p -> bb_get p s = Ok (b, s) ->
  (compile_op H lisp_f_name bytestr_length bytestr_data vectorp vector_size nil op fr s
     = Error "Something went wrong"
   <-> op < byte_of H Bconstant \/ op > byte_of H Bconstant + vector_size) /\
  (forall msg,
     compile_op H lisp_f_name bytestr_length bytestr_data vectorp vector_size nil op fr s
     = Error msg ->
     msg = "Something went wrong" \/
     msg = "Truncating string" /\
     byte_of H Bconstant <= op <= byte_of H Bconstant + vector_size) /\
  (forall k f,
     byte_of H Bconstant <= op <= byte_of H Bconstant + vector_size ->
     (bytestr_length <= pc fr \/
      exists x, array_get "bytestr_data" bytestr_data (pc fr) = Ok x /\
                x <> byte_of H Bswitch) ->
     array_get "vectorp" vectorp (op - byte_of H Bconstant) = Ok k ->
     func s = Some f ->
     (compile_op H lisp_f_name bytestr_length bytestr_data vectorp vector_size nil op fr s
      = Error "Truncating string"
      <-> ~ fits ("lisp_obj_from_ptr_" +:+ pretty (emit_lisp_obj_from_ptr_i s)) \/
          exists str, symbol_comment (ptr_obj k) = Some str /\ ~ fits str)) /\
  (op = byte_of H Bconstant + vector_size ->
   0 <= vector_size ->
   compile_op H lisp_f_name bytestr_length bytestr_data vectorp vector_size nil op fr s
   = bind (CASE "Bconstant")
       (fun _ => do_constant H bytestr_length bytestr_data vectorp vector_size fr) s /\
   (vector_size = Z.of_nat (length vectorp) ->
    array_get "bytestr_data" bytestr_data (pc fr) <> Ok (byte_of H Bswitch) ->
    pc fr < bytestr_length ->
    is_Some (bytestr_data !! Z.to_nat (pc fr)) -> 0 <= pc fr ->
    compile_op H lisp_f_name bytestr_length bytestr_data vectorp vector_size nil op fr s
    = Undefined "vectorp")).
Proof.
  intros Hd Hb Hg. rewrite compile_op_default by done.
  split; [|split; [|split]].
  - unfold default_case. unfold bind at 1. rewrite (CASE_Ok _ _ _ _ Hb Hg).
    case_bool_decide as H1; [cbn; split; [lia|done]|].
    case_bool_decide as H2; [cbn; split; [lia|done]|].
    cbn [orb]. split; [|lia]. intros Hr.
    by apply do_constant_raises in Hr.
  - intros msg. unfold default_case. unfold bind at 1. rewrite (CASE_Ok _ _ _ _ Hb Hg).
    case_bool_decide as H1; [cbn; intros [= <-]; by left|].
    case_bool_decide as H2; [cbn; intros [= <-]; by left|].
    cbn [orb]. intros Hr. apply do_constant_raises in Hr. right. split; [done|lia].
  - intros k f Hop Hsw Hk Hf.
    rewrite (default_case_in_range op fr s p b k Hb Hg Hop Hsw Hk).
    set (s1 := with_ctxt _ s).
    assert (func s1 = Some f) as Hf1 by (destruct s; exact Hf).
    assert (block s1 = Some p) as Hb1 by (destruct s; exact Hb).
    assert (bb_get p s1 = Ok (b, s1)) as Hg1.
    { apply bb_get_inv in Hg. destruct s, p; cbn in Hg |- *;
        cbv [bb_get bind gets lift deref ret]; cbn; by rewrite Hg. }
    assert (emit_lisp_obj_from_ptr_i s1 = emit_lisp_obj_from_ptr_i s) as Hi
      by (by destruct s).
    destruct (emit_lisp_obj_from_ptr_obj k s1 f p b Hf1 Hb1 Hg1) as (Hname & Hsym & Hok).
    cbv zeta in Hname, Hsym, Hok. rewrite Hi in Hname, Hsym, Hok.
    destruct (decide (fits ("lisp_obj_from_ptr_" +:+ pretty (emit_lisp_obj_from_ptr_i s))))
      as [Hfit|Hno].
    + destruct (symbol_comment (ptr_obj k)) as [str|] eqn:Estr.
      * destruct (decide (fits str)) as [Hfs|Hns].
        -- destruct Hok as (r & s' & Hr); [done|by intros ? [= <-]|].
           rewrite (bind_Ok _ _ _ _ _ Hr). split.
           ++ intros He. by apply do_constant_push_raises in He.
           ++ intros [Hn|(str' & [= <-] & Hn)]; done.
        -- rewrite (bind_Error _ _ _ _ (Hsym str Hfit eq_refl Hns)).
           split; [|done]. intros _. right. by exists str.
      * destruct Hok as (r & s' & Hr); [done|done|].
        rewrite (bind_Ok _ _ _ _ _ Hr). split.
        -- intros He. by apply do_constant_push_raises in He.
        -- intros [Hn|(str' & [=] & _)]; done.
    + rewrite (bind_Error _ _ _ _ (Hname Hno)). split; [|done]. intros _. by left.
  - unfold default_case. intros -> Hvs. split.
    + unfold bind. destruct (CASE "Bconstant" s) as [[[] s']| |]; [|done..].
      rewrite bool_decide_false by lia. rewrite bool_decide_false by lia. cbn [orb].
      do 2 f_equal. lia.
    + intros Hlen Hsw Hpc [x Hx] Hpc0.
      unfold bind at 1. rewrite (CASE_Ok _ _ _ _ Hb Hg).
      rewrite bool_decide_false by lia. rewrite bool_decide_false by lia. cbn [orb].
      unfold do_constant.
      rewrite bool_decide_false by lia.
      rewrite (array_get_Ok _ _ _ x) in * by done.
      cbv [bind lift ret]. rewrite bool_decide_false by congruence. cbn [negb].
      replace (byte_of H Bconstant + vector_size - byte_of H Bconstant)
        with vector_size by lia.
      unfold array_get. rewrite bool_decide_false by lia.
      rewrite lookup_ge_None_2 by lia. reflexivity.
Qed.

End default_case_bounds.

(** C9 as the specification has it: an operation byte that reaches the
    default case makes the translation abort with an error if and only
    if it is out of the range. *)
Definition aborts_iff_out_of_range (H : headers) : Prop :=
  forall lisp_f_name bytestr_length bytestr_data vectorp vector_size nil op fr s p b,
    dispatches_default H op ->
    block s = Some p -> bb_get p s = Ok (b, s) ->
    (is_Error
       (compile_op H lisp_f_name bytestr_length bytestr_data vectorp vector_size nil op fr s)
     <-> op < byte_of H Bconstant \/ op > byte_of H Bconstant + vector_size).

(** A symbol whose name has 505 characters: the comment that names it
    has 512. *)
Definition long_name : string :=
  Eval vm_compute in String.string_of_list_ascii (replicate 505 (Ascii.ascii_of_nat 97)).

(** [constant 0; return] with that symbol as its constant, at its first
    operation. *)
Definition long_name_code : list Z := [192; 135].
Definition long_name_constants : list Lisp_Object := [Lisp_symbol long_name Qnil].
Definition long_name_sample : result (gcc_jit_rvalue * Z * frame * comp_t) :=
  Eval vm_compute in at_operation long_name_code long_name_constants 1 0 comp_initial.

(** C9, as stated, fails on a byte in the range: the byte [Bconstant]
    with a constant that is a symbol of a long name makes the
    translation abort, with the error of [format_string]. *)
Lemma C9_byte_in_range_aborts : ~ aborts_iff_out_of_range emacs_x86_64.
Proof.
  intros Hiff.
  pose (s := sample_state long_name_sample). pose (fr := sample_frame long_name_sample).
  destruct (Hiff "f" 2 (SDATA long_name_code) long_name_constants 1
              (sample_nil long_name_sample) 192 fr s (in_bb_map 0) (sample_block s))
    as [Hout _].
  - exact I.
  - reflexivity.
  - reflexivity.
  - assert (compile_op emacs_x86_64 "f" 2 (SDATA long_name_code) long_name_constants 1
              (sample_nil long_name_sample) 192 fr s = Error "Truncating string") as Hc
      by (vm_compute; reflexivity).
    rewrite Hc in Hout. specialize (Hout I). change (byte_of emacs_x86_64 Bconstant) with 192 in Hout.
    lia.
Qed.

(** [constant 1; return] with one constant, at its first operation: the
    byte 193 is [Bconstant + vector_size]. *)
Definition past_the_end_code : list Z := [193; 135].
Definition past_the_end_sample : result (gcc_jit_rvalue * Z * frame * comp_t) :=
  Eval vm_compute in at_operation past_the_end_code [Qnil] 1 0 comp_initial.

Lemma C9_default_case_bounds_witness :
  (let r := past_the_end_sample in
   sample_op r = 193 /\
   ~ (193 < 192 \/ 193 > 192 + 1) /\
   compile_op emacs_x86_64 "f" 2 (SDATA past_the_end_code) [Qnil] 1 (sample_nil r) 193
     (sample_frame r) (sample_state r)
   = Undefined "vectorp") /\
  (let r := long_name_sample in
   sample_op r = 192 /\
   (compile_op emacs_x86_64 "f" 2 (SDATA long_name_code) long_name_constants 1 (sample_nil r)
      192 (sample_frame r) (sample_state r)
    = Error "Truncating string"
    <-> ~ fits ("lisp_obj_from_ptr_" +:+ pretty (emit_lisp_obj_from_ptr_i (sample_state r))) \/
        exists str, symbol_comment (ptr_obj (Lisp_symbol long_name Qnil)) = Some str /\
                    ~ fits str)).
Proof.
  cbv zeta. split.
  - split; [reflexivity|]. split; [lia|].
    refine (proj2 (proj2 (proj2 (proj2
              (C9_default_case_bounds emacs_x86_64 "f" 2 (SDATA past_the_end_code)
                 [Qnil] 1 (sample_nil past_the_end_sample) 193
                 (sample_frame past_the_end_sample)
                 (sample_state past_the_end_sample) (in_bb_map 0)
                 (sample_block (sample_state past_the_end_sample)) _ _ _))) _ _)
              _ _ _ _ _).
    + exact I.
    + reflexivity.
    + reflexivity.
    + reflexivity.
    + lia.
    + reflexivity.
    + vm_compute. discriminate.
    + vm_compute. reflexivity.
    + vm_compute. eexists. reflexivity.
    + vm_compute. discriminate.
  - split; [reflexivity|].
    refine (proj1 (proj2 (proj2
              (C9_default_case_bounds emacs_x86_64 "f" 2 (SDATA long_name_code)
                 long_name_constants 1 (sample_nil long_name_sample) 192
                 (sample_frame long_name_sample)
                 (sample_state long_name_sample) (in_bb_map 0)
                 (sample_block (sample_state long_name_sample)) _ _ _)))
              (Lisp_symbol long_name Qnil)
              (default no_function (func (sample_state long_name_sample))) _ _ _ _).
    + exact I.
    + reflexivity.
    + reflexivity.
    + vm_compute. split; discriminate.
    + right. exists 135. split; [reflexivity|]. vm_compute. discriminate.
    + reflexivity.
    + reflexivity.
Defined.

(** ** C5: numberp and integerp *)

(** The two operations of the row that test a type inline. *)
Inductive type_test := test_numberp | test_integerp.

Definition type_test_bytecode (t : type_test) : bytecode :=
  match t with test_numberp => Bnumberp | test_integerp => Bintegerp end.

Lemma type_to_cast_field_long_long s :
  type_to_cast_field long_long_type s = Ok (cast_union_as_ll, s).
Proof. reflexivity. Qed.

Section type_tests.

Context (H : headers).
Context (lisp_f_name : string) (bytestr_length : Z) (bytestr_data : list Z).
Context (vectorp : list Lisp_Object) (vector_size : Z).

(** The local of the cast union that the cast number [k] from now
    makes. *)
Definition cast_local (s : comp_t) (k : nat) : gcc_jit_lvalue :=
  Local (k + objects s) cast_union_type ("union_cast_" +:+ pretty (k + emit_cast_i s)%nat).

(** The member of the cast union that has the type of [EMACS_INT]. *)
Definition emacs_int_field : gcc_jit_field :=
  if type_eqb (emacs_int_type H) long_long_type then cast_union_as_ll
  else if type_eqb (emacs_int_type H) long_type then cast_union_as_l
  else cast_union_as_i.

(** The word of the slot shifted down to its tag: by nothing when the
    tag is in the low bits. *)
Definition shifted_to_tag (tos : gcc_jit_lvalue) (bits : Z) : gcc_jit_rvalue :=
  Binary_op GCC_JIT_BINARY_OP_RSHIFT (emacs_int_type H) (tos_num H tos)
    (Rvalue_from_int (emacs_int_type H) (if USE_LSB_TAG H then 0 else bits)).

(** [emit_TAGGEDP] on the word that a cast left in [cast]. *)
Definition taggedp_of (cast : gcc_jit_lvalue) (tag : Z) : gcc_jit_rvalue :=
  Unary_op GCC_JIT_UNARY_OP_LOGICAL_NEGATE int_type
    (Binary_op GCC_JIT_BINARY_OP_BITWISE_AND unsigned_type
       (Binary_op GCC_JIT_BINARY_OP_MINUS unsigned_type
          (Rvalue_access_field (Lvalue_as_rvalue cast) cast_union_as_u)
          (Rvalue_from_int unsigned_type tag))
       (Rvalue_from_int unsigned_type (Z.shiftl 1 (GCTYPEBITS H) - 1))).

(** [emit_INTEGERP]: [FIXNUMP], read in [cast2], or [BIGNUMP], which
    is a call to the helper [PSEUDOVECTORP]. *)
Definition integerp_test (pv : gcc_jit_function) (tos cast2 : gcc_jit_lvalue)
  : gcc_jit_rvalue :=
  Binary_op GCC_JIT_BINARY_OP_LOGICAL_OR bool_type
    (Rvalue_access_field (Lvalue_as_rvalue cast2) cast_union_as_b)
    (Call pv [Lvalue_as_rvalue tos; Rvalue_from_int int_type (PVEC_BIGNUM H)]).

(** [emit_NUMBERP]: [INTEGERP] or [FLOATP], read in [cast4]. *)
Definition numberp_test (pv : gcc_jit_function) (tos cast2 cast4 : gcc_jit_lvalue)
  : gcc_jit_rvalue :=
  Binary_op GCC_JIT_BINARY_OP_LOGICAL_OR bool_type
    (integerp_test pv tos cast2)
    (Rvalue_access_field (Lvalue_as_rvalue cast4) cast_union_as_b).

(** The statements that [Bnumberp] and [Bintegerp] add, in the order of
    the calls of libgccjit: the casts of the test, then the assignment
    to the slot of the call to [bool_to_lisp_obj] on the test. *)
Definition type_test_code (t : type_test) (bb : gcc_jit_block) (tos : gcc_jit_lvalue)
    (cast1 cast2 cast3 cast4 : gcc_jit_lvalue) (pv btl : gcc_jit_function)
  : list gcc_jit_record :=
  [ block_add_assignment bb (Lvalue_access_field cast1 emacs_int_field)
      (shifted_to_tag tos (FIXNUM_BITS H));
    block_add_assignment bb (Lvalue_access_field cast2 cast_union_as_i) (fixnump_of H cast1) ]
  ++ match t with
     | test_integerp =>
         [ block_add_assignment bb tos (Call btl [integerp_test pv tos cast2]) ]
     | test_numberp =>
         [ block_add_assignment bb (Lvalue_access_field cast3 emacs_int_field)
             (shifted_to_tag tos (VALBITS H));
           block_add_assignment bb (Lvalue_access_field cast4 cast_union_as_i)
             (taggedp_of cast3 (Lisp_Type_val H Lisp_Float));
           block_add_assignment bb tos (Call btl [numberp_test pv tos cast2 cast4]) ]
     end.

(** [Bnumberp] and [Bintegerp]: one value is popped, and what is pushed
    in its place is the call of [bool_to_lisp_obj] on the test, which
    is emitted inline; no function is declared nor looked up in
    [func_hash]. *)
Definition pops_tests_pushes (t : type_test) (e : stack_el_t) (pv btl : gcc_jit_function)
    (bb : gcc_jit_block) (fr : frame) (s : comp_t) (r : result (frame * comp_t)) : Prop :=
  exists fr' s' L,
    r = Ok (fr', s') /\
    stack fr' = stack fr /\ pc fr' = pc fr /\
    ctxt s' = ctxt s ++ L /\
    func_hash s' = func_hash s /\
    Forall (fun r => forall f, r <> new_function f) L /\
    statements L
    = type_test_code t bb (gcc_lval e) (cast_local s 0) (cast_local s 1) (cast_local s 2)
        (cast_local s 3) pv btl.

Ltac mrun_tests Hty :=
  repeat (progress (mrewrite; mcast Hty; rewrite ?type_to_cast_field_long_long)).

Lemma numberp_integerp nil op fr s b0 t e f pv btl :
  decode H op = Some (type_test_bytecode t) ->
  ready [e] e b0 fr s ->
  func s = Some f -> pseudovectorp s = Some pv -> bool_to_lisp_obj s = Some btl ->
  In (emacs_int_type H) [int_type; long_type; long_long_type] ->
  (forall k, (k < 4)%nat -> fits ("union_cast_" +:+ pretty (k + emit_cast_i s)%nat)) ->
  pops_tests_pushes t e pv btl (gcc_bb b0) fr s
    (compile_op H lisp_f_name bytestr_length bytestr_data vectorp vector_size nil op fr s).
Proof.
  intros Hdec ([cur [Hb Hb0]] & Hes & Hdst & Hargs & Hok) Hf Hpv Hbtl Hty Hfit.
  pose proof (Hfit 0%nat ltac:(lia)) as Hf0.
  pose proof (Hfit 1%nat ltac:(lia)) as Hf1.
  pose proof (Hfit 2%nat ltac:(lia)) as Hf2.
  pose proof (Hfit 3%nat ltac:(lia)) as Hf3.
  clear Hfit.
  destruct s as [ctxt0 objs f0 blk h pv0 btl0 car0 cdr0 scar scdr ctype cimp ci cj bbm allo
                   stk].
  destruct fr as [pc0 st0 args0 phn]. destruct b0 as [bb0 top0 term0].
  destruct e as [lv1 ty1 c1 cs1].
  cbn in Hb, Hb0, Hes, Hdst, Hargs, Hok, Hf, Hpv, Hbtl, Hf0, Hf1, Hf2, Hf3.
  subst blk f0 pv0 btl0.
  apply array_get_inv in Hdst as Hdst'.
  unfold pops_tests_pushes, compile_op. rewrite Hdec. clear Hdec.
  destruct Hty as [Hty|[Hty|[Hty|[]]]]; symmetry in Hty.
  all: destruct t; cbv beta iota; cbn [type_test_bytecode].
  all: munfold; mrun_tests Hty.
  all: eexists _, _, _; (split; [reflexivity|]); cbn.
  all: split; [lia|]; split; [done|]; split; [rewrite <- ?app_assoc; reflexivity|].
  all: split; [done|]; split; [repeat (constructor; [done|]); constructor|].
  all: unfold type_test_code, numberp_test, integerp_test, taggedp_of, shifted_to_tag,
         fixnump_of, tos_num, emacs_int_field, cast_local; rewrite ?Hty; reflexivity.
Qed.

End type_tests.

Lemma m_trace_write_any m p t v : m_trace (write_place m p t v) = m_trace m.
Proof. by destruct p. Qed.

Lemma m_memory_write_in_local m id i t v :
  m_memory (write_place m (in_local id i) t v) = m_memory m.
Proof. reflexivity. Qed.

Lemma m_locals_write_same m id i t v :
  m_locals (write_place m (in_local id i) t v) id i = store_cell t (m_locals m id i) v.
Proof. cbn. by rewrite !bool_decide_true. Qed.

Lemma store_cell_lisp_obj_any old v : store_cell obj old v = to_unsigned 64 v.
Proof. words. Z.div_mod_to_equations. lia. Qed.

Section type_tests_run.
Context (H : headers) (address_of : c_ptr -> Z) (host : list call_event -> string -> list Z -> Z).

Ltac offsets :=
  repeat match goal with
  | |- context [field_offset ?H ?f] =>
      first [ change (field_offset H f) with 0 | change (field_offset H f) with 8 ]
  end.

Ltac eval_code :=
  repeat (progress (
    cbn [exec_code eval_rvalue eval_lvalue rvalue_place mbind option_bind lvalue_get_type
         rvalue_get_type field_type place_offset param_id param_type function_ret
         function_name eval_binary_op eval_unary_op eval_comparison];
    offsets;
    rewrite ?(bool_decide_true (0 = 0)) by done)).

Ltac reads :=
  repeat first [ rewrite read_write_local
               | rewrite read_write_local_ne by (cbn; lia)
               | rewrite read_memory_write_local ].

Ltac framed :=
  cbn [write_place m_locals m_trace m_memory];
  repeat match goal with
  | |- context [bool_decide (?a = ?b)] =>
      first [ rewrite (bool_decide_false (a = b)) by lia
            | rewrite (bool_decide_true (a = b)) by lia ]
  end;
  cbn [andb]; try done.

(** What the test is worth on the word [w] of the slot: 1 for a fixnum;
    or else 1 when [PSEUDOVECTORP], asked for a bignum, answers
    [bignum] other than 0; or else, for [numberp], 1 when the word has
    the tag of a float; 0 otherwise. *)
Definition type_test_value (t : type_test) (w bignum : Z) : Z :=
  if bool_decide (is_fixnum_word H w) then 1
  else if bool_decide (bignum <> 0) then 1
  else match t with
       | test_integerp => 0
       | test_numberp =>
           if bool_decide (w mod 2 ^ GCTYPEBITS H = Lisp_Type_val H Lisp_Float) then 1 else 0
       end.

(** The call to [PSEUDOVECTORP] that the test makes on the word [w]:
    none for a fixnum. *)
Definition bignum_calls (pv : gcc_jit_function) (w : Z) : list call_event :=
  if bool_decide (is_fixnum_word H w) then []
  else [ {| callee := function_name pv;
            call_args := [w; convert int_type (PVEC_BIGNUM H)] |} ].

Lemma type_test_runs t bb arr n name i id1 n1 id2 n2 id3 n3 id4 n4 pv btl m :
  fixnum_lp64 H ->
  0 <= i < 2 ^ 31 ->
  (arr < id1)%nat -> (id1 < id2)%nat -> (id2 < id3)%nat -> (id3 < id4)%nat ->
  let w := m_locals m arr i in
  0 <= w < 2 ^ 64 ->
  let bignum :=
    convert (function_ret pv)
      (host (m_trace m) (function_name pv) [w; convert int_type (PVEC_BIGNUM H)]) in
  let v := type_test_value t w bignum in
  exists m1,
    exec_code H address_of host
      (type_test_code H t bb (slot_lvalue arr n name i)
         (Local id1 cast_union_type n1) (Local id2 cast_union_type n2)
         (Local id3 cast_union_type n3) (Local id4 cast_union_type n4) pv btl) m
    = Some (Falls_off, m1) /\
    m_trace m1
    = m_trace m ++ bignum_calls pv w ++ [ {| callee := function_name btl; call_args := [v] |} ] /\
    m_locals m1 arr i
    = to_unsigned 64
        (convert (function_ret btl)
           (host (m_trace m ++ bignum_calls pv w) (function_name btl) [v])) /\
    m_memory m1 = m_memory m.
Proof.
  intros (Hlp & Hbits & Hpos & Hneg) Hi H1 H2 H3 H4 w Hw. cbv zeta.
  destruct Hlp as (Hty & _ & _ & _ & Hlsb & Hgc & Htag).
  unfold type_test_value, bignum_calls.
  rewrite (bool_decide_ext (is_fixnum_word H w) (w mod 4 = 2))
    by (unfold is_fixnum_word; rewrite Hbits, Htag; reflexivity).
  unfold type_test_code, numberp_test, integerp_test, taggedp_of, shifted_to_tag,
    fixnump_of, tos_num, emacs_int_field, lisp_obj_as_num, slot_lvalue.
  rewrite Hty, Hlsb, Hbits, Htag, Hgc.
  change (type_eqb long_type long_long_type) with false.
  change (type_eqb long_type long_type) with true. cbv iota.
  destruct t; cbn [app]; eval_code.
  all: cbn [field_type cast_union_as_l cast_union_as_u cast_union_as_i cast_union_as_b mk_field].
  all: unfold long_type, unsigned_type, int_type, bool_type, cast_union_type, lisp_obj_type.
  all: rewrite ?(convert_int_small i) by lia.
  all: reads; fold w.
  all: change (read_place m (in_local arr i) long) with (convert long w).
  all: rewrite !shift_0, !store_cell_long by done.
  all: change (emacs_Lisp_Type_val Lisp_Int0 ≫ 0) with 2; change (1 ≪ 2 - 1) with 3.
  all: change (emacs_Lisp_Type_val Lisp_Float) with 7; change (1 ≪ 3 - 1) with 7.
  all: rewrite fixnum_tag_test by done; rewrite ?tag_test by (done || lia).
  all: change (2 ^ 3) with 8.
  all: assert (w mod 4 = 2 <-> (w - 2) mod 4 = 0) as Hmod by (Z.div_mod_to_equations; lia).
  all: assert (w mod 8 = 7 <-> (w - 7) mod 8 = 0) as Hmod8 by (Z.div_mod_to_equations; lia).
  all: rewrite (bool_decide_ext (w mod 4 = 2) _ Hmod).
  all: rewrite ?(bool_decide_ext (w mod 8 = 7) _ Hmod8).
  all: destruct (decide ((w - 2) mod 4 = 0)) as [Hfix|Hfix].
  all: rewrite ?(bool_decide_true ((w - 2) mod 4 = 0)) by done.
  all: rewrite ?(bool_decide_false ((w - 2) mod 4 = 0)) by done.
  all: rewrite ?store_int_read_bool by lia.
  all: rewrite ?(bool_decide_true (1 <> 0)) by lia.
  all: rewrite ?(bool_decide_false (0 <> 0)) by lia.
  all: cbn [mbind option_bind]; rewrite ?m_trace_write_any.
  all: rewrite ?(bool_decide_true (1 <> 0)) by lia.
  all: cbn [mbind option_bind orb]; rewrite ?m_trace_write_any.
  all: reads; fold w; change (read_place m (in_local arr i) obj) with (convert obj w).
  all: rewrite ?(convert_lisp_obj w) by done.
  all: try set (bignum := convert (function_ret pv) _).
  all: try (destruct (decide (bignum = 0)) as [Hbig|Hbig];
            [rewrite (bool_decide_false (bignum <> 0)) by (intros Hn; by apply Hn)
            |rewrite (bool_decide_true (bignum <> 0)) by done]).
  all: rewrite ?(bool_decide_true (1 <> 0)) by lia.
  all: rewrite ?(bool_decide_false (0 <> 0)) by lia.
  all: cbn [mbind option_bind orb read_place m_locals].
  all: rewrite ?m_locals_write_same, ?store_int_read_bool by (case_bool_decide; lia).
  all: rewrite ?(bool_decide_ext ((if bool_decide ((w - 7) mod 8 = 0) then 1 else 0) <> 0)
                  ((w - 7) mod 8 = 0)) by (case_bool_decide; split; (done || lia)).
  all: cbn [mbind option_bind].
  all: eexists; (split; [reflexivity|]).
  all: rewrite ?m_trace_write_any, ?m_memory_write_in_local, ?m_locals_write_same; cbn [m_trace m_memory].
  all: rewrite ?m_trace_write_any, ?m_memory_write_in_local, ?app_nil_r; cbn [app].
  all: rewrite ?store_cell_lisp_obj_any.
  all: try subst bignum; unfold w in *; rewrite ?convert_lisp_obj by done.
  all: rewrite <- ?app_assoc; cbn [app].
  all: try rewrite (bool_decide_true (convert _ _ <> 0)) by done.
  all: try rewrite (bool_decide_false (convert _ _ <> 0)) by (intros Hn; by apply Hn).
  all: by repeat split.
Qed.


End type_tests_run.

Section host_call_operations.

Context (H : headers) (address_of : c_ptr -> Z) (host : list call_event -> string -> list Z -> Z).
Context (lisp_f_name : string) (bytestr_length : Z) (bytestr_data : list Z).
Context (vectorp : list Lisp_Object) (vector_size : Z).


End host_call_operations.


(** * Further properties of the translator *)

Local Abbreviation ulong := (Tbasic GCC_JIT_TYPE_UNSIGNED_LONG) (only parsing).

(** * The other helpers that [init_comp] defines *)

(** The headers of an LP64 build with the tag in the low bits: those of
    [H] but for the values that [lp64] fixes. *)
Definition lp64_headers (H : headers) : headers := {|
  byte_of := byte_of H;
  USE_LSB_TAG := true;
  GCTYPEBITS := 3;
  INTTYPEBITS := INTTYPEBITS H;
  VALBITS := VALBITS H;
  FIXNUM_BITS := FIXNUM_BITS H;
  Lisp_Type_val := emacs_Lisp_Type_val;
  MOST_POSITIVE_FIXNUM := MOST_POSITIVE_FIXNUM H;
  MOST_NEGATIVE_FIXNUM := MOST_NEGATIVE_FIXNUM H;
  EMACS_INT_MAX_le_LONG_MAX := true;
  PVEC_BIGNUM := PVEC_BIGNUM H;
  MANY := MANY H;
  SUBR_MAX_ARGS := SUBR_MAX_ARGS H;
  SET_INTERNAL_SET := SET_INTERNAL_SET H;
  ARITH_EQUAL := ARITH_EQUAL H;
  ARITH_GRTR := ARITH_GRTR H;
  ARITH_LESS := ARITH_LESS H;
  ARITH_LESS_OR_EQUAL := ARITH_LESS_OR_EQUAL H;
  ARITH_GRTR_OR_EQUAL := ARITH_GRTR_OR_EQUAL H;
  CATCHER := CATCHER H;
  CONDITION_CASE := CONDITION_CASE H;
  COMPILED_ARGLIST := COMPILED_ARGLIST H;
  COMPILED_BYTECODE := COMPILED_BYTECODE H;
  COMPILED_CONSTANTS := COMPILED_CONSTANTS H;
  COMPILED_STACK_DEPTH := COMPILED_STACK_DEPTH H;
  sizeof_Lisp_Cons := sizeof_Lisp_Cons H;
  sizeof_jmp_buf := sizeof_jmp_buf H;
  sizeof_handler := sizeof_handler H;
  offsetof_handler_val := offsetof_handler_val H;
  offsetof_handler_next := offsetof_handler_next H;
  sizeof_handler_next := sizeof_handler_next H;
  offsetof_handler_jmp := offsetof_handler_jmp H;
  sizeof_handler_jmp := sizeof_handler_jmp H;
  sizeof_thread_state := sizeof_thread_state H;
  offsetof_m_handlerlist := offsetof_m_handlerlist H;
  sizeof_m_handlerlist := sizeof_m_handlerlist H;
  PURESIZE := PURESIZE H;
  HAVE__SETJMP := HAVE__SETJMP H;
  PT := PT H;
  ZV := ZV H;
  BEGV := BEGV H;
  function_cell := function_cell H;
  Fstring_as_unibyte := Fstring_as_unibyte H;
  address_SYMBOLP := address_SYMBOLP H;
  emacs_int_type := long_type;
  ptrdiff_type := long_type;
  uintptr_type := unsigned_long_type
|}.

Lemma lp64_headers_eq H : lp64 H -> lp64_headers H = H.
Proof.
  intros (Hty & Hpd & Hup & Hmax & Hlsb & Hg & Htag).
  destruct H. cbn in Hty, Hpd, Hup, Hmax, Hlsb, Hg, Htag. subst. reflexivity.
Qed.

Definition lp64_helpers_state (H : headers) : comp_t :=
  match init_comp (lp64_headers H) 2 comp_initial with
  | Ok (_, s) => s
  | _ => comp_initial
  end.

Definition bool_to_lisp_obj_function : gcc_jit_function :=
  Eval vm_compute in default no_function (bool_to_lisp_obj (helpers_state (fun _ => Qnil))).
Definition CHECK_TYPE_function : gcc_jit_function :=
  Eval vm_compute in default no_function (check_type (helpers_state (fun _ => Qnil))).
Definition CHECK_IMPURE_function : gcc_jit_function :=
  Eval vm_compute in default no_function (check_impure (helpers_state (fun _ => Qnil))).
Definition PSEUDOVECTORP_function : gcc_jit_function :=
  Eval vm_compute in default no_function (pseudovectorp (helpers_state (fun _ => Qnil))).
Definition setcar_function : gcc_jit_function :=
  Eval vm_compute in default no_function (setcar (helpers_state (fun _ => Qnil))).
Definition setcdr_function : gcc_jit_function :=
  Eval vm_compute in default no_function (setcdr (helpers_state (fun _ => Qnil))).

Definition helper_blocks (f : gcc_jit_function) (H : headers)
  : list (gcc_jit_block * list gcc_jit_record) :=
  function_blocks (ctxt (lp64_helpers_state H)) f.

Definition bool_to_lisp_obj_blocks :=
  Eval vm_compute in helper_blocks bool_to_lisp_obj_function.
Definition CHECK_TYPE_blocks := Eval vm_compute in helper_blocks CHECK_TYPE_function.
Definition CHECK_IMPURE_blocks := Eval vm_compute in helper_blocks CHECK_IMPURE_function.
Definition PSEUDOVECTORP_blocks := Eval vm_compute in helper_blocks PSEUDOVECTORP_function.
Definition setcar_blocks := Eval vm_compute in helper_blocks setcar_function.
Definition setcdr_blocks := Eval vm_compute in helper_blocks setcdr_function.

(** The helpers of a state, with the blocks of each. *)
Definition helpers_defined (H : headers) (s : comp_t) : Prop :=
  bool_to_lisp_obj s = Some bool_to_lisp_obj_function /\
  check_type s = Some CHECK_TYPE_function /\
  check_impure s = Some CHECK_IMPURE_function /\
  pseudovectorp s = Some PSEUDOVECTORP_function /\
  setcar s = Some setcar_function /\
  setcdr s = Some setcdr_function /\
  function_blocks (ctxt s) bool_to_lisp_obj_function = bool_to_lisp_obj_blocks H /\
  function_blocks (ctxt s) CHECK_TYPE_function = CHECK_TYPE_blocks H /\
  function_blocks (ctxt s) CHECK_IMPURE_function = CHECK_IMPURE_blocks H /\
  function_blocks (ctxt s) PSEUDOVECTORP_function = PSEUDOVECTORP_blocks H /\
  function_blocks (ctxt s) setcar_function = setcar_blocks H /\
  function_blocks (ctxt s) setcdr_function = setcdr_blocks H.

(** On every LP64 build [init_comp] succeeds and defines the helpers
    with these blocks. *)
Lemma init_comp_helpers H opt :
  lp64 H -> exists s, init_comp H opt comp_initial = Ok (tt, s) /\ helpers_defined H s.
Proof.
  intros Hlp. eexists. split.
  - replace (init_comp H opt comp_initial) with (init_comp (lp64_headers H) opt comp_initial)
      by (by rewrite lp64_headers_eq).
    vm_compute. reflexivity.
  -
  repeat split; vm_compute; reflexivity.
Qed.

Lemma store_bool_read_bool old v : convert bool_t (store_cell bool_t old v) = v mod 256.
Proof.
  words. change (Z.min 8 64) with 8. change (2 ^ 8) with 256.
  Z.div_mod_to_equations. lia.
Qed.

Lemma store_int_read_int_zero old v :
  convert int (store_cell int old v) = 0 <-> v mod 2 ^ 32 = 0.
Proof.
  words. change (Z.min 32 64) with 32. change (2 ^ 32) with 4294967296.
  case_bool_decide; Z.div_mod_to_equations; lia.
Qed.

Lemma pure_test old1 old2 old3 o pw :
  0 <= o < 2 ^ 64 ->
  convert ulong
    (convert ulong (store_cell obj old1 (convert obj (store_cell obj old2 o)))
     - convert ulong (store_cell ptr old3 (convert ptr pw)))
  = to_unsigned 64 (o - to_unsigned 64 pw).
Proof.
  intros Ho. rewrite (store_cell_lisp_obj old2) by done.
  rewrite convert_lisp_obj by done. rewrite store_cell_lisp_obj by done.
  rewrite store_cell_pointer.
  words. Z.div_mod_to_equations. lia.
Qed.

Lemma store_int_read_int old v : convert int (store_cell int old v) = to_signed 32 v.
Proof.
  words. change (Z.min 32 64) with 32. change (2 ^ 32) with 4294967296.
  repeat case_bool_decide; Z.div_mod_to_equations; lia.
Qed.

Lemma untag_word t old c :
  0 <= c < 2 ^ 64 ->
  convert (Tpointer t) (store_cell long old (convert long (convert long c - convert long 3)))
  = to_unsigned 64 (c - 3).
Proof. intros Hc. words. repeat case_bool_decide; Z.div_mod_to_equations; lia. Qed.

Lemma read_local_write_memory m a t v id i t' :
  read_place (write_place m (in_memory a) t v) (in_local id i) t'
  = read_place m (in_local id i) t'.
Proof. reflexivity. Qed.

Lemma m_trace_write_place m p t v : m_trace (write_place m p t v) = m_trace m.
Proof. by destruct p. Qed.

Lemma m_memory_write_local m id i t v :
  m_memory (write_place m (in_local id i) t v) = m_memory m.
Proof. reflexivity. Qed.

Lemma m_memory_write_memory m a t v a' :
  m_memory (write_place m (in_memory a) t v) a'
  = if bool_decide (a' = a) then store_cell t (m_memory m a) v else m_memory m a'.
Proof. reflexivity. Qed.

Section helpers.

Context (H : headers).
Context (address_of : c_ptr -> Z) (host : list call_event -> string -> list Z -> Z).

Definition t_word : Z := to_unsigned 64 (address_of (ptr_obj (Qt H))).

Ltac offsets :=
  repeat match goal with
  | |- context [field_offset ?H ?f] =>
      first [ change (field_offset H f) with 0 | change (field_offset H f) with 8 ]
  end.

Ltac block_codes Hb :=
  repeat match goal with
  | |- context [block_code ?c ?b] =>
      erewrite (function_blocks_code c _ b)
        by (rewrite Hb; repeat constructor)
  end.

Ltac eval_code :=
  repeat (progress (
    cbn [exec_code eval_rvalue eval_lvalue rvalue_place mbind option_bind lvalue_get_type
         rvalue_get_type field_type place_offset param_id param_type function_ret
         function_name eval_binary_op eval_unary_op eval_comparison];
    offsets;
    rewrite ?(bool_decide_true (0 = 0)) by done)).

Ltac reads :=
  repeat first [ rewrite read_write_local
               | rewrite read_write_local_ne by done
               | rewrite read_memory_write_local ].

Ltac enter Hb table :=
  unfold run_function; rewrite entry_block_function_blocks, Hb;
  cbn [table head fmap option_fmap option_map fst mbind option_bind
       bool_to_lisp_obj_function CHECK_TYPE_function CHECK_IMPURE_function
       PSEUDOVECTORP_function setcar_function setcdr_function
       function_params bind_params run_blocks param_id param_type];
  block_codes Hb; eval_code; reads.

Lemma bool_to_lisp_obj_run ctx x m :
  function_blocks ctx bool_to_lisp_obj_function = bool_to_lisp_obj_blocks H ->
  exists m',
    run_function H address_of host 2 ctx bool_to_lisp_obj_function [x] m
    = Some (Some (if bool_decide (x mod 256 = 0) then nil_word address_of else t_word), m') /\
    m_trace m' = m_trace m /\ m_memory m' = m_memory m.
Proof.
  intros Hb. enter Hb bool_to_lisp_obj_blocks.
  rewrite store_bool_read_bool.
  destruct (decide (x mod 256 = 0)) as [Hx|Hx].
  - rewrite (bool_decide_false (_ <> 0)) by (intros Hn; by apply Hn).
    rewrite (bool_decide_true (_ = 0)) by done.
    block_codes Hb; eval_code; reads.
    rewrite ?store_cell_pointer; rewrite ?convert_lisp_obj_word.
    eexists; split; [reflexivity|]; split; reflexivity.
  - rewrite (bool_decide_true (_ <> 0)) by done.
    rewrite (bool_decide_false (_ = 0)) by done.
    block_codes Hb; eval_code; reads.
    rewrite ?store_cell_pointer; rewrite ?convert_lisp_obj_word.
    eexists; split; [reflexivity|]; split; reflexivity.
Qed.
Lemma CHECK_TYPE_run ctx ok predicate x m :
  function_blocks ctx CHECK_TYPE_function = CHECK_TYPE_blocks H ->
  0 <= predicate < 2 ^ 64 -> 0 <= x < 2 ^ 64 ->
  exists m',
    run_function H address_of host 2 ctx CHECK_TYPE_function [ok; predicate; x] m
    = Some (None, m') /\
    m_trace m'
    = m_trace m ++
      (if bool_decide (ok mod 2 ^ 32 = 0)
       then [{| callee := "wrong_type_argument"; call_args := [predicate; x] |}]
       else []) /\
    m_memory m' = m_memory m.
Proof.
  intros Hb Hp Hx. enter Hb CHECK_TYPE_blocks.
  destruct (decide (ok mod 2 ^ 32 = 0)) as [Hok|Hok].
  - rewrite (bool_decide_true (convert _ _ = 0)) by (by apply store_int_read_int_zero).
    rewrite (bool_decide_true (ok mod _ = 0)) by done.
    rewrite (bool_decide_true (1 <> 0)) by done.
    block_codes Hb; eval_code; reads.
    rewrite !store_cell_lisp_obj by done. rewrite !convert_lisp_obj by done.
    eexists; split; [reflexivity|]; split; reflexivity.
  - rewrite (bool_decide_false (convert _ _ = 0)) by (by rewrite store_int_read_int_zero).
    rewrite (bool_decide_false (ok mod _ = 0)) by done.
    rewrite (bool_decide_false (0 <> 0)) by (intros Hn; by apply Hn).
    block_codes Hb; eval_code; reads.
    eexists; split; [reflexivity|]; split; [|reflexivity].
    cbn [m_trace write_place]. by rewrite app_nil_r.
Qed.
Definition pure_word : Z := to_unsigned 64 (address_of (ptr_var "pure")).

Lemma CHECK_IMPURE_run ctx o p m :
  function_blocks ctx CHECK_IMPURE_function = CHECK_IMPURE_blocks H ->
  0 <= o < 2 ^ 64 ->
  exists m',
    run_function H address_of host 2 ctx CHECK_IMPURE_function [o; p] m
    = Some (None, m') /\
    m_trace m'
    = m_trace m ++
      (if bool_decide (to_unsigned 64 (o - pure_word) <= to_unsigned 64 (PURESIZE H))
       then [{| callee := "pure_write_error"; call_args := [o] |}]
       else []) /\
    m_memory m' = m_memory m.
Proof.
  intros Hb Ho. enter Hb CHECK_IMPURE_blocks.
  rewrite pure_test by done. fold pure_word.
  change (convert ulong ?x) with (to_unsigned 64 x).
  change (match H with {| PURESIZE := v |} => v end) with (PURESIZE H).
  destruct (decide (to_unsigned 64 (o - pure_word) <= to_unsigned 64 (PURESIZE H)))
    as [Hpure|Hpure].
  - rewrite !(bool_decide_true (_ <= _)) by done.
    rewrite (bool_decide_true (1 <> 0)) by done.
    block_codes Hb; eval_code; reads.
    rewrite !store_cell_lisp_obj by done. rewrite !convert_lisp_obj by done.
    eexists; split; [reflexivity|]; split; reflexivity.
  - rewrite !(bool_decide_false (_ <= _)) by done.
    rewrite (bool_decide_false (0 <> 0)) by (intros Hn; by apply Hn).
    block_codes Hb; eval_code; reads.
    eexists; split; [reflexivity|]; split; [|reflexivity].
    cbn [m_trace write_place]. by rewrite app_nil_r.
Qed.

Definition vectorlike_call (m : machine) (a code : Z) : call_event :=
  {| callee := "helper_PSEUDOVECTOR_TYPEP_XUNTAG"; call_args := [a; to_signed 32 code] |}.

Lemma PSEUDOVECTORP_run ctx a code m :
  function_blocks ctx PSEUDOVECTORP_function = PSEUDOVECTORP_blocks H ->
  0 <= a < 2 ^ 64 ->
  exists m',
    run_function H address_of host 2 ctx PSEUDOVECTORP_function [a; code] m
    = Some (Some (if bool_decide (a mod 8 = 5)
                  then host (m_trace m) "helper_PSEUDOVECTOR_TYPEP_XUNTAG"
                         [a; to_signed 32 code] mod 256
                  else 0), m') /\
    m_trace m'
    = m_trace m ++ (if bool_decide (a mod 8 = 5) then [vectorlike_call m a code] else []) /\
    m_memory m' = m_memory m.
Proof.
  intros Hb Ha. enter Hb PSEUDOVECTORP_blocks.
  rewrite ?(store_cell_lisp_obj _ a) by done.
  rewrite shift_0; rewrite store_cell_long by done.
  rewrite (tag_test a 5) by lia.
  destruct (decide (a mod 8 = 5)) as [Htag|Htag].
  - rewrite (bool_decide_true (_ mod 8 = 0)) by (by apply tagged_mod).
    rewrite (bool_decide_true (a mod 8 = 5)) by done. decide_bools.
    block_codes Hb; eval_code; reads.
    rewrite ?(store_cell_lisp_obj _ a) by done. rewrite ?(convert_lisp_obj a) by done.
    rewrite !store_int_read_int.
    eexists; split; [reflexivity|]; split; reflexivity.
  - rewrite (bool_decide_false (_ mod 8 = 0)) by (by rewrite tagged_mod).
    rewrite (bool_decide_false (a mod 8 = 5)) by done. decide_bools.
    block_codes Hb; eval_code; reads.
    eexists; split; [reflexivity|]; split; [|reflexivity].
    cbn [m_trace write_place]. by rewrite app_nil_r.
Qed.
Definition consp_word : Z := to_unsigned 64 (address_of (ptr_obj (Qconsp H))).

(** The two calls that [setcar] and [setcdr] make before they store. *)
Definition cons_checks (cell : Z) : list call_event :=
  [ {| callee := "CHECK_TYPE";
       call_args := [if bool_decide (cell mod 8 = 3) then 1 else 0; consp_word; cell] |};
    {| callee := "CHECK_IMPURE"; call_args := [cell; to_unsigned 64 (cell - 3)] |} ].

(** Function [f] called on a cell and a value returns the value, after
    the two checks and a store of the value at [addr]. *)
Definition stores_and_returns (ctx : list gcc_jit_record) (f : gcc_jit_function)
    (cell new addr : Z) (m : machine) : Prop :=
  exists m',
    run_function H address_of host 1 ctx f [cell; new] m = Some (Some new, m') /\
    m_trace m' = m_trace m ++ cons_checks cell /\
    forall a, m_memory m' a = if bool_decide (a = addr) then new else m_memory m a.

(** Running code one entry at a time. *)
Definition with_trace (m : machine) (t : list call_event) : machine :=
  {| m_locals := m_locals m; m_memory := m_memory m; m_trace := t |}.

Fixpoint eval_rvalues (m : machine) (l : list gcc_jit_rvalue) : option (list Z * machine) :=
  match l with
  | [] => Some ([], m)
  | r :: l' =>
      ' (v, m) ← eval_rvalue H address_of host m r;
      ' (vs, m) ← eval_rvalues m l';
      Some (v :: vs, m)
  end.

Lemma eval_call f args m vs m1 :
  eval_rvalues m args = Some (vs, m1) ->
  eval_rvalue H address_of host m (Call f args)
  = Some (convert (function_ret f) (host (m_trace m1) (function_name f) vs),
          with_trace m1 (m_trace m1 ++ [{| callee := function_name f; call_args := vs |}])).
Proof.
  intros Hargs. cbn [eval_rvalue].
  match goal with
  | |- mbind _ (?g args m) = _ => assert (forall l m, g l m = eval_rvalues m l) as ->
  end.
  { induction l as [|r l IH]; intros m0; [done|].
    cbn [eval_rvalues]. destruct (eval_rvalue _ _ _ m0 r) as [[v m2]|]; [|done].
    cbn [mbind option_bind]. rewrite IH. reflexivity. }
  rewrite Hargs. reflexivity.
Qed.

Lemma exec_comment b str code m :
  exec_code H address_of host (block_add_comment b str :: code) m
  = exec_code H address_of host code m.
Proof. reflexivity. Qed.

Lemma exec_assignment b l rv code m v m1 pl m2 :
  eval_rvalue H address_of host m rv = Some (v, m1) ->
  eval_lvalue H address_of host m1 l = Some (pl, m2) ->
  exec_code H address_of host (block_add_assignment b l rv :: code) m
  = exec_code H address_of host code (write_place m2 pl (lvalue_get_type l) v).
Proof. intros Hv Hl. cbn [exec_code]. rewrite Hv. cbn [mbind option_bind]. by rewrite Hl. Qed.

Lemma exec_eval b rv code m v m1 :
  eval_rvalue H address_of host m rv = Some (v, m1) ->
  exec_code H address_of host (block_add_eval b rv :: code) m
  = exec_code H address_of host code m1.
Proof. intros Hv. cbn [exec_code]. by rewrite Hv. Qed.

Lemma exec_return b rv code m v m1 :
  eval_rvalue H address_of host m rv = Some (v, m1) ->
  exec_code H address_of host (block_end_with_return b rv :: code) m
  = Some (Returns (Some v), m1).
Proof. intros Hv. cbn [exec_code]. by rewrite Hv. Qed.

Lemma read_place_with_trace m t p ty :
  read_place (with_trace m t) p ty = read_place m p ty.
Proof. by destruct p. Qed.

Ltac reads ::=
  repeat first [ rewrite read_write_local
               | rewrite read_write_local_ne by done
               | rewrite read_memory_write_local
               | rewrite read_local_write_memory
               | rewrite read_place_with_trace ].

Ltac eval_here :=
  repeat (progress (
    cbn [eval_rvalue eval_lvalue rvalue_place eval_rvalues mbind option_bind lvalue_get_type
         rvalue_get_type field_type place_offset param_id param_type function_ret
         function_name eval_binary_op eval_unary_op eval_comparison];
    offsets;
    rewrite ?(bool_decide_true (0 = 0)) by done;
    reads)).

Ltac enter_code Hb table :=
  unfold run_function; rewrite entry_block_function_blocks, Hb;
  cbn [table head fmap option_fmap option_map fst mbind option_bind
       bool_to_lisp_obj_function CHECK_TYPE_function CHECK_IMPURE_function
       PSEUDOVECTORP_function setcar_function setcdr_function
       function_params bind_params run_blocks param_id param_type];
  block_codes Hb.

Ltac tag_bit cell :=
  rewrite ?(store_cell_lisp_obj _ cell) by done;
  rewrite ?shift_0; rewrite ?store_cell_long by done;
  rewrite ?(tag_test cell 3) by lia;
  rewrite ?(bool_decide_ext ((cell - 3) mod 8 = 0) (cell mod 8 = 3)) by (by apply tagged_mod);
  rewrite ?store_cell_pointer; rewrite ?convert_lisp_obj_word;
  rewrite ?(convert_lisp_obj cell) by done;
  rewrite ?untag_word by done.

Lemma m_trace_with_trace m t : m_trace (with_trace m t) = t.
Proof. reflexivity. Qed.

Lemma m_memory_with_trace m t : m_memory (with_trace m t) = m_memory m.
Proof. reflexivity. Qed.

Ltac traces :=
  repeat first [ rewrite m_trace_write_place | rewrite m_memory_write_local
               | rewrite m_trace_with_trace | rewrite m_memory_with_trace ].

Ltac call_step cell :=
  erewrite exec_eval;
  [|erewrite eval_call; [reflexivity|eval_here; tag_bit cell; reflexivity]].

Ltac assign_step cell :=
  erewrite exec_assignment; [|eval_here; tag_bit cell; reflexivity..].

Lemma setcar_run ctx cell new m :
  function_blocks ctx setcar_function = setcar_blocks H ->
  0 <= cell < 2 ^ 64 -> 0 <= new < 2 ^ 64 ->
  stores_and_returns ctx setcar_function cell new (to_unsigned 64 (cell - 3)) m.
Proof.
  intros Hb Hc Hn. unfold stores_and_returns. enter_code Hb setcar_blocks.
  rewrite !exec_comment. assign_step cell.
  rewrite !exec_comment. assign_step cell.
  call_step cell. traces.
  rewrite !exec_comment. assign_step cell.
  call_step cell. traces.
  rewrite !exec_comment. assign_step cell. assign_step cell.
  erewrite exec_return; [|eval_here; reflexivity].
  rewrite store_cell_lisp_obj by done. rewrite convert_lisp_obj by done.
  cbn [mbind option_bind].
  eexists. split; [reflexivity|]. split.
  - traces. rewrite <- app_assoc. reflexivity.
  - intros a. rewrite m_memory_write_memory. traces.
    rewrite !Z.add_0_r. rewrite store_cell_lisp_obj by done. reflexivity.
Qed.

Lemma setcdr_run ctx cell new m :
  function_blocks ctx setcdr_function = setcdr_blocks H ->
  0 <= cell < 2 ^ 64 -> 0 <= new < 2 ^ 64 ->
  stores_and_returns ctx setcdr_function cell new (to_unsigned 64 (cell - 3) + 8) m.
Proof.
  intros Hb Hc Hn. unfold stores_and_returns. enter_code Hb setcdr_blocks.
  rewrite !exec_comment. assign_step cell.
  rewrite !exec_comment. assign_step cell.
  call_step cell. traces.
  rewrite !exec_comment. assign_step cell.
  call_step cell. traces.
  rewrite !exec_comment. assign_step cell. assign_step cell.
  erewrite exec_return; [|eval_here; reflexivity].
  rewrite store_cell_lisp_obj by done. rewrite convert_lisp_obj by done.
  cbn [mbind option_bind].
  eexists. split; [reflexivity|]. split.
  - traces. rewrite <- app_assoc. reflexivity.
  - intros a. rewrite m_memory_write_memory. traces.
    rewrite !Z.add_0_r. rewrite store_cell_lisp_obj by done. reflexivity.
Qed.
End helpers.

Section helpers_of_init_comp.

Context (H : headers).
Context (address_of : c_ptr -> Z) (host : list call_event -> string -> list Z -> Z).

(** X1.  After [init_comp], the helper [bool_to_lisp_obj] called on
    [x] returns the word of nil when the low byte of [x], which is its
    [bool] parameter, is 0, and the word of [t] otherwise; it makes no
    call and leaves the memory as it was. *)
Theorem X1_bool_to_lisp_obj opt x m :
  lp64 H ->
  exists s f m',
    init_comp H opt comp_initial = Ok (tt, s) /\
    bool_to_lisp_obj s = Some f /\ function_name f = "bool_to_lisp_obj" /\
    run_function H address_of host 2 (ctxt s) f [x] m
    = Some (Some (if bool_decide (x mod 256 = 0) then nil_word address_of
                  else t_word H address_of), m') /\
    m_trace m' = m_trace m /\ m_memory m' = m_memory m.
Proof.
  intros Hlp.
  destruct (init_comp_helpers H opt Hlp) as (s & Hinit & Hdef).
  destruct Hdef as (Hf & _ & _ & _ & _ & _ & Hb & _).
  destruct (bool_to_lisp_obj_run H address_of host (ctxt s) x m Hb) as (m' & Hrun & Ht & Hm).
  exists s, bool_to_lisp_obj_function, m'.
  split; [exact Hinit|]. split; [exact Hf|]. split; [reflexivity|].
  split; [exact Hrun|]. split; [exact Ht|exact Hm].
Qed.

(** X2.  After [init_comp], the helper [CHECK_TYPE] called on [ok],
    [predicate] and [x] calls [wrong_type_argument] on [predicate] and
    [x] when [ok], an [int], is 0, and makes no call otherwise; either
    way it returns, with no value, and the memory is as it was. *)
Theorem X2_CHECK_TYPE opt ok predicate x m :
  lp64 H -> 0 <= predicate < 2 ^ 64 -> 0 <= x < 2 ^ 64 ->
  exists s f m',
    init_comp H opt comp_initial = Ok (tt, s) /\
    check_type s = Some f /\ function_name f = "CHECK_TYPE" /\
    run_function H address_of host 2 (ctxt s) f [ok; predicate; x] m = Some (None, m') /\
    m_trace m'
    = m_trace m ++
      (if bool_decide (ok mod 2 ^ 32 = 0)
       then [{| callee := "wrong_type_argument"; call_args := [predicate; x] |}]
       else []) /\
    m_memory m' = m_memory m.
Proof.
  intros Hlp Hp Hx.
  destruct (init_comp_helpers H opt Hlp) as (s & Hinit & Hdef).
  destruct Hdef as (_ & Hf & _ & _ & _ & _ & _ & Hb & _).
  destruct (CHECK_TYPE_run H address_of host (ctxt s) ok predicate x m Hb Hp Hx)
    as (m' & Hrun & Ht & Hm).
  exists s, CHECK_TYPE_function, m'.
  split; [exact Hinit|]. split; [exact Hf|]. split; [reflexivity|].
  split; [exact Hrun|]. split; [exact Ht|exact Hm].
Qed.

(** X3.  After [init_comp], the helper [CHECK_IMPURE] called on an
    object [o] and a pointer [p] calls [pure_write_error] on [o] when
    the word of [o] itself, less the address of [pure], is at most
    [PURESIZE] as an unsigned number, and makes no call otherwise: the
    test is made on the first parameter, the tagged object, and the
    pointer [p] has no part in it. *)
Theorem X3_CHECK_IMPURE opt o p m :
  lp64 H -> 0 <= o < 2 ^ 64 ->
  exists s f m',
    init_comp H opt comp_initial = Ok (tt, s) /\
    check_impure s = Some f /\ function_name f = "CHECK_IMPURE" /\
    run_function H address_of host 2 (ctxt s) f [o; p] m = Some (None, m') /\
    m_trace m'
    = m_trace m ++
      (if bool_decide (to_unsigned 64 (o - pure_word address_of) <= to_unsigned 64 (PURESIZE H))
       then [{| callee := "pure_write_error"; call_args := [o] |}]
       else []) /\
    m_memory m' = m_memory m.
Proof.
  intros Hlp Ho.
  destruct (init_comp_helpers H opt Hlp) as (s & Hinit & Hdef).
  destruct Hdef as (_ & _ & Hf & _ & _ & _ & _ & _ & Hb & _).
  destruct (CHECK_IMPURE_run H address_of host (ctxt s) o p m Hb Ho)
    as (m' & Hrun & Ht & Hm).
  exists s, CHECK_IMPURE_function, m'.
  split; [exact Hinit|]. split; [exact Hf|]. split; [reflexivity|].
  split; [exact Hrun|]. split; [exact Ht|exact Hm].
Qed.

(** X4.  After [init_comp], the helper [PSEUDOVECTORP] called on an
    object [a] and a code returns 0 without a call when [a] has not the
    tag of a vectorlike, which is 5; when it has, it calls
    [helper_PSEUDOVECTOR_TYPEP_XUNTAG] on [a] and the code, read as an
    [int], and returns the low byte of what the call returns. *)
Theorem X4_PSEUDOVECTORP opt a code m :
  lp64 H -> 0 <= a < 2 ^ 64 ->
  exists s f m',
    init_comp H opt comp_initial = Ok (tt, s) /\
    pseudovectorp s = Some f /\ function_name f = "PSEUDOVECTORP" /\
    run_function H address_of host 2 (ctxt s) f [a; code] m
    = Some (Some (if bool_decide (a mod 8 = 5)
                  then host (m_trace m) "helper_PSEUDOVECTOR_TYPEP_XUNTAG"
                         [a; to_signed 32 code] mod 256
                  else 0), m') /\
    m_trace m'
    = m_trace m ++
      (if bool_decide (a mod 8 = 5)
       then [{| callee := "helper_PSEUDOVECTOR_TYPEP_XUNTAG";
                call_args := [a; to_signed 32 code] |}]
       else []) /\
    m_memory m' = m_memory m.
Proof.
  intros Hlp Ha.
  destruct (init_comp_helpers H opt Hlp) as (s & Hinit & Hdef).
  destruct Hdef as (_ & _ & _ & Hf & _ & _ & _ & _ & _ & Hb & _).
  destruct (PSEUDOVECTORP_run H address_of host (ctxt s) a code m Hb Ha)
    as (m' & Hrun & Ht & Hm).
  exists s, PSEUDOVECTORP_function, m'.
  split; [exact Hinit|]. split; [exact Hf|]. split; [reflexivity|].
  split; [exact Hrun|]. split; [exact Ht|exact Hm].
Qed.

(** X5.  After [init_comp], the helpers [setcar] and [setcdr] called
    on a cell and a value make two calls, whatever the cell is:
    [CHECK_TYPE] on the test of the tag of a cons, [Qconsp] and the
    cell, then [CHECK_IMPURE] on the cell and the cell without its tag.
    They then store the value at that address, 8 bytes further for
    [setcdr], change no other word of the memory, and return the
    value. *)
Theorem X5_setcar_setcdr opt cell new m :
  lp64 H -> 0 <= cell < 2 ^ 64 -> 0 <= new < 2 ^ 64 ->
  exists s f_setcar f_setcdr,
    init_comp H opt comp_initial = Ok (tt, s) /\
    setcar s = Some f_setcar /\ setcdr s = Some f_setcdr /\
    function_name f_setcar = "setcar" /\ function_name f_setcdr = "setcdr" /\
    stores_and_returns H address_of host (ctxt s) f_setcar cell new
      (to_unsigned 64 (cell - 3)) m /\
    stores_and_returns H address_of host (ctxt s) f_setcdr cell new
      (to_unsigned 64 (cell - 3) + 8) m.
Proof.
  intros Hlp Hc Hn.
  destruct (init_comp_helpers H opt Hlp) as (s & Hinit & Hdef).
  destruct Hdef as (_ & _ & _ & _ & Hcar & Hcdr & _ & _ & _ & _ & Hbcar & Hbcdr).
  exists s, setcar_function, setcdr_function.
  split; [done|]. split; [done|]. split; [done|]. split; [done|]. split; [done|].
  split; [by apply setcar_run | by apply setcdr_run].
Qed.

End helpers_of_init_comp.

Lemma X1_bool_to_lisp_obj_witness :
  exists s f m',
    init_comp emacs_x86_64 2 comp_initial = Ok (tt, s) /\
    bool_to_lisp_obj s = Some f /\ function_name f = "bool_to_lisp_obj" /\
    run_function emacs_x86_64 null_address_of null_host 2 (ctxt s) f [1] machine_initial
    = Some (Some (if bool_decide (1 mod 256 = 0) then nil_word null_address_of
                  else t_word emacs_x86_64 null_address_of), m') /\
    m_trace m' = m_trace machine_initial /\ m_memory m' = m_memory machine_initial.
Proof.
  apply (X1_bool_to_lisp_obj emacs_x86_64 null_address_of null_host 2 1 machine_initial).
  exact emacs_x86_64_lp64.
Defined.

Lemma X2_CHECK_TYPE_witness :
  exists s f m',
    init_comp emacs_x86_64 2 comp_initial = Ok (tt, s) /\
    check_type s = Some f /\ function_name f = "CHECK_TYPE" /\
    run_function emacs_x86_64 null_address_of null_host 2 (ctxt s) f [0; 48; 1002]
      machine_initial
    = Some (None, m') /\
    m_trace m'
    = m_trace machine_initial ++
      (if bool_decide (0 mod 2 ^ 32 = 0)
       then [{| callee := "wrong_type_argument"; call_args := [48; 1002] |}]
       else []) /\
    m_memory m' = m_memory machine_initial.
Proof.
  apply (X2_CHECK_TYPE emacs_x86_64 null_address_of null_host 2 0 48 1002 machine_initial).
  - exact emacs_x86_64_lp64.
  - lia.
  - lia.
Defined.

Lemma X3_CHECK_IMPURE_witness :
  exists s f m',
    init_comp emacs_x86_64 2 comp_initial = Ok (tt, s) /\
    check_impure s = Some f /\ function_name f = "CHECK_IMPURE" /\
    run_function emacs_x86_64 null_address_of null_host 2 (ctxt s) f [1003; 1000]
      machine_initial
    = Some (None, m') /\
    m_trace m'
    = m_trace machine_initial ++
      (if bool_decide (to_unsigned 64 (1003 - pure_word null_address_of)
                       <= to_unsigned 64 (PURESIZE emacs_x86_64))
       then [{| callee := "pure_write_error"; call_args := [1003] |}]
       else []) /\
    m_memory m' = m_memory machine_initial.
Proof.
  apply (X3_CHECK_IMPURE emacs_x86_64 null_address_of null_host 2 1003 1000 machine_initial).
  - exact emacs_x86_64_lp64.
  - lia.
Defined.

Lemma X4_PSEUDOVECTORP_witness :
  exists s f m',
    init_comp emacs_x86_64 2 comp_initial = Ok (tt, s) /\
    pseudovectorp s = Some f /\ function_name f = "PSEUDOVECTORP" /\
    run_function emacs_x86_64 null_address_of null_host 2 (ctxt s) f [1005; 2]
      machine_initial
    = Some (Some (if bool_decide (1005 mod 8 = 5)
                  then null_host (m_trace machine_initial)
                         "helper_PSEUDOVECTOR_TYPEP_XUNTAG" [1005; to_signed 32 2] mod 256
                  else 0), m') /\
    m_trace m'
    = m_trace machine_initial ++
      (if bool_decide (1005 mod 8 = 5)
       then [{| callee := "helper_PSEUDOVECTOR_TYPEP_XUNTAG";
                call_args := [1005; to_signed 32 2] |}]
       else []) /\
    m_memory m' = m_memory machine_initial.
Proof.
  apply (X4_PSEUDOVECTORP emacs_x86_64 null_address_of null_host 2 1005 2 machine_initial).
  - exact emacs_x86_64_lp64.
  - lia.
Defined.

Lemma X5_setcar_setcdr_witness :
  exists s f_setcar f_setcdr,
    init_comp emacs_x86_64 2 comp_initial = Ok (tt, s) /\
    setcar s = Some f_setcar /\ setcdr s = Some f_setcdr /\
    function_name f_setcar = "setcar" /\ function_name f_setcdr = "setcdr" /\
    stores_and_returns emacs_x86_64 null_address_of null_host (ctxt s) f_setcar 1003 42
      (to_unsigned 64 (1003 - 3)) machine_initial /\
    stores_and_returns emacs_x86_64 null_address_of null_host (ctxt s) f_setcdr 1003 42
      (to_unsigned 64 (1003 - 3) + 8) machine_initial.
Proof.
  apply (X5_setcar_setcdr emacs_x86_64 null_address_of null_host 2 1003 42 machine_initial).
  - exact emacs_x86_64_lp64.
  - lia.
  - lia.
Defined.

(** * Casts *)

(** The types that [type_to_cast_field] knows, each with its member of
    the cast union. *)
Definition cast_fields : list (gcc_jit_type * gcc_jit_field) :=
  [ (long_long_type, cast_union_as_ll); (unsigned_long_long_type, cast_union_as_ull);
    (long_type, cast_union_as_l); (unsigned_long_type, cast_union_as_ul);
    (unsigned_type, cast_union_as_u); (int_type, cast_union_as_i);
    (bool_type, cast_union_as_b); (void_ptr_type, cast_union_as_v_p);
    (char_ptr_type, cast_union_as_c_p); (lisp_cons_ptr_type, cast_union_as_lisp_cons_ptr);
    (lisp_obj_type, cast_union_as_lisp_obj) ].

Ltac not_a_cast_field :=
  let f := fresh "f" in
  let Hin := fresh "Hin" in
  intros f Hin;
  cbv [cast_fields long_long_type unsigned_long_long_type long_type unsigned_long_type
       unsigned_type int_type bool_type void_ptr_type char_ptr_type char_type
       lisp_cons_ptr_type lisp_cons_type lisp_obj_type] in Hin;
  repeat (apply elem_of_cons in Hin as [Hin|Hin]; [congruence|]);
  by apply elem_of_nil in Hin.

Ltac a_cast_field :=
  left; eexists; split; [unfold cast_fields; repeat constructor|reflexivity].

(** [type_to_cast_field] finds the member of the union for the eleven
    types of [cast_fields] and raises an error for every other type. *)
Lemma type_to_cast_field_spec ty s :
  (exists f, (ty, f) ∈ cast_fields /\ type_to_cast_field ty s = Ok (f, s)) \/
  ((forall f, (ty, f) ∉ cast_fields) /\ type_to_cast_field ty s = Error "unsupported cast").
Proof.
  destruct ty as [k|t|t n|name|name|r ps].
  - destruct k; first [a_cast_field | right; split; [not_a_cast_field|reflexivity]].
  - destruct t as [k|t|t n|name|name|r ps];
      try (right; split; [not_a_cast_field|reflexivity]).
    + destruct k; first [a_cast_field | right; split; [not_a_cast_field|reflexivity]].
    + destruct (decide (name = "comp_Lisp_Cons")) as [->|Hne]; [a_cast_field|].
      right. split; [not_a_cast_field|].
      unfold type_to_cast_field. cbn. rewrite bool_decide_false by done. reflexivity.
  - right; split; [not_a_cast_field|reflexivity].
  - right; split; [not_a_cast_field|reflexivity].
  - destruct (decide (name = "comp_Lisp_Object")) as [->|Hne]; [a_cast_field|].
    right. split; [not_a_cast_field|].
    unfold type_to_cast_field. cbn. rewrite bool_decide_false by done. reflexivity.
  - right; split; [not_a_cast_field|reflexivity].
Qed.

Lemma low_bits n n' old v :
  0 < n' -> 0 < n -> (n' | n) -> (n | 2 ^ 64) ->
  ((old mod 2 ^ 64 - old mod n) + v mod n) mod n' = v mod n'.
Proof.
  intros Hn' Hn [c Hc] Hd64.
  rewrite <- (Z.mod_mod_divide old (2 ^ 64) n) by done.
  set (o := old mod 2 ^ 64).
  rewrite (Z.div_mod o n) at 1 by lia. subst n.
  replace (c * n' * (o / (c * n')) + o mod (c * n') - o mod (c * n') + v mod (c * n'))
    with (v mod (c * n') + (o / (c * n') * c) * n') by lia.
  rewrite Z_mod_plus_full. apply Z.mod_mod_divide. by exists c.
Qed.

(** The bits that a store of type [t] leaves for a read of a type that
    is not wider. *)
Lemma convert_store_cell t t' old v :
  0 < type_bits t' <= type_bits t ->
  convert t' (store_cell t old v) = convert t' v.
Proof.
  intros Hb.
  assert (type_bits t = 8 \/ type_bits t = 32 \/ type_bits t = 64) as Ht.
  { destruct t as [[]| | | | |]; cbn in *; lia. }
  assert (type_bits t' = 8 \/ type_bits t' = 32 \/ type_bits t' = 64) as Ht'.
  { destruct t' as [[]| | | | |]; cbn in *; lia. }
  assert (store_cell t old v mod 2 ^ type_bits t' = v mod 2 ^ type_bits t') as Hlow.
  { unfold store_cell, to_unsigned. cbv zeta.
    destruct Ht as [Ht | [Ht | Ht]], Ht' as [Ht' | [Ht' | Ht']]; rewrite Ht, Ht' in *;
      try lia.
    all: change (Z.min 8 64) with 8; change (Z.min 32 64) with 32;
      change (Z.min 64 64) with 64.
    all: apply low_bits; [lia|lia| |].
    all: first [ by exists 1 | by exists (2 ^ 24) | by exists (2 ^ 56) | by exists (2 ^ 32) ]. }
  unfold convert, to_signed, to_unsigned. cbv zeta. rewrite Hlow. reflexivity.
Qed.

Section casts.

Context (H : headers).
Context (address_of : c_ptr -> Z) (host : list call_event -> string -> list Z -> Z).

(** The cast union of a state: the local that the next cast makes. *)
Definition cast_union (s : comp_t) : gcc_jit_lvalue :=
  Local (objects s) cast_union_type ("union_cast_" +:+ pretty (emit_cast_i s)).

Lemma field_offset_cast_field ty f : (ty, f) ∈ cast_fields -> field_offset H f = 0.
Proof.
  intros Hin. unfold cast_fields in Hin.
  repeat (apply elem_of_cons in Hin as [[= -> ->]|Hin]; [reflexivity|]).
  by apply elem_of_nil in Hin.
Qed.

Lemma field_type_cast_field ty f : (ty, f) ∈ cast_fields -> field_type f = ty.
Proof.
  intros Hin. unfold cast_fields in Hin.
  repeat (apply elem_of_cons in Hin as [[= -> ->]|Hin]; [reflexivity|]).
  by apply elem_of_nil in Hin.
Qed.

Lemma type_bits_cast_field ty f : (ty, f) ∈ cast_fields -> 0 < type_bits ty.
Proof.
  intros Hin. unfold cast_fields in Hin.
  repeat (apply elem_of_cons in Hin as [[= -> ->]|Hin]; [cbn; lia|]).
  by apply elem_of_nil in Hin.
Qed.

Lemma cast_fields_functional ty f g :
  (ty, f) ∈ cast_fields -> (ty, g) ∈ cast_fields -> f = g.
Proof.
  intros Hf Hg.
  cbv [cast_fields long_long_type unsigned_long_long_type long_type unsigned_long_type
       unsigned_type int_type bool_type void_ptr_type char_ptr_type char_type
       lisp_cons_ptr_type lisp_cons_type lisp_obj_type] in Hf, Hg.
  repeat (apply elem_of_cons in Hf as [Hf|Hf];
          [injection Hf as -> ->;
           repeat (apply elem_of_cons in Hg as [Hg|Hg]; [congruence|]);
           by apply elem_of_nil in Hg|]).
  by apply elem_of_nil in Hf.
Qed.

Lemma eval_field_of_local m id t n f :
  eval_rvalue H address_of host m (Rvalue_access_field (Lvalue_as_rvalue (Local id t n)) f)
  = pl ← place_offset (in_local id 0) (field_offset H f);
    Some (read_place m pl (field_type f), m).
Proof. reflexivity. Qed.

Lemma place_field_of_local m id t n f :
  eval_lvalue H address_of host m (Lvalue_access_field (Local id t n) f)
  = pl ← place_offset (in_local id 0) (field_offset H f); Some (pl, m).
Proof. reflexivity. Qed.

(** What the two entries of a cast do on a machine. *)
Lemma cast_code_runs f bb id name ty orig ty' dest obj m v m1 :
  (ty, orig) ∈ cast_fields -> (ty', dest) ∈ cast_fields ->
  eval_rvalue H address_of host m obj = Some (v, m1) ->
  type_bits ty' <= type_bits ty ->
  let tmp := Local id cast_union_type name in
  exists m2,
    exec_code H address_of host
      [function_new_local f tmp; block_add_assignment bb (Lvalue_access_field tmp orig) obj] m
    = Some (Falls_off, m2) /\
    eval_rvalue H address_of host m2 (Rvalue_access_field (Lvalue_as_rvalue tmp) dest)
    = Some (convert ty' v, m2) /\
    m_trace m2 = m_trace m1 /\ m_memory m2 = m_memory m1.
Proof.
  intros Horig Hdest Hv Hbits tmp. subst tmp.
  change (exec_code H address_of host (function_new_local f ?l :: ?c) m)
    with (exec_code H address_of host c m).
  erewrite exec_assignment; [|exact Hv|rewrite place_field_of_local;
    rewrite (field_offset_cast_field _ _ Horig); cbn [place_offset mbind option_bind];
    rewrite (bool_decide_true (0 = 0)) by done; reflexivity].
  eexists. split; [reflexivity|]. split; [|split; reflexivity].
  rewrite eval_field_of_local, (field_offset_cast_field _ _ Hdest).
  cbn [place_offset mbind option_bind]. rewrite (bool_decide_true (0 = 0)) by done.
  cbn [mbind option_bind]. rewrite read_write_local. cbn [lvalue_get_type].
  rewrite (field_type_cast_field _ _ Horig), (field_type_cast_field _ _ Hdest).
  rewrite convert_store_cell; [reflexivity|].
  pose proof (type_bits_cast_field _ _ Hdest). lia.
Qed.

(** The current block of the translator is [b]. *)
Definition current_block (s : comp_t) (b : basic_block_t) : Prop :=
  match block s with
  | Some (in_bb_map pc) => array_get "bb_map" (bb_map s) pc = Ok b
  | Some (in_alloca n) => alloca s !! n = Some b
  | None => False
  end.

(** X6.  [emit_cast] raises the error "unsupported cast" when the type
    of the object or the new type is not one of the eleven types of
    [cast_fields].  Otherwise it makes a new local of the cast union,
    named after a counter that it increments, assigns the object to
    the member of its type in the current block, and returns the
    member of the new type.  When the new type is not wider than the
    type of the object, what is read is the value of the object
    converted to the new type. *)
Theorem X6_emit_cast new_type obj s f b :
  func s = Some f -> current_block s b ->
  fits ("union_cast_" +:+ pretty (emit_cast_i s)) ->
  ((forall x, (rvalue_get_type obj, x) ∉ cast_fields) \/ (forall x, (new_type, x) ∉ cast_fields) ->
   emit_cast new_type obj s = Error "unsupported cast") /\
  forall orig dest,
    (rvalue_get_type obj, orig) ∈ cast_fields -> (new_type, dest) ∈ cast_fields ->
    exists s',
      emit_cast new_type obj s
      = Ok (Rvalue_access_field (Lvalue_as_rvalue (cast_union s)) dest, s') /\
      ctxt s'
      = ctxt s ++ [function_new_local f (cast_union s);
                   block_add_assignment (gcc_bb b) (Lvalue_access_field (cast_union s) orig)
                     obj] /\
      emit_cast_i s' = S (emit_cast_i s) /\
      forall m v m1,
        eval_rvalue H address_of host m obj = Some (v, m1) ->
        type_bits new_type <= type_bits (rvalue_get_type obj) ->
        exists m2,
          exec_code H address_of host (drop (length (ctxt s)) (ctxt s')) m
          = Some (Falls_off, m2) /\
          eval_rvalue H address_of host m2
            (Rvalue_access_field (Lvalue_as_rvalue (cast_union s)) dest)
          = Some (convert new_type v, m2) /\
          m_trace m2 = m_trace m1 /\ m_memory m2 = m_memory m1.
Proof.
  intros Hf Hb Hfit. split.
  - intros Hno. unfold emit_cast. cbv [bind].
    destruct (type_to_cast_field_spec (rvalue_get_type obj) s) as [(x & Hx & ->)|[_ ->]];
      [|done].
    destruct Hno as [Hno|Hno]; [by destruct (Hno x)|].
    destruct (type_to_cast_field_spec new_type s) as [(y & Hy & ->)|[_ ->]]; [|done].
    by destruct (Hno y).
  - intros orig dest Horig Hdest.
    destruct (type_to_cast_field_spec (rvalue_get_type obj) s) as [(x & Hx & Ex)|[Hno _]];
      [|by destruct (Hno orig)].
    destruct (type_to_cast_field_spec new_type s) as [(y & Hy & Ey)|[Hno _]];
      [|by destruct (Hno dest)].
    rewrite (cast_fields_functional _ _ _ Hx Horig) in Ex.
    rewrite (cast_fields_functional _ _ _ Hy Hdest) in Ey. clear x y Hx Hy.
    destruct s as [ctxt0 objs f0 blk h pv btl car0 cdr0 scar scdr ctype cimp ci cj bbm allo
                     stk].
    unfold current_block in Hb. cbn in Hf, Hb, Hfit. subst f0.
    unfold emit_cast. cbv [bind]. rewrite Ex, Ey.
    destruct blk as [[pc|n]|]; [| |done]; munfold; mrewrite; rewrite ?Hb.
    all: eexists; split; [reflexivity|]; split; [by rewrite <- app_assoc|];
      split; [reflexivity|].
    all: intros m v m1 Hv Hbits; cbn [ctxt]; rewrite <- ?app_assoc; rewrite drop_app_length.
    all: by eapply cast_code_runs.
Qed.

End casts.

(** * The test of a tag *)

Lemma tag_bits old w tag :
  0 <= tag < 8 ->
  convert uint
    (Z.land (convert uint (convert uint (store_cell long old (convert long w))
                           - convert uint tag))
       (convert uint 7))
  = (w - tag) mod 8.
Proof.
  intros Ht. rewrite (convert_store_cell long uint) by (cbn; lia).
  change (convert uint 7) with (Z.ones 3).
  rewrite Z.land_ones by lia. change (2 ^ 3) with 8.
  words. repeat case_bool_decide; Z.div_mod_to_equations; lia.
Qed.

Section tags.

Context (H : headers).
Context (address_of : c_ptr -> Z) (host : list call_event -> string -> list Z -> Z).

Lemma eval_rshift t a b m x m1 y m2 :
  eval_rvalue H address_of host m a = Some (x, m1) ->
  eval_rvalue H address_of host m1 b = Some (y, m2) ->
  eval_rvalue H address_of host m (Binary_op GCC_JIT_BINARY_OP_RSHIFT t a b)
  = Some (convert t (Z.shiftr x y), m2).
Proof.
  intros Ha Hb. cbn [eval_rvalue]. rewrite Ha. cbn [mbind option_bind]. rewrite Hb.
  reflexivity.
Qed.

Lemma exec_new_local f l code m :
  exec_code H address_of host (function_new_local f l :: code) m
  = exec_code H address_of host code m.
Proof. reflexivity. Qed.

Lemma emit_TAGGEDP_run o tag s f b :
  lp64 H ->
  func s = Some f -> current_block s b ->
  fits ("union_cast_" +:+ pretty (emit_cast_i s)) ->
  0 <= tag < 8 ->
  exists r s' L,
    emit_TAGGEDP H o tag s = Ok (r, s') /\
    ctxt s' = ctxt s ++ L /\
    statements L
    = [block_add_assignment (gcc_bb b) (Lvalue_access_field (cast_union s) cast_union_as_l)
         (Binary_op GCC_JIT_BINARY_OP_RSHIFT long_type
            (Rvalue_access_field o (lisp_obj_as_num H)) (Rvalue_from_int long_type 0))] /\
    forall m w m1,
      eval_rvalue H address_of host m (Rvalue_access_field o (lisp_obj_as_num H))
      = Some (w, m1) ->
      exists m2,
        exec_code H address_of host L m = Some (Falls_off, m2) /\
        eval_rvalue H address_of host m2 r
        = Some (if bool_decide (w mod 8 = tag) then 1 else 0, m2) /\
        m_trace m2 = m_trace m1 /\ m_memory m2 = m_memory m1.
Proof.
  intros (Hty & _ & _ & _ & Hlsb & Hg & _) Hf Hb Hfit Htag.
  destruct s as [ctxt0 objs f0 blk h pv btl car0 cdr0 scar scdr ctype cimp ci cj bbm allo
                   stk].
  unfold current_block in Hb. cbn in Hf, Hb, Hfit. subst f0.
  unfold emit_TAGGEDP. rewrite Hlsb, Hg.
  destruct blk as [[pc|n]|]; [| |done];
    repeat (progress (munfold; rewrite ?Hb; mrun_cast Hty)).
  all: eexists _, _, _; split; [reflexivity|].
  all: split; [cbn [ctxt]; rewrite <- !app_assoc; reflexivity|].
  all: split; [reflexivity|].
  all: intros m w m1 Hw.
  all: cbn [app]; rewrite !exec_comment, exec_new_local.
  all: erewrite exec_assignment;
    [|erewrite eval_rshift; [reflexivity|exact Hw|reflexivity]
     |rewrite place_field_of_local; reflexivity].
  all: eexists; split; [reflexivity|]; split; [|split; reflexivity].
  all: cbn [eval_rvalue eval_lvalue rvalue_place mbind option_bind lvalue_get_type
            field_type place_offset eval_binary_op eval_unary_op].
  all: change (field_offset H cast_union_as_u) with 0.
  all: rewrite (bool_decide_true (0 = 0)) by done; cbn [mbind option_bind].
  all: rewrite read_write_local.
  all: change (convert long_type 0) with 0; rewrite Z.shiftr_0_r.
  all: change (1 ≪ 3 - 1) with 7.
  all: change (field_type cast_union_as_u) with uint;
    change (field_type cast_union_as_l) with long.
  all: unfold unsigned_type, long_type; rewrite tag_bits by done.
  all: rewrite (bool_decide_ext ((w - tag) mod 8 = 0) (w mod 8 = tag))
    by (by apply tagged_mod).
  all: reflexivity.
Qed.
(** The predicates on the tag of an object, each with the type it
    looks for. *)
Definition tag_predicates : list ((gcc_jit_rvalue -> M gcc_jit_rvalue) * Lisp_Type) :=
  [ (emit_VECTORLIKEP H, Lisp_Vectorlike); (emit_CONSP H, Lisp_Cons);
    (emit_FLOATP H, Lisp_Float) ].

Lemma emit_comment_current str s b :
  current_block s b ->
  emit_comment str s
  = Ok (tt, with_ctxt (fun c => c ++ [block_add_comment (gcc_bb b) str]) s).
Proof.
  intros Hb. unfold current_block in Hb.
  destruct s as [ctxt0 objs f0 blk h pv btl car0 cdr0 scar scdr ctype cimp ci cj bbm allo
                   stk].
  cbn in Hb. destruct blk as [[pc|n]|]; [| |done]; munfold; rewrite Hb; reflexivity.
Qed.

(** X7.  [emit_VECTORLIKEP], [emit_CONSP] and [emit_FLOATP] emit one
    statement, which keeps the word of the object in a cast union, and
    return a test that is worth 1 when the low [GCTYPEBITS] bits of the
    word are the tag of the type, and 0 otherwise.  The code emitted
    makes no call and leaves the memory as it was. *)
Theorem X7_tag_predicates emit ty o s f b :
  (emit, ty) ∈ tag_predicates ->
  lp64 H ->
  func s = Some f -> current_block s b ->
  fits ("union_cast_" +:+ pretty (emit_cast_i s)) ->
  exists r s' L,
    emit o s = Ok (r, s') /\
    ctxt s' = ctxt s ++ L /\
    statements L
    = [block_add_assignment (gcc_bb b) (Lvalue_access_field (cast_union s) cast_union_as_l)
         (Binary_op GCC_JIT_BINARY_OP_RSHIFT long_type
            (Rvalue_access_field o (lisp_obj_as_num H)) (Rvalue_from_int long_type 0))] /\
    forall m w m1,
      eval_rvalue H address_of host m (Rvalue_access_field o (lisp_obj_as_num H))
      = Some (w, m1) ->
      exists m2,
        exec_code H address_of host L m = Some (Falls_off, m2) /\
        eval_rvalue H address_of host m2 r
        = Some (if bool_decide (w mod 2 ^ GCTYPEBITS H = Lisp_Type_val H ty) then 1 else 0,
                m2) /\
        m_trace m2 = m_trace m1 /\ m_memory m2 = m_memory m1.
Proof.
  intros Hin Hlp Hf Hb Hfit.
  pose proof Hlp as (_ & _ & _ & _ & _ & Hg & Htag).
  set (s1 str := with_ctxt (fun c => c ++ [block_add_comment (gcc_bb b) str]) s).
  assert (forall str tag, 0 <= tag < 8 ->
            exists r s' L,
              bind (emit_comment str) (fun _ => emit_TAGGEDP H o tag) s = Ok (r, s') /\
              ctxt s' = ctxt s ++ L /\
              statements L
              = [block_add_assignment (gcc_bb b)
                   (Lvalue_access_field (cast_union s) cast_union_as_l)
                   (Binary_op GCC_JIT_BINARY_OP_RSHIFT long_type
                      (Rvalue_access_field o (lisp_obj_as_num H))
                      (Rvalue_from_int long_type 0))] /\
              forall m w m1,
                eval_rvalue H address_of host m (Rvalue_access_field o (lisp_obj_as_num H))
                = Some (w, m1) ->
                exists m2,
                  exec_code H address_of host L m = Some (Falls_off, m2) /\
                  eval_rvalue H address_of host m2 r
                  = Some (if bool_decide (w mod 8 = tag) then 1 else 0, m2) /\
                  m_trace m2 = m_trace m1 /\ m_memory m2 = m_memory m1) as Hrun.
  { intros str tag Htag'.
    destruct (emit_TAGGEDP_run o tag (s1 str) f b Hlp) as (r & s' & L & Hr & Hc & Hst & Hsem);
      [by destruct s|by destruct s as [? ? ? [[]|]]|by destruct s|done|].
    exists r, s', (block_add_comment (gcc_bb b) str :: L).
    split; [unfold bind; by rewrite (emit_comment_current _ _ b)|].
    split; [rewrite Hc; destruct s; cbn; by rewrite <- app_assoc|].
    split; [by destruct s|].
    intros m w m1 Hw. rewrite exec_comment. by apply Hsem. }
  rewrite Hg. change (2 ^ 3) with 8.
  unfold tag_predicates in Hin.
  repeat (apply elem_of_cons in Hin as [[= -> ->]|Hin];
          [unfold emit_VECTORLIKEP, emit_CONSP, emit_FLOATP; rewrite Htag;
           by apply Hrun|]).
  by apply elem_of_nil in Hin.
Qed.

End tags.

(** * Declaring the functions of the host *)

(** X8.  [emit_call] with at most four arguments returns a call to
    the function that [func_hash] holds under the name.  When there is
    none it first declares one, imported, with the return type given
    and one parameter for each argument, of the type of the argument,
    named a, b, c and c again for the fourth, and enters it in
    [func_hash].  The name alone decides: a later call under the same
    name reuses the declaration, whatever its return type and its
    arguments. *)
Theorem X8_emit_call_declares_once name ret_type args ret_type' args' s :
  (length args <= 4)%nat ->
  exists f s',
    emit_call name ret_type args s = Ok (Call f args, s') /\
    hash_lookup (func_hash s') name = Some f /\
    match hash_lookup (func_hash s) name with
    | Some g => f = g /\ s' = s
    | None =>
        function_name f = name /\
        function_kind f = GCC_JIT_FUNCTION_IMPORTED /\
        function_ret f = ret_type /\
        map param_type (function_params f) = map rvalue_get_type args /\
        map param_name (function_params f) = take (length args) ["a"; "b"; "c"; "c"] /\
        ctxt s' = ctxt s ++ [new_function f] /\
        func_hash s' = (name, f) :: func_hash s
    end /\
    emit_call name ret_type' args' s' = Ok (Call f args', s').
Proof.
  intros Hlen. unfold emit_call at 1. cbv [bind gets].
  destruct (hash_lookup (func_hash s) name) as [g|] eqn:Eh.
  - exists g, s. split; [done|]. split; [done|]. split; [done|].
    unfold emit_call. cbv [bind gets]. by rewrite Eh.
  - destruct s as [ctxt0 objs f0 blk h pv btl car0 cdr0 scar scdr ctype cimp ci cj bbm
                     allo stk].
    cbn in Eh.
    destruct args as [|a0 [|a1 [|a2 [|a3 [|a4 args]]]]]; [..|cbn in Hlen; lia].
    all: unfold emit_func_declare; munfold; decide_bools; cbn; decide_bools; cbn.
    all: eexists _, _; split; [reflexivity|].
    all: cbn; rewrite bool_decide_true by done.
    all: split; [reflexivity|]; split; [repeat split|].
    all: unfold emit_call; cbv [bind gets]; cbn; rewrite ?bool_decide_true by done.
    all: reflexivity.
Qed.

(** * Objects of the host in the code *)

Section constants.

Context (H : headers).
Context (address_of : c_ptr -> Z) (host : list call_event -> string -> list Z -> Z).

(** The pointer is not a Lisp object, and [SYMBOLP] takes it for a
    symbol: the address of a function or of a variable of the host
    that has the tag bits of a symbol. *)
Definition taken_for_symbol (p : c_ptr) : bool :=
  match p with
  | ptr_obj _ => false
  | _ => address_SYMBOLP H p
  end.

(** The local that the next [emit_lisp_obj_from_ptr] makes. *)
Definition lisp_obj_local (s : comp_t) : gcc_jit_lvalue :=
  Local (objects s) lisp_obj_type
    ("lisp_obj_from_ptr_" +:+ pretty (emit_lisp_obj_from_ptr_i s)).

(** X9.  [emit_lisp_obj_from_ptr] applies [SYMBOLP] to the pointer
    whatever it is.  For the address of a function or of a variable
    of the host that has the tag bits of a symbol, the name is then
    read where no symbol is, which is undefined.  Otherwise it makes a
    new local Lisp object, named after a counter that it increments,
    and emits one statement, the assignment of the pointer to the
    pointer member of the local; for a symbol it also emits a comment
    with the name of the symbol, and raises the error "Truncating
    string" when that comment does not fit the scratch area.  Where a
    pointer fills a Lisp object, the local then holds the word of the
    pointer. *)
Theorem X9_emit_lisp_obj_from_ptr p s f b :
  func s = Some f -> current_block s b ->
  fits ("lisp_obj_from_ptr_" +:+ pretty (emit_lisp_obj_from_ptr_i s)) ->
  (taken_for_symbol p = true ->
   emit_lisp_obj_from_ptr H p s = Undefined "SYMBOL_NAME") /\
  match symbol_comment p with
  | Some str =>
      ~ fits str -> emit_lisp_obj_from_ptr H p s = Error "Truncating string"
  | None => True
  end /\
  (taken_for_symbol p = false ->
   (forall str, symbol_comment p = Some str -> fits str) ->
   exists s' L,
     emit_lisp_obj_from_ptr H p s = Ok (Lvalue_as_rvalue (lisp_obj_local s), s') /\
     ctxt s' = ctxt s ++ L /\
     emit_lisp_obj_from_ptr_i s' = S (emit_lisp_obj_from_ptr_i s) /\
     statements L
     = [block_add_assignment (gcc_bb b)
          (Lvalue_access_field (lisp_obj_local s) (lisp_obj_as_ptr H))
          (Rvalue_from_ptr void_ptr_type p)] /\
     (match symbol_comment p with
      | Some str => In (block_add_comment (gcc_bb b) str) L
      | None => True
      end) /\
     forall m,
       EMACS_INT_MAX_le_LONG_MAX H = true ->
       exists m2,
         exec_code H address_of host L m = Some (Falls_off, m2) /\
         eval_rvalue H address_of host m2 (Lvalue_as_rvalue (lisp_obj_local s))
         = Some (to_unsigned 64 (address_of p), m2) /\
         m_trace m2 = m_trace m /\ m_memory m2 = m_memory m).
Proof.
  intros Hf Hb Hfit.
  destruct s as [ctxt0 objs f0 blk h pv btl car0 cdr0 scar scdr ctype cimp ci cj bbm allo
                   stk].
  unfold current_block in Hb. cbn in Hf, Hb, Hfit. subst f0.
  split; [|split].
  - intros Htaken. unfold emit_lisp_obj_from_ptr.
    destruct p as [o|name|name]; [done| |]; cbn [taken_for_symbol] in Htaken.
    all: rewrite Htaken.
    all: destruct blk as [[pc|n]|]; [| |done];
      repeat (progress (munfold; rewrite ?Hb; mrewrite)).
    all: reflexivity.
  - destruct (symbol_comment p) as [str|] eqn:Estr; [|done].
    intros Hno. unfold symbol_comment in Estr.
    destruct p as [o| |]; try done. destruct (SYMBOLP o) eqn:Esym; [|done].
    injection Estr as <-.
    unfold emit_lisp_obj_from_ptr. rewrite Esym.
    destruct blk as [[pc|n]|]; [| |done];
      repeat (progress (munfold; rewrite ?Hb; mrewrite)).
    all: unfold format_string; rewrite bool_decide_true by (unfold fits in Hno; lia).
    all: reflexivity.
  - intros Hraw Hfits. unfold emit_lisp_obj_from_ptr.
    assert (forall m (L0 L1 : list gcc_jit_record),
              EMACS_INT_MAX_le_LONG_MAX H = true ->
              statements L0 = [] -> statements L1 = [] ->
              let l := Local objs lisp_obj_type ("lisp_obj_from_ptr_" +:+ pretty cj) in
              exists m2,
                exec_code H address_of host
                  (L0 ++ [function_new_local f l] ++ L1 ++
                   [block_add_assignment (gcc_bb b)
                      (Lvalue_access_field l (lisp_obj_as_ptr H))
                      (Rvalue_from_ptr void_ptr_type p)]) m
                = Some (Falls_off, m2) /\
                eval_rvalue H address_of host m2 (Lvalue_as_rvalue l)
                = Some (to_unsigned 64 (address_of p), m2) /\
                m_trace m2 = m_trace m /\ m_memory m2 = m_memory m) as Hrun.
    { intros m L0 L1 Hmax H0 H1 l. subst l.
      rewrite exec_code_statements, !statements_app, H0, H1. cbn [statements is_statement app].
      unfold lisp_obj_as_ptr. rewrite Hmax.
      erewrite exec_assignment;
        [|reflexivity
         |rewrite place_field_of_local;
          change (field_offset H (mk_field void_ptr_type "obj")) with 0;
          cbn [place_offset mbind option_bind];
          rewrite (bool_decide_true (0 = 0)) by done; reflexivity].
      eexists. split; [reflexivity|]. split; [|split; reflexivity].
      cbn [eval_rvalue eval_lvalue mbind option_bind lvalue_get_type].
      rewrite read_write_local. cbn [lvalue_get_type mk_field field_type].
      unfold lisp_obj_type, void_ptr_type.
      rewrite store_cell_pointer, convert_lisp_obj_word. reflexivity. }
    destruct (symbol_comment p) as [str|] eqn:Estr.
    + specialize (Hfits str eq_refl). unfold symbol_comment in Estr.
      destruct p as [o| |]; try done. destruct (SYMBOLP o) eqn:Esym; [|done].
      injection Estr as <-.
      destruct blk as [[pc|n]|]; [| |done];
        repeat (progress (munfold; rewrite ?Hb; mrewrite)).
      all: eexists _, _; split; [reflexivity|].
      all: split; [cbn [ctxt]; rewrite <- !app_assoc; reflexivity|].
      all: split; [reflexivity|]; split; [reflexivity|].
      all: split; [cbn; tauto|].
      all: intros m Hmax.
      all: apply (Hrun m [block_add_comment _ _] [block_add_comment _ _; block_add_comment _ _]
                    Hmax eq_refl eq_refl).
    + assert (match p with ptr_obj o => SYMBOLP o = false | _ => True end) as Hsym.
      { unfold symbol_comment in Estr. destruct p as [o| |]; try done.
        by destruct (SYMBOLP o). }
      destruct p as [o| |]; cbn [taken_for_symbol] in Hraw; rewrite ?Hsym, ?Hraw.
      all: destruct blk as [[pc|n]|]; [| |done];
        repeat (progress (munfold; rewrite ?Hb; mrewrite)).
      all: eexists _, _; split; [reflexivity|].
      all: split; [cbn [ctxt]; rewrite <- !app_assoc; reflexivity|].
      all: split; [reflexivity|]; split; [reflexivity|].
      all: split; [done|].
      all: intros m Hmax.
      all: apply (Hrun m [block_add_comment _ _] [block_add_comment _ _]
                    Hmax eq_refl eq_refl).
Qed.

End constants.

(** * Calls that reach no block *)

(** [emit_call] leaves the state as it is or declares the function. *)
Lemma emit_call_result name ret_type args s :
  (length args <= 4)%nat ->
  exists f,
    emit_call name ret_type args s = Ok (Call f args, s) \/
    emit_call name ret_type args s = Ok (Call f args, emit_call_declares s f).
Proof.
  intros Hlen. unfold emit_call. cbv [bind gets].
  destruct (hash_lookup (func_hash s) name) as [f|] eqn:Eh.
  - exists f. by left.
  - destruct s as [ctxt0 objs f0 blk h pv btl car0 cdr0 scar scdr ctype cimp ci cj bbm
                     allo stk].
    cbn in Eh.
    destruct args as [|a0 [|a1 [|a2 [|a3 [|a4 args]]]]]; [..|cbn in Hlen; lia];
      (eexists {| function_id := _; function_kind := _; function_ret := _;
                  function_name := name; function_params := _ |};
       right; unfold emit_func_declare; munfold; decide_bools; cbn; decide_bools; cbn;
       reflexivity).
Qed.

Ltac use_emit_call_result :=
  match goal with
  | |- context [emit_call ?n ?r ?a ?s] =>
      let f := fresh "f" in
      let Hc := fresh "Hc" in
      destruct (emit_call_result n r a s) as (f & [Hc | Hc]);
      [cbn; lia | rewrite Hc; clear Hc | rewrite Hc; clear Hc]
  end.

(** The operations that make a call and add it to no block, each with
    the number of values it pops. *)
Definition silent_calls : list (bytecode * nat) :=
  [ (Bunbind, 0); (Bunbind1, 0); (Bunbind2, 0); (Bunbind3, 0); (Bunbind4, 0);
    (Bunbind5, 0); (Bsave_current_buffer, 0); (Bsave_current_buffer_1, 0);
    (Bsave_excursion, 0); (Bunwind_protect, 1); (Bcondition_case, 3) ]%nat.

Section silent.

Context (H : headers).
Context (lisp_f_name : string) (bytestr_length : Z) (bytestr_data : list Z).
Context (vectorp : list Lisp_Object) (vector_size : Z).

(** X10.  For an operation of [silent_calls] the translator pops the
    values of the table and makes the call, declaring the function
    when needed, but adds the call to no block: no statement is
    emitted, so that the code compiled does nothing for the
    operation. *)
Theorem X10_silent_calls nil op fr s b0 b n es dst :
  (b, n) ∈ silent_calls ->
  decode H op = Some b ->
  length es = n ->
  ready es dst b0 fr s ->
  (3 <= length (args fr))%nat ->
  exists fr' s' L,
    compile_op H lisp_f_name bytestr_length bytestr_data vectorp vector_size nil op fr s
    = Ok (fr', s') /\
    stack fr' = stack fr - Z.of_nat n /\ pc fr' = pc fr /\
    ctxt s' = ctxt s ++ L /\ statements L = [] /\
    bb_map s' = bb_map s /\ block s' = block s.
Proof.
  intros Hin Hdec Hlen ([cur [Hb Hb0]] & Hes & Hdst & _ & _) Hargs.
  destruct s as [ctxt0 objs f0 blk h pv btl car0 cdr0 scar scdr ctype cimp ci cj bbm allo
                   stk].
  destruct fr as [pc0 st0 args0 phn]. destruct b0 as [bb0 top0 term0].
  cbn in Hb, Hb0, Hes, Hdst, Hargs. subst blk.
  unfold compile_op. rewrite Hdec. clear Hdec. unfold silent_calls in Hin.
  repeat (apply elem_of_cons in Hin as [[= -> ->]|Hin];
          [cbv beta iota;
           destruct es as [|[lv1 ty1 c1 cs1] [|[lv2 ty2 c2 cs2] [|[lv3 ty3 c3 cs3] [|]]]];
           try discriminate Hlen; cbn in Hes;
           repeat match goal with Hx : _ /\ _ |- _ => destruct Hx end;
           cbv [dounbind];
           repeat (progress (munfold; mrewrite));
           use_emit_call_result; munfold;
           (eexists _, _, _; split; [reflexivity|]; cbn;
            split; [lia|]; split; [done|];
            split; [rewrite <- ?app_assoc; reflexivity|];
            split; [reflexivity|]; split; reflexivity)|]).
  by apply elem_of_nil in Hin.
Qed.

End silent.

Lemma X6_emit_cast_witness :
  let H := emacs_x86_64 in
  let s := sample_state symbolp_sample in
  let b := sample_block s in
  let o := Rvalue_from_int long_type 5 in
  exists f s',
    func s = Some f /\
    emit_cast unsigned_type o s
    = Ok (Rvalue_access_field (Lvalue_as_rvalue (cast_union s)) cast_union_as_u, s') /\
    ctxt s'
    = ctxt s ++ [function_new_local f (cast_union s);
                 block_add_assignment (gcc_bb b)
                   (Lvalue_access_field (cast_union s) cast_union_as_l) o] /\
    emit_cast_i s' = S (emit_cast_i s) /\
    forall m v m1,
      eval_rvalue H null_address_of null_host m o = Some (v, m1) ->
      type_bits unsigned_type <= type_bits (rvalue_get_type o) ->
      exists m2,
        exec_code H null_address_of null_host (drop (length (ctxt s)) (ctxt s')) m
        = Some (Falls_off, m2) /\
        eval_rvalue H null_address_of null_host m2
          (Rvalue_access_field (Lvalue_as_rvalue (cast_union s)) cast_union_as_u)
        = Some (convert unsigned_type v, m2) /\
        m_trace m2 = m_trace m1 /\ m_memory m2 = m_memory m1.
Proof.
  cbv zeta.
  exists (default no_function (func (sample_state symbolp_sample))).
  assert (func (sample_state symbolp_sample)
          = Some (default no_function (func (sample_state symbolp_sample)))) as Hf
    by reflexivity.
  assert (current_block (sample_state symbolp_sample)
            (sample_block (sample_state symbolp_sample))) as Hb
    by (unfold current_block; reflexivity).
  assert (fits ("union_cast_" +:+ pretty (emit_cast_i (sample_state symbolp_sample))))
    as Hfit by (vm_compute; reflexivity).
  assert ((rvalue_get_type (Rvalue_from_int long_type 5), cast_union_as_l) ∈ cast_fields)
    as Horig by (unfold cast_fields; repeat constructor).
  assert ((unsigned_type, cast_union_as_u) ∈ cast_fields) as Hdest
    by (unfold cast_fields; repeat constructor).
  destruct (proj2 (X6_emit_cast emacs_x86_64 null_address_of null_host
                     unsigned_type (Rvalue_from_int long_type 5)
                     (sample_state symbolp_sample)
                     (default no_function (func (sample_state symbolp_sample)))
                     (sample_block (sample_state symbolp_sample)) Hf Hb Hfit)
              cast_union_as_l cast_union_as_u Horig Hdest) as (s' & Hc).
  exists s'. split; [reflexivity|]. exact Hc.
Defined.

Lemma X7_tag_predicates_witness :
  let H := emacs_x86_64 in
  let s := sample_state symbolp_sample in
  let b := sample_block s in
  let o := Lvalue_as_rvalue (gcc_lval (sample_slot s 0)) in
  exists r s' L,
    emit_CONSP H o s = Ok (r, s') /\
    ctxt s' = ctxt s ++ L /\
    statements L
    = [block_add_assignment (gcc_bb b) (Lvalue_access_field (cast_union s) cast_union_as_l)
         (Binary_op GCC_JIT_BINARY_OP_RSHIFT long_type
            (Rvalue_access_field o (lisp_obj_as_num H)) (Rvalue_from_int long_type 0))] /\
    forall m w m1,
      eval_rvalue H null_address_of null_host m (Rvalue_access_field o (lisp_obj_as_num H))
      = Some (w, m1) ->
      exists m2,
        exec_code H null_address_of null_host L m = Some (Falls_off, m2) /\
        eval_rvalue H null_address_of null_host m2 r
        = Some (if bool_decide (w mod 2 ^ GCTYPEBITS H = Lisp_Type_val H Lisp_Cons)
                then 1 else 0, m2) /\
        m_trace m2 = m_trace m1 /\ m_memory m2 = m_memory m1.
Proof.
  cbv zeta.
  apply (X7_tag_predicates emacs_x86_64 null_address_of null_host
           (emit_CONSP emacs_x86_64) Lisp_Cons
           (Lvalue_as_rvalue (gcc_lval (sample_slot (sample_state symbolp_sample) 0)))
           (sample_state symbolp_sample)
           (default no_function (func (sample_state symbolp_sample)))
           (sample_block (sample_state symbolp_sample))).
  - unfold tag_predicates. repeat constructor.
  - exact emacs_x86_64_lp64.
  - reflexivity.
  - unfold current_block. reflexivity.
  - vm_compute. reflexivity.
Defined.

Lemma X8_emit_call_declares_once_witness :
  let s := comp_initial in
  let args := [Rvalue_from_int long_type 1; Rvalue_from_int long_type 2] in
  exists f s',
    emit_call "Fcons" lisp_obj_type args s = Ok (Call f args, s') /\
    hash_lookup (func_hash s') "Fcons" = Some f /\
    match hash_lookup (func_hash s) "Fcons" with
    | Some g => f = g /\ s' = s
    | None =>
        function_name f = "Fcons" /\
        function_kind f = GCC_JIT_FUNCTION_IMPORTED /\
        function_ret f = lisp_obj_type /\
        map param_type (function_params f) = map rvalue_get_type args /\
        map param_name (function_params f) = take (length args) ["a"; "b"; "c"; "c"] /\
        ctxt s' = ctxt s ++ [new_function f] /\
        func_hash s' = ("Fcons", f) :: func_hash s
    end /\
    emit_call "Fcons" void_type [] s' = Ok (Call f [], s').
Proof.
  cbv zeta.
  apply (X8_emit_call_declares_once "Fcons" lisp_obj_type
           [Rvalue_from_int long_type 1; Rvalue_from_int long_type 2] void_type []
           comp_initial).
  cbn. lia.
Defined.

Lemma X9_emit_lisp_obj_from_ptr_witness :
  (let H := emacs_x86_64 in
   let s := sample_state symbolp_sample in
   let b := sample_block s in
   let p := ptr_obj Qnil in
   exists s' L,
     emit_lisp_obj_from_ptr H p s = Ok (Lvalue_as_rvalue (lisp_obj_local s), s') /\
     ctxt s' = ctxt s ++ L /\
     emit_lisp_obj_from_ptr_i s' = S (emit_lisp_obj_from_ptr_i s) /\
     statements L
     = [block_add_assignment (gcc_bb b)
          (Lvalue_access_field (lisp_obj_local s) (lisp_obj_as_ptr H))
          (Rvalue_from_ptr void_ptr_type p)] /\
     (match symbol_comment p with
      | Some str => In (block_add_comment (gcc_bb b) str) L
      | None => True
      end) /\
     forall m,
       EMACS_INT_MAX_le_LONG_MAX H = true ->
       exists m2,
         exec_code H null_address_of null_host L m = Some (Falls_off, m2) /\
         eval_rvalue H null_address_of null_host m2 (Lvalue_as_rvalue (lisp_obj_local s))
         = Some (to_unsigned 64 (null_address_of p), m2) /\
         m_trace m2 = m_trace m /\ m_memory m2 = m_memory m) /\
  emit_lisp_obj_from_ptr emacs_x86_64 (ptr_fun "eval_sub") (sample_state symbolp_sample)
  = Undefined "SYMBOL_NAME".
Proof.
  cbv zeta. split.
  - refine (proj2 (proj2 (X9_emit_lisp_obj_from_ptr emacs_x86_64 null_address_of null_host
                            (ptr_obj Qnil) (sample_state symbolp_sample)
                            (default no_function (func (sample_state symbolp_sample)))
                            (sample_block (sample_state symbolp_sample)) _ _ _)) _ _).
    + reflexivity.
    + unfold current_block. reflexivity.
    + vm_compute. reflexivity.
    + reflexivity.
    + intros str [= <-]. vm_compute. reflexivity.
  - refine (proj1 (X9_emit_lisp_obj_from_ptr emacs_x86_64 null_address_of null_host
                     (ptr_fun "eval_sub") (sample_state symbolp_sample)
                     (default no_function (func (sample_state symbolp_sample)))
                     (sample_block (sample_state symbolp_sample)) _ _ _) _).
    + reflexivity.
    + unfold current_block. reflexivity.
    + vm_compute. reflexivity.
    + reflexivity.
Defined.

(** [save-excursion; constant 0; return], at [save-excursion]. *)
Definition save_excursion_code : list Z := [138; 192; 135].
Definition save_excursion_sample : result (gcc_jit_rvalue * Z * frame * comp_t) :=
  Eval vm_compute in at_operation save_excursion_code [Qnil] 1 0 comp_initial.

Lemma X10_silent_calls_witness :
  let r := save_excursion_sample in
  let s := sample_state r in
  exists fr' s' L,
    compile_op emacs_x86_64 "f" 3 (SDATA save_excursion_code) [Qnil] 1 (sample_nil r)
      (sample_op r) (sample_frame r) s
    = Ok (fr', s') /\
    stack fr' = stack (sample_frame r) - Z.of_nat 0 /\ pc fr' = pc (sample_frame r) /\
    ctxt s' = ctxt s ++ L /\ statements L = [] /\
    bb_map s' = bb_map s /\ block s' = block s.
Proof.
  cbv zeta.
  apply (X10_silent_calls emacs_x86_64 "f" 3 (SDATA save_excursion_code) [Qnil] 1
           (sample_nil save_excursion_sample) (sample_op save_excursion_sample)
           (sample_frame save_excursion_sample) (sample_state save_excursion_sample)
           (sample_block (sample_state save_excursion_sample)) Bsave_excursion 0%nat []
           (sample_slot (sample_state save_excursion_sample) 0)).
  - unfold silent_calls. repeat constructor.
  - reflexivity.
  - reflexivity.
  - split; [exists 0; split; reflexivity|].
    split; [exact I|].
    split; [reflexivity|].
    split; [cbn; lia|].
    cbn. hash_names.
  - cbn. lia.
Defined.

(** * The other operations that call a function of the host *)

Lemma CASE_EMIT_CALL_3 label name (fr : frame) (s : comp_t) b0 (es : list stack_el_t) dst :
  length es = 3%nat ->
  ready es dst b0 fr s ->
  (3 <= length (args fr))%nat ->
  pops_calls_pushes es dst name (gcc_bb b0) fr s
    (bind (CASE label) (fun _ => EMIT_CALL_N name 3 fr) s).
Proof.
  intros Hlen ([cur [Hb Hb0]] & Hes & Hdst & _ & Hok) Hargs.
  destruct s as [ctxt0 objs f0 blk h pv btl car0 cdr0 scar scdr ctype cimp ci cj bbm allo
                   stk].
  destruct fr as [pc0 st0 args0 phn]. destruct b0 as [bb0 top0 term0].
  destruct dst as [dlv dty dc dcs].
  cbn in Hb, Hb0, Hes, Hdst, Hargs, Hok. subst blk.
  apply array_get_inv in Hdst as Hdst'.
  unfold pops_calls_pushes.
  destruct es as [|[lv1 ty1 c1 cs1] [|[lv2 ty2 c2 cs2] [|[lv3 ty3 c3 cs3] [|]]]];
    try discriminate Hlen.
  cbn [length Z.of_nat Pos.of_succ_nat Pos.succ] in *; cbn in Hes.
  destruct Hes as (He1 & He2 & He3 & _).
  munfold. mrewrite. use_emit_call Hf; munfold; mrewrite.
  all: eexists _, _, f, _; split; [reflexivity|]; cbn.
  all: rewrite He1 in Hdst; injection Hdst as -> -> -> ->.
  all: repeat split; try lia; try done.
  all: rewrite <- ?app_assoc; reflexivity.
Qed.

(** The operations that call a function of the host on the values they
    pop, beside those of [call_n_table]: the function called and the
    number of values popped. *)
Definition call_n_table_rest : list (bytecode * string * nat) :=
  [ (Beq, "Feq", 2); (Bmemq, "Fmemq", 1); (Bcons, "Fcons", 2); (Baref, "Faref", 2);
    (Baset, "Faset", 3); (Bset, "Fset", 2); (Bfset, "Ffset", 2); (Bget, "Fget", 2);
    (Bsubstring, "Fsubstring", 3); (Bgoto_char, "Fgoto_char", 1);
    (Bchar_after, "Fchar_after", 1); (Bset_buffer, "Fset_buffer", 1);
    (Bforward_char, "Fforward_char", 1); (Bforward_word, "Fforward_word", 1);
    (Bskip_chars_forward, "Fskip_chars_forward", 2);
    (Bskip_chars_backward, "Fskip_chars_backward", 2);
    (Bforward_line, "Fforward_line", 1); (Bchar_syntax, "Fchar_syntax", 1);
    (Bbuffer_substring, "Fbuffer_substring", 2); (Bdelete_region, "Fdelete_region", 2);
    (Bnarrow_to_region, "Fnarrow_to_region", 2); (Bend_of_line, "Fend_of_line", 1);
    (Bsave_window_excursion, "helper_save_window_excursion", 1);
    (Btemp_output_buffer_setup, "helper_temp_output_buffer_setup", 1);
    (Bset_marker, "Fset_marker", 3); (Bmatch_beginning, "Fmatch_beginning", 1);
    (Bmatch_end, "Fmatch_end", 1); (Bupcase, "Fupcase", 1); (Bdowncase, "Fdowncase", 1);
    (Bstringeqlsign, "Fstring_equal", 2); (Bstringlss, "Fstring_lessp", 2);
    (Bequal, "Fequal", 2); (Bnthcdr, "Fnthcdr", 2); (Belt, "Felt", 2);
    (Bmember, "Fmember", 2); (Bassq, "Fassq", 2); (Brem, "Frem", 2) ]%nat.

Section host_calls_rest.

Context (H : headers).
Context (lisp_f_name : string) (bytestr_length : Z) (bytestr_data : list Z).
Context (vectorp : list Lisp_Object) (vector_size : Z).

(** X11.  An operation of [call_n_table_rest] pops the number of
    values that the table gives, emits one call to the function of
    the table on them, and pushes the result.  [memq] is in the table
    with one value. *)
Theorem X11_host_calls_rest nil op fr s b0 b name n es dst :
  (b, name, n) ∈ call_n_table_rest ->
  decode H op = Some b ->
  length es = n ->
  ready es dst b0 fr s ->
  (3 <= length (args fr))%nat ->
  pops_calls_pushes es dst name (gcc_bb b0) fr s
    (compile_op H lisp_f_name bytestr_length bytestr_data vectorp vector_size nil op fr s).
Proof.
  intros Hin Hdec Hlen Hready Hargs.
  unfold compile_op. rewrite Hdec. unfold call_n_table_rest in Hin.
  repeat (apply elem_of_cons in Hin as [[= -> -> ->]|Hin];
          [cbv beta iota;
           first [ refine (CASE_EMIT_CALL_N_arity _ _ _ fr s b0 es dst Hlen _ Hready); lia
                 | exact (CASE_EMIT_CALL_3 _ _ fr s b0 es dst Hlen Hready Hargs) ]|]).
  by apply elem_of_nil in Hin.
Qed.

End host_calls_rest.

(** [constant 0; memq; return], at [memq]. *)
Definition memq_code : list Z := [192; 62; 135].
Definition memq_sample : result (gcc_jit_rvalue * Z * frame * comp_t) :=
  Eval vm_compute in at_operation memq_code [Qnil] 1 1 comp_initial.

Lemma X11_host_calls_rest_witness :
  let r := memq_sample in
  let s := sample_state r in
  pops_calls_pushes [sample_slot s 0] (sample_slot s 0) "Fmemq" (gcc_bb (sample_block s))
    (sample_frame r) s
    (compile_op emacs_x86_64 "f" 3 (SDATA memq_code) [Qnil] 1 (sample_nil r) (sample_op r)
       (sample_frame r) s).
Proof.
  cbv zeta.
  apply (X11_host_calls_rest emacs_x86_64 "f" 3 (SDATA memq_code) [Qnil] 1
           (sample_nil memq_sample) (sample_op memq_sample)
           (sample_frame memq_sample) (sample_state memq_sample)
           (sample_block (sample_state memq_sample)) Bmemq "Fmemq" 1%nat
           [sample_slot (sample_state memq_sample) 0]
           (sample_slot (sample_state memq_sample) 0)).
  - unfold call_n_table_rest. repeat constructor.
  - reflexivity.
  - reflexivity.
  - split; [exists 1; split; reflexivity|].
    split; [split; [reflexivity|exact I]|].
    split; [reflexivity|].
    split; [cbn; lia|].
    cbn. hash_names.
  - cbn. lia.
Defined.

(** * Constants *)

Section constants_pushed.

Context (H : headers).
Context (lisp_f_name : string) (bytestr_length : Z) (bytestr_data : list Z).
Context (vectorp : list Lisp_Object) (vector_size : Z).

(** The byte at [pc] is not [Bswitch], or there is no byte left. *)
Definition no_switch_follows (fr : frame) : Prop :=
  bytestr_length <= pc fr \/
  exists x, array_get "bytestr_data" bytestr_data (pc fr) = Ok x /\ x <> byte_of H Bswitch.

(** The constant [k] is pushed: a new local takes the pointer to [k],
    the slot [dst] takes the local, and the meta stack records the type
    of [k] and, for a symbol, [k] itself. *)
Definition pushes_constant (k : Lisp_Object) (dst : stack_el_t) (bb : gcc_jit_block)
    (fr : frame) (s : comp_t) (r : result (frame * comp_t)) : Prop :=
  exists fr' s' L,
    r = Ok (fr', s') /\
    stack fr' = stack fr + 1 /\ pc fr' = pc fr /\
    ctxt s' = ctxt s ++ L /\
    statements L
    = [block_add_assignment bb (Lvalue_access_field (lisp_obj_local s) (lisp_obj_as_ptr H))
         (Rvalue_from_ptr void_ptr_type (ptr_obj k));
       block_add_assignment bb (gcc_lval dst) (Lvalue_as_rvalue (lisp_obj_local s))] /\
    stack_base s'
    = <[Z.to_nat (stack fr) :=
          {| gcc_lval := gcc_lval dst; type := Some (XTYPE k);
             constant := if SYMBOLP k then k else constant dst;
             const_set := SYMBOLP k |}]> (stack_base s).

Lemma do_constant_pushes label op fr s dst b0 f k :
  ready [] dst b0 fr s ->
  func s = Some f ->
  fits ("lisp_obj_from_ptr_" +:+ pretty (emit_lisp_obj_from_ptr_i s)) ->
  (forall str, symbol_comment (ptr_obj k) = Some str -> fits str) ->
  no_switch_follows fr ->
  array_get "vectorp" vectorp op = Ok k ->
  pushes_constant k dst (gcc_bb b0) fr s
    (bind (CASE label) (fun _ => do_constant H bytestr_length bytestr_data vectorp op fr) s).
Proof.
  intros ([cur [Hb Hb0]] & _ & Hdst & _ & _) Hf Hfit Hsym Hsw Hk.
  destruct s as [ctxt0 objs f0 blk h pv btl car0 cdr0 scar scdr ctype cimp ci cj bbm allo
                   stk].
  destruct fr as [pc0 st0 args0 phn]. destruct b0 as [bb0 top0 term0].
  destruct dst as [dlv dty dc dcs].
  cbn in Hb, Hb0, Hdst, Hf, Hfit. subst blk f0.
  rewrite Z.sub_0_r in Hdst.
  apply array_get_inv in Hdst as Hdst'.
  unfold pushes_constant, do_constant, no_switch_follows in *. cbn [pc] in Hsw.
  assert ((if bool_decide (pc0 >= bytestr_length) then ret false
           else bind (lift (array_get "bytestr_data" bytestr_data pc0))
                  (fun b => ret (bool_decide (b = byte_of H Bswitch))))
          = (ret false : M bool)) as Hnext.
  { destruct Hsw as [Hpc | (x & Hx & Hne)].
    - by rewrite bool_decide_true by lia.
    - case_bool_decide; [done|]. rewrite Hx. cbv [bind lift ret].
      by rewrite bool_decide_false. }
  unfold symbol_comment in Hsym.
  destruct (SYMBOLP k) eqn:Esym.
  - specialize (Hsym _ eq_refl).
    assert (XTYPE k = Lisp_Symbol) as Hty by (by apply bool_decide_eq_true in Esym).
    cbn [pc]. rewrite Hnext.
    repeat (progress (munfold; cbn [negb]; mrewrite; rewrite ?Esym; rewrite ?Hty;
                      rewrite ?(bool_decide_true (Lisp_Symbol = Lisp_Symbol)) by done)).
    eexists _, _, _. split; [reflexivity|]. cbn.
    split; [done|]. split; [done|]. split; [rewrite <- ?app_assoc; reflexivity|].
    split; [reflexivity|].
    replace (st0 + 1 - 1) with st0 by lia. by rewrite ?Hty, list_insert_insert_eq.
  - assert (XTYPE k <> Lisp_Symbol) as Hty by (by apply bool_decide_eq_false in Esym).
    cbn [pc]. rewrite Hnext.
    repeat (progress (munfold; cbn [negb]; mrewrite; rewrite ?Esym;
                      rewrite ?(bool_decide_false (XTYPE k = Lisp_Symbol)) by done)).
    eexists _, _, _. split; [reflexivity|]. cbn.
    split; [done|]. split; [done|]. split; [rewrite <- ?app_assoc; reflexivity|].
    split; [reflexivity|].
    replace (st0 + 1 - 1) with st0 by lia. by rewrite ?Hty, list_insert_insert_eq.
Qed.

(** X12.  An operation byte from [Bconstant] to
    [Bconstant + vector_size] that no [Bswitch] follows pushes the
    constant of index [op - Bconstant]: a new local takes the pointer
    to the constant, the slot on top of the stack takes the local, and
    the meta stack records the type of the constant and, for a symbol,
    the constant itself. *)
Theorem X12_Bconstant nil op fr s dst b0 f k :
  dispatches_default H op ->
  byte_of H Bconstant <= op <= byte_of H Bconstant + vector_size ->
  ready [] dst b0 fr s ->
  func s = Some f ->
  fits ("lisp_obj_from_ptr_" +:+ pretty (emit_lisp_obj_from_ptr_i s)) ->
  (forall str, symbol_comment (ptr_obj k) = Some str -> fits str) ->
  no_switch_follows fr ->
  array_get "vectorp" vectorp (op - byte_of H Bconstant) = Ok k ->
  pushes_constant k dst (gcc_bb b0) fr s
    (compile_op H lisp_f_name bytestr_length bytestr_data vectorp vector_size nil op fr s).
Proof.
  intros Hd Hop Hready Hf Hfit Hsym Hsw Hk.
  rewrite compile_op_default by done. unfold default_case.
  rewrite bool_decide_false by lia. rewrite bool_decide_false by lia. cbn [orb].
  by eapply do_constant_pushes.
Qed.

(** X13.  [Bconstant2] fetches no operand: it pushes the constant whose
    index is the operation byte itself, as [Bconstant] pushes the
    constant of index [op - Bconstant], and leaves [pc] on the two
    bytes that follow it.  With a vector of constants that has no such
    index the read is outside the vector. *)
Theorem X13_Bconstant2 nil op fr s dst b0 f :
  decode H op = Some Bconstant2 ->
  ready [] dst b0 fr s ->
  func s = Some f ->
  fits ("lisp_obj_from_ptr_" +:+ pretty (emit_lisp_obj_from_ptr_i s)) ->
  no_switch_follows fr ->
  (forall k,
     array_get "vectorp" vectorp op = Ok k ->
     (forall str, symbol_comment (ptr_obj k) = Some str -> fits str) ->
     pushes_constant k dst (gcc_bb b0) fr s
       (compile_op H lisp_f_name bytestr_length bytestr_data vectorp vector_size nil op fr
          s)) /\
  (Z.of_nat (length vectorp) <= op ->
   compile_op H lisp_f_name bytestr_length bytestr_data vectorp vector_size nil op fr s
   = Undefined "vectorp").
Proof.
  intros Hdec Hready Hf Hfit Hsw. unfold compile_op. rewrite Hdec. split.
  - intros k Hk Hsym. by eapply do_constant_pushes.
  - intros Hlen.
    destruct Hready as ([cur [Hb Hb0]] & _).
    unfold bind at 1. rewrite (CASE_Ok _ _ (in_bb_map cur) b0 Hb).
    + unfold do_constant, no_switch_follows in *.
      assert ((if bool_decide (pc fr >= bytestr_length) then ret false
               else bind (lift (array_get "bytestr_data" bytestr_data (pc fr)))
                      (fun b => ret (bool_decide (b = byte_of H Bswitch))))
              = (ret false : M bool)) as ->.
      { destruct Hsw as [Hpc | (x & Hx & Hne)].
        - by rewrite bool_decide_true by lia.
        - case_bool_decide; [done|]. rewrite Hx. cbv [bind lift ret].
          by rewrite bool_decide_false. }
      cbv [bind ret lift]. cbn [negb]. unfold array_get.
      case_bool_decide; [done|]. by rewrite lookup_ge_None_2 by lia.
    + unfold bb_get. cbv [bind gets lift]. by rewrite Hb0.
Qed.

(** X14.  When the byte that follows is [Bswitch], an operation that
    reaches the label [do_constant] pushes nothing and reads no
    constant: it emits no statement and moves [pc] past the [Bswitch],
    which is then not translated.  A [Bswitch] that is met as an
    operation stops the translation with an error. *)
Theorem X14_constant_before_switch nil op fr s b0 cur :
  block s = Some (in_bb_map cur) -> array_get "bb_map" (bb_map s) cur = Ok b0 ->
  ((decode H op = Some Bconstant2 \/
    (dispatches_default H op /\
     byte_of H Bconstant <= op <= byte_of H Bconstant + vector_size)) ->
   pc fr < bytestr_length ->
   array_get "bytestr_data" bytestr_data (pc fr) = Ok (byte_of H Bswitch) ->
   exists s' L,
     compile_op H lisp_f_name bytestr_length bytestr_data vectorp vector_size nil op fr s
     = Ok (with_pc (pc fr + 1) fr, s') /\
     ctxt s' = ctxt s ++ L /\ statements L = [] /\ stack_base s' = stack_base s) /\
  (decode H op = Some Bswitch ->
   compile_op H lisp_f_name bytestr_length bytestr_data vectorp vector_size nil op fr s
   = Error "Bswitch not supported").
Proof.
  intros Hb Hb0.
  assert (bb_get (in_bb_map cur) s = Ok (b0, s)) as Hg.
  { unfold bb_get. cbv [bind gets lift]. by rewrite Hb0. }
  assert (forall label i,
            pc fr < bytestr_length ->
            array_get "bytestr_data" bytestr_data (pc fr) = Ok (byte_of H Bswitch) ->
            exists s' L,
              bind (CASE label)
                (fun _ => do_constant H bytestr_length bytestr_data vectorp i fr) s
              = Ok (with_pc (pc fr + 1) fr, s') /\
              ctxt s' = ctxt s ++ L /\ statements L = [] /\ stack_base s' = stack_base s)
    as Hskip.
  { intros label i Hpc Hsw. unfold bind at 1. rewrite (CASE_Ok _ _ _ _ Hb Hg).
    unfold do_constant. rewrite bool_decide_false by lia. rewrite Hsw.
    cbv [bind lift ret]. rewrite bool_decide_true by done. cbn [negb].
    eexists _, [_]. split; [reflexivity|]. by destruct s. }
  split.
  - intros [Hdec | [Hd Hop]] Hpc Hsw.
    + unfold compile_op. rewrite Hdec. by apply Hskip.
    + rewrite compile_op_default by done. unfold default_case.
      rewrite bool_decide_false by lia. rewrite bool_decide_false by lia. cbn [orb].
      by apply Hskip.
  - intros Hdec. unfold compile_op. rewrite Hdec.
    unfold bind. by rewrite (CASE_Ok _ _ _ _ Hb Hg).
Qed.

End constants_pushed.

(** [constant 0; return], at [constant 0]. *)
Definition constant_code : list Z := [192; 135].
Definition constant_sample : result (gcc_jit_rvalue * Z * frame * comp_t) :=
  Eval vm_compute in at_operation constant_code [Lisp_fixnum 3] 1 0 comp_initial.

Lemma X12_Bconstant_witness :
  let r := constant_sample in
  let s := sample_state r in
  pushes_constant emacs_x86_64 (Lisp_fixnum 3) (sample_slot s 0) (gcc_bb (sample_block s))
    (sample_frame r) s
    (compile_op emacs_x86_64 "f" 2 (SDATA constant_code) [Lisp_fixnum 3] 1 (sample_nil r)
       (sample_op r) (sample_frame r) s).
Proof.
  cbv zeta.
  apply (X12_Bconstant emacs_x86_64 "f" 2 (SDATA constant_code) [Lisp_fixnum 3] 1
           (sample_nil constant_sample) (sample_op constant_sample)
           (sample_frame constant_sample) (sample_state constant_sample)
           (sample_slot (sample_state constant_sample) 0)
           (sample_block (sample_state constant_sample))
           (default no_function (func (sample_state constant_sample))) (Lisp_fixnum 3)).
  - exact I.
  - vm_compute. split; discriminate.
  - split; [exists 0; split; reflexivity|].
    split; [exact I|].
    split; [reflexivity|].
    split; [cbn; lia|].
    cbn. hash_names.
  - reflexivity.
  - vm_compute. reflexivity.
  - intros str. discriminate.
  - right. exists 135. split; [reflexivity|]. discriminate.
  - reflexivity.
Defined.

(** [constant2] with its two operand bytes, then [return], at
    [constant2], with 130 constants. *)
Definition constant2_code : list Z := [129; 0; 0; 135].
Definition constant2_constants : list Lisp_Object := replicate 130 (Lisp_fixnum 3).
Definition constant2_sample : result (gcc_jit_rvalue * Z * frame * comp_t) :=
  Eval vm_compute in at_operation constant2_code constant2_constants 1 0 comp_initial.

Lemma X13_Bconstant2_witness :
  let r := constant2_sample in
  let s := sample_state r in
  let compiled :=
    compile_op emacs_x86_64 "f" 4 (SDATA constant2_code) constant2_constants 130
      (sample_nil r) (sample_op r) (sample_frame r) s in
  (forall k,
     array_get "vectorp" constant2_constants (sample_op r) = Ok k ->
     (forall str, symbol_comment (ptr_obj k) = Some str -> fits str) ->
     pushes_constant emacs_x86_64 k (sample_slot s 0) (gcc_bb (sample_block s))
       (sample_frame r) s compiled) /\
  (Z.of_nat (length constant2_constants) <= sample_op r -> compiled = Undefined "vectorp").
Proof.
  cbv zeta.
  apply (X13_Bconstant2 emacs_x86_64 "f" 4 (SDATA constant2_code) constant2_constants 130
           (sample_nil constant2_sample) (sample_op constant2_sample)
           (sample_frame constant2_sample) (sample_state constant2_sample)
           (sample_slot (sample_state constant2_sample) 0)
           (sample_block (sample_state constant2_sample))
           (default no_function (func (sample_state constant2_sample)))).
  - reflexivity.
  - split; [exists 0; split; reflexivity|].
    split; [exact I|].
    split; [reflexivity|].
    split; [cbn; lia|].
    cbn. hash_names.
  - reflexivity.
  - vm_compute. reflexivity.
  - right. exists 0. split; [reflexivity|]. discriminate.
Defined.

(** [constant 0; switch; return], at [constant 0]. *)
Definition switch_code : list Z := [192; 183; 135].
Definition switch_sample : result (gcc_jit_rvalue * Z * frame * comp_t) :=
  Eval vm_compute in at_operation switch_code [Qnil] 1 0 comp_initial.

Lemma X14_constant_before_switch_witness :
  let r := switch_sample in
  let s := sample_state r in
  let fr := sample_frame r in
  exists s' L,
    compile_op emacs_x86_64 "f" 3 (SDATA switch_code) [Qnil] 1 (sample_nil r) (sample_op r)
      fr s
    = Ok (with_pc (pc fr + 1) fr, s') /\
    ctxt s' = ctxt s ++ L /\ statements L = [] /\ stack_base s' = stack_base s.
Proof.
  cbv zeta.
  apply (proj1 (X14_constant_before_switch emacs_x86_64 "f" 3 (SDATA switch_code) [Qnil] 1
                  (sample_nil switch_sample) (sample_op switch_sample)
                  (sample_frame switch_sample) (sample_state switch_sample)
                  (sample_block (sample_state switch_sample)) 0 eq_refl eq_refl)).
  - right. split; [exact I|]. vm_compute. split; discriminate.
  - reflexivity.
  - reflexivity.
Defined.

(** * Branches *)

(** Block [i] of the map is marked as terminated. *)
Definition terminate_block (m : list basic_block_t) (i : Z) : list basic_block_t :=
  match m !! Z.to_nat i with
  | Some b =>
      <[Z.to_nat i := {| gcc_bb := gcc_bb b; bb_top := bb_top b; terminated := true |}]> m
  | None => m
  end.

(** Block [i] of the map is entered with [t] values on the stack. *)
Definition set_block_top (m : list basic_block_t) (i : Z) (t : Z) : list basic_block_t :=
  match m !! Z.to_nat i with
  | Some b =>
      <[Z.to_nat i := {| gcc_bb := gcc_bb b; bb_top := Some t; terminated := terminated b |}]> m
  | None => m
  end.

Lemma array_get_lookup {A} what (l : list A) i x :
  array_get what l i = Ok x -> l !! Z.to_nat i = Some x.
Proof. intros Hx. by apply array_get_inv in Hx as [_ Hx]. Qed.

Section branches.

Context (H : headers).
Context (lisp_f_name : string) (bytestr_length : Z) (bytestr_data : list Z).
Context (vectorp : list Lisp_Object) (vector_size : Z).
Context (address_of : c_ptr -> Z) (host : list call_event -> string -> list Z -> Z).

(** The operand of a branch: two bytes that are the target, or one byte
    that is the target less [pc], plus 128. *)
Definition fetch_target (relative : bool) : frame -> M (Z * frame) :=
  if relative then FETCH_relative bytestr_data else FETCH2 bytestr_data.

Lemma fetch_target_state relative fr s s' r :
  fetch_target relative fr s = Ok (r, s) -> fetch_target relative fr s' = Ok (r, s').
Proof.
  unfold fetch_target, FETCH_relative, FETCH2, FETCH. cbv [bind lift ret].
  destruct relative.
  - destruct (array_get _ _ _); [|done..]. by intros [= <-].
  - destruct (array_get _ _ _); [|done..]. cbn.
    destruct (array_get _ _ _); [|done..]. by intros [= <-].
Qed.

Lemma fetch_target_args relative fr s target fr1 :
  fetch_target relative fr s = Ok ((target, fr1), s) ->
  stack fr1 = stack fr /\ args fr1 = args fr /\ pushhandler_n fr1 = pushhandler_n fr.
Proof.
  unfold fetch_target, FETCH_relative, FETCH2, FETCH. cbv [bind lift ret].
  destruct relative.
  - destruct (array_get _ _ _); [|done..]. by intros [= <- <-].
  - destruct (array_get _ _ _); [|done..]. cbn.
    destruct (array_get _ _ _); [|done..]. by intros [= <- <-].
Qed.

(** The unconditional branches, each with the form of its operand. *)
Definition goto_table : list (bytecode * bool) := [ (Bgoto, false); (BRgoto, true) ].

(** The comment of the case and the operand of a branch. *)
Lemma branch_operand {A} label relative (k : Z -> frame -> M A) fr s cur b0 target fr1 :
  block s = Some (in_bb_map cur) -> array_get "bb_map" (bb_map s) cur = Ok b0 ->
  fetch_target relative fr s = Ok ((target, fr1), s) ->
  bind (CASE label) (fun _ => bind (fetch_target relative fr) (fun '(op, fr) => k op fr)) s
  = k target fr1 (with_ctxt (fun c => c ++ [block_add_comment (gcc_bb b0) label]) s).
Proof.
  intros Hb Hb0 Hfetch.
  assert (bb_get (in_bb_map cur) s = Ok (b0, s)) as Hg.
  { unfold bb_get. cbv [bind gets lift]. by rewrite Hb0. }
  unfold bind at 1. rewrite (CASE_Ok _ _ _ _ Hb Hg). cbv beta iota.
  unfold bind. by rewrite (fetch_target_state _ _ _ _ _ Hfetch).
Qed.

(** X15.  [Bgoto] and [BRgoto] end the current block with a jump to
    the block of the target, mark the current block as terminated, and
    record the height of the stack as the height at the entry of the
    target.  They emit nothing else and leave the stack as it is. *)
Theorem X15_goto nil op fr s b0 cur b relative target fr1 bt :
  (b, relative) ∈ goto_table ->
  decode H op = Some b ->
  block s = Some (in_bb_map cur) -> array_get "bb_map" (bb_map s) cur = Ok b0 ->
  fetch_target relative fr s = Ok ((target, fr1), s) ->
  array_get "bb_map" (bb_map s) target = Ok bt ->
  exists s' L,
    compile_op H lisp_f_name bytestr_length bytestr_data vectorp vector_size nil op fr s
    = Ok (fr1, s') /\
    ctxt s' = ctxt s ++ L /\
    statements L = [block_end_with_jump (gcc_bb b0) (gcc_bb bt)] /\
    bb_map s' = set_block_top (terminate_block (bb_map s) cur) target (stack fr) /\
    block s' = block s /\ stack_base s' = stack_base s.
Proof.
  intros Hin Hdec Hb Hb0 Hfetch Hbt.
  destruct (fetch_target_args _ _ _ _ _ Hfetch) as (Hst & _).
  apply array_get_inv in Hb0 as Hb0'. apply array_get_inv in Hbt as Hbt'.
  destruct Hb0' as [Hcur Hl0]. destruct Hbt' as [Htarget Hlt].
  unfold compile_op. rewrite Hdec. clear Hdec. unfold goto_table in Hin.
  change (FETCH2 bytestr_data) with (fetch_target false).
  change (FETCH_relative bytestr_data) with (fetch_target true).
  assert (forall label, exists s' L,
            do_goto target fr1
              (with_ctxt (fun c => c ++ [block_add_comment (gcc_bb b0) label]) s)
            = Ok (fr1, s') /\
            ctxt s' = ctxt s ++ L /\
            statements L = [block_end_with_jump (gcc_bb b0) (gcc_bb bt)] /\
            bb_map s' = set_block_top (terminate_block (bb_map s) cur) target (stack fr) /\
            block s' = block s /\ stack_base s' = stack_base s) as Hgoto.
  { intros label. unfold terminate_block, set_block_top. rewrite Hl0.
    destruct s as [ctxt0 objs f0 blk h pv btl car0 cdr0 scar scdr ctype cimp ci cj bbm allo
                     stk].
    destruct fr1 as [pc1 st1 args1 phn1]. destruct b0 as [bb0 top0 term0].
    destruct bt as [bbt topt termt].
    cbn in Hb, Hb0, Hbt, Hcur, Htarget, Hl0, Hlt, Hst. subst blk st1.
    unfold do_goto. munfold. mrewrite.
    destruct (decide (target = cur)) as [->|Hne].
    - rewrite Hb0 in Hbt. injection Hbt as <- <- <-.
      mrewrite. rewrite list_lookup_insert_eq by lia.
      eexists _, _. split; [reflexivity|]. cbn.
      split; [rewrite <- ?app_assoc; reflexivity|].
      split; [reflexivity|]. split; [reflexivity|]. split; reflexivity.
    - mrewrite. rewrite list_lookup_insert_ne by lia. rewrite Hlt.
      eexists _, _. split; [reflexivity|]. cbn.
      split; [rewrite <- ?app_assoc; reflexivity|].
      split; [reflexivity|]. split; [reflexivity|]. split; reflexivity. }
  repeat (apply elem_of_cons in Hin as [[= -> ->]|Hin];
          [cbv beta iota; rewrite (branch_operand _ _ _ _ _ _ _ _ _ Hb Hb0 Hfetch);
           apply Hgoto|]).
  by apply elem_of_nil in Hin.
Qed.

(** The conditional branches: whether the branch is taken on nil, whether
    the value is kept when the branch is taken, the form of the
    operand. *)
Definition branch_table : list (bytecode * bool * bool * bool) :=
  [ (Bgotoifnil, true, false, false); (Bgotoifnonnil, false, false, false);
    (Bgotoifnilelsepop, true, true, false); (Bgotoifnonnilelsepop, false, true, false);
    (BRgotoifnil, true, false, true); (BRgotoifnonnil, false, false, true);
    (BRgotoifnilelsepop, true, true, true); (BRgotoifnonnilelsepop, false, true, true) ].

Definition branch_comparison (on_nil : bool) : gcc_jit_comparison :=
  if on_nil then GCC_JIT_COMPARISON_EQ else GCC_JIT_COMPARISON_NE.

Lemma conditional_runs bb cmp a b then_bb else_bb L0 m x m1 y m2 :
  statements L0 = [] ->
  eval_rvalue H address_of host m a = Some (x, m1) ->
  eval_rvalue H address_of host m1 b = Some (y, m2) ->
  exec_code H address_of host
    (L0 ++ [block_end_with_conditional bb (Comparison cmp a b) then_bb else_bb]) m
  = Some (Goes_to (if bool_decide (eval_comparison cmp x y <> 0) then then_bb else else_bb),
          m2).
Proof.
  intros H0 Ha Hb. rewrite exec_code_statements, statements_app, H0. cbn [app statements
    is_statement exec_code eval_rvalue]. rewrite Ha. cbn [mbind option_bind]. rewrite Hb.
  reflexivity.
Qed.

(** X16.  A conditional branch ends the current block with one
    conditional on the comparison of the value on top of the stack
    with nil: the code then goes to the block of the target when the
    value is nil, for the four [nil] forms, or is not nil, for the four
    [nonnil] forms, and to the block of the next operation otherwise.
    The stack is one lower after the operation, but the height recorded
    for the target is the height before the operation for the four
    [elsepop] forms, which keep the value when the branch is taken. *)
Theorem X16_conditional_goto nil op fr s b0 cur b (on_nil elsepop relative : bool) target
    fr1 bt bnext e :
  (b, on_nil, elsepop, relative) ∈ branch_table ->
  decode H op = Some b ->
  block s = Some (in_bb_map cur) -> array_get "bb_map" (bb_map s) cur = Ok b0 ->
  fetch_target relative fr s = Ok ((target, fr1), s) ->
  array_get "bb_map" (bb_map s) target = Ok bt ->
  array_get "bb_map" (bb_map s) (pc fr1) = Ok bnext ->
  array_get "stack" (stack_base s) (stack fr - 1) = Ok e ->
  (1 <= length (args fr))%nat ->
  exists fr' s' L,
    compile_op H lisp_f_name bytestr_length bytestr_data vectorp vector_size nil op fr s
    = Ok (fr', s') /\
    pc fr' = pc fr1 /\ stack fr' = stack fr - 1 /\
    ctxt s' = ctxt s ++ L /\
    statements L
    = [block_end_with_conditional (gcc_bb b0)
         (Comparison (branch_comparison on_nil) (Lvalue_as_rvalue (gcc_lval e)) nil)
         (gcc_bb bt) (gcc_bb bnext)] /\
    bb_map s'
    = set_block_top (terminate_block (bb_map s) cur) target
        (if elsepop then stack fr else stack fr - 1) /\
    block s' = block s /\ stack_base s' = stack_base s /\
    forall m x m1 y m2,
      eval_rvalue H address_of host m (Lvalue_as_rvalue (gcc_lval e)) = Some (x, m1) ->
      eval_rvalue H address_of host m1 nil = Some (y, m2) ->
      exec_code H address_of host L m
      = Some (Goes_to (if eqb (bool_decide (x = y)) on_nil then gcc_bb bt else gcc_bb bnext),
              m2).
Proof.
  intros Hin Hdec Hb Hb0 Hfetch Hbt Hnext He Hargs.
  destruct (fetch_target_args _ _ _ _ _ Hfetch) as (Hst & Ha & _).
  apply array_get_inv in Hb0 as Hb0'. apply array_get_inv in Hbt as Hbt'.
  destruct Hb0' as [Hcur Hl0]. destruct Hbt' as [Htarget Hlt].
  unfold compile_op. rewrite Hdec. clear Hdec. unfold branch_table in Hin.
  change (FETCH2 bytestr_data) with (fetch_target false).
  change (FETCH_relative bytestr_data) with (fetch_target true).
  assert (forall x y : Z,
            (if bool_decide (eval_comparison (branch_comparison on_nil) x y <> 0)
             then gcc_bb bt else gcc_bb bnext)
            = (if eqb (bool_decide (x = y)) on_nil then gcc_bb bt else gcc_bb bnext))
    as Hcmp.
  { intros x y. destruct on_nil; cbn; repeat case_bool_decide; done. }
  assert (forall label, exists fr' s' L,
            (if elsepop return M frame
             then do_gotoifelsepop (branch_comparison on_nil) nil target fr1
             else do_gotoif (branch_comparison on_nil) nil target fr1)
              (with_ctxt (fun c => c ++ [block_add_comment (gcc_bb b0) label]) s)
            = Ok (fr', s') /\
            pc fr' = pc fr1 /\ stack fr' = stack fr - 1 /\
            ctxt s' = ctxt s ++ L /\
            statements L
            = [block_end_with_conditional (gcc_bb b0)
                 (Comparison (branch_comparison on_nil) (Lvalue_as_rvalue (gcc_lval e)) nil)
                 (gcc_bb bt) (gcc_bb bnext)] /\
            bb_map s'
            = set_block_top (terminate_block (bb_map s) cur) target
                (if elsepop then stack fr else stack fr - 1) /\
            block s' = block s /\ stack_base s' = stack_base s /\
            forall m x m1 y m2,
              eval_rvalue H address_of host m (Lvalue_as_rvalue (gcc_lval e))
              = Some (x, m1) ->
              eval_rvalue H address_of host m1 nil = Some (y, m2) ->
              exec_code H address_of host L m
              = Some (Goes_to (if eqb (bool_decide (x = y)) on_nil
                               then gcc_bb bt else gcc_bb bnext), m2)) as Hgoto.
  { intros label. unfold terminate_block, set_block_top. rewrite Hl0.
    destruct s as [ctxt0 objs f0 blk h pv btl car0 cdr0 scar scdr ctype cimp ci cj bbm allo
                     stk].
    destruct fr1 as [pc1 st1 args1 phn1]. destruct fr as [pc0 st0 args0 phn0].
    destruct b0 as [bb0 top0 term0].
    destruct bt as [bbt topt termt]. destruct bnext as [bbn topn termn].
    destruct e as [lv ty c cs].
    cbn in Hb, Hb0, Hbt, Hnext, He, Hcur, Htarget, Hl0, Hlt, Hst, Ha, Hargs.
    subst blk st1 args1.
    destruct elsepop; unfold do_gotoif, do_gotoifelsepop; munfold; mrewrite.
    all: cbn [rvalue_get_type]; change (type_eqb bool_type bool_type) with true;
      munfold; mrewrite.
    all: destruct (decide (target = cur)) as [->|Hne];
      [rewrite Hb0 in Hbt; injection Hbt as <- <- <-; mrewrite;
       rewrite list_lookup_insert_eq by lia
      |mrewrite; rewrite list_lookup_insert_ne by lia; rewrite Hlt].
    all: eexists _, _, _; split; [reflexivity|]; cbn.
    all: split; [reflexivity|]; split; [reflexivity|].
    all: split; [rewrite <- ?app_assoc; reflexivity|].
    all: split; [reflexivity|]; split; [reflexivity|]; split; [reflexivity|].
    all: split; [reflexivity|].
    all: intros m x m1 y m2 Hx Hy; rewrite <- Hcmp.
    all: by apply (conditional_runs _ _ _ _ _ _ [_] m x m1 y m2). }
  repeat (apply elem_of_cons in Hin as [[= -> -> -> ->]|Hin];
          [cbv beta iota; rewrite (branch_operand _ _ _ _ _ _ _ _ _ Hb Hb0 Hfetch);
           apply Hgoto|]).
  by apply elem_of_nil in Hin.
Qed.

End branches.

Section return_and_fetch.

Context (H : headers).
Context (lisp_f_name : string) (bytestr_length : Z) (bytestr_data : list Z).
Context (vectorp : list Lisp_Object) (vector_size : Z).
Context (address_of : c_ptr -> Z) (host : list call_event -> string -> list Z -> Z).

(** X17.  [Breturn] pops the value on top of the stack, ends the
    current block with the return of that value, and marks the block
    as terminated: the code of the block then returns what the slot
    holds. *)
Theorem X17_return nil op fr s b0 cur e :
  decode H op = Some Breturn ->
  block s = Some (in_bb_map cur) -> array_get "bb_map" (bb_map s) cur = Ok b0 ->
  array_get "stack" (stack_base s) (stack fr - 1) = Ok e ->
  (1 <= length (args fr))%nat ->
  exists fr' s' L,
    compile_op H lisp_f_name bytestr_length bytestr_data vectorp vector_size nil op fr s
    = Ok (fr', s') /\
    pc fr' = pc fr /\ stack fr' = stack fr - 1 /\
    ctxt s' = ctxt s ++ L /\
    statements L = [block_end_with_return (gcc_bb b0) (Lvalue_as_rvalue (gcc_lval e))] /\
    bb_map s' = terminate_block (bb_map s) cur /\
    block s' = block s /\ stack_base s' = stack_base s /\
    forall m x m1,
      eval_rvalue H address_of host m (Lvalue_as_rvalue (gcc_lval e)) = Some (x, m1) ->
      exec_code H address_of host L m = Some (Returns (Some x), m1).
Proof.
  intros Hdec Hb Hb0 He Hargs.
  apply array_get_inv in Hb0 as Hb0'. destruct Hb0' as [Hcur Hl0].
  unfold compile_op. rewrite Hdec. clear Hdec.
  unfold terminate_block. rewrite Hl0.
  destruct s as [ctxt0 objs f0 blk h pv btl car0 cdr0 scar scdr ctype cimp ci cj bbm allo
                   stk].
  destruct fr as [pc0 st0 args0 phn0]. destruct b0 as [bb0 top0 term0].
  destruct e as [lv ty c cs].
  cbn in Hb, Hb0, He, Hcur, Hl0, Hargs. subst blk.
  munfold. mrewrite.
  eexists _, _, _. split; [reflexivity|]. cbn.
  split; [reflexivity|]. split; [reflexivity|].
  split; [rewrite <- ?app_assoc; reflexivity|].
  split; [reflexivity|]. split; [reflexivity|]. split; [reflexivity|].
  split; [reflexivity|].
  intros m x m1 Hx. cbn [app]. rewrite exec_comment.
  by apply (exec_return H address_of host _ _ _ m x m1).
Qed.

(** The jump that ends a block which falls through to another. *)
Definition falls_through (b here : basic_block_t) : bool :=
  bool_decide (block_id (gcc_bb b) <> block_id (gcc_bb here)) && negb (terminated b).

(** X18.  At the start of an operation the translator makes the block
    of [pc] the current block, takes the height of the stack that a
    branch has recorded for it, if any, and fetches the operation.
    When the block that was current is another block and is not
    terminated, it is first ended with a jump to the block of [pc] and
    marked as terminated; otherwise nothing is emitted. *)
Theorem X18_fetch_op fr s cur b here op :
  block s = Some (in_bb_map cur) -> array_get "bb_map" (bb_map s) cur = Ok b ->
  array_get "bb_map" (bb_map s) (pc fr) = Ok here ->
  array_get "bytestr_data" bytestr_data (pc fr) = Ok op ->
  exists fr' s',
    fetch_op bytestr_data fr s = Ok ((op, fr'), s') /\
    pc fr' = pc fr + 1 /\
    stack fr' = default (stack fr) (bb_top here) /\
    args fr' = args fr /\
    block s' = Some (in_bb_map (pc fr)) /\
    ctxt s'
    = ctxt s ++ (if falls_through b here
                 then [block_end_with_jump (gcc_bb b) (gcc_bb here)] else []) /\
    bb_map s'
    = (if falls_through b here then terminate_block (bb_map s) cur else bb_map s) /\
    stack_base s' = stack_base s.
Proof.
  intros Hb Hb0 Hhere Hop.
  apply array_get_inv in Hb0 as Hb0'. destruct Hb0' as [Hcur Hl0].
  apply array_get_inv in Hhere as Hpc. destruct Hpc as [Hpc _].
  unfold terminate_block. rewrite Hl0.
  destruct s as [ctxt0 objs f0 blk h pv btl car0 cdr0 scar scdr ctype cimp ci cj bbm allo
                   stk].
  destruct fr as [pc0 st0 args0 phn0]. destruct b as [bb0 top0 term0].
  destruct here as [bbh toph termh].
  cbn in Hb, Hb0, Hhere, Hop, Hcur, Hl0, Hpc. subst blk.
  unfold fetch_op, falls_through. munfold. mrewrite. cbn [block_id].
  destruct (bool_decide (block_id bb0 <> block_id bbh)) eqn:Eid; cbn [andb];
    [destruct term0; cbn [negb]|].
  - munfold. mrewrite. destruct toph; munfold; mrewrite.
    all: eexists _, _; split; [reflexivity|]; cbn; rewrite ?app_nil_r; repeat split.
  - munfold. mrewrite.
    assert (pc0 <> cur) as Hne.
    { intros ->. rewrite Hb0 in Hhere. injection Hhere as <- _ _.
      by apply bool_decide_eq_true in Eid. }
    mrewrite. destruct toph; munfold; mrewrite.
    all: eexists _, _; split; [reflexivity|]; cbn; repeat split.
  - munfold. mrewrite. destruct toph; munfold; mrewrite.
    all: eexists _, _; split; [reflexivity|]; cbn; rewrite ?app_nil_r; repeat split.
Qed.

End return_and_fetch.

(** * Moves on the stack *)

Section stack_moves.

Context (H : headers).
Context (lisp_f_name : string) (bytestr_length : Z) (bytestr_data : list Z).
Context (vectorp : list Lisp_Object) (vector_size : Z).

(** How far under the top of the stack the slot is that the operation
    copies, for the operations that take it from the operation byte. *)
Definition copy_depth (b : bytecode) (op : Z) : option Z :=
  match b with
  | Bdup => Some 0
  | Bstack_ref1 | Bstack_ref2 | Bstack_ref3 | Bstack_ref4 | Bstack_ref5 =>
      Some (op - byte_of H Bstack_ref)
  | _ => None
  end.

(** The slot after an assignment: the annotations are reset. *)
Definition assigned (e : stack_el_t) : stack_el_t :=
  {| gcc_lval := gcc_lval e; type := None; constant := constant e; const_set := false |}.

(** X19.  [Bdup] and [Bstack_ref1] to [Bstack_ref5] push a copy of the
    slot that is [op - Bstack_ref] under the top of the stack, the top
    itself for [Bdup]: one assignment of that slot to the next free
    slot.  The type and the constant that the meta stack knows for the
    slot copied are not carried over to the copy. *)
Theorem X19_stack_ref nil op fr s b0 cur b k e dst :
  decode H op = Some b -> copy_depth b op = Some k ->
  block s = Some (in_bb_map cur) -> array_get "bb_map" (bb_map s) cur = Ok b0 ->
  array_get "stack" (stack_base s) (stack fr - k - 1) = Ok e ->
  array_get "stack" (stack_base s) (stack fr) = Ok dst ->
  exists fr' s' L,
    compile_op H lisp_f_name bytestr_length bytestr_data vectorp vector_size nil op fr s
    = Ok (fr', s') /\
    pc fr' = pc fr /\ stack fr' = stack fr + 1 /\
    ctxt s' = ctxt s ++ L /\
    statements L
    = [block_add_assignment (gcc_bb b0) (gcc_lval dst) (Lvalue_as_rvalue (gcc_lval e))] /\
    stack_base s' = <[Z.to_nat (stack fr) := assigned dst]> (stack_base s) /\
    bb_map s' = bb_map s /\ block s' = block s.
Proof.
  intros Hdec Hk Hb Hb0 He Hdst.
  apply array_get_inv in Hdst as Hdst'.
  unfold compile_op. rewrite Hdec. clear Hdec. unfold assigned.
  destruct s as [ctxt0 objs f0 blk h pv btl car0 cdr0 scar scdr ctype cimp ci cj bbm allo
                   stk].
  destruct fr as [pc0 st0 args0 phn0]. destruct b0 as [bb0 top0 term0].
  destruct e as [lv ty c cs]. destruct dst as [dlv dty dc dcs].
  cbn in Hb, Hb0, He, Hdst, Hdst'. subst blk.
  destruct b; try discriminate Hk; injection Hk as <-; unfold stack_ref in *.
  all: rewrite ?Z.sub_0_r in He.
  all: munfold; mrewrite.
  all: eexists _, _, _; split; [reflexivity|]; cbn.
  all: split; [reflexivity|]; split; [reflexivity|].
  all: split; [rewrite <- ?app_assoc; reflexivity|].
  all: split; [reflexivity|]; split; [reflexivity|]; split; reflexivity.
Qed.

(** X20.  [BdiscardN] with operand [n]: when bit 7 of [n] is clear the
    stack is [n] lower and nothing is emitted.  When it is set, with
    [k] the low seven bits, the value on top is assigned to the slot
    that is [k + 1] under it and the stack is [k + 1] lower: the value
    is then on top.  With fewer than [k + 2] values on the stack the
    slot assigned is outside the stack. *)
Theorem X20_discardN nil op fr s b0 cur n :
  decode H op = Some BdiscardN ->
  block s = Some (in_bb_map cur) -> array_get "bb_map" (bb_map s) cur = Ok b0 ->
  array_get "bytestr_data" bytestr_data (pc fr) = Ok n ->
  let k := Z.land n 127 in
  let compiled :=
    compile_op H lisp_f_name bytestr_length bytestr_data vectorp vector_size nil op fr s in
  (Z.land n 128 = 0 ->
   exists s' L,
     compiled = Ok (with_pc (pc fr + 1) (with_stack (stack fr - n) fr), s') /\
     ctxt s' = ctxt s ++ L /\ statements L = [] /\ stack_base s' = stack_base s) /\
  (Z.land n 128 <> 0 ->
   forall e,
     array_get "stack" (stack_base s) (stack fr - 1) = Ok e ->
     (1 <= length (args fr))%nat ->
     (forall dst,
        array_get "stack" (stack_base s) (stack fr - k - 2) = Ok dst ->
        exists fr' s' L,
          compiled = Ok (fr', s') /\
          pc fr' = pc fr + 1 /\ stack fr' = stack fr - k - 1 /\
          ctxt s' = ctxt s ++ L /\
          statements L
          = [block_add_assignment (gcc_bb b0) (gcc_lval dst)
               (Lvalue_as_rvalue (gcc_lval e))] /\
          stack_base s' = <[Z.to_nat (stack fr - k - 2) := assigned dst]> (stack_base s)) /\
     (stack fr < k + 2 -> compiled = Undefined "stack")).
Proof.
  intros Hdec Hb Hb0 Hn k compiled. subst compiled k.
  unfold compile_op. rewrite Hdec. clear Hdec. unfold assigned.
  destruct s as [ctxt0 objs f0 blk h pv btl car0 cdr0 scar scdr ctype cimp ci cj bbm allo
                   stk].
  destruct fr as [pc0 st0 args0 phn0]. destruct b0 as [bb0 top0 term0].
  cbn in Hb, Hb0, Hn. subst blk.
  split.
  - intros Hbit. munfold. mrewrite. rewrite bool_decide_false by lia.
    eexists _, [_]. split; [reflexivity|]. split; [reflexivity|]. split; reflexivity.
  - intros Hbit [lv ty c cs] He Hargs. cbn in He, Hargs. split.
    + intros [dlv dty dc dcs] Hdst. cbn in Hdst. apply array_get_inv in Hdst as Hdst'.
      munfold. mrewrite. rewrite bool_decide_true by lia. munfold. mrewrite.
      replace (st0 - 1 - Z.land n 127 - 1) with (st0 - Z.land n 127 - 2) by lia.
      mrewrite.
      eexists _, _, _. split; [reflexivity|]. cbn.
      split; [reflexivity|]. split; [lia|].
      split; [rewrite <- ?app_assoc; reflexivity|].
      split; [reflexivity|]. reflexivity.
    + intros Hlow. cbn in Hlow.
      munfold. mrewrite. rewrite bool_decide_true by lia. munfold. mrewrite.
      unfold array_get. rewrite bool_decide_true by lia. reflexivity.
Qed.

End stack_moves.

(** * Calls of the helpers and calls by reference *)

(** The operations that call a helper of [init_comp]: the field of the
    state that holds the helper and the number of values popped. *)
Definition inline_table : list (bytecode * (comp_t -> option gcc_jit_function) * nat) :=
  [ (Bcar, car, 1); (Bcdr, cdr, 1); (Bsetcar, setcar, 2); (Bsetcdr, setcdr, 2) ]%nat.

(** The operations that call a function of the host on a count and the
    address of the first of that many slots. *)
Definition call_n_ref_table : list (bytecode * string * Z) :=
  [ (Bconcat2, "Fconcat", 2); (Bconcat3, "Fconcat", 3); (Bconcat4, "Fconcat", 4);
    (Bdiff, "Fminus", 2); (Bplus, "Fplus", 2); (Bmax, "Fmax", 2); (Bmin, "Fmin", 2);
    (Bmult, "Ftimes", 2); (Binsert, "Finsert", 1); (Bnconc, "Fnconc", 2);
    (Bquo, "Fquo", 2) ].

Section inline_calls.

Context (H : headers).
Context (lisp_f_name : string) (bytestr_length : Z) (bytestr_data : list Z).
Context (vectorp : list Lisp_Object) (vector_size : Z).

(** X21.  [Bcar], [Bcdr], [Bsetcar] and [Bsetcdr] pop one value, or two
    for the last two, and push the result of a call to the helper that
    [init_comp] has defined and the state holds, on the values popped:
    they look no function up in [func_hash], declare none, and emit no
    comment. *)
Theorem X21_call_inline nil op fr s b0 b field n es dst f :
  (b, field, n) ∈ inline_table ->
  decode H op = Some b ->
  length es = n ->
  ready es dst b0 fr s ->
  field s = Some f ->
  exists fr' s',
    compile_op H lisp_f_name bytestr_length bytestr_data vectorp vector_size nil op fr s
    = Ok (fr', s') /\
    stack fr' = stack fr - Z.of_nat n + 1 /\ pc fr' = pc fr /\
    ctxt s'
    = ctxt s ++ [block_add_assignment (gcc_bb b0) (gcc_lval dst)
                   (Call f (map (fun e => Lvalue_as_rvalue (gcc_lval e)) es))] /\
    func_hash s' = func_hash s.
Proof.
  intros Hin Hdec Hlen ([cur [Hb Hb0]] & Hes & Hdst & Hargs & _) Hf.
  destruct s as [ctxt0 objs f0 blk h pv btl car0 cdr0 scar scdr ctype cimp ci cj bbm allo
                   stk].
  destruct fr as [pc0 st0 args0 phn]. destruct b0 as [bb0 top0 term0].
  destruct dst as [dlv dty dc dcs].
  cbn in Hb, Hb0, Hes, Hdst, Hargs. subst blk.
  apply array_get_inv in Hdst as Hdst'.
  unfold compile_op. rewrite Hdec. clear Hdec. unfold inline_table in Hin.
  repeat (apply elem_of_cons in Hin as [[= -> -> ->]|Hin];
          [cbv beta iota; cbn in Hf; subst;
           destruct es as [|[lv1 ty1 c1 cs1] [|[lv2 ty2 c2 cs2] [|]]];
           try discriminate Hlen; cbn in Hes, Hdst, Hdst';
           repeat match goal with Hx : _ /\ _ |- _ => destruct Hx end;
           unfold call_inline; munfold; mrewrite;
           match goal with
           | He1 : array_get "stack" stk ?i = Ok _, Hd : array_get "stack" stk ?j = Ok _ |- _ =>
               rewrite He1 in Hd; injection Hd as -> -> -> ->
           end;
           (eexists _, _; split; [reflexivity|]; cbn;
            split; [lia|]; split; [done|]; split; reflexivity)|]).
  by apply elem_of_nil in Hin.
Qed.

(** X22.  An operation of [call_n_ref_table] with count [n] calls the
    function of the table on [n] and the address of the slot that is
    [n] under the top of the stack, the first of the [n] values, and
    stores the result in that same slot, which is then the top: the
    values are handed over in place, none is popped into [args]. *)
Theorem X22_call_n_ref nil op fr s b0 cur b name n e :
  (b, name, n) ∈ call_n_ref_table ->
  decode H op = Some b ->
  block s = Some (in_bb_map cur) -> array_get "bb_map" (bb_map s) cur = Ok b0 ->
  array_get "stack" (stack_base s) (stack fr - n) = Ok e ->
  hash_names_ok (func_hash s) ->
  exists fr' s' f L,
    compile_op H lisp_f_name bytestr_length bytestr_data vectorp vector_size nil op fr s
    = Ok (fr', s') /\
    stack fr' = stack fr - n + 1 /\ pc fr' = pc fr /\ args fr' = args fr /\
    function_name f = name /\
    ctxt s' = ctxt s ++ L /\
    statements L
    = [block_add_assignment (gcc_bb b0) (gcc_lval e)
         (Call f [Rvalue_from_int (ptrdiff_type H) n; Get_address (gcc_lval e)])].
Proof.
  intros Hin Hdec Hb Hb0 He Hok.
  destruct s as [ctxt0 objs f0 blk h pv btl car0 cdr0 scar scdr ctype cimp ci cj bbm allo
                   stk].
  destruct fr as [pc0 st0 args0 phn]. destruct b0 as [bb0 top0 term0].
  destruct e as [lv ty c cs].
  cbn in Hb, Hb0, He, Hok. subst blk.
  apply array_get_inv in He as He'.
  unfold compile_op. rewrite Hdec. clear Hdec. unfold call_n_ref_table in Hin.
  repeat (apply elem_of_cons in Hin as [[= -> -> ->]|Hin];
          [cbv beta iota; munfold; mrewrite; use_emit_call Hf; munfold; mrewrite;
           (eexists _, _, f, _; split; [reflexivity|]; cbn;
            split; [lia|]; split; [done|]; split; [done|]; split; [done|];
            split; [rewrite <- ?app_assoc; reflexivity|]; reflexivity)|]).
  by apply elem_of_nil in Hin.
Qed.

End inline_calls.

(** * The function that is compiled *)

Section arity.

Context (H : headers).
Context (lisp_f_name c_f_name : string).
Context (bytestr_length : Z) (bytestr_data : list Z).
Context (stack_depth : Z).
Context (vectorp : list Lisp_Object) (vector_size : Z).

(** [max_args] of a function whose argument template is the fixnum
    [at_]: the count of its arguments when it has no [&rest] and the
    count is under [SUBR_MAX_ARGS], and 0 otherwise. *)
Definition template_max_args (at_ : Z) : Z :=
  if bool_decide (Z.land at_ 128 = 0) && bool_decide (Z.shiftr at_ 8 < SUBR_MAX_ARGS H)
  then to_signed 16 (Z.shiftr at_ 8) else 0.


End arity.


(** * The leaders of the basic blocks *)

(** The order of [ucmp]: that of the two words read as [int]. *)
Definition int_lt (a b : Z) : Prop := to_signed 32 a < to_signed 32 b.
Definition int_le (a b : Z) : Prop := to_signed 32 a <= to_signed 32 b.

Lemma ucmp_le x y : (ucmp x y <=? 0) = true <-> int_le x y.
Proof.
  unfold ucmp, int_le.
  destruct (Z.ltb_spec (to_signed 32 x) (to_signed 32 y)); [cbn; split; [lia|done]|].
  destruct (Z.gtb_spec (to_signed 32 x) (to_signed 32 y)); cbn; split; lia || done.
Qed.

Lemma qsort_insert_perm x l : qsort_insert x l ≡ₚ x :: l.
Proof.
  induction l as [|y l IH]; [done|]. cbn [qsort_insert].
  destruct (ucmp x y <=? 0); [done|]. rewrite IH. apply Permutation_swap.
Qed.

Lemma qsort_perm l : qsort l ≡ₚ l.
Proof.
  induction l as [|x l IH]; [done|].
  unfold qsort in *. cbn [foldr]. rewrite qsort_insert_perm. by rewrite IH.
Qed.

Lemma qsort_insert_sorted x l :
  StronglySorted int_le l -> StronglySorted int_le (qsort_insert x l).
Proof.
  induction 1 as [|y l Hl IH Hy]; cbn [qsort_insert].
  - repeat constructor.
  - destruct (ucmp x y <=? 0) eqn:E.
    + apply ucmp_le in E. constructor; [by constructor|].
      constructor; [done|]. eapply Forall_impl; [exact Hy|].
      unfold int_le in *. intros z Hz. lia.
    + assert (int_le y x) as Hyx.
      { unfold int_le. destruct (decide (to_signed 32 y <= to_signed 32 x)); [done|].
        assert (int_le x y) as Hc by (unfold int_le; lia).
        apply ucmp_le in Hc. congruence. }
      constructor; [done|]. rewrite qsort_insert_perm. by constructor.
Qed.

Lemma qsort_sorted l : StronglySorted int_le (qsort l).
Proof.
  induction l as [|x l IH]; [constructor|].
  unfold qsort in *. cbn [foldr]. by apply qsort_insert_sorted.
Qed.

(** One of each run of equal elements, starting with [y]. *)
Fixpoint uniq_from (y : Z) (l : list Z) : list Z :=
  match l with
  | [] => [y]
  | x :: l' => if bool_decide (x = y) then uniq_from y l' else y :: uniq_from x l'
  end.

Definition uniq (l : list Z) : list Z :=
  match l with
  | [] => []
  | y :: l' => uniq_from y l'
  end.

Lemma take_S_middle {A} (pre : list A) y rest :
  take (S (length pre)) (pre ++ [y] ++ rest) = pre ++ [y].
Proof.
  rewrite app_assoc.
  replace (S (length pre)) with (length (pre ++ [y])) by (rewrite length_app; cbn; lia).
  apply take_app_length.
Qed.

(** The loop that removes the duplicates, from index [i] on, with [j]
    the last index kept. *)
Lemma remove_duplicates_loop suf : forall pre y mid n,
  (length suf <= n)%nat ->
  let a := pre ++ [y] ++ mid ++ suf in
  let '(a', j') := remove_duplicates n (length (pre ++ [y] ++ mid)) (length pre) a in
  take (S j') a' = pre ++ uniq_from y suf.
Proof.
  induction suf as [|x suf IH]; intros pre y mid n Hn a; subst a.
  - destruct n as [|n]; cbn [remove_duplicates uniq_from].
    + apply take_S_middle.
    + rewrite (lookup_ge_None_2 _ (length (pre ++ [y] ++ mid)))
        by (rewrite app_nil_r; lia).
      apply take_S_middle.
  - destruct n as [|n]; [cbn in Hn; lia|]. cbn [remove_duplicates uniq_from].
    assert ((pre ++ [y] ++ mid ++ x :: suf) !! length (pre ++ [y] ++ mid) = Some x) as ->.
    { replace (pre ++ [y] ++ mid ++ x :: suf) with ((pre ++ [y] ++ mid) ++ x :: suf)
        by (by rewrite <- !app_assoc).
      by apply list_lookup_middle. }
    assert ((pre ++ [y] ++ mid ++ x :: suf) !! length pre = Some y) as ->.
    { by apply list_lookup_middle. }
    case_bool_decide as Hxy.
    + subst x.
      specialize (IH pre y (mid ++ [y]) n ltac:(cbn in Hn; lia)). cbv zeta in IH.
      replace (pre ++ [y] ++ (mid ++ [y]) ++ suf) with (pre ++ [y] ++ mid ++ y :: suf) in IH
        by (by rewrite <- !app_assoc).
      replace (length (pre ++ [y] ++ mid ++ [y])) with (S (length (pre ++ [y] ++ mid))) in IH
        by (rewrite !length_app; cbn; lia).
      exact IH.
    + destruct mid as [|m0 mid].
      * specialize (IH (pre ++ [y]) x [] n ltac:(cbn in Hn; lia)). cbv zeta in IH.
        rewrite app_nil_r.
        replace (<[S (length pre) := x]> (pre ++ [y] ++ [] ++ x :: suf))
          with ((pre ++ [y]) ++ [x] ++ [] ++ suf).
        2:{ rewrite <- !app_assoc. cbn [app].
            rewrite insert_app_r_alt by lia.
            replace (S (length pre) - length pre)%nat with 1%nat by lia. reflexivity. }
        replace (S (length (pre ++ [y]))) with (length ((pre ++ [y]) ++ [x] ++ []))
          by (rewrite !length_app; cbn; lia).
        replace (S (length pre)) with (length (pre ++ [y])) by (rewrite length_app; cbn; lia).
        destruct (remove_duplicates _ _ _ _) as [a' j'].
        rewrite IH. by rewrite <- app_assoc.
      * specialize (IH (pre ++ [y]) x (mid ++ [x]) n ltac:(cbn in Hn; lia)). cbv zeta in IH.
        replace (<[S (length pre) := x]> (pre ++ [y] ++ (m0 :: mid) ++ x :: suf))
          with ((pre ++ [y]) ++ [x] ++ (mid ++ [x]) ++ suf).
        2:{ rewrite <- !app_assoc. cbn [app].
            rewrite insert_app_r_alt by lia.
            replace (S (length pre) - length pre)%nat with 1%nat by lia. reflexivity. }
        replace (S (length (pre ++ [y] ++ m0 :: mid)))
          with (length ((pre ++ [y]) ++ [x] ++ mid ++ [x]))
          by (rewrite !length_app; cbn; rewrite ?length_app; cbn; lia).
        replace (S (length pre)) with (length (pre ++ [y])) by (rewrite length_app; cbn; lia).
        destruct (remove_duplicates _ _ _ _) as [a' j'].
        rewrite IH. by rewrite <- app_assoc.
Qed.

Lemma remove_duplicates_uniq l :
  let '(a, j) := remove_duplicates (length l) 0 0 l in take (S j) a = uniq l.
Proof.
  destruct l as [|y l]; [done|].
  cbn [length remove_duplicates lookup list_lookup uniq].
  rewrite bool_decide_true by done.
  exact (remove_duplicates_loop l [] y [] (length l) ltac:(lia)).
Qed.

Lemma elem_of_uniq_from l : forall y x, x ∈ uniq_from y l <-> x ∈ y :: l.
Proof.
  induction l as [|z l IH]; intros y x; cbn [uniq_from]; [done|].
  case_bool_decide as Hz.
  - subst z. rewrite IH, !elem_of_cons. tauto.
  - rewrite elem_of_cons, IH, !elem_of_cons. tauto.
Qed.

Lemma elem_of_uniq l x : x ∈ uniq l <-> x ∈ l.
Proof. destruct l as [|y l]; [done|]. apply elem_of_uniq_from. Qed.

(** A word of 32 bits. *)
Definition is_unsigned (x : Z) : Prop := 0 <= x < 2 ^ 32.

Lemma int_le_lt x y : is_unsigned x -> is_unsigned y -> int_le x y -> x <> y -> int_lt x y.
Proof.
  unfold is_unsigned, int_le, int_lt, to_signed. cbv zeta.
  change (2 ^ 32) with 4294967296. change (2 ^ (32 - 1)) with 2147483648.
  intros Hx Hy Hle Hne. rewrite !Z.mod_small in * by lia.
  repeat case_bool_decide; lia.
Qed.

Lemma uniq_from_sorted l : forall y,
  StronglySorted int_le (y :: l) -> Forall is_unsigned (y :: l) ->
  StronglySorted int_lt (uniq_from y l).
Proof.
  induction l as [|x l IH]; intros y Hs Hr; cbn [uniq_from].
  - repeat constructor.
  - apply StronglySorted_inv in Hs as [Hs Hy].
    apply Forall_cons in Hr as [Hry Hr].
    apply Forall_cons in Hy as [Hyx Hy].
    case_bool_decide as Hxy.
    + subst x. by apply IH.
    + constructor; [by apply IH|].
      apply Forall_forall. intros z Hz. apply elem_of_uniq_from in Hz.
      assert (int_lt y x) as Hlt.
      { apply int_le_lt; [done| |done|congruence]. by apply Forall_cons in Hr as [? _]. }
      apply elem_of_cons in Hz as [-> | Hz]; [done|].
      apply StronglySorted_inv in Hs as [_ Hx].
      rewrite Forall_forall in Hx. specialize (Hx z Hz).
      unfold int_lt, int_le in *. lia.
Qed.

Lemma uniq_sorted l :
  StronglySorted int_le l -> Forall is_unsigned l -> StronglySorted int_lt (uniq l).
Proof. destruct l as [|y l]; [constructor|]. apply uniq_from_sorted. Qed.

(** What the scan gives is not the lack of turns, and it holds words of
    32 bits. *)
Definition scanned_well (r : result (list Z)) : Prop :=
  r <> Undefined "compute_blocks: more turns than bytes" /\
  forall l, r = Ok l -> Forall is_unsigned l.

Lemma bb_start_pc_push_well len l v (k : list Z -> result (list Z)) :
  Forall is_unsigned l ->
  (forall l', Forall is_unsigned l' -> scanned_well (k l')) ->
  scanned_well (rbind (bb_start_pc_push len l v) k).
Proof.
  intros Hl Hk. unfold bb_start_pc_push. case_bool_decide; cbn [rbind]; [|by split].
  apply Hk. apply Forall_app. split; [done|]. constructor; [|done].
  unfold is_unsigned, to_unsigned. apply Z.mod_pos_bound. lia.
Qed.

Lemma array_get_well what (l : list Z) i (k : Z -> result (list Z)) :
  what <> "compute_blocks: more turns than bytes" ->
  (forall x, scanned_well (k x)) ->
  scanned_well (rbind (array_get what l i) k).
Proof.
  intros Hw Hk. unfold array_get. case_bool_decide; cbn [rbind]; [split; congruence|].
  destruct (l !! Z.to_nat i); cbn [rbind]; [apply Hk|split; congruence].
Qed.

Section scan.

Context (H : headers).

Lemma compute_blocks_scan_well len data turns : forall pc new_bb l,
  (Z.to_nat (len - pc) <= turns)%nat ->
  Forall is_unsigned l ->
  scanned_well (compute_blocks_scan H turns len data pc new_bb l).
Proof.
  induction turns as [|turns IH]; intros pc new_bb l Hturns Hl.
  - cbn [compute_blocks_scan]. rewrite bool_decide_false by lia.
    split; [done|]. by intros l' [= <-].
  - cbn [compute_blocks_scan]. case_bool_decide as Hpc; [|split; [done|by intros l' [= <-]]].
    assert (forall l', Forall is_unsigned l' ->
              scanned_well
                (rbind (array_get "bytestr_data" data pc) (fun op =>
                 match decode H op with
                 | Some (Bvarref7 | Bvarset7 | Bvarbind7 | Bcall7 | Bunbind7 | Bstack_ref7
                        | Bstack_set2) =>
                     compute_blocks_scan H turns len data (pc + 1 + 2) false l'
                 | Some (Bvarref6 | Bvarset6 | Bvarbind6 | Bcall6 | Bunbind6 | Bconstant2
                        | BlistN | BconcatN | BinsertN | Bstack_ref6 | Bstack_set
                        | BdiscardN) =>
                     compute_blocks_scan H turns len data (pc + 1 + 1) false l'
                 | Some (Bgoto | Bgotoifnil | Bgotoifnonnil | Bgotoifnilelsepop
                        | Bgotoifnonnilelsepop | Bpushcatch | Bpushconditioncase) =>
                     rbind (array_get "bytestr_data" data (pc + 1)) (fun lo =>
                     rbind (array_get "bytestr_data" data (pc + 1 + 1)) (fun hi =>
                     rbind (bb_start_pc_push len l' (lo + Z.shiftl hi 8)) (fun l'' =>
                     compute_blocks_scan H turns len data (pc + 1 + 2) true l'')))
                 | Some (BRgoto | BRgotoifnil | BRgotoifnonnil | BRgotoifnilelsepop
                        | BRgotoifnonnilelsepop) =>
                     rbind (array_get "bytestr_data" data (pc + 1)) (fun b =>
                     rbind (bb_start_pc_push len l' (to_unsigned 32 (b - 128))) (fun l'' =>
                     compute_blocks_scan H turns len data (pc + 1 + 1) true l''))
                 | Some (Bsub1 | Badd1 | Bnegate | Breturn) =>
                     compute_blocks_scan H turns len data (pc + 1) true l'
                 | _ => compute_blocks_scan H turns len data (pc + 1) false l'
                 end))) as Hbody.
    { intros l' Hl'. apply array_get_well; [done|]. intros op.
      destruct (decode H op) as [[]|];
        repeat first
          [ apply IH; [lia|done]
          | apply array_get_well; [done|intros ?]
          | apply bb_start_pc_push_well; [done|intros ? ?] ]. }
    destruct new_bb.
    + apply bb_start_pc_push_well; [done|]. exact Hbody.
    + cbn [rbind]. by apply Hbody.
Qed.

(** The leaders are what the scan gives, sorted and without the
    duplicates. *)
Lemma compute_blocks_leaders_uniq len data leaders :
  compute_blocks_leaders H len data = Ok leaders ->
  exists scanned,
    compute_blocks_scan H (Z.to_nat len) len data 0 true [] = Ok scanned /\
    Forall is_unsigned scanned /\ leaders = uniq (qsort scanned).
Proof.
  unfold compute_blocks_leaders.
  destruct (compute_blocks_scan_well len data (Z.to_nat len) 0 true [])
    as [_ Hrange]; [lia|constructor|].
  destruct (compute_blocks_scan _ _ _ _ _ _ _) as [scanned| |]; cbn [rbind]; [|done..].
  pose proof (remove_duplicates_uniq (qsort scanned)) as Hu.
  rewrite (Permutation_length (qsort_perm scanned)) in Hu.
  destruct (remove_duplicates _ _ _ _) as [a j].
  intros [= <-]. exists scanned. split; [done|]. split; [by apply Hrange|done].
Qed.

(** X24.  The leaders of the blocks that [compute_blocks] works with
    are the targets and the starts that its scan has met, each once, in
    the increasing order of [ucmp], which reads the words as [int]: a
    target of 2^31 or more comes before 0.  The scan needs no more
    turns than there are bytes. *)
Theorem X24_block_leaders len data :
  compute_blocks_leaders H len data <> Undefined "compute_blocks: more turns than bytes" /\
  forall leaders,
    compute_blocks_leaders H len data = Ok leaders ->
    exists scanned,
      compute_blocks_scan H (Z.to_nat len) len data 0 true [] = Ok scanned /\
      StronglySorted int_lt leaders /\
      (forall x, x ∈ leaders <-> x ∈ scanned) /\
      Forall is_unsigned leaders.
Proof.
  split.
  - unfold compute_blocks_leaders.
    destruct (compute_blocks_scan_well len data (Z.to_nat len) 0 true [])
      as [Hfuel _]; [lia|constructor|].
    destruct (compute_blocks_scan _ _ _ _ _ _ _) as [scanned| |]; cbn [rbind]; [|done..].
    by destruct (remove_duplicates _ _ _ _).
  - intros leaders Hl.
    destruct (compute_blocks_leaders_uniq _ _ _ Hl) as (scanned & Hscan & Hrange & ->).
    exists scanned. split; [done|]. split; [|split].
    + apply uniq_sorted; [apply qsort_sorted|]. by rewrite qsort_perm.
    + intros x. by rewrite elem_of_uniq, qsort_perm.
    + apply Forall_forall. intros x Hx. apply (proj1 (elem_of_uniq _ _)) in Hx.
      rewrite qsort_perm in Hx. rewrite Forall_forall in Hrange. by apply Hrange.
Qed.

End scan.

(** The block of [pc] in the map of a state. *)
Definition sample_block_at (s : comp_t) (pc : Z) : basic_block_t :=
  default (sample_block s) (bb_map s !! Z.to_nat pc).

(** [goto 3; return], at [goto]. *)
Definition goto_code : list Z := [130; 3; 0; 135].
Definition goto_sample : result (gcc_jit_rvalue * Z * frame * comp_t) :=
  Eval vm_compute in at_operation goto_code [] 1 0 comp_initial.

Lemma X15_goto_witness :
  let r := goto_sample in
  let s := sample_state r in
  let fr := sample_frame r in
  exists s' L,
    compile_op emacs_x86_64 "f" 4 (SDATA goto_code) [] 0 (sample_nil r) (sample_op r) fr s
    = Ok (with_pc 3 fr, s') /\
    ctxt s' = ctxt s ++ L /\
    statements L
    = [block_end_with_jump (gcc_bb (sample_block s)) (gcc_bb (sample_block_at s 3))] /\
    bb_map s' = set_block_top (terminate_block (bb_map s) 0) 3 (stack fr) /\
    block s' = block s /\ stack_base s' = stack_base s.
Proof.
  cbv zeta.
  apply (X15_goto emacs_x86_64 "f" 4 (SDATA goto_code) [] 0 (sample_nil goto_sample)
           (sample_op goto_sample) (sample_frame goto_sample) (sample_state goto_sample)
           (sample_block (sample_state goto_sample)) 0 Bgoto false 3
           (with_pc 3 (sample_frame goto_sample))
           (sample_block_at (sample_state goto_sample) 3)).
  - unfold goto_table. repeat constructor.
  - reflexivity.
  - reflexivity.
  - reflexivity.
  - reflexivity.
  - reflexivity.
Defined.

(** [constant 0; goto-if-nil 6; constant 0; return; constant 0; return],
    at [goto-if-nil]. *)
Definition gotoifnil_code : list Z := [192; 131; 6; 0; 192; 135; 192; 135].
Definition gotoifnil_sample : result (gcc_jit_rvalue * Z * frame * comp_t) :=
  Eval vm_compute in at_operation gotoifnil_code [Qnil] 1 1 comp_initial.

Lemma X16_conditional_goto_witness :
  let r := gotoifnil_sample in
  let s := sample_state r in
  let fr := sample_frame r in
  let e := sample_slot s 0 in
  let bt := sample_block_at s 6 in
  let bnext := sample_block_at s 4 in
  exists fr' s' L,
    compile_op emacs_x86_64 "f" 8 (SDATA gotoifnil_code) [Qnil] 1 (sample_nil r)
      (sample_op r) fr s
    = Ok (fr', s') /\
    pc fr' = 4 /\ stack fr' = stack fr - 1 /\
    ctxt s' = ctxt s ++ L /\
    statements L
    = [block_end_with_conditional (gcc_bb (sample_block s))
         (Comparison (branch_comparison true) (Lvalue_as_rvalue (gcc_lval e)) (sample_nil r))
         (gcc_bb bt) (gcc_bb bnext)] /\
    bb_map s'
    = set_block_top (terminate_block (bb_map s) 1) 6
        (if false then stack fr else stack fr - 1) /\
    block s' = block s /\ stack_base s' = stack_base s /\
    forall m x m1 y m2,
      eval_rvalue emacs_x86_64 null_address_of null_host m (Lvalue_as_rvalue (gcc_lval e))
      = Some (x, m1) ->
      eval_rvalue emacs_x86_64 null_address_of null_host m1 (sample_nil r) = Some (y, m2) ->
      exec_code emacs_x86_64 null_address_of null_host L m
      = Some (Goes_to (if eqb (bool_decide (x = y)) true then gcc_bb bt else gcc_bb bnext),
              m2).
Proof.
  cbv zeta.
  apply (X16_conditional_goto emacs_x86_64 "f" 8 (SDATA gotoifnil_code) [Qnil] 1
           null_address_of null_host (sample_nil gotoifnil_sample)
           (sample_op gotoifnil_sample) (sample_frame gotoifnil_sample)
           (sample_state gotoifnil_sample) (sample_block (sample_state gotoifnil_sample)) 1
           Bgotoifnil true false false 6 (with_pc 4 (sample_frame gotoifnil_sample))
           (sample_block_at (sample_state gotoifnil_sample) 6)
           (sample_block_at (sample_state gotoifnil_sample) 4)
           (sample_slot (sample_state gotoifnil_sample) 0)).
  - unfold branch_table. repeat constructor.
  - reflexivity.
  - reflexivity.
  - reflexivity.
  - reflexivity.
  - reflexivity.
  - reflexivity.
  - reflexivity.
  - cbn. lia.
Defined.

(** [constant 0; return], at [return]. *)
Definition return_sample : result (gcc_jit_rvalue * Z * frame * comp_t) :=
  Eval vm_compute in at_operation constant_code [Lisp_fixnum 3] 1 1 comp_initial.

Lemma X17_return_witness :
  let r := return_sample in
  let s := sample_state r in
  let fr := sample_frame r in
  let e := sample_slot s 0 in
  exists fr' s' L,
    compile_op emacs_x86_64 "f" 2 (SDATA constant_code) [Lisp_fixnum 3] 1 (sample_nil r)
      (sample_op r) fr s
    = Ok (fr', s') /\
    pc fr' = pc fr /\ stack fr' = stack fr - 1 /\
    ctxt s' = ctxt s ++ L /\
    statements L
    = [block_end_with_return (gcc_bb (sample_block s)) (Lvalue_as_rvalue (gcc_lval e))] /\
    bb_map s' = terminate_block (bb_map s) 1 /\
    block s' = block s /\ stack_base s' = stack_base s /\
    forall m x m1,
      eval_rvalue emacs_x86_64 null_address_of null_host m (Lvalue_as_rvalue (gcc_lval e))
      = Some (x, m1) ->
      exec_code emacs_x86_64 null_address_of null_host L m = Some (Returns (Some x), m1).
Proof.
  cbv zeta.
  apply (X17_return emacs_x86_64 "f" 2 (SDATA constant_code) [Lisp_fixnum 3] 1
           null_address_of null_host (sample_nil return_sample) (sample_op return_sample)
           (sample_frame return_sample) (sample_state return_sample)
           (sample_block (sample_state return_sample)) 1
           (sample_slot (sample_state return_sample) 0)).
  - reflexivity.
  - reflexivity.
  - reflexivity.
  - reflexivity.
  - cbn. lia.
Defined.

(** The frame and the state after [constant 0] of [constant 0; return]:
    the translator is about to fetch [return]. *)
Definition after_constant : result (frame * comp_t) :=
  Eval vm_compute in
    compile_op emacs_x86_64 "f" 2 (SDATA constant_code) [Lisp_fixnum 3] 1
      (sample_nil constant_sample) (sample_op constant_sample)
      (sample_frame constant_sample) (sample_state constant_sample).
Definition after_constant_frame : frame :=
  match after_constant with Ok (fr, _) => fr | _ => sample_frame constant_sample end.
Definition after_constant_state : comp_t :=
  match after_constant with Ok (_, s) => s | _ => comp_initial end.

Lemma X18_fetch_op_witness :
  let s := after_constant_state in
  let fr := after_constant_frame in
  let b := sample_block_at s 0 in
  let here := sample_block_at s 1 in
  exists fr' s',
    fetch_op (SDATA constant_code) fr s = Ok ((135, fr'), s') /\
    pc fr' = pc fr + 1 /\
    stack fr' = default (stack fr) (bb_top here) /\
    args fr' = args fr /\
    block s' = Some (in_bb_map (pc fr)) /\
    ctxt s'
    = ctxt s ++ (if falls_through b here
                 then [block_end_with_jump (gcc_bb b) (gcc_bb here)] else []) /\
    bb_map s'
    = (if falls_through b here then terminate_block (bb_map s) 0 else bb_map s) /\
    stack_base s' = stack_base s.
Proof.
  cbv zeta.
  apply (X18_fetch_op (SDATA constant_code) after_constant_frame after_constant_state 0
           (sample_block_at after_constant_state 0) (sample_block_at after_constant_state 1)
           135).
  - reflexivity.
  - reflexivity.
  - reflexivity.
  - reflexivity.
Defined.

(** [constant 0; dup; return], at [dup]. *)
Definition dup_code : list Z := [192; 137; 135].
Definition dup_sample : result (gcc_jit_rvalue * Z * frame * comp_t) :=
  Eval vm_compute in at_operation dup_code [Qnil] 2 1 comp_initial.

Lemma X19_stack_ref_witness :
  let r := dup_sample in
  let s := sample_state r in
  let fr := sample_frame r in
  exists fr' s' L,
    compile_op emacs_x86_64 "f" 3 (SDATA dup_code) [Qnil] 1 (sample_nil r) (sample_op r) fr s
    = Ok (fr', s') /\
    pc fr' = pc fr /\ stack fr' = stack fr + 1 /\
    ctxt s' = ctxt s ++ L /\
    statements L
    = [block_add_assignment (gcc_bb (sample_block s)) (gcc_lval (sample_slot s 1))
         (Lvalue_as_rvalue (gcc_lval (sample_slot s 0)))] /\
    stack_base s' = <[Z.to_nat (stack fr) := assigned (sample_slot s 1)]> (stack_base s) /\
    bb_map s' = bb_map s /\ block s' = block s.
Proof.
  cbv zeta.
  apply (X19_stack_ref emacs_x86_64 "f" 3 (SDATA dup_code) [Qnil] 1 (sample_nil dup_sample)
           (sample_op dup_sample) (sample_frame dup_sample) (sample_state dup_sample)
           (sample_block (sample_state dup_sample)) 1 Bdup 0
           (sample_slot (sample_state dup_sample) 0)
           (sample_slot (sample_state dup_sample) 1)).
  - reflexivity.
  - reflexivity.
  - reflexivity.
  - reflexivity.
  - reflexivity.
  - reflexivity.
Defined.

(** [constant 0; constant 0; discardN 128; return], at [discardN]. *)
Definition discardN_code : list Z := [192; 192; 182; 128; 135].
Definition discardN_sample : result (gcc_jit_rvalue * Z * frame * comp_t) :=
  Eval vm_compute in at_operation discardN_code [Qnil] 2 2 comp_initial.

Lemma X20_discardN_witness :
  let r := discardN_sample in
  let s := sample_state r in
  let fr := sample_frame r in
  exists fr' s' L,
    compile_op emacs_x86_64 "f" 5 (SDATA discardN_code) [Qnil] 1 (sample_nil r) (sample_op r)
      fr s
    = Ok (fr', s') /\
    pc fr' = pc fr + 1 /\ stack fr' = stack fr - Z.land 128 127 - 1 /\
    ctxt s' = ctxt s ++ L /\
    statements L
    = [block_add_assignment (gcc_bb (sample_block s)) (gcc_lval (sample_slot s 0))
         (Lvalue_as_rvalue (gcc_lval (sample_slot s 1)))] /\
    stack_base s'
    = <[Z.to_nat (stack fr - Z.land 128 127 - 2) := assigned (sample_slot s 0)]>
        (stack_base s).
Proof.
  cbv zeta.
  refine (proj1 (proj2 (X20_discardN emacs_x86_64 "f" 5 (SDATA discardN_code) [Qnil] 1
                          (sample_nil discardN_sample) (sample_op discardN_sample)
                          (sample_frame discardN_sample) (sample_state discardN_sample)
                          (sample_block (sample_state discardN_sample)) 2 128
                          eq_refl eq_refl eq_refl eq_refl)
                   _ (sample_slot (sample_state discardN_sample) 1) eq_refl _)
            (sample_slot (sample_state discardN_sample) 0) eq_refl).
  - discriminate.
  - cbn. lia.
Defined.

(** [constant 0; car; return], at [car]. *)
Definition car_code : list Z := [192; 64; 135].
Definition car_sample : result (gcc_jit_rvalue * Z * frame * comp_t) :=
  Eval vm_compute in at_operation car_code [Qnil] 1 1 comp_initial.

Lemma X21_call_inline_witness :
  let r := car_sample in
  let s := sample_state r in
  let fr := sample_frame r in
  exists fr' s',
    compile_op emacs_x86_64 "f" 3 (SDATA car_code) [Qnil] 1 (sample_nil r) (sample_op r) fr s
    = Ok (fr', s') /\
    stack fr' = stack fr - Z.of_nat 1 + 1 /\ pc fr' = pc fr /\
    ctxt s'
    = ctxt s ++ [block_add_assignment (gcc_bb (sample_block s)) (gcc_lval (sample_slot s 0))
                   (Call CAR_function
                      (map (fun e => Lvalue_as_rvalue (gcc_lval e)) [sample_slot s 0]))] /\
    func_hash s' = func_hash s.
Proof.
  cbv zeta.
  apply (X21_call_inline emacs_x86_64 "f" 3 (SDATA car_code) [Qnil] 1 (sample_nil car_sample)
           (sample_op car_sample) (sample_frame car_sample) (sample_state car_sample)
           (sample_block (sample_state car_sample)) Bcar car 1%nat
           [sample_slot (sample_state car_sample) 0]
           (sample_slot (sample_state car_sample) 0) CAR_function).
  - unfold inline_table. repeat constructor.
  - reflexivity.
  - reflexivity.
  - split; [exists 1; split; reflexivity|].
    split; [split; [reflexivity|exact I]|].
    split; [reflexivity|].
    split; [cbn; lia|].
    cbn. hash_names.
  - reflexivity.
Defined.

(** [constant 0; constant 0; plus; return], at [plus]. *)
Definition plus_code : list Z := [192; 192; 92; 135].
Definition plus_sample : result (gcc_jit_rvalue * Z * frame * comp_t) :=
  Eval vm_compute in at_operation plus_code [Lisp_fixnum 3] 2 2 comp_initial.

Lemma X22_call_n_ref_witness :
  let r := plus_sample in
  let s := sample_state r in
  let fr := sample_frame r in
  let e := sample_slot s 0 in
  exists fr' s' f L,
    compile_op emacs_x86_64 "f" 4 (SDATA plus_code) [Lisp_fixnum 3] 1 (sample_nil r)
      (sample_op r) fr s
    = Ok (fr', s') /\
    stack fr' = stack fr - 2 + 1 /\ pc fr' = pc fr /\ args fr' = args fr /\
    function_name f = "Fplus" /\
    ctxt s' = ctxt s ++ L /\
    statements L
    = [block_add_assignment (gcc_bb (sample_block s)) (gcc_lval e)
         (Call f [Rvalue_from_int (ptrdiff_type emacs_x86_64) 2; Get_address (gcc_lval e)])].
Proof.
  cbv zeta.
  apply (X22_call_n_ref emacs_x86_64 "f" 4 (SDATA plus_code) [Lisp_fixnum 3] 1
           (sample_nil plus_sample) (sample_op plus_sample) (sample_frame plus_sample)
           (sample_state plus_sample) (sample_block (sample_state plus_sample)) 2 Bplus
           "Fplus" 2 (sample_slot (sample_state plus_sample) 0)).
  - unfold call_n_ref_table. repeat constructor.
  - reflexivity.
  - reflexivity.
  - reflexivity.
  - reflexivity.
  - cbn. hash_names.
Defined.

Lemma X24_block_leaders_witness :
  exists scanned,
    compute_blocks_scan emacs_x86_64 (Z.to_nat 8) 8 (SDATA gotoifnil_code) 0 true []
    = Ok scanned /\
    StronglySorted int_lt [0; 4; 6] /\
    (forall x, x ∈ [0; 4; 6] <-> x ∈ scanned) /\
    Forall is_unsigned [0; 4; 6].
Proof.
  apply (proj2 (X24_block_leaders emacs_x86_64 8 (SDATA gotoifnil_code)) [0; 4; 6]).
  reflexivity.
Defined.

(** * Variables, comparisons and positions *)

(** The operations that read a position of the buffer: the value of
    the host that the translator reads. *)
Definition point_table : list (bytecode * (headers -> Z)) :=
  [ (Bpoint, PT); (Bpoint_max, ZV); (Bpoint_min, BEGV) ].

(** The comparisons of numbers, each with its code. *)
Definition arithcompare_table : list (bytecode * (headers -> Z)) :=
  [ (Beqlsign, ARITH_EQUAL); (Bgtr, ARITH_GRTR); (Blss, ARITH_LESS);
    (Bleq, ARITH_LESS_OR_EQUAL); (Bgeq, ARITH_GRTR_OR_EQUAL) ].

(** The operations on a variable whose index is in the operation
    byte; for those that take a value, the first operation of the
    family and whether the variable is set rather than bound. *)
Definition varref_table : list bytecode :=
  [ Bvarref; Bvarref1; Bvarref2; Bvarref3; Bvarref4; Bvarref5 ].
Definition varset_varbind_table : list (bytecode * bytecode * bool) :=
  [ (Bvarset, Bvarset, true); (Bvarset1, Bvarset, true); (Bvarset2, Bvarset, true);
    (Bvarset3, Bvarset, true); (Bvarset4, Bvarset, true); (Bvarset5, Bvarset, true);
    (Bvarbind, Bvarbind, false); (Bvarbind1, Bvarbind, false); (Bvarbind2, Bvarbind, false);
    (Bvarbind3, Bvarbind, false); (Bvarbind4, Bvarbind, false);
    (Bvarbind5, Bvarbind, false) ].

Section variables.

Context (H : headers).
Context (lisp_f_name : string) (bytestr_length : Z) (bytestr_data : list Z).
Context (vectorp : list Lisp_Object) (vector_size : Z).

(** X25.  [Bpoint], [Bpoint_max] and [Bpoint_min] push the result of
    a call to [make_fixed_natnum] on a constant: the value that [PT],
    [ZV] or [BEGV] has in the host when the function is translated,
    not when the code runs.  The constant is that value as libgccjit
    receives it, in an [int]: a position that an [int] holds is passed
    as it is, and one of 2^31 or more is truncated. *)
Theorem X25_point nil op fr s b0 b value dst :
  (b, value) ∈ point_table ->
  decode H op = Some b ->
  ready [] dst b0 fr s ->
  exists fr' s' f L,
    compile_op H lisp_f_name bytestr_length bytestr_data vectorp vector_size nil op fr s
    = Ok (fr', s') /\
    stack fr' = stack fr + 1 /\ pc fr' = pc fr /\
    function_name f = "make_fixed_natnum" /\
    ctxt s' = ctxt s ++ L /\
    statements L
    = [block_add_assignment (gcc_bb b0) (gcc_lval dst)
         (Call f [Rvalue_from_int (ptrdiff_type H) (to_signed 32 (value H))])].
Proof.
  intros Hin Hdec ([cur [Hb Hb0]] & _ & Hdst & Hargs & Hok).
  destruct s as [ctxt0 objs f0 blk h pv btl car0 cdr0 scar scdr ctype cimp ci cj bbm allo
                   stk].
  destruct fr as [pc0 st0 args0 phn]. destruct b0 as [bb0 top0 term0].
  destruct dst as [dlv dty dc dcs].
  cbn in Hb, Hb0, Hdst, Hargs, Hok. subst blk. rewrite Z.sub_0_r in Hdst.
  apply array_get_inv in Hdst as Hdst'.
  unfold compile_op. rewrite Hdec. clear Hdec. unfold point_table in Hin.
  repeat (apply elem_of_cons in Hin as [[= -> ->]|Hin];
          [cbv beta iota; unfold make_fixed_natnum; munfold; mrewrite;
           use_emit_call Hf; munfold; mrewrite;
           (eexists _, _, f, _; split; [reflexivity|]; cbn;
            split; [lia|]; split; [done|]; split; [done|];
            split; [rewrite <- ?app_assoc; reflexivity|]; reflexivity)|]).
  by apply elem_of_nil in Hin.
Qed.

(** X26.  A comparison of numbers pops two values and pushes the
    result of a call to [arithcompare] on them and on the code of the
    comparison. *)
Theorem X26_arithcompare nil op fr s b0 b code e1 e2 :
  (b, code) ∈ arithcompare_table ->
  decode H op = Some b ->
  ready [e1; e2] e1 b0 fr s ->
  (3 <= length (args fr))%nat ->
  exists fr' s' f L,
    compile_op H lisp_f_name bytestr_length bytestr_data vectorp vector_size nil op fr s
    = Ok (fr', s') /\
    stack fr' = stack fr - 1 /\ pc fr' = pc fr /\
    function_name f = "arithcompare" /\
    ctxt s' = ctxt s ++ L /\
    statements L
    = [block_add_assignment (gcc_bb b0) (gcc_lval e1)
         (Call f [Lvalue_as_rvalue (gcc_lval e1); Lvalue_as_rvalue (gcc_lval e2);
                  Rvalue_from_int int_type (code H)])].
Proof.
  intros Hin Hdec ([cur [Hb Hb0]] & Hes & Hdst & _ & Hok) Hargs.
  destruct s as [ctxt0 objs f0 blk h pv btl car0 cdr0 scar scdr ctype cimp ci cj bbm allo
                   stk].
  destruct fr as [pc0 st0 args0 phn]. destruct b0 as [bb0 top0 term0].
  destruct e1 as [lv1 ty1 c1 cs1]. destruct e2 as [lv2 ty2 c2 cs2].
  cbn in Hb, Hb0, Hes, Hdst, Hargs, Hok. subst blk. destruct Hes as (He1 & He2 & _).
  apply array_get_inv in Hdst as Hdst'.
  unfold compile_op. rewrite Hdec. clear Hdec. unfold arithcompare_table in Hin.
  repeat (apply elem_of_cons in Hin as [[= -> ->]|Hin];
          [cbv beta iota; munfold; mrewrite; use_emit_call Hf; munfold; mrewrite;
           (eexists _, _, f, _; split; [reflexivity|]; cbn;
            split; [lia|]; split; [done|]; split; [done|];
            split; [rewrite <- ?app_assoc; reflexivity|]; reflexivity)|]).
  by apply elem_of_nil in Hin.
Qed.

(** The local that holds the variable and the frame of an operation on
    it are ready. *)
Definition variable_ready (k : Lisp_Object) (s : comp_t) : Prop :=
  is_Some (func s) /\
  fits ("lisp_obj_from_ptr_" +:+ pretty (emit_lisp_obj_from_ptr_i s)) /\
  (forall str, symbol_comment (ptr_obj k) = Some str -> fits str).

(** X27.  [Bvarref] to [Bvarref5] push the result of a call to
    [Fsymbol_value] on the constant of index [op - Bvarref], which a
    new local holds. *)
Theorem X27_varref nil op fr s b0 b k dst :
  b ∈ varref_table ->
  decode H op = Some b ->
  ready [] dst b0 fr s ->
  variable_ready k s ->
  array_get "vectorp" vectorp (op - byte_of H Bvarref) = Ok k ->
  exists fr' s' f L,
    compile_op H lisp_f_name bytestr_length bytestr_data vectorp vector_size nil op fr s
    = Ok (fr', s') /\
    stack fr' = stack fr + 1 /\ pc fr' = pc fr /\
    function_name f = "Fsymbol_value" /\
    ctxt s' = ctxt s ++ L /\
    statements L
    = [block_add_assignment (gcc_bb b0)
         (Lvalue_access_field (lisp_obj_local s) (lisp_obj_as_ptr H))
         (Rvalue_from_ptr void_ptr_type (ptr_obj k));
       block_add_assignment (gcc_bb b0) (gcc_lval dst)
         (Call f [Lvalue_as_rvalue (lisp_obj_local s)])].
Proof.
  intros Hin Hdec ([cur [Hb Hb0]] & _ & Hdst & Hargs & Hok) ([f1 Hf1] & Hfit & Hsym) Hk.
  destruct s as [ctxt0 objs f0 blk h pv btl car0 cdr0 scar scdr ctype cimp ci cj bbm allo
                   stk].
  destruct fr as [pc0 st0 args0 phn]. destruct b0 as [bb0 top0 term0].
  destruct dst as [dlv dty dc dcs].
  cbn in Hb, Hb0, Hdst, Hargs, Hok, Hf1, Hfit. subst blk f0. rewrite Z.sub_0_r in Hdst.
  apply array_get_inv in Hdst as Hdst'.
  unfold compile_op. rewrite Hdec. clear Hdec. unfold varref_table in Hin.
  unfold symbol_comment in Hsym.
  destruct (SYMBOLP k) eqn:Esym; [specialize (Hsym _ eq_refl)|clear Hsym].
  - repeat (apply elem_of_cons in Hin as [->|Hin];
            [cbv beta iota; unfold varref;
             repeat (progress (munfold; mrewrite; rewrite ?Esym; rewrite ?Hb0));
             use_emit_call Hf; munfold; mrewrite;
             (eexists _, _, f, _; split; [reflexivity|]; cbn;
              split; [lia|]; split; [done|]; split; [done|];
              split; [rewrite <- ?app_assoc; reflexivity|]; reflexivity)|]).
    by apply elem_of_nil in Hin.
  - repeat (apply elem_of_cons in Hin as [->|Hin];
            [cbv beta iota; unfold varref;
             repeat (progress (munfold; mrewrite; rewrite ?Esym; rewrite ?Hb0));
             use_emit_call Hf; munfold; mrewrite;
             (eexists _, _, f, _; split; [reflexivity|]; cbn;
              split; [lia|]; split; [done|]; split; [done|];
              split; [rewrite <- ?app_assoc; reflexivity|]; reflexivity)|]).
    by apply elem_of_nil in Hin.
Qed.

(** X28.  [Bvarset] to [Bvarset5] and [Bvarbind] to [Bvarbind5] pop
    the value and push the result of the call they emit, to
    [set_internal] on the constant of that index, the value, nil and
    [SET_INTERNAL_SET], or to [specbind] on the constant and the value:
    the stack is as high after the operation as before it. *)
Theorem X28_varset_varbind nil op fr s b0 b first (set : bool) k e :
  (b, first, set) ∈ varset_varbind_table ->
  decode H op = Some b ->
  ready [e] e b0 fr s ->
  (4 <= length (args fr))%nat ->
  variable_ready k s ->
  array_get "vectorp" vectorp (op - byte_of H first) = Ok k ->
  exists fr' s' f L,
    compile_op H lisp_f_name bytestr_length bytestr_data vectorp vector_size nil op fr s
    = Ok (fr', s') /\
    stack fr' = stack fr /\ pc fr' = pc fr /\
    function_name f = (if set then "set_internal" else "specbind") /\
    ctxt s' = ctxt s ++ L /\
    statements L
    = [block_add_assignment (gcc_bb b0)
         (Lvalue_access_field (lisp_obj_local s) (lisp_obj_as_ptr H))
         (Rvalue_from_ptr void_ptr_type (ptr_obj k));
       block_add_assignment (gcc_bb b0) (gcc_lval e)
         (Call f (if set
                  then [Lvalue_as_rvalue (lisp_obj_local s); Lvalue_as_rvalue (gcc_lval e);
                        nil; Rvalue_from_int int_type (SET_INTERNAL_SET H)]
                  else [Lvalue_as_rvalue (lisp_obj_local s);
                        Lvalue_as_rvalue (gcc_lval e)]))].
Proof.
  intros Hin Hdec ([cur [Hb Hb0]] & Hes & Hdst & _ & Hok) Hargs ([f1 Hf1] & Hfit & Hsym) Hk.
  destruct s as [ctxt0 objs f0 blk h pv btl car0 cdr0 scar scdr ctype cimp ci cj bbm allo
                   stk].
  destruct fr as [pc0 st0 args0 phn]. destruct b0 as [bb0 top0 term0].
  destruct e as [lv ty c cs].
  cbn in Hb, Hb0, Hes, Hdst, Hargs, Hok, Hf1, Hfit. subst blk f0. destruct Hes as [He _].
  apply array_get_inv in Hdst as Hdst'.
  unfold compile_op. rewrite Hdec. clear Hdec.
  unfold varset_varbind_table in Hin.
  unfold symbol_comment in Hsym.
  destruct (SYMBOLP k) eqn:Esym; [specialize (Hsym _ eq_refl)|clear Hsym].
  - repeat (apply elem_of_cons in Hin as [[= -> -> ->]|Hin];
            [cbv beta iota; unfold varset, varbind;
             repeat (progress (munfold; mrewrite; rewrite ?Esym; rewrite ?Hb0));
             use_emit_call Hf; munfold; mrewrite;
             (eexists _, _, f, _; split; [reflexivity|]; cbn;
              split; [lia|]; split; [done|]; split; [done|];
              split; [rewrite <- ?app_assoc; reflexivity|]; reflexivity)|]).
    by apply elem_of_nil in Hin.
  - repeat (apply elem_of_cons in Hin as [[= -> -> ->]|Hin];
            [cbv beta iota; unfold varset, varbind;
             repeat (progress (munfold; mrewrite; rewrite ?Esym; rewrite ?Hb0));
             use_emit_call Hf; munfold; mrewrite;
             (eexists _, _, f, _; split; [reflexivity|]; cbn;
              split; [lia|]; split; [done|]; split; [done|];
              split; [rewrite <- ?app_assoc; reflexivity|]; reflexivity)|]).
    by apply elem_of_nil in Hin.
Qed.

End variables.

(** [point; return], at [point]. *)
Definition point_code : list Z := [96; 135].
Definition point_sample : result (gcc_jit_rvalue * Z * frame * comp_t) :=
  Eval vm_compute in at_operation point_code [] 1 0 comp_initial.

Lemma X25_point_witness :
  let r := point_sample in
  let s := sample_state r in
  let fr := sample_frame r in
  exists fr' s' f L,
    compile_op emacs_x86_64 "f" 2 (SDATA point_code) [] 0 (sample_nil r) (sample_op r) fr s
    = Ok (fr', s') /\
    stack fr' = stack fr + 1 /\ pc fr' = pc fr /\
    function_name f = "make_fixed_natnum" /\
    ctxt s' = ctxt s ++ L /\
    statements L
    = [block_add_assignment (gcc_bb (sample_block s)) (gcc_lval (sample_slot s 0))
         (Call f [Rvalue_from_int (ptrdiff_type emacs_x86_64)
                    (to_signed 32 (PT emacs_x86_64))])].
Proof.
  cbv zeta.
  apply (X25_point emacs_x86_64 "f" 2 (SDATA point_code) [] 0 (sample_nil point_sample)
           (sample_op point_sample) (sample_frame point_sample) (sample_state point_sample)
           (sample_block (sample_state point_sample)) Bpoint PT
           (sample_slot (sample_state point_sample) 0)).
  - unfold point_table. repeat constructor.
  - reflexivity.
  - split; [exists 0; split; reflexivity|].
    split; [exact I|].
    split; [reflexivity|].
    split; [cbn; lia|].
    cbn. hash_names.
Defined.

(** [constant 0; constant 0; eqlsign; return], at [eqlsign]. *)
Definition eqlsign_code : list Z := [192; 192; 85; 135].
Definition eqlsign_sample : result (gcc_jit_rvalue * Z * frame * comp_t) :=
  Eval vm_compute in at_operation eqlsign_code [Lisp_fixnum 3] 2 2 comp_initial.

Lemma X26_arithcompare_witness :
  let r := eqlsign_sample in
  let s := sample_state r in
  let fr := sample_frame r in
  let e1 := sample_slot s 0 in
  let e2 := sample_slot s 1 in
  exists fr' s' f L,
    compile_op emacs_x86_64 "f" 4 (SDATA eqlsign_code) [Lisp_fixnum 3] 1 (sample_nil r)
      (sample_op r) fr s
    = Ok (fr', s') /\
    stack fr' = stack fr - 1 /\ pc fr' = pc fr /\
    function_name f = "arithcompare" /\
    ctxt s' = ctxt s ++ L /\
    statements L
    = [block_add_assignment (gcc_bb (sample_block s)) (gcc_lval e1)
         (Call f [Lvalue_as_rvalue (gcc_lval e1); Lvalue_as_rvalue (gcc_lval e2);
                  Rvalue_from_int int_type (ARITH_EQUAL emacs_x86_64)])].
Proof.
  cbv zeta.
  apply (X26_arithcompare emacs_x86_64 "f" 4 (SDATA eqlsign_code) [Lisp_fixnum 3] 1
           (sample_nil eqlsign_sample) (sample_op eqlsign_sample)
           (sample_frame eqlsign_sample) (sample_state eqlsign_sample)
           (sample_block (sample_state eqlsign_sample)) Beqlsign ARITH_EQUAL
           (sample_slot (sample_state eqlsign_sample) 0)
           (sample_slot (sample_state eqlsign_sample) 1)).
  - unfold arithcompare_table. repeat constructor.
  - reflexivity.
  - split; [exists 2; split; reflexivity|].
    split; [split; [reflexivity|split; [reflexivity|exact I]]|].
    split; [reflexivity|].
    split; [cbn; lia|].
    cbn. hash_names.
  - cbn. lia.
Defined.

(** [varref 0; return], at [varref 0]. *)
Definition varref_code : list Z := [8; 135].
Definition varref_sample : result (gcc_jit_rvalue * Z * frame * comp_t) :=
  Eval vm_compute in at_operation varref_code [Qnil] 1 0 comp_initial.

Lemma X27_varref_witness :
  let r := varref_sample in
  let s := sample_state r in
  let fr := sample_frame r in
  exists fr' s' f L,
    compile_op emacs_x86_64 "f" 2 (SDATA varref_code) [Qnil] 1 (sample_nil r) (sample_op r)
      fr s
    = Ok (fr', s') /\
    stack fr' = stack fr + 1 /\ pc fr' = pc fr /\
    function_name f = "Fsymbol_value" /\
    ctxt s' = ctxt s ++ L /\
    statements L
    = [block_add_assignment (gcc_bb (sample_block s))
         (Lvalue_access_field (lisp_obj_local s) (lisp_obj_as_ptr emacs_x86_64))
         (Rvalue_from_ptr void_ptr_type (ptr_obj Qnil));
       block_add_assignment (gcc_bb (sample_block s)) (gcc_lval (sample_slot s 0))
         (Call f [Lvalue_as_rvalue (lisp_obj_local s)])].
Proof.
  cbv zeta.
  apply (X27_varref emacs_x86_64 "f" 2 (SDATA varref_code) [Qnil] 1
           (sample_nil varref_sample) (sample_op varref_sample)
           (sample_frame varref_sample) (sample_state varref_sample)
           (sample_block (sample_state varref_sample)) Bvarref Qnil
           (sample_slot (sample_state varref_sample) 0)).
  - unfold varref_table. repeat constructor.
  - reflexivity.
  - split; [exists 0; split; reflexivity|].
    split; [exact I|].
    split; [reflexivity|].
    split; [cbn; lia|].
    cbn. hash_names.
  - split; [by eexists|]. split; [vm_compute; reflexivity|].
    intros str [= <-]. vm_compute. reflexivity.
  - reflexivity.
Defined.

(** [constant 0; varset 0; return], at [varset 0]. *)
Definition varset_code : list Z := [192; 16; 135].
Definition varset_sample : result (gcc_jit_rvalue * Z * frame * comp_t) :=
  Eval vm_compute in at_operation varset_code [Qnil] 1 1 comp_initial.

Lemma X28_varset_varbind_witness :
  let r := varset_sample in
  let s := sample_state r in
  let fr := sample_frame r in
  let e := sample_slot s 0 in
  exists fr' s' f L,
    compile_op emacs_x86_64 "f" 3 (SDATA varset_code) [Qnil] 1 (sample_nil r) (sample_op r)
      fr s
    = Ok (fr', s') /\
    stack fr' = stack fr /\ pc fr' = pc fr /\
    function_name f = (if true then "set_internal" else "specbind") /\
    ctxt s' = ctxt s ++ L /\
    statements L
    = [block_add_assignment (gcc_bb (sample_block s))
         (Lvalue_access_field (lisp_obj_local s) (lisp_obj_as_ptr emacs_x86_64))
         (Rvalue_from_ptr void_ptr_type (ptr_obj Qnil));
       block_add_assignment (gcc_bb (sample_block s)) (gcc_lval e)
         (Call f (if true
                  then [Lvalue_as_rvalue (lisp_obj_local s); Lvalue_as_rvalue (gcc_lval e);
                        sample_nil r;
                        Rvalue_from_int int_type (SET_INTERNAL_SET emacs_x86_64)]
                  else [Lvalue_as_rvalue (lisp_obj_local s);
                        Lvalue_as_rvalue (gcc_lval e)]))].
Proof.
  cbv zeta.
  apply (X28_varset_varbind emacs_x86_64 "f" 3 (SDATA varset_code) [Qnil] 1
           (sample_nil varset_sample) (sample_op varset_sample)
           (sample_frame varset_sample) (sample_state varset_sample)
           (sample_block (sample_state varset_sample)) Bvarset Bvarset true Qnil
           (sample_slot (sample_state varset_sample) 0)).
  - unfold varset_varbind_table. repeat constructor.
  - reflexivity.
  - split; [exists 1; split; reflexivity|].
    split; [split; [reflexivity|exact I]|].
    split; [reflexivity|].
    split; [cbn; lia|].
    cbn. hash_names.
  - cbn. lia.
  - split; [by eexists|]. split; [vm_compute; reflexivity|].
    intros str [= <-]. vm_compute. reflexivity.
  - reflexivity.
Defined.

(** * The map of the basic blocks *)

(** The number of the leaders up to [pc]: the number of the block that
    [pc] is in. *)
Definition block_index (leaders : list Z) (pc : Z) : nat :=
  length (filter (fun x => x <= pc) leaders).

Lemma block_index_all l pc :
  Forall (fun x => x <= pc) l -> block_index l pc = length l.
Proof.
  unfold block_index. induction 1 as [|x l Hx Hl IH]; [done|].
  rewrite filter_cons. case_decide; [|done]. cbn. by rewrite IH.
Qed.

Lemma block_index_none l pc :
  Forall (fun x => pc < x) l -> block_index l pc = 0%nat.
Proof.
  unfold block_index. induction 1 as [|x l Hx Hl IH]; [done|].
  rewrite filter_cons. case_decide; [lia|done].
Qed.

Lemma block_index_split leaders pc (i : nat) :
  Forall (fun x => x <= pc) (take i leaders) ->
  Forall (fun x => pc < x) (drop i leaders) ->
  (i <= length leaders)%nat ->
  block_index leaders pc = i.
Proof.
  intros Ht Hd Hi.
  pose proof (block_index_all _ _ Ht) as H1. pose proof (block_index_none _ _ Hd) as H2.
  unfold block_index in *.
  rewrite <- (take_drop i leaders) at 1. rewrite filter_app, length_app.
  rewrite H1, H2, length_take. lia.
Qed.

(** In a list in increasing order, what follows an element is above
    it. *)
Lemma sorted_above (l : list Z) (i : nat) x :
  StronglySorted Z.lt l -> l !! i = Some x -> Forall (fun y => x < y) (drop (S i) l).
Proof.
  intros Hs. revert i. induction Hs as [|y l Hl IH Hy]; intros i Hi; [done|].
  destruct i as [|i]; cbn in Hi |- *.
  - injection Hi as <-. by rewrite drop_0.
  - by apply IH.
Qed.

(** A block made by the sweep for the function [f]: the block number
    [n], not terminated, with no height of the stack recorded. *)
Definition fresh_block (f : gcc_jit_function) (n : nat) (b : basic_block_t) : Prop :=
  bb_top b = None /\ terminated b = false /\
  block_function (gcc_bb b) = function_id f /\
  block_name (gcc_bb b) = "bb_" +:+ pretty n.

Lemma compute_blocks_sweep_spec f leaders : forall turns pc (i : nat) curr m s,
  func s = Some f ->
  StronglySorted Z.lt leaders ->
  0 <= pc -> pc + Z.of_nat turns <= 2 ^ 32 ->
  (forall k, (k <= length leaders)%nat -> fits ("bb_" +:+ pretty k)) ->
  (i <= length leaders)%nat ->
  Forall (fun x => x < pc) (take i leaders) ->
  Forall (fun x => pc <= x) (drop i leaders) ->
  match curr with
  | Some c => fresh_block f i c
  | None => leaders !! i = Some pc
  end ->
  exists m' s',
    compute_blocks_sweep turns pc i leaders curr m s = Ok (m ++ m', s') /\
    length m' = turns /\ func s' = Some f /\
    forall (j : nat) b, m' !! j = Some b ->
      fresh_block f (block_index leaders (pc + Z.of_nat j)) b.
Proof.
  induction turns as [|turns IH]; intros pc i curr m s Hf Hs Hpc Hmax Hfit Hi Ht Hd Hcurr.
  - exists [], s. cbn. rewrite app_nil_r. repeat split; try done.
  - cbn [compute_blocks_sweep].
    assert (to_unsigned 32 pc = pc) as ->.
    { unfold to_unsigned. apply Z.mod_small. lia. }
    assert (Forall (fun x => x <= pc) (take i leaders)) as Ht'.
    { eapply Forall_impl; [exact Ht|]. intros x Hx. cbn in Hx. lia. }
    case_bool_decide as Hlead.
    + (* a new block *)
      assert (Forall (fun y => pc < y) (drop (S i) leaders)) as Hd'
        by (by apply sorted_above).
      assert (S i <= length leaders)%nat as Hi'.
      { apply lookup_lt_Some in Hlead. lia. }
      assert (Forall (fun x => x <= pc) (take (S i) leaders)) as Ht''.
      { rewrite (take_S_r _ _ pc) by done. apply Forall_app. split; [done|].
        constructor; [lia|done]. }
      destruct s as [ctxt0 objs f0 blk h pv btl car0 cdr0 scar scdr ctype cimp ci cj bbm
                       allo stk].
      cbn in Hf. subst f0.
      munfold. rewrite (format_string_Ok _ _ (Hfit (S i) Hi')). munfold.
      set (b := {| gcc_bb := {| block_id := objs; block_function := function_id f;
                                 block_name := "bb_" +:+ pretty (S i) |};
                   bb_top := None; terminated := false |}).
      match goal with
      | |- context [compute_blocks_sweep _ _ _ _ _ _ ?s1] =>
          destruct (IH (pc + 1) (S i) (Some b) (m ++ [b]) s1)
            as (m' & s' & Hrun & Hlen & Hf' & Hm');
          [reflexivity | exact Hs | lia | lia | exact Hfit | exact Hi' | | | | ]
      end.
      * eapply Forall_impl; [exact Ht''|]. intros x Hx. cbn in Hx. lia.
      * eapply Forall_impl; [exact Hd'|]. intros x Hx. cbn in Hx. lia.
      * repeat split.
      * exists (b :: m'), s'. rewrite Hrun. rewrite <- app_assoc.
        split; [reflexivity|]. split; [cbn; lia|]. split; [done|].
        intros [|j] b' Hb'.
        -- injection Hb' as <-. rewrite Z.add_0_r.
           rewrite (block_index_split leaders pc (S i)) by done. repeat split.
        -- replace (pc + Z.of_nat (S j)) with (pc + 1 + Z.of_nat j) by lia.
           by apply Hm'.
    + (* the block of the bytes before *)
      destruct curr as [c|]; [|done].
      assert (Forall (fun y => pc < y) (drop i leaders)) as Hd'.
      { destruct (leaders !! i) as [x|] eqn:Ex.
        - rewrite (drop_S _ x) in * by done.
          apply Forall_cons in Hd as [Hx Hd]. constructor.
          + assert (x <> pc) by congruence. lia.
          + pose proof (sorted_above _ _ _ Hs Ex) as Ha.
            eapply Forall_impl; [exact Ha|]. intros y Hy. cbn in Hy. lia.
        - rewrite drop_ge; [done|]. by apply lookup_ge_None. }
      cbv [bind ret deref].
      edestruct (IH (pc + 1) i (Some c) (m ++ [c]) s) as (m' & s' & Hrun & Hlen & Hf' & Hm');
        [exact Hf | exact Hs | lia | lia | exact Hfit | exact Hi | | | exact Hcurr | ].
      * eapply Forall_impl; [exact Ht'|]. intros x Hx. cbn in Hx. lia.
      * eapply Forall_impl; [exact Hd'|]. intros x Hx. cbn in Hx. lia.
      * exists (c :: m'), s'. rewrite Hrun. rewrite <- app_assoc.
        split; [reflexivity|]. split; [cbn; lia|]. split; [done|].
        intros [|j] b' Hb'.
        -- injection Hb' as <-. rewrite Z.add_0_r.
           by rewrite (block_index_split leaders pc i).
        -- replace (pc + Z.of_nat (S j)) with (pc + 1 + Z.of_nat j) by lia.
           by apply Hm'.
Qed.

Lemma int_lt_above_0 x : is_unsigned x -> int_lt 0 x -> 0 < x < 2 ^ 31.
Proof.
  unfold is_unsigned, int_lt, to_signed. cbv zeta.
  change (2 ^ 32) with 4294967296. change (2 ^ (32 - 1)) with 2147483648.
  change (2 ^ 31) with 2147483648. change (0 mod 4294967296) with 0.
  intros Hx. rewrite (Z.mod_small x) by lia. rewrite bool_decide_true by lia.
  case_bool_decide; lia.
Qed.

Lemma int_lt_small x y : 0 <= x < 2 ^ 31 -> 0 <= y < 2 ^ 31 -> int_lt x y -> x < y.
Proof.
  unfold int_lt, to_signed. cbv zeta.
  change (2 ^ 32) with 4294967296. change (2 ^ (32 - 1)) with 2147483648.
  change (2 ^ 31) with 2147483648.
  intros Hx Hy. rewrite !Z.mod_small by lia. rewrite !bool_decide_true by lia. done.
Qed.

Lemma sorted_small l :
  Forall (fun x => 0 <= x < 2 ^ 31) l -> StronglySorted int_lt l -> StronglySorted Z.lt l.
Proof.
  intros Hl Hs. induction Hs as [|x l Hs IH Hx]; [constructor|].
  apply Forall_cons in Hl as [Hx0 Hl]. constructor; [by apply IH|].
  rewrite Forall_forall in *. intros y Hy. apply int_lt_small; auto.
Qed.

(** When the first leader is 0, the leaders are in increasing order. *)
Lemma leaders_from_0 leaders :
  StronglySorted int_lt leaders -> Forall is_unsigned leaders ->
  leaders !! 0%nat = Some 0 -> StronglySorted Z.lt leaders.
Proof.
  intros Hs Hr H0. destruct leaders as [|x l]; [done|]. injection H0 as ->.
  apply sorted_small; [|done].
  apply StronglySorted_inv in Hs as [_ Hx]. apply Forall_cons in Hr as [_ Hr].
  constructor; [lia|].
  rewrite Forall_forall in *. intros y Hy.
  pose proof (int_lt_above_0 y (Hr y Hy) (Hx y Hy)). lia.
Qed.

Section sweep.

Context (H : headers).

(** X29.  [compute_blocks] makes no block before it meets the first
    leader: when the first of the leaders, in the order of [ucmp], is
    not 0, which is so as soon as the scan has recorded a target of
    2^31 or more, the block of the first byte is read before it is
    set.  When the first leader is 0, the map has one element for each
    byte of the code: the block of a byte is the one named after the
    number of the leaders up to that byte, it is not terminated, and no
    height of the stack is recorded for it. *)
Theorem X29_compute_blocks len data s f leaders :
  func s = Some f ->
  0 < len <= 2 ^ 32 ->
  compute_blocks_leaders H len data = Ok leaders ->
  (forall k, (k <= length leaders)%nat -> fits ("bb_" +:+ pretty k)) ->
  (leaders !! 0%nat <> Some 0 ->
   compute_blocks H len data s = Undefined "compute_blocks: curr_bb") /\
  (leaders !! 0%nat = Some 0 ->
   exists m s',
     compute_blocks H len data s = Ok (m, s') /\
     length m = Z.to_nat len /\ func s' = Some f /\
     forall (pc : nat) b, m !! pc = Some b ->
       fresh_block f (block_index leaders (Z.of_nat pc)) b).
Proof.
  intros Hf Hlen Hl Hfit. unfold compute_blocks. cbv [bind lift]. rewrite Hl.
  split.
  - intros H0. destruct (Z.to_nat len) as [|turns] eqn:Et; [lia|].
    cbn [compute_blocks_sweep]. change (to_unsigned 32 0) with 0.
    rewrite bool_decide_false by done. reflexivity.
  - intros H0.
    destruct (compute_blocks_leaders_uniq H _ _ _ Hl) as (scanned & _ & Hrange & Hu).
    assert (StronglySorted Z.lt leaders) as Hs.
    { apply leaders_from_0; [| |done]; subst leaders.
      - apply uniq_sorted; [apply qsort_sorted|]. by rewrite qsort_perm.
      - apply Forall_forall. intros x Hx. apply (proj1 (elem_of_uniq _ _)) in Hx.
        rewrite qsort_perm in Hx. rewrite Forall_forall in Hrange. by apply Hrange. }
    assert (Forall (fun x => 0 <= x) (drop 0 leaders)) as Hd.
    { rewrite drop_0. destruct leaders as [|x l]; [done|]. injection H0 as ->.
      apply StronglySorted_inv in Hs as [_ Hx]. constructor; [lia|].
      eapply Forall_impl; [exact Hx|]. intros y Hy. cbn in Hy. lia. }
    destruct (compute_blocks_sweep_spec f leaders (Z.to_nat len) 0 0 None [] s
                Hf Hs ltac:(lia) ltac:(lia) Hfit ltac:(lia) ltac:(constructor) Hd H0)
      as (m & s' & Hrun & Hm & Hf' & Hb).
    exists m, s'. split; [done|]. split; [done|]. split; [done|].
    intros pc b Hpc. specialize (Hb pc b Hpc). by rewrite Z.add_0_l in Hb.
Qed.

End sweep.

(** [BRgoto] with the operand 127, [return]: the target recorded is
    127 - 128. *)
Definition backward_code : list Z := [170; 127; 135].

Lemma X29_compute_blocks_witness :
  let s := sample_state constant_sample in
  (exists f, func s = Some f /\
     compute_blocks emacs_x86_64 3 (SDATA backward_code) s
     = Undefined "compute_blocks: curr_bb") /\
  (exists f m s',
     func s = Some f /\
     compute_blocks emacs_x86_64 2 (SDATA constant_code) s = Ok (m, s') /\
     length m = Z.to_nat 2 /\ func s' = Some f /\
     forall (pc : nat) b, m !! pc = Some b ->
       fresh_block f (block_index [0] (Z.of_nat pc)) b).
Proof.
  cbv zeta. split.
  - exists (default no_function (func (sample_state constant_sample))).
    split; [reflexivity|].
    refine (proj1 (X29_compute_blocks emacs_x86_64 3 (SDATA backward_code)
                     (sample_state constant_sample)
                     (default no_function (func (sample_state constant_sample)))
                     [4294967295; 0; 2] eq_refl _ eq_refl _) _).
    + lia.
    + intros k Hk. do 4 (destruct k as [|k]; [vm_compute; reflexivity|]). cbn in Hk. lia.
    + discriminate.
  - exists (default no_function (func (sample_state constant_sample))).
    destruct (proj2 (X29_compute_blocks emacs_x86_64 2 (SDATA constant_code)
                       (sample_state constant_sample)
                       (default no_function (func (sample_state constant_sample)))
                       [0] eq_refl ltac:(lia) eq_refl
                       ltac:(intros k Hk;
                             do 2 (destruct k as [|k]; [vm_compute; reflexivity|]);
                             cbn in Hk; lia))
                eq_refl) as (m & s' & Hrun).
    exists m, s'. split; [reflexivity|]. exact Hrun.
Defined.

(** * Leaving a handler *)

Section handlers.

Context (H : headers).
Context (lisp_f_name : string) (bytestr_length : Z) (bytestr_data : list Z).
Context (vectorp : list Lisp_Object) (vector_size : Z).
Context (address_of : c_ptr -> Z) (host : list call_event -> string -> list Z -> Z).

(** Where [current_thread->m_handlerlist] is. *)
Definition handlerlist_address : Z :=
  to_unsigned 64 (address_of (ptr_var "current_thread")) + offsetof_m_handlerlist H.

(** X30.  [Bpophandler] emits one assignment and leaves the stack as
    it is.  The code emitted makes no call: it reads the handler that
    [current_thread->m_handlerlist] points to and stores the [next] of
    that handler in [current_thread->m_handlerlist]; no other word of
    the memory changes. *)
Theorem X30_pophandler nil op fr s b0 cur :
  decode H op = Some Bpophandler ->
  block s = Some (in_bb_map cur) -> array_get "bb_map" (bb_map s) cur = Ok b0 ->
  exists s' L,
    compile_op H lisp_f_name bytestr_length bytestr_data vectorp vector_size nil op fr s
    = Ok (fr, s') /\
    ctxt s' = ctxt s ++ L /\ length (statements L) = 1%nat /\
    bb_map s' = bb_map s /\ block s' = block s /\ stack_base s' = stack_base s /\
    func_hash s' = func_hash s /\
    forall m,
      let handler := to_unsigned 64 (m_memory m handlerlist_address) in
      exists m',
        exec_code H address_of host L m = Some (Falls_off, m') /\
        m_memory m' handlerlist_address
        = to_unsigned 64 (m_memory m (handler + offsetof_handler_next H)) /\
        (forall a, a <> handlerlist_address -> m_memory m' a = m_memory m a) /\
        m_locals m' = m_locals m /\ m_trace m' = m_trace m.
Proof.
  intros Hdec Hb Hb0.
  apply array_get_inv in Hb0 as Hb0'. destruct Hb0' as [Hcur Hl0].
  unfold compile_op. rewrite Hdec. clear Hdec.
  destruct s as [ctxt0 objs f0 blk h pv btl car0 cdr0 scar scdr ctype cimp ci cj bbm allo
                   stk].
  destruct fr as [pc0 st0 args0 phn0]. destruct b0 as [bb0 top0 term0].
  cbn in Hb, Hb0, Hcur, Hl0. subst blk.
  unfold pophandler. munfold. mrewrite.
  eexists _, _. split; [reflexivity|]. cbn [ctxt bb_map block stack_base func_hash].
  split; [rewrite <- ?app_assoc; reflexivity|].
  split; [reflexivity|]. split; [reflexivity|]. split; [reflexivity|].
  split; [reflexivity|]. split; [reflexivity|].
  intros m. cbv zeta. cbn [app]. rewrite exec_comment.
  erewrite exec_assignment; [|reflexivity|reflexivity].
  eexists. split; [reflexivity|].
  unfold handlerlist_address.
  change (field_offset H m_handlerlist) with (offsetof_m_handlerlist H).
  change (field_offset H handler_next_field) with (offsetof_handler_next H).
  cbn [write_place m_memory m_locals m_trace read_place lvalue_get_type
       m_handlerlist handler_next_field mk_field field_type].
  change (convert thread_state_ptr_type ?x) with (to_unsigned 64 x).
  change (convert handler_ptr_type ?x) with (to_unsigned 64 x).
  split.
  - rewrite bool_decide_true by done.
    unfold store_cell. change (Z.min (type_bits handler_ptr_type) 64) with 64.
    rewrite Z.sub_diag, Z.add_0_l. unfold to_unsigned.
    by rewrite Z.mod_mod.
  - split; [|split; reflexivity].
    intros a Ha. by rewrite bool_decide_false.
Qed.

End handlers.

Definition pophandler_code : list Z := [48; 135].

Definition pophandler_sample : result (gcc_jit_rvalue * Z * frame * comp_t) :=
  Eval vm_compute in at_operation pophandler_code [] 1 0 comp_initial.

Lemma X30_pophandler_witness :
  let r := pophandler_sample in
  let s := sample_state r in
  let fr := sample_frame r in
  exists s' L,
    compile_op emacs_x86_64 "f" 2 (SDATA pophandler_code) [] 0 (sample_nil r)
      (sample_op r) fr s
    = Ok (fr, s') /\
    ctxt s' = ctxt s ++ L /\ length (statements L) = 1%nat /\
    bb_map s' = bb_map s /\ block s' = block s /\ stack_base s' = stack_base s /\
    func_hash s' = func_hash s /\
    forall m,
      let handler :=
        to_unsigned 64 (m_memory m (handlerlist_address emacs_x86_64 null_address_of)) in
      exists m',
        exec_code emacs_x86_64 null_address_of null_host L m = Some (Falls_off, m') /\
        m_memory m' (handlerlist_address emacs_x86_64 null_address_of)
        = to_unsigned 64 (m_memory m (handler + offsetof_handler_next emacs_x86_64)) /\
        (forall a, a <> handlerlist_address emacs_x86_64 null_address_of ->
                   m_memory m' a = m_memory m a) /\
        m_locals m' = m_locals m /\ m_trace m' = m_trace m.
Proof.
  cbv zeta.
  apply (X30_pophandler emacs_x86_64 "f" 2 (SDATA pophandler_code) [] 0
           null_address_of null_host (sample_nil pophandler_sample)
           (sample_op pophandler_sample) (sample_frame pophandler_sample)
           (sample_state pophandler_sample)
           (sample_block (sample_state pophandler_sample)) 0).
  - reflexivity.
  - reflexivity.
  - reflexivity.
Defined.
